(** * flash-freeze: deep freezing, deep-frozen validation and frozen copies

    A shallow embedding of [src/freeze.ts], [src/validation.ts],
    [src/copy.ts] and of [isFreezable] from [src/types.ts].

    The JavaScript object graph is an explicit store: a list of objects
    addressed by index.  Every traversal threads the store (and its
    WeakSet / WeakMap of visited references) explicitly. *)

From stdpp Require Import base option list gmap strings pretty.

Open Scope string_scope.
Open Scope list_scope.
Open Scope nat_scope.
Open Scope stdpp_scope.

(** ** Values and objects *)

Abbreviation loc := nat.

Record symbol := Sym { sym_id : nat; sym_description : string }.

(** Numbers are restricted to integers: the traversals never compute with
    them, they only pass them along or print them ([String(key)]). *)
Inductive value : Type :=
| VUndefined
| VNull
| VBoolean (b : bool)
| VNumber (n : Z)
| VString (s : string)
| VBigInt (n : Z)
| VSymbol (s : symbol)
| VRef (l : loc).

Inductive pkey : Type :=
| PStr (name : string)
| PSym (s : symbol).

(** A property slot is a data property or an accessor.  Getters are taken
    to be pure: reading one either yields a value or throws. *)
Inductive slot : Type :=
| Data (v : value)
| Accessor (get : option value).

Record property := Prop_ { p_key : pkey; p_enumerable : bool; p_slot : slot }.

(** The shape of an object, as the code tells shapes apart
    ([Array.isArray], [instanceof Map / Set / Date / RegExp],
    [typeof x === "function"], [Object.getPrototypeOf]).  The built-in
    shapes carry their standard prototype; [KPlain b] is an ordinary
    object whose prototype is [Object.prototype] ([b = false]) or [null]
    ([b = true]); [KCustom p] is an ordinary object whose prototype is the
    object at [p]. *)
Inductive kind : Type :=
| KArray (elems : list value)
| KMap (entries : list (value * value))
| KSet (members : list value)
| KDate (time : Z)
| KRegExp (source flags : string)
| KFunction
| KPlain (null_proto : bool)
| KCustom (proto : loc).

(** [o_props] are the own properties that are not array indices, in the
    order the engine enumerates own keys; [o_frozen] is what
    [Object.isFrozen] answers. *)
Record object := Obj { o_kind : kind; o_props : list property; o_frozen : bool }.

Abbreviation heap := (list object).

(** A reference outside the store reads as an empty frozen record. *)
Definition dangling : object := Obj (KPlain false) [] true.

Definition deref (h : heap) (l : loc) : object := default dangling (h !! l).

Global Instance symbol_eq_dec : EqDecision symbol.
Proof. solve_decision. Defined.
Global Instance value_eq_dec : EqDecision value.
Proof. solve_decision. Defined.
Global Instance pkey_eq_dec : EqDecision pkey.
Proof. solve_decision. Defined.
Global Instance kind_eq_dec : EqDecision kind.
Proof. solve_decision. Defined.

(** ** Outcomes *)

Inductive exn : Type :=
| FrozenAssertionError (message : string) (value : value) (path : option string)
| TypeError
| Thrown.

(** [TypeError] is the platform's mutation-rejected error, [Thrown] an
    exception raised by user code (a getter).
    [Ret] is a normal return, [Raise] an exception that leaves the call,
    [OutOfFuel] marks a loop or a recursion cut off by its bound. *)
Inductive res (A : Type) : Type :=
| Ret (a : A)
| Raise (e : exn)
| OutOfFuel.
Arguments Ret {A} a.
Arguments Raise {A} e.
Arguments OutOfFuel {A}.

Definition bind {A B : Type} (m : res A) (k : A -> res B) : res B :=
  match m with
  | Ret a => k a
  | Raise e => Raise e
  | OutOfFuel => OutOfFuel
  end.

Notation "'let!' x := m 'in' k" := (bind m (fun x => k))
  (at level 10, x name, m at level 100, k at level 200).

(** ** Platform primitives *)

Inductive jstype := TUndefined | TObject | TBoolean | TNumber | TString | TBigInt | TSymbol | TFunction.

Global Instance jstype_eq_dec : EqDecision jstype.
Proof. solve_decision. Defined.

Definition is_function (h : heap) (l : loc) : bool :=
  match o_kind (deref h l) with KFunction => true | _ => false end.

Definition typeof (h : heap) (v : value) : jstype :=
  match v with
  | VUndefined => TUndefined
  | VNull => TObject
  | VBoolean _ => TBoolean
  | VNumber _ => TNumber
  | VString _ => TString
  | VBigInt _ => TBigInt
  | VSymbol _ => TSymbol
  | VRef l => if is_function h l then TFunction else TObject
  end.

(** [Object.isFrozen(v)]: true on every primitive. *)
Definition Object_isFrozen (h : heap) (v : value) : bool :=
  match v with
  | VRef l => o_frozen (deref h l)
  | _ => true
  end.

Definition freeze_object (o : object) : object :=
  Obj (o_kind o) (o_props o) true.

(** [Object.freeze(l)] *)
Definition Object_freeze (h : heap) (l : loc) : heap :=
  <[l := freeze_object (deref h l)]> h.

Definition is_string_key (p : property) : bool :=
  match p_key p with PStr _ => true | PSym _ => false end.

Definition is_symbol_key (p : property) : bool :=
  match p_key p with PStr _ => false | PSym _ => true end.

(** [Object.keys]: own enumerable string-keyed properties. *)
Definition Object_keys (o : object) : list property :=
  filter (fun p => is_string_key p && p_enumerable p = true) (o_props o).

(** [Object.getOwnPropertyNames]: own string-keyed properties, enumerable or not. *)
Definition Object_getOwnPropertyNames (o : object) : list property :=
  filter (fun p => is_string_key p = true) (o_props o).

(** [Object.getOwnPropertySymbols]: own symbol-keyed properties, enumerable or not. *)
Definition Object_getOwnPropertySymbols (o : object) : list property :=
  filter (fun p => is_symbol_key p = true) (o_props o).

(** [obj[key]] on an own property. *)
Definition read_slot (s : slot) : res value :=
  match s with
  | Data v => Ret v
  | Accessor (Some v) => Ret v
  | Accessor None => Raise Thrown
  end.

Definition own_property (o : object) (k : pkey) : option property :=
  List.find (fun p => bool_decide (p_key p = k)) (o_props o).

(** Property lookup along the prototype chain.  The built-in prototypes
    ([Object.prototype], [Array.prototype], ...) hold none of the keys the
    engine asks for, so only a custom prototype continues the search.  A
    chain has no cycle, hence never more links than the store has objects. *)
Fixpoint lookup_property (fuel : nat) (h : heap) (l : loc) (k : pkey) : option property :=
  match fuel with
  | 0 => None
  | S fuel =>
      match own_property (deref h l) k with
      | Some p => Some p
      | None =>
          match o_kind (deref h l) with
          | KCustom p => lookup_property fuel h p k
          | _ => None
          end
      end
  end.

(** [k in obj] *)
Definition has_property (h : heap) (l : loc) (k : pkey) : bool :=
  bool_decide (is_Some (lookup_property (S (length h)) h l k)).

(** [obj[k]], through the prototype chain *)
Definition get_property (h : heap) (l : loc) (k : pkey) : res value :=
  match lookup_property (S (length h)) h l k with
  | Some p => read_slot (p_slot p)
  | None => Ret VUndefined
  end.

(** ** types.ts: [isFreezable] *)

Definition isFreezable (h : heap) (v : value) : res bool :=
  match v with
  | VNull => Ret false
  | _ =>
      if bool_decide (typeof h v = TObject) then
        match v with
        | VRef l =>
            if has_property h l (PStr "freeze") then
              let! f := get_property h l (PStr "freeze") in
              Ret (bool_decide (typeof h f = TFunction))
            else Ret false
        | _ => Ret false
        end
      else Ret false
  end.

(** ** freeze.ts *)

(** The guard at every push site:
    [x !== null && x !== undefined && typeof x === "object"] *)
Definition push_if_object (h : heap) (stack : list loc) (x : value) : list loc :=
  match x with
  | VRef l => if bool_decide (typeof h x = TObject) then l :: stack else stack
  | _ => stack
  end.

(** A loop over properties whose reads are not guarded: a throwing getter
    leaves [freeze]. *)
Fixpoint push_props (h : heap) (ps : list property) (stack : list loc) : res (list loc) :=
  match ps with
  | [] => Ret stack
  | p :: ps =>
      let! x := read_slot (p_slot p) in
      push_props h ps (push_if_object h stack x)
  end.

(** The same loop with each read inside [try { } catch { }]: a property
    that throws is skipped. *)
Fixpoint push_props_try (h : heap) (ps : list property) (stack : list loc) : list loc :=
  match ps with
  | [] => stack
  | p :: ps =>
      match read_slot (p_slot p) with
      | Ret x => push_props_try h ps (push_if_object h stack x)
      | _ => push_props_try h ps stack
      end
  end.

Definition push_entry (h : heap) (stack : list loc) (e : value * value) : list loc :=
  push_if_object h (push_if_object h stack (fst e)) (snd e).

(** One node: schedule its children.  The head of the list is the top of
    the stack. *)
Definition schedule_children (h : heap) (o : object) (stack : list loc) : res (list loc) :=
  match o_kind o with
  | KArray elems => Ret (fold_left (push_if_object h) elems stack)
  | KPlain _ =>
      let! stack := push_props h (Object_keys o) stack in
      push_props h (Object_getOwnPropertySymbols o) stack
  | KMap entries => Ret (fold_left (push_entry h) entries stack)
  | KSet members => Ret (fold_left (push_if_object h) members stack)
  | KDate _ | KRegExp _ _ => Ret stack
  | KFunction | KCustom _ =>
      Ret (push_props_try h (Object_getOwnPropertySymbols o)
             (push_props_try h (Object_getOwnPropertyNames o) stack))
  end.

(** The [while (stack.length > 0)] loop; [fuel] bounds its iterations. *)
Fixpoint freeze_loop (fuel : nat) (stack : list loc) (visited : gset loc) (h : heap) : res heap :=
  match stack with
  | [] => Ret h
  | currentObj :: stack =>
      match fuel with
      | 0 => OutOfFuel
      | S fuel =>
          if bool_decide (currentObj ∈ visited) || Object_isFrozen h (VRef currentObj)
          then freeze_loop fuel stack visited h
          else
            let visited := {[currentObj]} ∪ visited in
            let! stack := schedule_children h (deref h currentObj) stack in
            freeze_loop fuel stack visited (Object_freeze h currentObj)
      end
  end.

(** An upper bound on the pushes one node can cause. *)
Definition slots (o : object) : nat :=
  match o_kind o with
  | KArray elems => length elems
  | KMap entries => 2 * length entries
  | KSet members => length members
  | _ => length (o_props o)
  end.

(** Every iteration pops one reference, and a node is expanded at most
    once, so this many iterations always suffice. *)
Definition freeze_fuel (h : heap) : nat :=
  S (sum_list (map (fun o => S (slots o)) h)).

Section Freeze.

(** [call f this h]: the effect of invoking the function object [f] with
    receiver [this]; user code, outside the library. *)
Variable call : loc -> loc -> heap -> res (value * heap).

(** [obj === null || obj === undefined] and
    [type !== "object" && type !== "function"] let exactly the references
    through (see [typeof_ref]). *)
Definition freeze (obj : value) (h : heap) : res (value * heap) :=
  match obj with
  | VRef l =>
      if Object_isFrozen h obj then Ret (obj, h)
      else
        let! freezable := isFreezable h obj in
        if freezable then
          let! f := get_property h l (PStr "freeze") in
          match f with
          | VRef fl => call fl l h
          | _ => Raise TypeError
          end
        else
          let! h' := freeze_loop (freeze_fuel h) [l] ∅ h in
          Ret (obj, h')
  | _ => Ret (obj, h)
  end.

Definition ensureFrozen (obj : value) (h : heap) : res (value * heap) :=
  match obj with
  | VRef l =>
      if bool_decide (typeof h obj = TObject) && Object_isFrozen h obj
      then Ret (obj, h)
      else freeze obj h
  | _ => freeze obj h
  end.

End Freeze.

(** ** validation.ts *)

Definition isShallowFrozen (h : heap) (value : value) : bool :=
  match value with
  | VRef _ => Object_isFrozen h value
  | _ => true
  end.

(** The values a [try { obj[name] } catch { }] loop gets to see. *)
Definition readable (ps : list property) : list (property * value) :=
  omap (fun p => match read_slot (p_slot p) with Ret x => Some (p, x) | _ => None end) ps.

(** Mapping entries in iteration order: key, then value. *)
Definition key_then_value (entries : list (value * value)) : list value :=
  flat_map (fun e => [fst e; snd e]) entries.

(** The children [isFrozenImpl] descends into, in order. *)
Definition checked_children (o : object) : list value :=
  match o_kind o with
  | KArray elems => elems
  | KMap entries => key_then_value entries
  | KSet members => members
  | _ => map snd (readable (Object_getOwnPropertyNames o))
  end.

Abbreviation checker := (value -> gset loc -> option bool * gset loc).

(** [for (...) { if (!isFrozenImpl(child, visited)) return false; } return true;]
    over the elements of an array, the entries of a map or the members of
    a set.  A call for which the stack has no room raises [RangeError],
    written [None]; these three loops let it pass to their caller. *)
Fixpoint every (check : checker) (children : list value) (visited : gset loc)
  : option bool * gset loc :=
  match children with
  | [] => (Some true, visited)
  | child :: children =>
      match check child visited with
      | (Some true, visited) => every check children visited
      | other => other
      end
  end.

(** The loop over the property names makes the call inside
    [try { } catch { }]: a call that raises is skipped, like a getter that
    throws, and the loop goes on with the next name. *)
Fixpoint every_try (check : checker) (children : list value) (visited : gset loc)
  : option bool * gset loc :=
  match children with
  | [] => (Some true, visited)
  | child :: children =>
      match check child visited with
      | (Some false, visited) => (Some false, visited)
      | (_, visited) => every_try check children visited
      end
  end.

(** [depth] is the number of nested calls the stack has room for: every
    recursive call uses one level, and the call that finds none left
    raises [RangeError] ([None]) without having done anything.  The shared
    WeakSet is returned with the outcome. *)
Fixpoint isFrozenImpl (depth : nat) (h : heap) (value : value) (visited : gset loc)
  : option bool * gset loc :=
  match depth with
  | 0 => (None, visited)
  | S depth =>
      match value with
      | VRef obj =>
          if bool_decide (obj ∈ visited) then (Some true, visited)
          else if negb (Object_isFrozen h value) then (Some false, visited)
          else
            let o := deref h obj in
            let visited := {[obj]} ∪ visited in
            match o_kind o with
            | KArray _ | KMap _ | KSet _ =>
                every (isFrozenImpl depth h) (checked_children o) visited
            | _ => every_try (isFrozenImpl depth h) (checked_children o) visited
            end
      | _ => (Some true, visited)
      end
  end.

(** Enough levels for any store (see [isFrozenImpl_total]). *)
Definition enough_depth (h : heap) : nat := S (S (length h)).

(** The exported predicate, called where the stack has room for the whole
    walk: no call raises then, and the second branch is never taken. *)
Definition isFrozen (h : heap) (value : value) : bool :=
  match isFrozenImpl (enough_depth h) h value ∅ with
  | (Some b, _) => b
  | (None, _) => false
  end.

Definition isDeeplyFrozen := isFrozen.

Definition assertFrozen (h : heap) (value : value) (name : option string) : res unit :=
  let name := default "value" name in
  if negb (isFrozen h value) then
    Raise (FrozenAssertionError
             ("Expected " +:+ name +:+ " to be deeply frozen, but it is not. " +:+
              "Use freeze() or frozenCopy() to create immutable data.")
             value None)
  else Ret ().

Definition assertShallowFrozen (h : heap) (value : value) (name : option string) : res unit :=
  let name := default "value" name in
  if negb (isShallowFrozen h value) then
    Raise (FrozenAssertionError
             ("Expected " +:+ name +:+ " to be frozen at the top level, but it is not.")
             value None)
  else Ret ().

Definition assertMutable (h : heap) (value : value) (name : option string) : res unit :=
  let name := default "value" name in
  match value with
  | VNull => Ret ()
  | _ =>
      if bool_decide (typeof h value = TObject) && Object_isFrozen h value then
        Raise (FrozenAssertionError
                 ("Expected " +:+ name +:+ " to be mutable, but it is frozen. " +:+
                  "Create a mutable copy if you need to modify it.")
                 value None)
      else Ret ()
  end.

(** [path ? `${path}${suffix}` : bare] *)
Definition extend (path suffix bare : string) : string :=
  match path with
  | "" => bare
  | _ => path +:+ suffix
  end.

Abbreviation finder := (value -> string -> gset loc -> res (option string) * gset loc).

(** [for (...) { const r = findUnfrozenPathImpl(...); if (r !== null) return r; } return null;]
    over the elements of an array or the members of a set.  As in
    [isFrozenImpl], [OutOfFuel] is the [RangeError] of a call the stack
    has no room for; it and any other exception pass to the caller. *)
Fixpoint first_found (find : finder) (children : list (value * string)) (visited : gset loc)
  : res (option string) * gset loc :=
  match children with
  | [] => (Ret None, visited)
  | child :: children =>
      match find (fst child) (snd child) visited with
      | (Ret None, visited) => first_found find children visited
      | other => other
      end
  end.

(** The loop over the property names: read and call are inside
    [try { } catch { }], whatever they raise is skipped. *)
Fixpoint first_found_try (find : finder) (children : list (value * string)) (visited : gset loc)
  : res (option string) * gset loc :=
  match children with
  | [] => (Ret None, visited)
  | child :: children =>
      match find (fst child) (snd child) visited with
      | (Ret (Some path), visited) => (Ret (Some path), visited)
      | (_, visited) => first_found_try find children visited
      end
  end.

Section Paths.

(** [String(key)] on a key that is an object runs the object's own
    conversion, which is user code: it yields a text or throws.  From
    [1e21] on, a number is printed in exponent notation, which is left to
    the platform. *)
Variable String_object : heap -> loc -> res string.
Variable exponent_notation : Z -> string.

Definition String_ (h : heap) (v : value) : res string :=
  match v with
  | VUndefined => Ret "undefined"
  | VNull => Ret "null"
  | VBoolean b => Ret (if b then "true" else "false")
  | VNumber n =>
      Ret (if bool_decide (Z.abs n < 10 ^ 21)%Z then pretty n else exponent_notation n)
  | VString s => Ret s
  | VBigInt n => Ret (pretty n)
  | VSymbol s => Ret ("Symbol(" +:+ sym_description s +:+ ")")
  | VRef l => String_object h l
  end.

(** The loop over the entries of a map: the key is searched first; the
    path of the value is built with [String(key)] before the value is
    searched. *)
Fixpoint first_found_entry (find : finder) (h : heap) (path : string)
    (entries : list (value * value)) (index : nat) (visited : gset loc)
  : res (option string) * gset loc :=
  match entries with
  | [] => (Ret None, visited)
  | e :: entries =>
      match find (fst e)
              (extend path (".keys()[" +:+ pretty index +:+ "]") ("keys()[" +:+ pretty index +:+ "]"))
              visited with
      | (Ret None, visited) =>
          match String_ h (fst e) with
          | Ret key =>
              match find (snd e)
                      (extend path (".get(" +:+ key +:+ ")") ("get(" +:+ key +:+ ")"))
                      visited with
              | (Ret None, visited) => first_found_entry find h path entries (S index) visited
              | other => other
              end
          | Raise e => (Raise e, visited)
          | OutOfFuel => (OutOfFuel, visited)
          end
      | other => other
      end
  end.

(** The elements of an array, each with its path. *)
Definition located_elements (path : string) (elems : list value) : list (value * string) :=
  imap (fun i x => (x, extend path ("[" +:+ pretty i +:+ "]") ("[" +:+ pretty i +:+ "]"))) elems.

(** The members of a set, each with its path. *)
Definition located_members (path : string) (members : list value) : list (value * string) :=
  imap (fun index x =>
          (x, extend path (".values()[" +:+ pretty index +:+ "]")
                ("values()[" +:+ pretty index +:+ "]")))
       members.

(** The readable values under the property names, each with its path. *)
Definition located_properties (o : object) (path : string) : list (value * string) :=
  omap (fun px =>
          match p_key (fst px) with
          | PStr propName => Some (snd px, extend path ("." +:+ propName) propName)
          | PSym _ => None
          end)
       (readable (Object_getOwnPropertyNames o)).

Fixpoint findUnfrozenPathImpl (depth : nat) (h : heap) (value : value) (path : string)
    (visited : gset loc) : res (option string) * gset loc :=
  match depth with
  | 0 => (OutOfFuel, visited)
  | S depth =>
      match value with
      | VRef obj =>
          if bool_decide (obj ∈ visited) then (Ret None, visited)
          else if negb (Object_isFrozen h value)
          then (Ret (Some (match path with "" => "(root)" | _ => path end)), visited)
          else
            let o := deref h obj in
            let visited := {[obj]} ∪ visited in
            match o_kind o with
            | KArray elems =>
                first_found (findUnfrozenPathImpl depth h) (located_elements path elems) visited
            | KMap entries =>
                first_found_entry (findUnfrozenPathImpl depth h) h path entries 0 visited
            | KSet members =>
                first_found (findUnfrozenPathImpl depth h) (located_members path members) visited
            | _ =>
                first_found_try (findUnfrozenPathImpl depth h) (located_properties o path) visited
            end
      | _ => (Ret None, visited)
      end
  end.

(** The exported function, called where the stack has room for the whole
    walk. *)
Definition findUnfrozenPath (h : heap) (value : value) : res (option string) :=
  (findUnfrozenPathImpl (enough_depth h) h value "" ∅).1.

End Paths.

(** ** Mutation of the store

    What the platform does on a write.  Library code is module code, hence
    strict: a write that a frozen object rejects raises [TypeError]. *)

Definition alloc (o : object) (h : heap) : loc * heap := (length h, h ++ [o]).

Definition with_kind (o : object) (k : kind) : object := Obj k (o_props o) (o_frozen o).
Definition with_props (o : object) (ps : list property) : object := Obj (o_kind o) ps (o_frozen o).

(** [elems[i] = x]: in range it overwrites, past the end it extends,
    leaving holes that read as [undefined]. *)
Definition store_element (elems : list value) (i : nat) (x : value) : list value :=
  if decide (i < length elems) then <[i := x]> elems
  else elems ++ replicate (i - length elems) VUndefined ++ [x].

(** [arr[i] = x] *)
Definition set_element (h : heap) (l : loc) (i : nat) (x : value) : res heap :=
  let o := deref h l in
  if o_frozen o then Raise TypeError
  else
    match o_kind o with
    | KArray elems => Ret (<[l := with_kind o (KArray (store_element elems i x))]> h)
    | _ => Ret h
    end.

(** *** The order of own keys

    The engine lists the own keys of an object as the language defines it:
    the array indices in ascending order, then the other strings in the
    order in which they were added, then the symbols in the order in which
    they were added.  [o_props] is kept in that order. *)

Definition digit (c : Ascii.ascii) : option N :=
  let n := Ascii.N_of_ascii c in
  if ((48 <=? n) && (n <=? 57))%N then Some (n - 48)%N else None.

Fixpoint digits (name : string) (acc : N) : option N :=
  match name with
  | "" => Some acc
  | String c name =>
      match digit c with
      | Some d => digits name (10 * acc + d)%N
      | None => None
      end
  end.

(** An array index: the decimal text, without leading zero, of an integer
    below [2^32 - 1]. *)
Definition array_index (name : string) : option N :=
  match name with
  | "" => None
  | String c rest =>
      if bool_decide (digit c = Some 0%N) && negb (bool_decide (rest = "")) then None
      else
        match digits name 0 with
        | Some n => if (n <? 4294967295)%N then Some n else None
        | None => None
        end
  end.

(** [precedes k k']: a new key [k] is listed before the key [k'] that is
    already there. *)
Definition precedes (k k' : pkey) : bool :=
  match k, k' with
  | PStr a, PStr b =>
      match array_index a, array_index b with
      | Some i, Some j => (i <? j)%N
      | Some _, None => true
      | None, _ => false
      end
  | PStr _, PSym _ => true
  | PSym _, _ => false
  end.

(** A new property goes in front of the first key it precedes. *)
Fixpoint place (ps : list property) (q : property) : list property :=
  match ps with
  | [] => [q]
  | p :: ps => if precedes (p_key q) (p_key p) then q :: p :: ps else p :: place ps q
  end.

Definition has_key (ps : list property) (k : pkey) : bool :=
  bool_decide (k ∈ map p_key ps).

(** The own properties after the value [x] is written under [k]: the
    property that is there keeps its place and its enumerability, a new one
    is enumerable. *)
Definition assign (ps : list property) (k : pkey) (x : value) : list property :=
  if has_key ps k then
    map (fun p => if bool_decide (p_key p = k) then Prop_ k (p_enumerable p) (Data x) else p) ps
  else place ps (Prop_ k true (Data x)).

(** The write of a data property, which is what [obj[k] = x] comes down
    to once [k] is found to name no accessor: overwrite, or add an
    enumerable data property.  Properties are writable and configurable
    until their object is frozen. *)
Definition set_property (h : heap) (l : loc) (k : pkey) (x : value) : res heap :=
  let o := deref h l in
  if o_frozen o then Raise TypeError
  else Ret (<[l := with_props o (assign (o_props o) k x)]> h).

(** The own properties after [p] is defined: in the place of the property
    of that key, or as a new one. *)
Definition define (ps : list property) (p : property) : list property :=
  if has_key ps (p_key p) then
    map (fun q => if bool_decide (p_key q = p_key p) then p else q) ps
  else place ps p.

(** [Object.defineProperty(obj, key, descriptor)], for a descriptor that
    is writable and configurable. *)
Definition defineProperty (h : heap) (l : loc) (p : property) : res heap :=
  let o := deref h l in
  if o_frozen o then Raise TypeError
  else Ret (<[l := with_props o (define (o_props o) p)]> h).

(** *** Assignment

    [obj[k] = x] looks [k] up along the prototype chain first.  An
    ordinary object whose chain ends in [Object.prototype] inherits from it
    the accessor [__proto__], whose setter replaces the prototype of the
    object and creates no property; the other members of the built-in
    prototypes are writable data properties, over which an assignment
    adds an own property as if they were not there. *)
Inductive target : Type :=
| Found (holder : loc) (p : property)
| Proto_setter
| Absent.

Fixpoint resolve (fuel : nat) (h : heap) (l : loc) (k : pkey) : target :=
  match fuel with
  | 0 => Absent
  | S fuel =>
      match own_property (deref h l) k with
      | Some p => Found l p
      | None =>
          match o_kind (deref h l) with
          | KCustom proto => resolve fuel h proto k
          | KPlain true => Absent
          | _ => if bool_decide (k = PStr "__proto__") then Proto_setter else Absent
          end
      end
  end.

(** The prototype chain that starts at [p] passes through [l]. *)
Fixpoint on_chain (fuel : nat) (h : heap) (l p : loc) : bool :=
  match fuel with
  | 0 => false
  | S fuel =>
      bool_decide (p = l) ||
      match o_kind (deref h p) with
      | KCustom proto => on_chain fuel h l proto
      | _ => false
      end
  end.

(** The prototype of an ordinary object becomes the object at [p], unless
    it is that already; a frozen object and a chain that would become
    circular refuse. *)
Definition link (h : heap) (l p : loc) : res heap :=
  let o := deref h l in
  if bool_decide (o_kind o = KCustom p) then Ret h
  else if o_frozen o || on_chain (S (length h)) h l p then Raise TypeError
  else Ret (<[l := with_kind o (KCustom p)]> h).

(** The setter of [__proto__], called with the value [x] on the object at
    [l]: an object or [null] becomes the prototype, any other value is
    ignored.  The model ties the prototype of an array, a map, a set, a
    date, a pattern and a function to its shape, so for these the setter
    is not modelled and leaves the store as it is; the library assigns
    only into records it has just created. *)
Definition set_prototype (h : heap) (l : loc) (x : value) : res heap :=
  let o := deref h l in
  match o_kind o with
  | KPlain _ | KCustom _ =>
      match x with
      | VRef p => link h l p
      | VNull =>
          if bool_decide (o_kind o = KPlain true) then Ret h
          else if o_frozen o then Raise TypeError
          else Ret (<[l := with_kind o (KPlain true)]> h)
      | _ => Ret h
      end
  | _ => Ret h
  end.

(** [obj[k] = x], in strict code.  Accessors other than [__proto__] have
    no setter (getters are all the model has), so assigning to one raises,
    as does assigning over an inherited property of a frozen prototype. *)
Definition put_value (h : heap) (l : loc) (k : pkey) (x : value) : res heap :=
  match resolve (S (length h)) h l k with
  | Found holder p =>
      match p_slot p with
      | Data _ => if o_frozen (deref h holder) then Raise TypeError else set_property h l k x
      | Accessor _ => Raise TypeError
      end
  | Proto_setter => set_prototype h l x
  | Absent => set_property h l k x
  end.

(** [delete obj[k]] *)
Definition delete_property (h : heap) (l : loc) (k : pkey) : res heap :=
  let o := deref h l in
  match own_property o k with
  | None => Ret h
  | Some _ =>
      if o_frozen o then Raise TypeError
      else Ret (<[l := with_props o (filter (fun p => p_key p ≠ k) (o_props o))]> h)
  end.

Fixpoint map_store (entries : list (value * value)) (k x : value) : list (value * value) :=
  match entries with
  | [] => [(k, x)]
  | e :: entries =>
      if bool_decide (fst e = k) then (k, x) :: entries else e :: map_store entries k x
  end.

(** [map.set(k, x)]: the entries live in an internal slot, which
    [Object.freeze] does not protect. *)
Definition Map_set (h : heap) (l : loc) (k x : value) : heap :=
  let o := deref h l in
  match o_kind o with
  | KMap entries => <[l := with_kind o (KMap (map_store entries k x))]> h
  | _ => h
  end.

(** [set.add(x)] *)
Definition Set_add (h : heap) (l : loc) (x : value) : heap :=
  let o := deref h l in
  match o_kind o with
  | KSet members =>
      if bool_decide (x ∈ members) then h
      else <[l := with_kind o (KSet (members ++ [x]))]> h
  | _ => h
  end.

(** ** copy.ts *)

Abbreviation cloner := (value -> gmap loc loc -> heap -> res (value * gmap loc loc * heap)).

(** [for (i ...) clone[i] = deepClone(obj[i], visited)] *)
Fixpoint clone_elements (rec : cloner) (clone : loc) (elems : list value) (i : nat)
    (visited : gmap loc loc) (h : heap) : res (gmap loc loc * heap) :=
  match elems with
  | [] => Ret (visited, h)
  | x :: elems =>
      let! r := rec x visited h in
      let! h := set_element r.2 clone i r.1.1 in
      clone_elements rec clone elems (S i) r.1.2 h
  end.

(** [for ([key, val] of obj) clone.set(deepClone(key), deepClone(val))] *)
Fixpoint clone_entries (rec : cloner) (clone : loc) (entries : list (value * value))
    (visited : gmap loc loc) (h : heap) : res (gmap loc loc * heap) :=
  match entries with
  | [] => Ret (visited, h)
  | e :: entries =>
      let! rk := rec (fst e) visited h in
      let! rv := rec (snd e) rk.1.2 rk.2 in
      clone_entries rec clone entries rv.1.2 (Map_set rv.2 clone rk.1.1 rv.1.1)
  end.

(** [for (item of obj) clone.add(deepClone(item))] *)
Fixpoint clone_members (rec : cloner) (clone : loc) (members : list value)
    (visited : gmap loc loc) (h : heap) : res (gmap loc loc * heap) :=
  match members with
  | [] => Ret (visited, h)
  | x :: members =>
      let! r := rec x visited h in
      clone_members rec clone members r.1.2 (Set_add r.2 clone r.1.1)
  end.

(** [clone[key] = deepClone(obj[key], visited)]: the read is not guarded. *)
Fixpoint clone_assign (rec : cloner) (clone : loc) (ps : list property)
    (visited : gmap loc loc) (h : heap) : res (gmap loc loc * heap) :=
  match ps with
  | [] => Ret (visited, h)
  | p :: ps =>
      let! x := read_slot (p_slot p) in
      let! r := rec x visited h in
      let! h := put_value r.2 clone (p_key p) r.1.1 in
      clone_assign rec clone ps r.1.2 h
  end.

(** Copy own property descriptors: a data descriptor gets its value
    cloned, an accessor descriptor is copied as it is, never invoked. *)
Fixpoint clone_descriptors (rec : cloner) (clone : loc) (ps : list property)
    (visited : gmap loc loc) (h : heap) : res (gmap loc loc * heap) :=
  match ps with
  | [] => Ret (visited, h)
  | p :: ps =>
      match p_slot p with
      | Data x =>
          let! r := rec x visited h in
          let! h := defineProperty r.2 clone (Prop_ (p_key p) (p_enumerable p) (Data r.1.1)) in
          clone_descriptors rec clone ps r.1.2 h
      | Accessor _ =>
          let! h := defineProperty h clone p in
          clone_descriptors rec clone ps visited h
      end
  end.

Definition fresh (k : kind) : object := Obj k [] false.

(** [depth] bounds the nesting of calls, as in [isFrozenImpl]; the WeakMap
    and the store are threaded through. *)
Fixpoint deepClone (depth : nat) (v : value) (visited : gmap loc loc) (h : heap)
  : res (value * gmap loc loc * heap) :=
  match depth with
  | 0 => OutOfFuel
  | S depth =>
      match v with
      | VRef obj =>
          if bool_decide (typeof h v = TFunction) then Ret (v, visited, h)
          else
            match visited !! obj with
            | Some clone => Ret (VRef clone, visited, h)
            | None =>
                let o := deref h obj in
                match o_kind o with
                | KDate t =>
                    let a := alloc (fresh (KDate t)) h in Ret (VRef a.1, visited, a.2)
                | KRegExp source flags =>
                    let a := alloc (fresh (KRegExp source flags)) h in Ret (VRef a.1, visited, a.2)
                | KArray elems =>
                    let a := alloc (fresh (KArray [])) h in
                    let! r := clone_elements (deepClone depth) a.1 elems 0 (<[obj := a.1]> visited) a.2 in
                    Ret (VRef a.1, r.1, r.2)
                | KMap entries =>
                    let a := alloc (fresh (KMap [])) h in
                    let! r := clone_entries (deepClone depth) a.1 entries (<[obj := a.1]> visited) a.2 in
                    Ret (VRef a.1, r.1, r.2)
                | KSet members =>
                    let a := alloc (fresh (KSet [])) h in
                    let! r := clone_members (deepClone depth) a.1 members (<[obj := a.1]> visited) a.2 in
                    Ret (VRef a.1, r.1, r.2)
                | KPlain null_proto =>
                    let a := alloc (fresh (KPlain null_proto)) h in
                    let! r := clone_assign (deepClone depth) a.1 (Object_keys o) (<[obj := a.1]> visited) a.2 in
                    let! r := clone_assign (deepClone depth) a.1 (Object_getOwnPropertySymbols o) r.1 r.2 in
                    Ret (VRef a.1, r.1, r.2)
                | KCustom proto =>
                    let a := alloc (fresh (KCustom proto)) h in
                    let! r := clone_descriptors (deepClone depth) a.1 (Object_getOwnPropertyNames o)
                                (<[obj := a.1]> visited) a.2 in
                    let! r := clone_descriptors (deepClone depth) a.1 (Object_getOwnPropertySymbols o) r.1 r.2 in
                    Ret (VRef a.1, r.1, r.2)
                | KFunction => Ret (v, visited, h)
                end
            end
      | _ => Ret (v, visited, h)
      end
  end.

Section Copy.

Variable call : loc -> loc -> heap -> res (value * heap).

Definition frozenCopy (obj : value) (h : heap) : res (value * heap) :=
  let! r := deepClone (enough_depth h) obj ∅ h in
  freeze call r.1.1 r.2.

End Copy.

(** * Vocabulary of the statements *)

(** [freezes_only h h']: [h'] is [h] with more objects frozen and nothing
    else changed. *)
Definition freezes_only (h h' : heap) : Prop :=
  length h' = length h ∧
  ∀ l, o_kind (deref h' l) = o_kind (deref h l) ∧
       o_props (deref h' l) = o_props (deref h l) ∧
       (o_frozen (deref h l) = true → o_frozen (deref h' l) = true).

(** What the loop may still have to do: one pop and at most [slots]
    pushes for each object that is not frozen yet. *)
Definition cost (o : object) : nat := if o_frozen o then 0 else S (slots o).

Definition unfrozen_cost (h : heap) : nat := sum_list (map cost h).

(** [scheduled h l c]: expanding [l], the engine pushes [c]. *)
Definition scheduled (h : heap) (l c : loc) : Prop :=
  ∃ cs, schedule_children h (deref h l) [] = Ret cs ∧ c ∈ cs.

(** A path along scheduled edges through nodes that are not frozen in [h],
    both ends included. *)
Inductive thaw_path (h : heap) : loc → loc → Prop :=
| thaw_here l : o_frozen (deref h l) = false → thaw_path h l l
| thaw_step l c l' :
    o_frozen (deref h l) = false → scheduled h l c → thaw_path h c l' → thaw_path h l l'.

(** The invariant of the loop started on [roots] in the store [h0]. *)
Record loop_inv (h0 : heap) (roots : list loc) (h : heap) (stack : list loc)
    (visited : gset loc) : Prop := {
  inv_shape : freezes_only h0 h;
  inv_visited : ∀ l, l ∈ visited → o_frozen (deref h l) = true;
  inv_roots : ∀ r, r ∈ roots → o_frozen (deref h r) = true ∨ r ∈ stack;
  inv_children : ∀ l c,
    o_frozen (deref h0 l) = false → o_frozen (deref h l) = true → scheduled h0 l c →
    o_frozen (deref h c) = true ∨ c ∈ stack;
  inv_stack : ∀ l, l ∈ stack →
    o_frozen (deref h0 l) = true ∨ ∃ r, r ∈ roots ∧ thaw_path h0 r l;
  inv_frozen : ∀ l,
    o_frozen (deref h0 l) = false → o_frozen (deref h l) = true →
    ∃ r, r ∈ roots ∧ thaw_path h0 r l
}.

(** Property addition, reassignment and deletion on [l] all raise. *)
Definition rejects_writes (h : heap) (l : loc) : Prop :=
  (∀ k x, set_property h l k x = Raise TypeError) ∧
  (∀ p, defineProperty h l p = Raise TypeError) ∧
  (∀ i x, set_element h l i x = Raise TypeError) ∧
  (∀ k, is_Some (own_property (deref h l) k) → delete_property h l k = Raise TypeError).

(** No getter of [o] throws. *)
Definition getters_safe (o : object) : Prop :=
  Forall (fun p => p_slot p ≠ Accessor None) (o_props o).

(** [checks h l c]: [isFrozenImpl] descends from [l] into [c]. *)
Definition checks (h : heap) (l c : loc) : Prop :=
  VRef c ∈ checked_children (deref h l).

(** [reaches h v l]: [l] is [v] or lies below it along checked children. *)
Definition reaches (h : heap) (v : value) (l : loc) : Prop :=
  ∃ l0, v = VRef l0 ∧ rtc (checks h) l0 l.

(** The objects of the store a recursive traversal has not entered yet. *)
Definition unvisited (h : heap) (visited : gset loc) : gset loc :=
  set_seq 0 (length h) ∖ visited.

(** A [true] answer leaves a visited set closed under checked children, all
    of whose new members are frozen. *)
Definition closed_new (h : heap) (vis vis' : gset loc) : Prop :=
  vis ⊆ vis' ∧
  ∀ l, l ∈ vis' → l ∈ vis ∨ (o_frozen (deref h l) = true ∧ ∀ c, checks h l c → c ∈ vis').

(** What a call answers when the stack has room for one level per object
    not yet visited: it returns, and a [true] answer leaves the WeakSet
    closed. *)
Definition answers (h : heap) (vs : list value) (vis : gset loc)
    (r : option bool * gset loc) : Prop :=
  ∃ b vis', r = (Some b, vis') ∧ vis ⊆ vis' ∧
            (b = true → closed_new h vis vis' ∧ ∀ l, VRef l ∈ vs → l ∈ vis').

(** [ordered ps]: the properties are listed in the engine's order: none
    stands behind a property that its key precedes. *)
Definition ordered (ps : list property) : Prop :=
  ∀ i j p q, i < j → ps !! i = Some p → ps !! j = Some q →
             precedes (p_key q) (p_key p) = false.

(** ** Sample graphs *)

(** An enumerable data property, and a plain record. *)
Definition data (name : string) (x : value) : property := Prop_ (PStr name) true (Data x).

Definition record (ps : list property) (frozen : bool) : object := Obj (KPlain false) ps frozen.

(** User code that is never reached. *)
Definition no_custom_freeze : loc → loc → heap → res (value * heap) :=
  fun _ _ h => Ret (VUndefined, h).

(** [a.self = a] *)
Definition self_cycle : heap := [record [data "a" (VNumber 1); data "self" (VRef 0)] false].

(** [a.ref = b; b.ref = a] *)
Definition mutual_cycle : heap :=
  [record [data "name" (VString "a"); data "ref" (VRef 1)] false;
   record [data "name" (VString "b"); data "ref" (VRef 0)] false].

(** [{ mid: Object.freeze({ leaf: {} }) }] *)
Definition frozen_middle : heap :=
  [record [data "mid" (VRef 1)] false; record [data "leaf" (VRef 2)] true; record [] false].

(** The same after [freeze]: the leaf is as it was. *)
Definition frozen_middle_after : heap :=
  [record [data "mid" (VRef 1)] true; record [data "leaf" (VRef 2)] true; record [] false].

(** [{ child: { freeze() {...}, inner: {} } }], a function object for the
    method, and a cell [{ called: false }] that the custom method sets, as
    in the repository's test of the Freezable interface. *)
Definition nested_freezable : heap :=
  [record [data "child" (VRef 1)] false;
   record [data "freeze" (VRef 2); data "inner" (VRef 3)] false;
   Obj KFunction [] false;
   record [] false;
   record [data "called" (VBoolean false)] false].

Definition nested_freezable_after : heap :=
  [record [data "child" (VRef 1)] true;
   record [data "freeze" (VRef 2); data "inner" (VRef 3)] true;
   Obj KFunction [] false;
   record [] true;
   record [data "called" (VBoolean false)] false].

(** [freeze() { called = true; return this; }] *)
Definition marking_freeze : loc → loc → heap → res (value * heap) :=
  fun _ this h =>
    let! h := set_property h 4 (PStr "called") (VBoolean true) in
    Ret (VRef this, h).

(** [{ freeze() { return {}; } }] and its method *)
Definition careless_freezable : heap :=
  [record [data "freeze" (VRef 1)] false; Obj KFunction [] false].

(** [freeze() { return {}; }]: the result is a new, unfrozen record. *)
Definition careless_freeze : loc → loc → heap → res (value * heap) :=
  fun _ _ h => let a := alloc (record [] false) h in Ret (VRef a.1, a.2).

(** A function with its [prototype] object, as [function f() {}] has. *)
Definition function_root : heap :=
  [Obj KFunction [Prop_ (PStr "prototype") false (Data (VRef 1))] false; record [] false].

Definition function_root_after : heap :=
  [Obj KFunction [Prop_ (PStr "prototype") false (Data (VRef 1))] true; record [] true].

(** [{ handler: () => 42 }] *)
Definition with_handler : heap :=
  [record [data "handler" (VRef 1)] false; Obj KFunction [] false].

(** [Object.freeze({ [tag]: { x: 1 } })] for a symbol [tag] *)
Definition symbol_child : heap :=
  [Obj (KPlain false) [Prop_ (PSym (Sym 0 "tag")) true (Data (VRef 1))] true;
   record [data "x" (VNumber 1)] false].

(** [Object.freeze({ a: Object.freeze({ x: 1 }), b: { y: 2 } })] *)
Definition second_unfrozen : heap :=
  [record [data "a" (VRef 1); data "b" (VRef 2)] true;
   record [data "x" (VNumber 1)] true;
   record [data "y" (VNumber 2)] false].

(** [Object.freeze({ arr: Object.freeze([Object.freeze({ ok: true }), { notFrozen: true }]) })] *)
Definition array_second_unfrozen : heap :=
  [record [data "arr" (VRef 1)] true;
   Obj (KArray [VRef 2; VRef 3]) [] true;
   record [data "ok" (VBoolean true)] true;
   record [data "notFrozen" (VBoolean true)] false].

(** [Object.freeze({ nested: { mutable: true } })] *)
Definition shallow_only : heap :=
  [record [data "nested" (VRef 1)] true; record [data "mutable" (VBoolean true)] false].

(** [haystack.includes(needle)] *)
Definition includes (needle haystack : string) : Prop :=
  ∃ before after, haystack = before +:+ needle +:+ after.

(** ** Vocabulary for the clone engine *)

Definition slot_values (s : slot) : list value :=
  match s with
  | Data v => [v]
  | Accessor (Some v) => [v]
  | Accessor None => []
  end.

Definition kind_values (k : kind) : list value :=
  match k with
  | KArray elems => elems
  | KMap entries => key_then_value entries
  | KSet members => members
  | _ => []
  end.

(** Every value an object holds: elements, entries, members, property
    values and what its getters yield. *)
Definition object_values (o : object) : list value :=
  kind_values (o_kind o) ++ flat_map (fun p => slot_values (p_slot p)) (o_props o).

(** [v] denotes something of the store [h]: no dangling reference. *)
Definition source_value (h : heap) (v : value) : Prop :=
  match v with
  | VRef l => l < length h
  | _ => True
  end.

Definition heap_closed (h : heap) : Prop :=
  ∀ l v, v ∈ object_values (deref h l) → source_value h v.

(** No object of the store has an own property named [freeze]. *)
Definition no_custom_freeze_in (h : heap) : Prop :=
  ∀ l p, p ∈ o_props (deref h l) → p_key p ≠ PStr "freeze".

(** The prototype of every object is an object of the store. *)
Definition protos_closed (h : heap) : Prop :=
  ∀ l p, o_kind (deref h l) = KCustom p → p < length h.

(** No record that inherits from [Object.prototype] lists [__proto__]
    among its own enumerable keys (a key that a computed key in a literal,
    [JSON.parse] or [Object.defineProperty] can give it): assigned to the
    copy, that key reaches the inherited setter. *)
Definition proto_free (h : heap) : Prop :=
  ∀ l p, o_kind (deref h l) = KPlain false → p ∈ Object_keys (deref h l) →
         p_key p ≠ PStr "__proto__".

(** No getter of the store yields a container. *)
Definition accessors_atomic (h : heap) : Prop :=
  ∀ l p c, p ∈ o_props (deref h l) → p_slot p = Accessor (Some (VRef c)) →
           is_function h c = true.

Definition is_plain (o : object) : Prop := ∃ b, o_kind o = KPlain b.

Definition is_custom (o : object) : Prop := ∃ p, o_kind o = KCustom p.

(** No getter of an object with a custom prototype yields a container:
    the clone engine copies such a getter as it is, so that what it yields
    is shared between the source and the copy. *)
Definition shared_getters_atomic (h : heap) : Prop :=
  ∀ l p c, is_custom (deref h l) → p ∈ o_props (deref h l) →
           p_slot p = Accessor (Some (VRef c)) → is_function h c = true.

(** What a clone may hold while the source store [h0] is being copied into
    a store of [n] objects: atoms, functions of the source (shared), and
    references to new objects. *)
Definition clone_value (h0 : heap) (n : nat) (v : value) : Prop :=
  match v with
  | VRef c => length h0 ≤ c < n ∨ is_function h0 c = true
  | _ => True
  end.

(** The shape of an object without its contents. *)
Definition shape (k : kind) : kind :=
  match k with
  | KArray _ => KArray []
  | KMap _ => KMap []
  | KSet _ => KSet []
  | k => k
  end.

(** A property of a clone: its key comes from a property of the source
    store, and so does its slot unless it is a cloned data slot, and then
    from an object with a custom prototype; only clones of plain records
    and of custom-prototype objects have properties, and those of a plain
    record are enumerable data properties. *)
Definition clone_property (h0 : heap) (n : nat) (o : object) (p : property) : Prop :=
  (∃ s sp, sp ∈ o_props (deref h0 s) ∧ p_key sp = p_key p ∧
           ((p_slot p = p_slot sp ∧ is_custom (deref h0 s)) ∨ ∃ v, p_slot p = Data v)) ∧
  (∀ v, p_slot p = Data v → clone_value h0 n v) ∧
  ((is_plain o ∧ p_enumerable p = true ∧ (∃ v, p_slot p = Data v) ∧
    (o_kind o = KPlain false → p_key p ≠ PStr "__proto__")) ∨ is_custom o).

Definition clone_object (h0 : heap) (n : nat) (o : object) : Prop :=
  o_frozen o = false ∧
  o_kind o ≠ KFunction ∧
  Forall (clone_value h0 n) (kind_values (o_kind o)) ∧
  Forall (clone_property h0 n o) (o_props o).

(** The state of a copy in progress: the source store is a prefix of the
    current one, the WeakMap points at new objects, and the new objects
    are well-formed clones. *)
Record cloning (h0 : heap) (visited : gmap loc loc) (h : heap) : Prop := {
  c_prefix : ∃ ext, h = h0 ++ ext;
  c_visited : ∀ s c, visited !! s = Some c → length h0 ≤ c < length h;
  c_new : ∀ c, length h0 ≤ c < length h → clone_object h0 (length h) (deref h c)
}.

(** What a recursive call of depth [d], or a loop of such calls, may do:
    on return the copy is still well-formed, the WeakMap and the store have
    only grown, and [post] holds; it raises only if some getter of the
    source throws; it runs out of depth only if [d] levels do not cover
    the source objects not yet visited. *)
Definition clone_outcome {A} (h0 : heap) (d : nat) (visited : gmap loc loc) (h : heap)
    (post : A → heap → Prop) (r : res (A * heap)) (visited_of : A → gmap loc loc) : Prop :=
  match r with
  | Ret (a, h') =>
      cloning h0 (visited_of a) h' ∧ visited ⊆ visited_of a ∧ length h ≤ length h' ∧ post a h'
  | Raise e => ¬ Forall getters_safe h0
  | OutOfFuel => d ≤ size (unvisited h0 (dom visited))
  end.

(** A recursive call leaves the objects that existed before it alone. *)
Definition cloner_spec (h0 : heap) (d : nat) (rec : cloner) : Prop :=
  ∀ v visited h, cloning h0 visited h → source_value h0 v →
    clone_outcome h0 d visited h
      (fun a h' => clone_value h0 (length h') a.1 ∧
                   ∀ c, c < length h → deref h' c = deref h c)
      (rec v visited h) snd.

(** A loop that fills the clone at [clone] leaves every other object that
    existed before it alone, and does not change the shape of the clone. *)
Definition filler_spec (h0 : heap) (d : nat) (clone : loc) (visited : gmap loc loc) (h : heap)
    (r : res (gmap loc loc * heap)) : Prop :=
  clone_outcome h0 d visited h
    (fun _ h' => (∀ c, c < length h → c ≠ clone → deref h' c = deref h c) ∧
                 shape (o_kind (deref h' clone)) = shape (o_kind (deref h clone)))
    r id.

(** [written h h' c]: [h'] is [h] after a write into the object at [c]. *)
Definition written (h h' : heap) (c : loc) : Prop :=
  length h' = length h ∧
  (∀ c', c' ≠ c → deref h' c' = deref h c') ∧
  shape (o_kind (deref h' c)) = shape (o_kind (deref h c)).

(** [holds h a b]: the object [a] holds the container [b], in any of its
    contents or properties, whatever the key, or as what one of its
    getters yields; a function is not a container. *)
Definition holds (h : heap) (a b : loc) : Prop :=
  VRef b ∈ object_values (deref h a) ∧ is_function h b = false.

(** [contained h v x]: [x] is the container [v] or a container below it. *)
Definition contained (h : heap) (v : value) (x : loc) : Prop :=
  ∃ c, v = VRef c ∧ rtc (holds h) c x.

(** [writes_to h s h']: [h'] results from one write into the object at [s]. *)
Definition writes_to (h : heap) (s : loc) (h' : heap) : Prop :=
  (∃ k v, put_value h s k v = Ret h') ∨
  (∃ k v, set_property h s k v = Ret h') ∨
  (∃ p, defineProperty h s p = Ret h') ∨
  (∃ k, delete_property h s k = Ret h') ∨
  (∃ i v, set_element h s i v = Ret h') ∨
  (∃ k v, h' = Map_set h s k v) ∨
  (∃ v, h' = Set_add h s v).

(** [mutates_source h0 a b]: [b] results from [a] by one write into an
    object that existed in [h0]. *)
Definition mutates_source (h0 : heap) (a b : heap) : Prop :=
  ∃ s, s < length h0 ∧ writes_to a s b.

(** ** Chains

    A linear chain of [n] nested single-property records: each holds the
    next under [child], the innermost holds a number. *)
Definition chain_node (frozen : bool) (n i : nat) : object :=
  record [if decide (S i < n) then data "child" (VRef (S i)) else data "value" (VNumber 0)]
    frozen.

Definition chain (frozen : bool) (n : nat) : heap := map (chain_node frozen n) (seq 0 n).

(** The same chain with only its [k] outermost records frozen. *)
Definition chain_frozen_to (k n : nat) : heap :=
  map (fun i => chain_node (bool_decide (i < k)) n i) (seq 0 n).

(** [{ a: 1, nested: { value: 10 } }] *)
Definition nested_source : heap :=
  [record [data "a" (VNumber 1); data "nested" (VRef 1)] false;
   record [data "value" (VNumber 10)] false].

(** [Object.freeze({ a: 1 })] *)
Definition frozen_source : heap := [record [data "a" (VNumber 1)] true].

(** The values among which [freeze] picks the children of a node: the
    elements of an array, the keys and values of a map, the members of a
    set, nothing for a date or a pattern, the own enumerable string-keyed
    and the own symbol-keyed values of a plain record, the own string- and
    symbol-keyed values of any other object. *)
Definition scheduled_values (o : object) : list value :=
  match o_kind o with
  | KArray elems => elems
  | KMap entries => key_then_value entries
  | KSet members => members
  | KDate _ | KRegExp _ _ => []
  | KPlain _ =>
      flat_map (fun p => slot_values (p_slot p)) (Object_keys o ++ Object_getOwnPropertySymbols o)
  | KFunction | KCustom _ =>
      flat_map (fun p => slot_values (p_slot p))
        (Object_getOwnPropertyNames o ++ Object_getOwnPropertySymbols o)
  end.

(** * The rest of the library *)

(** ** Further vocabulary *)

(** A plain record one of whose own enumerable string-keyed or own
    symbol-keyed properties is a getter that throws: the reads of
    [freeze] on a plain record are not guarded. *)
Definition throwing_plain (o : object) : Prop :=
  is_plain o ∧
  ∃ p, p ∈ Object_keys o ++ Object_getOwnPropertySymbols o ∧ p_slot p = Accessor None.

(** Unfrozen data: no getter throws; not a function; every string-keyed
    property of a plain record is enumerable; the string-keyed properties
    of a date or a pattern hold no reference. *)
Definition data_object (o : object) : Prop :=
  o_frozen o = false ∧
  getters_safe o ∧
  match o_kind o with
  | KFunction => False
  | KPlain _ => Forall (fun p => is_string_key p = true → p_enumerable p = true) (o_props o)
  | KDate _ | KRegExp _ _ => ∀ c, VRef c ∉ checked_children o
  | _ => True
  end.

(** [{ child: { get boom() { throw ... } } }] *)
Definition throwing_getter : heap :=
  [record [data "child" (VRef 1)] false;
   record [Prop_ (PStr "boom") true (Accessor None)] false].

(** ** validation.ts: [countFrozenObjects] *)

(** The object the function returns. *)
Record stats := Stats { frozen : nat; unfrozen : nat; total : nat }.

(** What the closure [count] shares with its caller: the WeakSet
    [visited] and the two counters [frozen] and [unfrozen]. *)
Abbreviation counting := (gset loc * nat * nat)%type.

(** The values [count] descends into, in order: the elements of an array,
    the keys and values of a map, the members of a set, and for any other
    object (a function too) the readable values under [Object.keys]. *)
Definition counted_children (o : object) : list value :=
  match o_kind o with
  | KArray elems => elems
  | KMap entries => key_then_value entries
  | KSet members => members
  | _ => map snd (readable (Object_keys o))
  end.

(** What a call of [count] leaves: [Some ()] when it returns, [None] when it
    raises the [RangeError] of a call the stack has no room for; the
    WeakSet and the counters are what they are by then. *)
Abbreviation counter := (value → counting → option unit * counting).

(** [for (const item of ...) count(item);] over the elements of an array,
    the entries of a map or the members of a set: a call that raises ends
    the loop and leaves [count]. *)
Fixpoint count_all (count : counter) (children : list value) (st : counting)
  : option unit * counting :=
  match children with
  | [] => (Some (), st)
  | child :: children =>
      match count child st with
      | (Some _, st) => count_all count children st
      | (None, st) => (None, st)
      end
  end.

(** [for (const key of Object.keys(obj)) { try { count(obj[key]); } catch { } }]:
    a call that raises is skipped. *)
Fixpoint count_all_try (count : counter) (children : list value) (st : counting)
  : option unit * counting :=
  match children with
  | [] => (Some (), st)
  | child :: children => count_all_try count children (count child st).2
  end.

(** [depth] is the number of nested calls the stack has room for, as in
    [isFrozenImpl]. *)
Fixpoint count (depth : nat) (h : heap) (val : value) (st : counting)
  : option unit * counting :=
  match depth with
  | 0 => (None, st)
  | S depth =>
      match val with
      | VRef obj =>
          if bool_decide (obj ∈ st.1.1) then (Some (), st)
          else
            let visited := {[obj]} ∪ st.1.1 in
            let st :=
              if Object_isFrozen h val then (visited, S st.1.2, st.2)
              else (visited, st.1.2, S st.2) in
            let o := deref h obj in
            match o_kind o with
            | KArray _ | KMap _ | KSet _ => count_all (count depth h) (counted_children o) st
            | _ => count_all_try (count depth h) (counted_children o) st
            end
      | _ => (Some (), st)
      end
  end.

(** The exported function, called where the stack has room for the whole
    walk: no call raises then (see [countFrozenObjects_counts_reachable]). *)
Definition countFrozenObjects (h : heap) (value : value) : option stats :=
  match count (enough_depth h) h value (∅, 0, 0) with
  | (Some _, st) => Some (Stats st.1.2 st.2 (st.1.2 + st.2))
  | (None, _) => None
  end.

(** [counts h l c]: [count] descends from [l] into [c]. *)
Definition counts (h : heap) (l c : loc) : Prop :=
  VRef c ∈ counted_children (deref h l).

(** [count_reaches h v l]: [l] is [v] or lies below it along counted
    children. *)
Definition count_reaches (h : heap) (v : value) (l : loc) : Prop :=
  ∃ l0, v = VRef l0 ∧ rtc (counts h) l0 l.

(** How many objects of [X] are frozen, and how many are not. *)
Definition frozen_among (h : heap) (X : gset loc) : nat :=
  size (filter (fun l => o_frozen (deref h l) = true) X).

Definition unfrozen_among (h : heap) (X : gset loc) : nat :=
  size (filter (fun l => o_frozen (deref h l) = false) X).

(** The counters tell what the WeakSet holds. *)
Definition tallied (h : heap) (st : counting) : Prop :=
  st.1.2 = frozen_among h st.1.1 ∧ st.2 = unfrozen_among h st.1.1.

(** What a call of [count] on one of [sources] adds to the WeakSet [vis]:
    objects below a source, with all their counted children. *)
Definition count_closed (h : heap) (sources : list value) (vis vis' : gset loc) : Prop :=
  vis ⊆ vis' ∧
  ∀ l, l ∈ vis' →
    l ∈ vis ∨ ((∃ v, v ∈ sources ∧ count_reaches h v l) ∧ ∀ c, counts h l c → c ∈ vis').

(** What [count] and its loop guarantee: the counters still tell what the
    WeakSet holds, what was added lies below the values [vs] with all its
    counted children, and every reference among [vs] is now in the
    WeakSet. *)
Definition count_post (h : heap) (vs : list value) (st st' : counting) : Prop :=
  tallied h st' ∧ count_closed h vs st.1.1 st'.1.1 ∧ ∀ l, VRef l ∈ vs → l ∈ st'.1.1.

(** What a call of [count] does when the stack has room for one level per
    object not yet visited: it returns, and [count_post] holds. *)
Definition counted (h : heap) (vs : list value) (st : counting)
    (r : option unit * counting) : Prop :=
  ∃ st', r = (Some (), st') ∧ st.1.1 ⊆ st'.1.1 ∧ (tallied h st → count_post h vs st st').

(** ** Batches and builders: common parts *)

(** [new Array(n)]: [n] holes, which read as [undefined]; the loops below
    overwrite every one of them before the array can be observed. *)
Definition new_Array (n : nat) : object := fresh (KArray (replicate n VUndefined)).

(** The elements of an array under the names of their indices. *)
Definition indexed (elems : list value) : list (string * value) :=
  imap (fun i x => (pretty i, x)) elems.

Definition element_named (elems : list value) (name : string) : option value :=
  snd <$> List.find (fun e => bool_decide (fst e = name)) (indexed elems).

(** [Object.keys(obj)], as the names it lists: the indices of an array,
    then the own enumerable string-keyed properties. *)
Definition key_names (o : object) : list string :=
  match o_kind o with
  | KArray elems => map fst (indexed elems)
  | _ => []
  end ++
  omap (fun p => match p_key p with PStr name => Some name | PSym _ => None end) (Object_keys o).

(** [obj[name]] for a string [name]: an element of an array, or else a
    property, through the prototype chain. *)
Definition get_named (h : heap) (l : loc) (name : string) : res value :=
  match o_kind (deref h l) with
  | KArray elems =>
      match element_named elems name with
      | Some x => Ret x
      | None => get_property h l (PStr name)
      end
  | _ => get_property h l (PStr name)
  end.

(** What [obj[name]] yields when [name] is an own name of [obj]: the
    prototype chain is not consulted. *)
Definition read_named (o : object) (name : string) : res value :=
  match
    match o_kind o with KArray elems => element_named elems name | _ => None end
  with
  | Some x => Ret x
  | None =>
      match own_property o (PStr name) with
      | Some p => read_slot (p_slot p)
      | None => Ret VUndefined
      end
  end.

(** The values under [names], as far as they can be read. *)
Definition read_values (o : object) (names : list string) : list value :=
  omap (fun name => match read_named o name with Ret x => Some x | _ => None end) names.

(** ** freeze.ts: [freezeAll], [freezeRecord] *)

Section Batch.

Variable call : loc → loc → heap → res (value * heap).

(** [for (i ...) result[i] = freeze(objects[i]);] *)
Fixpoint freeze_each (result : loc) (objects : list value) (i : nat) (h : heap) : res heap :=
  match objects with
  | [] => Ret h
  | obj :: objects =>
      let! r := freeze call obj h in
      let! h := set_element r.2 result i r.1 in
      freeze_each result objects (S i) h
  end.

(** The rest parameter [objects] is the list of the arguments. *)
Definition freezeAll (objects : list value) (h : heap) : res (value * heap) :=
  let a := alloc (new_Array (length objects)) h in
  let! h := freeze_each a.1 objects 0 a.2 in
  Ret (VRef a.1, h).

(** [for (i ...) { key = keys[i]; result[key] = freeze(record[key]); }] *)
Fixpoint freeze_values (record result : loc) (keys : list string) (h : heap) : res heap :=
  match keys with
  | [] => Ret h
  | key :: keys =>
      let! x := get_named h record key in
      let! r := freeze call x h in
      let! h := put_value r.2 result (PStr key) r.1 in
      freeze_values record result keys h
  end.

Definition freezeRecord (record : loc) (h : heap) : res (value * heap) :=
  let a := alloc (fresh (KPlain false)) h in
  let keys := key_names (deref a.2 record) in
  let! h := freeze_values record a.1 keys a.2 in
  Ret (VRef a.1, h).

End Batch.

(** ** builders.ts

    The builders live in a module of their own: [frozen] is also a field
    of what [countFrozenObjects] returns. *)

Module builders.

(** [new Map(entries)]: one [set] per entry. *)
Definition new_Map (entries : list (value * value)) (h : heap) : loc * heap :=
  let a := alloc (fresh (KMap [])) h in
  (a.1, foldl (fun h e => Map_set h a.1 e.1 e.2) a.2 entries).

(** [new Set(items)]: one [add] per item. *)
Definition new_Set (items : list value) (h : heap) : loc * heap :=
  let a := alloc (fresh (KSet [])) h in
  (a.1, foldl (fun h x => Set_add h a.1 x) a.2 items).

(** [for (const [key, value] of entries) obj[key] = value;] *)
Fixpoint assign_entries (obj : loc) (entries : list (pkey * value)) (h : heap) : res heap :=
  match entries with
  | [] => Ret h
  | e :: entries =>
      let! h := put_value h obj e.1 e.2 in
      assign_entries obj entries h
  end.

(** [for (i ...) { key = keys[i]; map.set(key, obj[key]); }] *)
Fixpoint set_named (obj map : loc) (keys : list string) (h : heap) : res heap :=
  match keys with
  | [] => Ret h
  | key :: keys =>
      let! x := get_named h obj key in
      set_named obj map keys (Map_set h map (VString key) x)
  end.

(** What a builder comes back with. *)
Abbreviation outcome := (res (value * heap)).

(** [for (i ...) { key = keys[i]; obj[key] = value; }] *)
Fixpoint assign_each (obj : loc) (keys : list string) (value : value) (h : heap) : res heap :=
  match keys with
  | [] => Ret h
  | key :: keys =>
      let! h := put_value h obj (PStr key) value in
      assign_each obj keys value h
  end.

Section Builders.

Variable call : loc → loc → heap → res (value * heap).

(** An iterable argument is the list of what it yields; a key of an entry
    is the property key it converts to. *)
Definition frozenObject (entries : list (pkey * value)) (h : heap) : res (value * heap) :=
  let a := alloc (fresh (KPlain false)) h in
  let! h := assign_entries a.1 entries a.2 in
  freeze call (VRef a.1) h.

Definition frozen (obj : value) (h : heap) : res (value * heap) := freeze call obj h.

(** [freeze([...items])] *)
Definition frozenArray (items : list value) (h : heap) : res (value * heap) :=
  let a := alloc (fresh (KArray items)) h in
  freeze call (VRef a.1) a.2.

(** [freeze(items)], on the rest parameter *)
Definition frozenArrayOf (items : list value) (h : heap) : res (value * heap) :=
  let a := alloc (fresh (KArray items)) h in
  freeze call (VRef a.1) a.2.

Definition frozenMap (entries : list (value * value)) (h : heap) : res (value * heap) :=
  let m := new_Map entries h in
  freeze call (VRef m.1) m.2.

Definition frozenMapFromObject (obj : loc) (h : heap) : res (value * heap) :=
  let a := alloc (fresh (KMap [])) h in
  let keys := key_names (deref a.2 obj) in
  let! h := set_named obj a.1 keys a.2 in
  freeze call (VRef a.1) h.

Definition frozenSet (items : list value) (h : heap) : res (value * heap) :=
  let s := new_Set items h in
  freeze call (VRef s.1) s.2.

Definition frozenSetOf (items : list value) (h : heap) : res (value * heap) :=
  let s := new_Set items h in
  freeze call (VRef s.1) s.2.

Definition frozenTuple (items : list value) (h : heap) : res (value * heap) :=
  let a := alloc (fresh (KArray items)) h in
  freeze call (VRef a.1) a.2.

Definition frozenPair (first second : value) (h : heap) : res (value * heap) :=
  let a := alloc (fresh (KArray [first; second])) h in
  freeze call (VRef a.1) a.2.

(** The array [keys] is the list of the strings it holds. *)
Definition frozenRecordFilled (keys : list string) (value : value) (h : heap) : outcome :=
  let a := alloc (fresh (KPlain false)) h in
  let! h := assign_each a.1 keys value a.2 in
  freeze call (VRef a.1) h.

(** The cached sentinels of the module, built once when it is loaded:
    [freeze({})], [freeze([])], [freeze(new Map())], [freeze(new Set())]. *)
Record sentinels := Sentinels {
  _EMPTY_OBJ : value; _EMPTY_ARR : value; _EMPTY_MAP : value; _EMPTY_SET : value
}.

Definition load_module (h : heap) : res (sentinels * heap) :=
  let a := alloc (fresh (KPlain false)) h in
  let! obj := freeze call (VRef a.1) a.2 in
  let a := alloc (fresh (KArray [])) obj.2 in
  let! arr := freeze call (VRef a.1) a.2 in
  let m := new_Map [] arr.2 in
  let! map := freeze call (VRef m.1) m.2 in
  let s := new_Set [] map.2 in
  let! set := freeze call (VRef s.1) s.2 in
  Ret (Sentinels obj.1 arr.1 map.1 set.1, set.2).

Definition emptyFrozenObject (s : sentinels) : value := _EMPTY_OBJ s.
Definition emptyFrozenArray (s : sentinels) : value := _EMPTY_ARR s.
Definition emptyFrozenMap (s : sentinels) : value := _EMPTY_MAP s.
Definition emptyFrozenSet (s : sentinels) : value := _EMPTY_SET s.

End Builders.

End builders.

(** ** Vocabulary for batches and builders *)

(** The references among [vs]. *)
Definition refs (vs : list value) : list loc :=
  omap (fun v => match v with VRef l => Some l | _ => None end) vs.

(** The containers among [vs]: the references that are not functions,
    which is what [freeze] schedules. *)
Definition containers (h : heap) (vs : list value) : list loc :=
  filter (fun l => is_function h l = false) (refs vs).

(** [frozen_from h roots h']: [h'] is [h] with frozen, besides what was
    frozen, exactly what a path of scheduled children through nodes
    unfrozen in [h] links to one of [roots]; nothing else differs. *)
Definition frozen_from (h : heap) (roots : list loc) (h' : heap) : Prop :=
  freezes_only h h' ∧
  ∀ l, o_frozen (deref h' l) = true ↔
       o_frozen (deref h l) = true ∨ ∃ r, r ∈ roots ∧ thaw_path h r l.

(** A property as [freezeRecord] writes it: enumerable, and holding what
    the record [o] reads under one of its own names. *)
Definition own_of (o : object) (p : property) : Prop :=
  ∃ name v, p = data name v ∧ name ∈ key_names o ∧ read_named o name = Ret v.

(** What a set holds after one [add] per item: the distinct items, in
    the order of their first occurrence. *)
Definition add_member (members : list value) (x : value) : list value :=
  if bool_decide (x ∈ members) then members else members ++ [x].

Definition distinct (items : list value) : list value := foldl add_member [] items.

(** What a map holds after one [set] per entry. *)
Definition entries_of (entries : list (value * value)) : list (value * value) :=
  foldl (fun es e => map_store es e.1 e.2) [] entries.

(** What a record holds after one assignment per entry. *)
Definition assigned (entries : list (pkey * value)) : list property :=
  foldl (fun ps e => assign ps e.1 e.2) [] entries.

(** The value the last entry under [k] gives. *)
Definition bound {K} `{EqDecision K} (entries : list (K * value)) (k : K) : option value :=
  snd <$> List.find (fun e => bool_decide (fst e = k)) (reverse entries).

(** The entries [frozenMapFromObject] reads off an object under [names]. *)
Definition named_entries (o : object) (names : list string) : list (value * value) :=
  omap (fun name =>
          match read_named o name with Ret x => Some (VString name, x) | _ => None end)
       names.

(** The values the properties [ps] hold or yield. *)
Definition property_values (ps : list property) : list value :=
  flat_map (fun p => slot_values (p_slot p)) ps.

(** A property as an assignment makes it. *)
Definition entry_property (e : pkey * value) : property := Prop_ e.1 true (Data e.2).

(** ** copy.ts: [snapshot] *)

(** [export const snapshot = frozenCopy;] *)
Definition snapshot := frozenCopy.

(** ** Vocabulary for the fidelity of the clone engine *)

(** Keys are what they are on the platform: no object has two properties
    under one key, and its properties are listed in the engine's order; no
    map has two entries under one key, no set a member twice. *)
Definition keyed (o : object) : Prop :=
  NoDup (map p_key (o_props o)) ∧
  ordered (o_props o) ∧
  match o_kind o with
  | KMap entries => NoDup (map fst entries)
  | KSet members => NoDup members
  | _ => True
  end.

Definition well_keyed (h : heap) : Prop := ∀ l, keyed (deref h l).

(** A date or a pattern: cloned afresh at every reference, never
    recorded in the WeakMap. *)
Definition dated (o : object) : Prop :=
  match o_kind o with
  | KDate _ | KRegExp _ _ => True
  | _ => False
  end.

(** [twin h0 vis h v v']: in the copy, [v'] stands for the value [v] of
    the source store [h0]: a primitive for itself, a function for itself
    (shared), a date or a pattern for a new object of the same time or
    source and flags, without own properties, any other object for its
    entry in the WeakMap. *)
Definition twin (h0 : heap) (vis : gmap loc loc) (h : heap) (v v' : value) : Prop :=
  match v with
  | VRef x =>
      if is_function h0 x then v' = v
      else
        match o_kind (deref h0 x) with
        | KDate _ | KRegExp _ _ =>
            ∃ c, v' = VRef c ∧ length h0 ≤ c < length h ∧
                 o_kind (deref h c) = o_kind (deref h0 x) ∧ o_props (deref h c) = []
        | _ => ∃ c, vis !! x = Some c ∧ v' = VRef c
        end
  | _ => v' = v
  end.

(** A property of the clone of a plain record: the same key, enumerable,
    holding the twin of what the source reads there (a getter is read
    once and becomes a data property). *)
Definition twin_assigned (h0 : heap) (vis : gmap loc loc) (h : heap) (p p' : property) : Prop :=
  p_key p' = p_key p ∧ p_enumerable p' = true ∧
  ∃ x x', read_slot (p_slot p) = Ret x ∧ p_slot p' = Data x' ∧ twin h0 vis h x x'.

(** A property of the clone of an object with a custom prototype: the
    same key and enumerability; a data property holds the twin of the
    source's value, an accessor is the source's accessor. *)
Definition twin_defined (h0 : heap) (vis : gmap loc loc) (h : heap) (p p' : property) : Prop :=
  p_key p' = p_key p ∧ p_enumerable p' = p_enumerable p ∧
  match p_slot p with
  | Data x => ∃ x', p_slot p' = Data x' ∧ twin h0 vis h x x'
  | Accessor g => p_slot p' = Accessor g
  end.

Definition twin_entry (h0 : heap) (vis : gmap loc loc) (h : heap) (e e' : value * value) : Prop :=
  twin h0 vis h e.1 e'.1 ∧ twin h0 vis h e.2 e'.2.

(** [mirror h0 vis h s c]: the object at [c] in [h] is the copy of the
    source object at [s]: the same kind of container holding, position by
    position, the twins of what the source holds.  Of an array, a map or a
    set only the contents are copied, not the properties; of a plain
    record the enumerable string-keyed and all the symbol-keyed
    properties; of an object with a custom prototype all the properties,
    under the same prototype object. *)
Definition mirror (h0 : heap) (vis : gmap loc loc) (h : heap) (s c : loc) : Prop :=
  let o := deref h0 s in
  let o' := deref h c in
  match o_kind o with
  | KArray elems =>
      ∃ elems', o_kind o' = KArray elems' ∧ o_props o' = [] ∧
                Forall2 (twin h0 vis h) elems elems'
  | KMap entries =>
      ∃ entries', o_kind o' = KMap entries' ∧ o_props o' = [] ∧
                  Forall2 (twin_entry h0 vis h) entries entries'
  | KSet members =>
      ∃ members', o_kind o' = KSet members' ∧ o_props o' = [] ∧
                  Forall2 (twin h0 vis h) members members'
  | KPlain null_proto =>
      o_kind o' = KPlain null_proto ∧
      Forall2 (twin_assigned h0 vis h)
        (Object_keys o ++ Object_getOwnPropertySymbols o) (o_props o')
  | KCustom proto =>
      o_kind o' = KCustom proto ∧
      Forall2 (twin_defined h0 vis h)
        (Object_getOwnPropertyNames o ++ Object_getOwnPropertySymbols o) (o_props o')
  | KDate _ | KRegExp _ _ | KFunction => True
  end.

(** The state of a copy in progress, beyond [cloning]: the WeakMap is
    injective, and it records no date, no pattern and no function, nor
    points at the copy of one. *)
Record copying (h0 : heap) (vis : gmap loc loc) (h : heap) : Prop := {
  k_cloning : cloning h0 vis h;
  k_inj : ∀ s1 s2 c, vis !! s1 = Some c → vis !! s2 = Some c → s1 = s2;
  k_kind : ∀ s c, vis !! s = Some c → ¬ dated (deref h c);
  k_src : ∀ s c, vis !! s = Some c → ¬ dated (deref h0 s) ∧ is_function h0 s = false
}.

(** [kept h h']: the store has only grown, the objects that were there
    are still the same kind of container, and the dates and patterns among
    them have the properties they had. *)
Definition kept (h h' : heap) : Prop :=
  length h ≤ length h' ∧
  ∀ c, c < length h →
       shape (o_kind (deref h' c)) = shape (o_kind (deref h c)) ∧
       (dated (deref h c) → o_props (deref h' c) = o_props (deref h c)).

(** What a call of the clone engine on [v] achieves, from the WeakMap
    [vis] and the store [h]. *)
Record copied (h0 : heap) (vis : gmap loc loc) (h : heap) (v v' : value)
    (vis' : gmap loc loc) (h' : heap) : Prop := {
  d_copying : copying h0 vis' h';
  d_grow : vis ⊆ vis' ∧ length h ≤ length h';
  d_frame : ∀ c, c < length h → deref h' c = deref h c;
  d_value : clone_value h0 (length h') v';
  d_twin : twin h0 vis' h' v v';
  d_new : ∀ x c, v = VRef x → v' = VRef c → is_function h0 x = false → vis !! x = None →
                 length h ≤ c;
  d_mirror : ∀ s c, vis' !! s = Some c → vis !! s = None →
                    length h ≤ c ∧ mirror h0 vis' h' s c
}.

(** What a loop that fills the clone at [clone] achieves. *)
Record filled (h0 : heap) (clone : loc) (vis : gmap loc loc) (h : heap)
    (vis' : gmap loc loc) (h' : heap) : Prop := {
  f_copying : copying h0 vis' h';
  f_grow : vis ⊆ vis' ∧ length h ≤ length h';
  f_frame : ∀ c, c < length h → c ≠ clone → deref h' c = deref h c;
  f_shape : shape (o_kind (deref h' clone)) = shape (o_kind (deref h clone));
  f_mirror : ∀ s c, vis' !! s = Some c → vis !! s = None →
                    length h ≤ c ∧ mirror h0 vis' h' s c
}.

(** What the recursive calls inside a loop are known to do. *)
Definition copier (h0 : heap) (rec : cloner) : Prop :=
  ∀ v vis h v' vis' h',
    copying h0 vis h → source_value h0 v → rec v vis h = Ret (v', vis', h') →
    copied h0 vis h v v' vis' h'.

(** [const shared = [1]; const obj = { a: shared, b: shared, when: new Date(0) };
    shared.push(obj)]: an array held twice, a cycle and a date. *)
Definition shared_source : heap :=
  [record [data "a" (VRef 1); data "b" (VRef 1); data "when" (VRef 2)] false;
   Obj (KArray [VNumber 1; VRef 0]) [] false;
   Obj (KDate 0) [] false].

(** The store after [frozenCopy(obj)] on [shared_source]. *)
Definition shared_copy : heap :=
  shared_source ++
  [record [data "a" (VRef 4); data "b" (VRef 4); data "when" (VRef 5)] true;
   Obj (KArray [VNumber 1; VRef 3]) [] true;
   Obj (KDate 0) [] true].

(** [const shared = { x: 1 };
    const obj = Object.defineProperty(Object.create(proto), "inner",
      { get: () => shared, enumerable: true })]: an object with a custom
    prototype whose getter yields a container. *)
Definition getter_source : heap :=
  [Obj (KCustom 1) [Prop_ (PStr "inner") true (Accessor (Some (VRef 2)))] false;
   record [] false;
   record [data "x" (VNumber 1)] false].

(** [JSON.parse('{ "__proto__": { "x": 1 } }')]: a record that inherits
    from [Object.prototype] and has an own enumerable key [__proto__]. *)
Definition proto_key_source : heap :=
  [record [data "__proto__" (VRef 1)] false; record [data "x" (VNumber 1)] false].

(** ** copy.ts: [frozenCopyAll], [frozenCopyRecord], [snapshotHistory] *)

(** The elements of what is typed as an array ([T[]]); array-likes of
    other kinds are outside the model. *)
Definition array_elements (o : object) : list value :=
  match o_kind o with
  | KArray elems => elems
  | _ => []
  end.

Section BatchCopy.

Variable call : loc → loc → heap → res (value * heap).

(** [for (i ...) result[i] = frozenCopy(objects[i]);] *)
Fixpoint copy_each (result : loc) (objects : list value) (i : nat) (h : heap) : res heap :=
  match objects with
  | [] => Ret h
  | obj :: objects =>
      let! r := frozenCopy call obj h in
      let! h := set_element r.2 result i r.1 in
      copy_each result objects (S i) h
  end.

(** The rest parameter [objects] is the list of the arguments. *)
Definition frozenCopyAll (objects : list value) (h : heap) : res (value * heap) :=
  let a := alloc (new_Array (length objects)) h in
  let! h := copy_each a.1 objects 0 a.2 in
  Ret (VRef a.1, h).

(** [for (i ...) { key = keys[i]; result[key] = frozenCopy(record[key]); }] *)
Fixpoint copy_values (record result : loc) (keys : list string) (h : heap) : res heap :=
  match keys with
  | [] => Ret h
  | key :: keys =>
      let! x := get_named h record key in
      let! r := frozenCopy call x h in
      let! h := put_value r.2 result (PStr key) r.1 in
      copy_values record result keys h
  end.

Definition frozenCopyRecord (record : loc) (h : heap) : res (value * heap) :=
  let a := alloc (fresh (KPlain false)) h in
  let keys := key_names (deref a.2 record) in
  let! h := copy_values record a.1 keys a.2 in
  Ret (VRef a.1, h).

(** [for (i = 0; i < states.length; i++) result[i] = frozenCopy(states[i]);]
    The array [states] is read anew in every round; [fuel] bounds the
    rounds. *)
Fixpoint snapshot_each (fuel : nat) (states result : loc) (i : nat) (h : heap) : res heap :=
  match fuel with
  | 0 => OutOfFuel
  | S fuel =>
      match array_elements (deref h states) !! i with
      | Some x =>
          let! r := frozenCopy call x h in
          let! h := set_element r.2 result i r.1 in
          snapshot_each fuel states result (S i) h
      | None => Ret h
      end
  end.

Definition snapshotHistory (states : loc) (h : heap) : res (value * heap) :=
  let n := length (array_elements (deref h states)) in
  let a := alloc (new_Array n) h in
  let! h := snapshot_each (S n) states a.1 0 a.2 in
  Ret (VRef a.1, h).

End BatchCopy.

(** [fresh_or_function h0 h v]: in [h], the value [v] denotes no container
    of [h0]: it is a primitive, a function, or an object allocated after
    [h0]. *)
Definition fresh_or_function (h0 h : heap) (v : value) : Prop :=
  source_value h v ∧ ∀ l, v = VRef l → is_function h l = false → length h0 ≤ l.

(** [apart h0 h]: [h] is [h0] followed by objects that hold no container
    of [h0]; it has no dangling reference, no own property named [freeze]
    and no getter that yields a container. *)
Definition apart (h0 h : heap) : Prop :=
  length h0 ≤ length h ∧
  (∀ s, s < length h0 → deref h s = deref h0 s) ∧
  heap_closed h ∧ no_custom_freeze_in h ∧ accessors_atomic h ∧
  ∀ c v, length h0 ≤ c → v ∈ object_values (deref h c) → fresh_or_function h0 h v.

(** Every clone the table records was allocated after [h0]. *)
Definition table_fresh (h0 : heap) (visited : gmap loc loc) (h : heap) : Prop :=
  ∀ s c, visited !! s = Some c → length h0 ≤ c < length h.

(** What a call of the clone engine keeps of [apart]: the objects that
    existed before the call are as they were, the result denotes no
    container of [h0]. *)
Definition keeps_apart (h0 : heap) (rec : cloner) : Prop :=
  ∀ v visited h v' visited' h',
    apart h0 h → table_fresh h0 visited h → source_value h0 v →
    rec v visited h = Ret (v', visited', h') →
    apart h0 h' ∧ table_fresh h0 visited' h' ∧ length h ≤ length h' ∧
    fresh_or_function h0 h' v' ∧ ∀ c, c < length h → deref h' c = deref h c.

(** The same for a loop that fills the clone at [clone]. *)
Definition fills_apart (h0 : heap) (clone : loc) (visited : gmap loc loc) (h : heap)
    (r : res (gmap loc loc * heap)) : Prop :=
  ∀ visited' h', r = Ret (visited', h') →
    apart h0 h' ∧ table_fresh h0 visited' h' ∧ length h ≤ length h' ∧
    ∀ c, c < length h → c ≠ clone → deref h' c = deref h c.

(** A property of a source object of [h0], as the clone engine meets it. *)
Definition source_property (h0 : heap) (p : property) : Prop :=
  p_key p ≠ PStr "freeze" ∧
  Forall (source_value h0) (slot_values (p_slot p)) ∧
  ∀ f, p_slot p = Accessor (Some (VRef f)) → is_function h0 f = true.

(** The stores the batch copy functions are specified on: no dangling
    reference, no own property named [freeze], no getter that yields a
    container, no record inheriting from [Object.prototype] that lists
    [__proto__] among its keys. *)
Definition tidy (h : heap) : Prop :=
  heap_closed h ∧ no_custom_freeze_in h ∧ accessors_atomic h ∧ proto_free h.

(** [copy_in h' lo hi x y]: in [h'], [y] stands for [x] as a frozen copy
    made of objects of the range from [lo] to [hi]: a primitive is
    itself; for an object, every container at or below [y] lies in the
    range and is frozen. *)
Definition copy_in (h' : heap) (lo hi : nat) (x y : value) : Prop :=
  match x with
  | VRef _ => ∃ c, y = VRef c ∧
                   ∀ z, contained h' y z → lo ≤ z < hi ∧ o_frozen (deref h' z) = true
  | _ => y = x
  end.

(** The copies [ys] of [xs] lie one after the other in the store, from
    [lo] on. *)
Fixpoint copies_in (h' : heap) (lo : nat) (xs ys : list value) : Prop :=
  match xs, ys with
  | [], [] => lo ≤ length h'
  | x :: xs, y :: ys => ∃ hi, lo ≤ hi ∧ copy_in h' lo hi x y ∧ copies_in h' hi xs ys
  | _, _ => False
  end.

(** A property of the record [frozenCopyRecord] builds from [o]: named as
    one of the keys of [o], it holds a frozen copy of what [o] reads
    there. *)
Definition copied_property (o : object) (h' : heap) (lo : nat) (p : property) : Prop :=
  ∃ name x y, p = data name y ∧ name ∈ key_names o ∧ read_named o name = Ret x ∧
              source_value h' y ∧ copy_in h' lo (length h') x y.

(** [const history = [{ version: 1 }, { version: 2 }]] *)
Definition history_source : heap :=
  [record [data "version" (VNumber 1)] false;
   record [data "version" (VNumber 2)] false;
   Obj (KArray [VRef 0; VRef 1]) [] false].

(** ** Basic facts about the store *)

Lemma typeof_ref (h : heap) (v : value) :
  (v ≠ VNull ∧ v ≠ VUndefined ∧ (typeof h v = TObject ∨ typeof h v = TFunction))
  ↔ ∃ l, v = VRef l.
Proof.
  split.
  - intros (Hn & Hu & Ht). destruct v; simpl in Ht; try (destruct Ht; congruence); eauto.
  - intros [l ->]. repeat split; try congruence. simpl. destruct (is_function h l); auto.
Qed.

Lemma deref_lookup (h : heap) (l : loc) (o : object) :
  h !! l = Some o → deref h l = o.
Proof. unfold deref. by intros ->. Qed.

Lemma deref_unfrozen_lookup (h : heap) (l : loc) :
  o_frozen (deref h l) = false → h !! l = Some (deref h l).
Proof. unfold deref. destruct (h !! l); simpl; [done | discriminate]. Qed.

Lemma deref_unfrozen_lt (h : heap) (l : loc) :
  o_frozen (deref h l) = false → l < length h.
Proof. intros H. apply deref_unfrozen_lookup in H. by eapply lookup_lt_Some. Qed.

Lemma deref_insert_eq (h : heap) (l : loc) (o : object) :
  l < length h → deref (<[l := o]> h) l = o.
Proof. intros. unfold deref. by rewrite list_lookup_insert_eq. Qed.

Lemma deref_insert_ne (h : heap) (l l' : loc) (o : object) :
  l ≠ l' → deref (<[l := o]> h) l' = deref h l'.
Proof. intros. unfold deref. by rewrite list_lookup_insert_ne. Qed.

Lemma deref_app_l (h k : heap) (l : loc) :
  l < length h → deref (h ++ k) l = deref h l.
Proof. intros. unfold deref. by rewrite lookup_app_l. Qed.

Lemma deref_alloc (h : heap) (o : object) : deref (h ++ [o]) (length h) = o.
Proof. unfold deref. by rewrite list_lookup_middle. Qed.

Lemma freezes_only_refl h : freezes_only h h.
Proof. split; [done | intros l; auto]. Qed.

Lemma freezes_only_trans h1 h2 h3 :
  freezes_only h1 h2 → freezes_only h2 h3 → freezes_only h1 h3.
Proof.
  intros [L1 H1] [L2 H2]. split; [congruence |].
  intros l. destruct (H1 l) as (? & ? & ?), (H2 l) as (? & ? & ?).
  repeat split; try congruence. auto.
Qed.

Lemma Object_freeze_length h l : length (Object_freeze h l) = length h.
Proof. unfold Object_freeze. by rewrite length_insert. Qed.

Lemma Object_freeze_eq h l :
  l < length h → deref (Object_freeze h l) l = freeze_object (deref h l).
Proof. intros. unfold Object_freeze. by rewrite deref_insert_eq. Qed.

Lemma Object_freeze_ne h l l' :
  l ≠ l' → deref (Object_freeze h l) l' = deref h l'.
Proof. intros. unfold Object_freeze. by rewrite deref_insert_ne. Qed.

Lemma Object_freeze_freezes_only h l : freezes_only h (Object_freeze h l).
Proof.
  split; [apply Object_freeze_length |].
  intros l'. destruct (decide (l = l')) as [<- | Hne].
  - destruct (decide (l < length h)).
    + rewrite Object_freeze_eq by done. simpl. auto.
    + unfold Object_freeze. rewrite list_insert_ge by lia. auto.
  - rewrite Object_freeze_ne by done. auto.
Qed.

Lemma freezes_only_is_function h h' l :
  freezes_only h h' → is_function h' l = is_function h l.
Proof. intros [_ H]. unfold is_function. destruct (H l) as (-> & _). done. Qed.

Lemma freezes_only_typeof h h' v :
  freezes_only h h' → typeof h' v = typeof h v.
Proof. intros H. destruct v; simpl; auto. by rewrite (freezes_only_is_function h h'). Qed.

(** ** Scheduling the children of one node *)

Lemma bind_Ret {A B} (m : res A) (k : A → res B) (b : B) :
  bind m k = Ret b → ∃ a, m = Ret a ∧ k a = Ret b.
Proof. destruct m; simpl; [eauto | done | done]. Qed.

Lemma push_if_object_app h st x :
  push_if_object h st x = (push_if_object h [] x ++ st).
Proof. destruct x; simpl; try done. case_bool_decide; done. Qed.

Lemma push_if_object_length h st x :
  length (push_if_object h st x) ≤ S (length st).
Proof. destruct x; simpl; try lia. case_bool_decide; simpl; lia. Qed.

Lemma push_if_object_ext h h' st x :
  (∀ v, typeof h' v = typeof h v) → push_if_object h' st x = push_if_object h st x.
Proof. intros H. destruct x; try done. unfold push_if_object. by rewrite H. Qed.

Lemma push_if_object_elem h st x l :
  l ∈ push_if_object h st x ↔ (x = VRef l ∧ is_function h l = false) ∨ l ∈ st.
Proof.
  destruct x; simpl; try (split; [auto | intros [[? _] | ?]; [discriminate | done]]).
  case_bool_decide as Ht; destruct (is_function h l0) eqn:Hf; try done.
  - rewrite elem_of_cons. split.
    + intros [-> | ?]; auto.
    + intros [[[= ->] _] | ?]; auto.
  - split; [auto |]. intros [[[= ->] ?] | ?]; [congruence | done].
Qed.

Lemma fold_push_app h xs st :
  fold_left (push_if_object h) xs st = (fold_left (push_if_object h) xs [] ++ st).
Proof.
  revert st. induction xs as [| x xs IH]; intros st; simpl; [done |].
  rewrite IH, (IH (push_if_object h [] x)), (push_if_object_app h st).
  by rewrite <- app_assoc.
Qed.

Lemma fold_push_length h xs st :
  length (fold_left (push_if_object h) xs st) ≤ length st + length xs.
Proof.
  revert st. induction xs as [| x xs IH]; intros st; simpl; [lia |].
  specialize (IH (push_if_object h st x)). pose proof (push_if_object_length h st x). lia.
Qed.

Lemma fold_push_elem h xs st l :
  l ∈ fold_left (push_if_object h) xs st ↔
  (VRef l ∈ xs ∧ is_function h l = false) ∨ l ∈ st.
Proof.
  revert st. induction xs as [| x xs IH]; intros st; simpl.
  - split; [auto |]. intros [[H _] | ?]; [by apply elem_of_nil in H | done].
  - rewrite IH, push_if_object_elem, elem_of_cons. naive_solver.
Qed.

Lemma fold_entry_app h es st :
  fold_left (push_entry h) es st = (fold_left (push_entry h) es [] ++ st).
Proof.
  revert st. induction es as [| e es IH]; intros st; simpl; [done |].
  rewrite IH, (IH (push_entry h [] e)). unfold push_entry.
  rewrite (push_if_object_app h (push_if_object h st e.1)), (push_if_object_app h st).
  rewrite (push_if_object_app h (push_if_object h [] e.1)).
  by rewrite <- !app_assoc.
Qed.

Lemma fold_entry_length h es st :
  length (fold_left (push_entry h) es st) ≤ length st + 2 * length es.
Proof.
  revert st. induction es as [| e es IH]; intros st; simpl; [lia |].
  specialize (IH (push_entry h st e)). unfold push_entry in *.
  pose proof (push_if_object_length h (push_if_object h st e.1) e.2).
  pose proof (push_if_object_length h st e.1). lia.
Qed.

Lemma fold_entry_elem h es st l :
  l ∈ fold_left (push_entry h) es st ↔
  (VRef l ∈ key_then_value es ∧ is_function h l = false) ∨ l ∈ st.
Proof.
  revert st. induction es as [| e es IH]; intros st; simpl.
  - split; [auto |]. intros [[H _] | ?]; [by apply elem_of_nil in H | done].
  - rewrite IH. unfold push_entry. rewrite !push_if_object_elem, !elem_of_cons. naive_solver.
Qed.

Lemma push_props_app h ps st :
  push_props h ps st = let! cs := push_props h ps [] in Ret (cs ++ st).
Proof.
  revert st. induction ps as [| p ps IH]; intros st; simpl; [done |].
  destruct (read_slot (p_slot p)) as [x | |]; simpl; try done.
  rewrite IH, (IH (push_if_object h [] x)).
  destruct (push_props h ps []); simpl; try done.
  by rewrite (push_if_object_app h st), <- app_assoc.
Qed.

Lemma push_props_length h ps st st' :
  push_props h ps st = Ret st' → length st' ≤ length st + length ps.
Proof.
  revert st. induction ps as [| p ps IH]; intros st; simpl.
  - intros [= <-]. lia.
  - destruct (read_slot (p_slot p)) as [x | |]; simpl; try done.
    intros H%IH. pose proof (push_if_object_length h st x). lia.
Qed.

Lemma push_props_try_app h ps st :
  push_props_try h ps st = (push_props_try h ps [] ++ st).
Proof.
  revert st. induction ps as [| p ps IH]; intros st; simpl; [done |].
  destruct (read_slot (p_slot p)) as [x | |]; simpl; try apply IH.
  rewrite IH, (IH (push_if_object h [] x)).
  by rewrite (push_if_object_app h st), <- app_assoc.
Qed.

Lemma push_props_try_length h ps st :
  length (push_props_try h ps st) ≤ length st + length ps.
Proof.
  revert st. induction ps as [| p ps IH]; intros st; simpl; [lia |].
  destruct (read_slot (p_slot p)) as [x | |]; simpl.
  - specialize (IH (push_if_object h st x)). pose proof (push_if_object_length h st x). lia.
  - specialize (IH st). lia.
  - specialize (IH st). lia.
Qed.

Lemma push_props_ext h h' ps st :
  (∀ v, typeof h' v = typeof h v) → push_props h' ps st = push_props h ps st.
Proof.
  intros H. revert st. induction ps as [| p ps IH]; intros st; simpl; [done |].
  destruct (read_slot (p_slot p)); simpl; try done.
  by rewrite IH, (push_if_object_ext h h').
Qed.

Lemma push_props_try_ext h h' ps st :
  (∀ v, typeof h' v = typeof h v) → push_props_try h' ps st = push_props_try h ps st.
Proof.
  intros H. revert st. induction ps as [| p ps IH]; intros st; simpl; [done |].
  destruct (read_slot (p_slot p)); simpl; try done.
  by rewrite IH, (push_if_object_ext h h').
Qed.

Lemma fold_push_ext h h' xs st :
  (∀ v, typeof h' v = typeof h v) →
  fold_left (push_if_object h') xs st = fold_left (push_if_object h) xs st.
Proof.
  intros H. revert st. induction xs as [| x xs IH]; intros st; simpl; [done |].
  by rewrite IH, (push_if_object_ext h h').
Qed.

Lemma fold_entry_ext h h' es st :
  (∀ v, typeof h' v = typeof h v) →
  fold_left (push_entry h') es st = fold_left (push_entry h) es st.
Proof.
  intros H. revert st. induction es as [| e es IH]; intros st; simpl; [done |].
  rewrite IH. unfold push_entry. by rewrite !(push_if_object_ext h h').
Qed.

Lemma push_generic_app h ps qs st :
  Ret (push_props_try h qs (push_props_try h ps st)) =
  let! cs := Ret (push_props_try h qs (push_props_try h ps [])) in Ret (cs ++ st).
Proof.
  simpl. f_equal.
  rewrite (push_props_try_app h qs (push_props_try h ps st)), (push_props_try_app h ps st).
  rewrite (push_props_try_app h qs (push_props_try h ps [])).
  by rewrite <- app_assoc.
Qed.

(** The pushes do not depend on what is already on the stack. *)
Lemma schedule_children_app h o st :
  schedule_children h o st = let! cs := schedule_children h o [] in Ret (cs ++ st).
Proof.
  unfold schedule_children. destruct (o_kind o); simpl.
  - by rewrite fold_push_app.
  - by rewrite fold_entry_app.
  - by rewrite fold_push_app.
  - done.
  - done.
  - apply push_generic_app.
  - rewrite push_props_app. destruct (push_props h (Object_keys o) []) as [cs | |]; simpl; try done.
    rewrite push_props_app, (push_props_app _ _ cs).
    destruct (push_props h (Object_getOwnPropertySymbols o) []); simpl; try done.
    by rewrite <- app_assoc.
  - apply push_generic_app.
Qed.

Lemma schedule_children_ext h h' o st :
  freezes_only h h' → schedule_children h' o st = schedule_children h o st.
Proof.
  intros Hf. pose proof (fun v => freezes_only_typeof h h' v Hf) as Ht.
  unfold schedule_children. destruct (o_kind o); simpl; try done.
  - by rewrite (fold_push_ext h h').
  - by rewrite (fold_entry_ext h h').
  - by rewrite (fold_push_ext h h').
  - by rewrite !(push_props_try_ext h h').
  - rewrite (push_props_ext h h') by done.
    destruct (push_props h (Object_keys o) st); simpl; try done.
    by rewrite (push_props_ext h h').
  - by rewrite !(push_props_try_ext h h').
Qed.

Lemma filter_keys_symbols_length (o : object) :
  length (Object_keys o) + length (Object_getOwnPropertySymbols o) ≤ length (o_props o).
Proof.
  unfold Object_keys, Object_getOwnPropertySymbols.
  induction (o_props o) as [| p ps IH]; simpl; [lia |].
  rewrite !filter_cons. unfold is_string_key, is_symbol_key in *.
  destruct (p_key p); simpl; repeat case_decide; simpl in *; try lia; try done.
Qed.

Lemma filter_names_symbols_length (o : object) :
  length (Object_getOwnPropertyNames o) + length (Object_getOwnPropertySymbols o)
  ≤ length (o_props o).
Proof.
  unfold Object_getOwnPropertyNames, Object_getOwnPropertySymbols.
  induction (o_props o) as [| p ps IH]; simpl; [lia |].
  rewrite !filter_cons. unfold is_string_key, is_symbol_key in *.
  destruct (p_key p); simpl; repeat case_decide; simpl in *; try lia; try done.
Qed.

Lemma schedule_children_length h o st st' :
  schedule_children h o st = Ret st' → length st' ≤ length st + slots o.
Proof.
  unfold schedule_children, slots. destruct (o_kind o) eqn:Hk; simpl.
  - intros [= <-]. apply fold_push_length.
  - intros [= <-]. apply fold_entry_length.
  - intros [= <-]. apply fold_push_length.
  - intros [= <-]. lia.
  - intros [= <-]. lia.
  - intros [= <-].
    pose proof (push_props_try_length h (Object_getOwnPropertySymbols o)
                  (push_props_try h (Object_getOwnPropertyNames o) st)).
    pose proof (push_props_try_length h (Object_getOwnPropertyNames o) st).
    pose proof (filter_names_symbols_length o). lia.
  - intros (st1 & H1 & H2)%bind_Ret.
    apply push_props_length in H1, H2. pose proof (filter_keys_symbols_length o). lia.
  - intros [= <-].
    pose proof (push_props_try_length h (Object_getOwnPropertySymbols o)
                  (push_props_try h (Object_getOwnPropertyNames o) st)).
    pose proof (push_props_try_length h (Object_getOwnPropertyNames o) st).
    pose proof (filter_names_symbols_length o). lia.
Qed.

Lemma push_props_fuel h ps st : push_props h ps st ≠ OutOfFuel.
Proof.
  revert st. induction ps as [| p ps IH]; intros st; simpl; [done |].
  destruct (p_slot p) as [x | [x |]]; simpl; try done; apply IH.
Qed.

Lemma schedule_children_fuel h o st : schedule_children h o st ≠ OutOfFuel.
Proof.
  unfold schedule_children. destruct (o_kind o); simpl; try done.
  destruct (push_props h (Object_keys o) st) eqn:E; simpl; try done.
  - apply push_props_fuel.
  - by apply push_props_fuel in E.
Qed.

(** ** The freeze loop terminates *)

Lemma sum_list_insert (f : object → nat) (h : heap) (i : nat) (o o' : object) :
  h !! i = Some o →
  sum_list (map f (<[i := o']> h)) + f o = sum_list (map f h) + f o'.
Proof.
  revert i. induction h as [| x h IH]; intros [| i]; simpl; try done.
  - intros [= ->]. lia.
  - intros H. specialize (IH _ H). lia.
Qed.

Lemma unfrozen_cost_freeze h l :
  o_frozen (deref h l) = false →
  unfrozen_cost (Object_freeze h l) + S (slots (deref h l)) = unfrozen_cost h.
Proof.
  intros Hf. unfold unfrozen_cost, Object_freeze.
  pose proof (sum_list_insert cost h l (deref h l) (freeze_object (deref h l))
                (deref_unfrozen_lookup h l Hf)) as H.
  assert (cost (deref h l) = S (slots (deref h l))) as E1 by (unfold cost; by rewrite Hf).
  assert (cost (freeze_object (deref h l)) = 0) as E2 by done.
  lia.
Qed.

Lemma unfrozen_cost_le h : S (unfrozen_cost h) ≤ freeze_fuel h.
Proof.
  unfold freeze_fuel, unfrozen_cost. apply le_n_S.
  induction h as [| o h IH]; simpl; [lia |].
  assert (cost o ≤ S (slots o)) by (unfold cost; destruct (o_frozen o); lia). lia.
Qed.

Lemma freeze_loop_fuel fuel stack visited h :
  length stack + unfrozen_cost h ≤ fuel → freeze_loop fuel stack visited h ≠ OutOfFuel.
Proof.
  revert stack visited h. induction fuel as [| fuel IH]; intros stack visited h Hle.
  - destruct stack; simpl in *; [done | lia].
  - destruct stack as [| cur rest]; simpl; [done |].
    destruct (bool_decide (cur ∈ visited) || o_frozen (deref h cur)) eqn:Hskip.
    + apply IH. simpl in Hle. lia.
    + apply orb_false_iff in Hskip as [_ Hf].
      destruct (schedule_children h (deref h cur) rest) as [st | |] eqn:Hs; simpl; try done.
      * apply IH. apply schedule_children_length in Hs.
        pose proof (unfrozen_cost_freeze h cur Hf). simpl in Hle. lia.
      * by apply schedule_children_fuel in Hs.
Qed.

(** ** What the freeze loop leaves behind *)

Lemma thaw_path_start h l l' : thaw_path h l l' → o_frozen (deref h l) = false.
Proof. by destruct 1. Qed.

Lemma thaw_path_end h l l' : thaw_path h l l' → o_frozen (deref h l') = false.
Proof. induction 1; auto. Qed.

Lemma thaw_path_snoc h l m c :
  thaw_path h l m → scheduled h m c → o_frozen (deref h c) = false → thaw_path h l c.
Proof.
  induction 1 as [l Hl | l d m Hl Hd _ IH]; intros Hs Hc.
  - eapply thaw_step; eauto. by apply thaw_here.
  - eapply thaw_step; eauto.
Qed.

Lemma loop_inv_init h roots : loop_inv h roots h roots ∅.
Proof.
  split.
  - apply freezes_only_refl.
  - intros l Hl. by apply not_elem_of_empty in Hl.
  - auto.
  - congruence.
  - intros l Hl. destruct (o_frozen (deref h l)) eqn:Hf; [auto | right].
    exists l. split; [done | by apply thaw_here].
  - congruence.
Qed.

Lemma loop_inv_skip h0 roots h cur rest visited :
  loop_inv h0 roots h (cur :: rest) visited →
  bool_decide (cur ∈ visited) || o_frozen (deref h cur) = true →
  loop_inv h0 roots h rest visited.
Proof.
  intros [I1 I2 I3 I4 I5 I6] Hskip.
  assert (o_frozen (deref h cur) = true) as Hcur.
  { apply orb_true_iff in Hskip as [Hv%bool_decide_eq_true | ?]; auto. }
  split; auto.
  - intros r Hr. destruct (I3 r Hr) as [? | [-> | ?]%elem_of_cons]; auto.
  - intros l c H0 H1 Hs. destruct (I4 l c H0 H1 Hs) as [? | [-> | ?]%elem_of_cons]; auto.
  - intros l Hl. apply I5. by right.
Qed.

Lemma loop_inv_expand h0 roots h cur rest visited stack' :
  loop_inv h0 roots h (cur :: rest) visited →
  o_frozen (deref h cur) = false →
  schedule_children h (deref h cur) rest = Ret stack' →
  loop_inv h0 roots (Object_freeze h cur) stack' ({[cur]} ∪ visited).
Proof.
  intros [I1 I2 I3 I4 I5 I6] Hcur Hs.
  pose proof (deref_unfrozen_lt h cur Hcur) as Hlt.
  pose proof (Object_freeze_freezes_only h cur) as [_ Hfr].
  assert (o_frozen (deref (Object_freeze h cur) cur) = true) as Hcur'.
  { by rewrite Object_freeze_eq. }
  assert (o_frozen (deref h0 cur) = false) as Hcur0.
  { destruct (o_frozen (deref h0 cur)) eqn:E; [| done].
    destruct I1 as [_ I1]. destruct (I1 cur) as (_ & _ & Hm). rewrite Hm in Hcur; done. }
  assert (deref h cur = deref h0 cur ∨ True) as _ by auto.
  rewrite schedule_children_app in Hs.
  apply bind_Ret in Hs as (cs & Hcs & [= <-]).
  assert (schedule_children h0 (deref h0 cur) [] = Ret cs) as Hcs0.
  { rewrite <- (schedule_children_ext h0 h) by done.
    destruct I1 as [_ I1]. destruct (I1 cur) as (Hk & Hp & _).
    rewrite <- Hcs. unfold schedule_children, Object_keys, Object_getOwnPropertySymbols,
      Object_getOwnPropertyNames. by rewrite Hk, Hp. }
  assert (∃ r, r ∈ roots ∧ thaw_path h0 r cur) as (r & Hr & Hpath).
  { destruct (I5 cur) as [? | ?]; [by left | congruence | done]. }
  split.
  - eapply freezes_only_trans; [done | apply Object_freeze_freezes_only].
  - intros l [->%elem_of_singleton | Hl]%elem_of_union; [done |].
    destruct (Hfr l) as (_ & _ & Hm). auto.
  - intros r' Hr'. destruct (I3 r' Hr') as [Hf | [-> | ?]%elem_of_cons].
    + left. destruct (Hfr r') as (_ & _ & Hm). auto.
    + by left.
    + right. apply elem_of_app. by right.
  - intros l c H0 H1 Hsch. destruct (decide (l = cur)) as [-> | Hne].
    + right. destruct Hsch as (cs' & Hcs' & Hc). rewrite Hcs0 in Hcs'.
      injection Hcs' as <-. apply elem_of_app. by left.
    + rewrite Object_freeze_ne in H1 by done.
      destruct (I4 l c H0 H1 Hsch) as [Hf | [-> | ?]%elem_of_cons].
      * left. destruct (Hfr c) as (_ & _ & Hm). auto.
      * by left.
      * right. apply elem_of_app. by right.
  - intros l [Hl | Hl]%elem_of_app.
    + destruct (o_frozen (deref h0 l)) eqn:Hl0; [by left | right].
      exists r. split; [done |]. eapply thaw_path_snoc; [done | | done].
      by exists cs.
    + apply I5. by right.
  - intros l H0 H1. destruct (decide (l = cur)) as [-> | Hne]; [eauto |].
    rewrite Object_freeze_ne in H1 by done. auto.
Qed.

Lemma freeze_loop_inv h0 roots fuel stack visited h h' :
  loop_inv h0 roots h stack visited →
  freeze_loop fuel stack visited h = Ret h' →
  ∃ visited', loop_inv h0 roots h' [] visited'.
Proof.
  revert stack visited h. induction fuel as [| fuel IH]; intros stack visited h Hinv.
  - destruct stack; simpl; [| done]. intros [= <-]. eauto.
  - destruct stack as [| cur rest]; simpl.
    { intros [= <-]. eauto. }
    destruct (bool_decide (cur ∈ visited) || o_frozen (deref h cur)) eqn:Hskip.
    + apply IH. by eapply loop_inv_skip.
    + intros (stack' & Hs & Hloop)%bind_Ret.
      apply orb_false_iff in Hskip as [_ Hf].
      eapply IH; [| done]. by eapply loop_inv_expand.
Qed.

(** The loop freezes exactly the nodes that a path of unfrozen nodes links
    to a root, and changes nothing else. *)
Theorem freeze_loop_spec fuel roots h h' :
  freeze_loop fuel roots ∅ h = Ret h' →
  freezes_only h h' ∧
  ∀ l, o_frozen (deref h' l) = true ↔
       o_frozen (deref h l) = true ∨ ∃ r, r ∈ roots ∧ thaw_path h r l.
Proof.
  intros Hloop.
  destruct (freeze_loop_inv h roots fuel roots ∅ h h' (loop_inv_init h roots) Hloop)
    as (visited' & [I1 I2 I3 I4 I5 I6]).
  split; [done |]. intros l. split.
  - intros Hl'. destruct (o_frozen (deref h l)) eqn:Hl; [by left | right]. auto.
  - intros [Hl | (r & Hr & Hpath)].
    + destruct I1 as [_ I1]. destruct (I1 l) as (_ & _ & Hm). auto.
    + assert (o_frozen (deref h' r) = true) as Hr'.
      { destruct (I3 r Hr) as [? | Hnil]; [done | by apply elem_of_nil in Hnil]. }
      clear Hr. induction Hpath as [l Hl | l c l' Hl Hs Hpath IH]; [done |].
      apply IH. destruct (I4 l c Hl Hr' Hs) as [? | Hnil]; [done | by apply elem_of_nil in Hnil].
Qed.

(** ** Functions are never scheduled *)

Lemma push_props_elem h ps st st' l :
  push_props h ps st = Ret st' → l ∈ st' → is_function h l = false ∨ l ∈ st.
Proof.
  revert st. induction ps as [| p ps IH]; intros st; simpl.
  - intros [= <-]. auto.
  - intros (x & Hx & Hps)%bind_Ret Hl.
    destruct (IH _ Hps Hl) as [? | [[_ ?] | ?]%push_if_object_elem]; auto.
Qed.

Lemma push_props_try_elem h ps st l :
  l ∈ push_props_try h ps st → is_function h l = false ∨ l ∈ st.
Proof.
  revert st. induction ps as [| p ps IH]; intros st; simpl; [auto |].
  destruct (read_slot (p_slot p)); auto.
  intros Hl. destruct (IH _ Hl) as [? | [[_ ?] | ?]%push_if_object_elem]; auto.
Qed.

Lemma schedule_children_elem h o st st' l :
  schedule_children h o st = Ret st' → l ∈ st' → is_function h l = false ∨ l ∈ st.
Proof.
  unfold schedule_children. destruct (o_kind o); simpl.
  - intros [= <-] [[_ ?] | ?]%fold_push_elem; auto.
  - intros [= <-] [[_ ?] | ?]%fold_entry_elem; auto.
  - intros [= <-] [[_ ?] | ?]%fold_push_elem; auto.
  - intros [= <-]; auto.
  - intros [= <-]; auto.
  - intros [= <-] Hl. apply push_props_try_elem in Hl as [? | Hl]; auto.
    apply push_props_try_elem in Hl as [? | Hl]; auto.
  - intros (st1 & H1 & H2)%bind_Ret Hl.
    destruct (push_props_elem _ _ _ _ _ H2 Hl) as [? | Hl1]; auto.
    destruct (push_props_elem _ _ _ _ _ H1 Hl1) as [? | ?]; auto.
  - intros [= <-] Hl. apply push_props_try_elem in Hl as [? | Hl]; auto.
    apply push_props_try_elem in Hl as [? | Hl]; auto.
Qed.

Lemma scheduled_not_function h l c : scheduled h l c → is_function h c = false.
Proof.
  intros (cs & Hcs & Hc).
  destruct (schedule_children_elem _ _ _ _ _ Hcs Hc) as [? | Hnil]; [done |].
  by apply elem_of_nil in Hnil.
Qed.

Lemma thaw_path_function h l f :
  thaw_path h l f → is_function h f = true → f = l.
Proof.
  induction 1 as [| l c f _ Hs Hp IH]; [done |]. intros Hf.
  specialize (IH Hf) as ->. apply scheduled_not_function in Hs. congruence.
Qed.

(** ** Frozen objects reject writes *)

Lemma frozen_rejects_writes h l :
  o_frozen (deref h l) = true → rejects_writes h l.
Proof.
  intros Hf. unfold rejects_writes, set_property, defineProperty, set_element, delete_property.
  rewrite Hf. repeat split; try done.
  intros k [p ->]. done.
Qed.

(** ** [freeze] always comes back *)

Lemma Forall_filter_keep {A} (P Q : A → Prop) `{∀ x, Decision (Q x)} (l : list A) :
  Forall P l → Forall P (filter Q l).
Proof.
  rewrite !Forall_forall. intros HP x [_ Hx]%list_elem_of_filter. auto.
Qed.

Lemma push_props_safe h ps st :
  Forall (fun p => p_slot p ≠ Accessor None) ps → ∃ st', push_props h ps st = Ret st'.
Proof.
  revert st. induction ps as [| p ps IH]; intros st Hs; simpl; [eauto |].
  apply Forall_cons in Hs as [Hp Hs].
  destruct (p_slot p) as [x | [x |]]; simpl; [by apply IH | by apply IH | done].
Qed.

Lemma schedule_children_safe h o st :
  getters_safe o → ∃ st', schedule_children h o st = Ret st'.
Proof.
  intros Hs. unfold schedule_children. destruct (o_kind o); simpl; eauto.
  destruct (push_props_safe h (Object_keys o) st) as [st1 ->].
  { apply Forall_filter_keep, Hs. }
  simpl. apply push_props_safe. apply Forall_filter_keep, Hs.
Qed.

Lemma freezes_only_safe h h' :
  freezes_only h h' → Forall getters_safe h → ∀ l, getters_safe (deref h' l).
Proof.
  intros [_ Hf] Hs l. destruct (Hf l) as (_ & Hp & _).
  unfold getters_safe. rewrite Hp. unfold deref.
  destruct (h !! l) as [o |] eqn:E; simpl; [| by apply Forall_nil].
  eapply Forall_lookup_1 in Hs; [| done]. apply Hs.
Qed.

Lemma freeze_loop_safe fuel stack visited h :
  (∀ l, getters_safe (deref h l)) →
  length stack + unfrozen_cost h ≤ fuel →
  ∃ h', freeze_loop fuel stack visited h = Ret h'.
Proof.
  revert stack visited h. induction fuel as [| fuel IH]; intros stack visited h Hs Hle.
  - destruct stack; simpl in *; [eauto | lia].
  - destruct stack as [| cur rest]; simpl; [eauto |].
    destruct (bool_decide (cur ∈ visited) || o_frozen (deref h cur)) eqn:Hskip.
    + apply IH; [done |]. simpl in Hle. lia.
    + apply orb_false_iff in Hskip as [_ Hf].
      destruct (schedule_children_safe h (deref h cur) rest (Hs cur)) as [st Hst].
      rewrite Hst. simpl. apply IH.
      * intros l. destruct (Object_freeze_freezes_only h cur) as [_ Hfr].
        destruct (Hfr l) as (_ & Hp & _). unfold getters_safe. rewrite Hp. apply Hs.
      * apply schedule_children_length in Hst.
        pose proof (unfrozen_cost_freeze h cur Hf). simpl in Hle. lia.
Qed.

Lemma deref_safe h : Forall getters_safe h → ∀ l, getters_safe (deref h l).
Proof. intros Hs. apply (freezes_only_safe h h); [apply freezes_only_refl | done]. Qed.

Section FreezeFacts.

Variable call : loc → loc → heap → res (value * heap).

Lemma freeze_primitive v h : (∀ l, v ≠ VRef l) → freeze call v h = Ret (v, h).
Proof. intros H. destruct v; try done. by destruct (H l). Qed.

Lemma freeze_frozen v h : Object_isFrozen h v = true → freeze call v h = Ret (v, h).
Proof. intros H. destruct v; try done. simpl in *. by rewrite H. Qed.

Lemma freeze_traverses l h :
  o_frozen (deref h l) = false → isFreezable h (VRef l) = Ret false →
  freeze call (VRef l) h =
  let! h' := freeze_loop (freeze_fuel h) [l] ∅ h in Ret (VRef l, h').
Proof. intros Hf Hz. unfold freeze, Object_isFrozen. by rewrite Hf, Hz. Qed.

Lemma isFreezable_true h l :
  isFreezable h (VRef l) = Ret true →
  ∃ f, get_property h l (PStr "freeze") = Ret (VRef f) ∧ is_function h f = true.
Proof.
  unfold isFreezable. case_bool_decide; [| done].
  destruct (has_property h l (PStr "freeze")); [| done].
  destruct (get_property h l (PStr "freeze")) as [f | |]; simpl; try done.
  intros [= Ht]. apply bool_decide_eq_true in Ht.
  destruct f; simpl in Ht; try done. exists l0. split; [done |].
  by destruct (is_function h l0).
Qed.

Lemma freeze_delegates l h f :
  o_frozen (deref h l) = false → isFreezable h (VRef l) = Ret true →
  get_property h l (PStr "freeze") = Ret (VRef f) →
  freeze call (VRef l) h = call f l h.
Proof.
  intros Hf Hz Hg. unfold freeze, Object_isFrozen. rewrite Hf, Hz. unfold bind.
  by rewrite Hg.
Qed.

Lemma freeze_traversal_spec l h r h' :
  o_frozen (deref h l) = false → isFreezable h (VRef l) = Ret false →
  freeze call (VRef l) h = Ret (r, h') →
  r = VRef l ∧ freezes_only h h' ∧
  ∀ l', o_frozen (deref h' l') = true ↔ o_frozen (deref h l') = true ∨ thaw_path h l l'.
Proof.
  intros Hf Hz. rewrite freeze_traverses by done.
  intros (h1 & Hloop & [= <- <-])%bind_Ret.
  apply freeze_loop_spec in Hloop as [Hshape Hiff].
  repeat split; try done; try apply Hshape.
  - intros Hl. apply Hiff in Hl as [? | (r & ->%list_elem_of_singleton & ?)]; auto.
  - intros [? | ?]; apply Hiff; [auto | right]. exists l. split; [by apply list_elem_of_singleton | done].
Qed.

Lemma freeze_traversal_returns l h :
  o_frozen (deref h l) = false → isFreezable h (VRef l) = Ret false →
  freeze call (VRef l) h ≠ OutOfFuel ∧
  (Forall getters_safe h → ∃ h', freeze call (VRef l) h = Ret (VRef l, h')).
Proof.
  intros Hf Hz. rewrite freeze_traverses by done.
  pose proof (unfrozen_cost_le h) as Hle. split.
  - pose proof (freeze_loop_fuel (freeze_fuel h) [l] ∅ h) as Hfuel.
    destruct (freeze_loop (freeze_fuel h) [l] ∅ h); simpl; try done.
    exfalso. apply Hfuel; [simpl; lia | done].
  - intros Hs. destruct (freeze_loop_safe (freeze_fuel h) [l] ∅ h) as [h' ->]; simpl; eauto.
    by apply deref_safe.
Qed.

End FreezeFacts.

(** ** The deep-frozen predicate *)

Lemma unvisited_mono h vis vis' :
  vis ⊆ vis' → size (unvisited h vis') ≤ size (unvisited h vis).
Proof. intros H. apply subseteq_size. unfold unvisited. set_solver. Qed.

Lemma unvisited_visit h vis l :
  l < length h → l ∉ vis → size (unvisited h ({[l]} ∪ vis)) < size (unvisited h vis).
Proof.
  intros Hl Hn. apply subset_size. unfold unvisited.
  assert (l ∈ (set_seq 0 (length h) : gset loc)) by (apply elem_of_set_seq; lia).
  set_solver.
Qed.

Lemma unvisited_empty h : size (unvisited h ∅) = length h.
Proof. unfold unvisited. rewrite difference_empty_L. apply size_set_seq. Qed.

(** No call takes anything out of the WeakSet. *)
Lemma every_mono (check : checker) cs vis :
  (∀ c v, v ⊆ (check c v).2) → vis ⊆ (every check cs vis).2.
Proof.
  intros Hc. revert vis. induction cs as [| c cs IH]; intros vis; simpl; [done |].
  pose proof (Hc c vis) as Hm. destruct (check c vis) as [[[] |] w]; simpl in *; try done.
  etrans; [exact Hm | apply IH].
Qed.

Lemma every_try_mono (check : checker) cs vis :
  (∀ c v, v ⊆ (check c v).2) → vis ⊆ (every_try check cs vis).2.
Proof.
  intros Hc. revert vis. induction cs as [| c cs IH]; intros vis; simpl; [done |].
  pose proof (Hc c vis) as Hm. destruct (check c vis) as [[[] |] w]; simpl in *; try done;
    (etrans; [exact Hm | apply IH]).
Qed.

Lemma isFrozenImpl_mono d h v vis : vis ⊆ (isFrozenImpl d h v vis).2.
Proof.
  revert v vis. induction d as [| d IH]; intros v vis; simpl; [done |].
  destruct v; try done. case_bool_decide; [done |].
  destruct (negb (Object_isFrozen h (VRef l))); [done |].
  assert ({[l]} ∪ vis ⊆ (every (isFrozenImpl d h) (checked_children (deref h l)) ({[l]} ∪ vis)).2)
    as H1 by (apply every_mono; intros c w; apply IH).
  assert ({[l]} ∪ vis ⊆
          (every_try (isFrozenImpl d h) (checked_children (deref h l)) ({[l]} ∪ vis)).2)
    as H2 by (apply every_try_mono; intros c w; apply IH).
  destruct (o_kind (deref h l)); set_solver.
Qed.

(** A [false] answer always points at an unfrozen node below the value,
    whatever room the stack had. *)
Lemma every_false (check : checker) (h : heap) cs vis vis' :
  (∀ c v w, check c v = (Some false, w) → ∃ l, reaches h c l ∧ o_frozen (deref h l) = false) →
  every check cs vis = (Some false, vis') →
  ∃ c l, c ∈ cs ∧ reaches h c l ∧ o_frozen (deref h l) = false.
Proof.
  intros Hc. revert vis. induction cs as [| c cs IH]; intros vis; simpl; [done |].
  destruct (check c vis) as [[[] |] w] eqn:E; [| | done].
  - intros (c' & l & ? & ?)%IH. exists c', l. split; [by right | done].
  - intros _. apply Hc in E as (l & ? & ?). exists c, l. split; [by left | done].
Qed.

Lemma every_try_false (check : checker) (h : heap) cs vis vis' :
  (∀ c v w, check c v = (Some false, w) → ∃ l, reaches h c l ∧ o_frozen (deref h l) = false) →
  every_try check cs vis = (Some false, vis') →
  ∃ c l, c ∈ cs ∧ reaches h c l ∧ o_frozen (deref h l) = false.
Proof.
  intros Hc. revert vis. induction cs as [| c cs IH]; intros vis; simpl; [done |].
  destruct (check c vis) as [[[] |] w] eqn:E.
  - intros (c' & l & ? & ?)%IH. exists c', l. split; [by right | done].
  - intros _. apply Hc in E as (l & ? & ?). exists c, l. split; [by left | done].
  - intros (c' & l & ? & ?)%IH. exists c', l. split; [by right | done].
Qed.

Lemma isFrozenImpl_false d h v vis vis' :
  isFrozenImpl d h v vis = (Some false, vis') →
  ∃ l, reaches h v l ∧ o_frozen (deref h l) = false.
Proof.
  revert v vis vis'. induction d as [| d IH]; intros v vis vis'; simpl; [done |].
  destruct v; try done. case_bool_decide; [done |].
  unfold Object_isFrozen. destruct (o_frozen (deref h l)) eqn:Hf; simpl.
  - intros Hloop.
    assert (∃ c l', c ∈ checked_children (deref h l) ∧ reaches h c l' ∧
                    o_frozen (deref h l') = false) as (c & l' & Hc & (l0 & -> & Hr) & Hl').
    { destruct (o_kind (deref h l));
        first [ by (eapply every_false; [| exact Hloop]; intros ???; apply IH)
              | by (eapply every_try_false; [| exact Hloop]; intros ???; apply IH) ]. }
    exists l'. split; [| done]. exists l. split; [done |].
    eapply rtc_l; [| done]. done.
  - intros _. exists l. split; [| done]. exists l. split; [done | apply rtc_refl].
Qed.

Lemma closed_new_refl h vis : closed_new h vis vis.
Proof. split; [done | auto]. Qed.

Lemma closed_new_trans h v1 v2 v3 :
  closed_new h v1 v2 → closed_new h v2 v3 → closed_new h v1 v3.
Proof.
  intros [S1 C1] [S2 C2]. split; [set_solver |].
  intros l Hl. destruct (C2 l Hl) as [Hl2 | ?]; [| auto].
  destruct (C1 l Hl2) as [? | [Hf Hc]]; [auto | right].
  split; [done |]. intros c Hc'. apply S2. auto.
Qed.

(** With that much room, the guarded loop and the unguarded one are the
    same loop. *)
Lemma every_enough (check : checker) (h : heap) n cs vis :
  (∀ c v, size (unvisited h v) < n → answers h [c] v (check c v)) →
  size (unvisited h vis) < n →
  answers h cs vis (every check cs vis) ∧ every_try check cs vis = every check cs vis.
Proof.
  intros Hc. revert vis. induction cs as [| c cs IH]; intros vis Hn; simpl.
  - split; [| done]. exists true, vis. split; [done |]. split; [done |]. intros _.
    split; [apply closed_new_refl |]. intros l Hl. by apply elem_of_nil in Hl.
  - destruct (Hc c vis Hn) as (b & w & -> & Hsub & Htrue). destruct b.
    + destruct (Htrue eq_refl) as [Hcl1 Hin1].
      destruct (IH w) as [(b & vis' & E & Hsub' & Htrue') ->].
      { pose proof (unvisited_mono h _ _ Hsub). lia. }
      split; [| done]. exists b, vis'. split; [done |]. split; [set_solver |].
      intros ->. destruct (Htrue' eq_refl) as [Hcl Hin]. split.
      * by eapply closed_new_trans.
      * intros l [<- | ?]%elem_of_cons; [| auto]. apply Hsub'. apply Hin1. left.
    + split; [| done]. exists false, w. split; [done |]. split; [done | done].
Qed.

Lemma isFrozenImpl_enough d h v vis :
  size (unvisited h vis) < d → answers h [v] vis (isFrozenImpl d h v vis).
Proof.
  revert v vis. induction d as [| d IH]; intros v vis Hd; [lia |]. simpl.
  assert (((∀ l, v ≠ VRef l) ∧ answers h [v] vis (Some true, vis)) ∨ ∃ l, v = VRef l)
    as [[Hne Hatom] | [l ->]].
  { destruct v as [| | b | n | s | n | s | l]; [left .. | right; by exists l];
      (split; [done |]);
      exists true, vis; (split; [done |]); (split; [done |]); intros _;
      (split; [apply closed_new_refl |]); intros l Hl; by apply list_elem_of_singleton in Hl. }
  { destruct v; try done. by destruct (Hne l). }
  case_bool_decide as Hv.
  { exists true, vis. split; [done |]. split; [done |]. intros _.
    split; [apply closed_new_refl |].
    intros l' Hl'. apply list_elem_of_singleton in Hl'. by injection Hl' as ->. }
  unfold Object_isFrozen. destruct (o_frozen (deref h l)) eqn:Hf; simpl.
  2:{ exists false, vis. split; [done |]. split; [done | done]. }
  assert (answers h (checked_children (deref h l)) ({[l]} ∪ vis)
            (every (isFrozenImpl d h) (checked_children (deref h l)) ({[l]} ∪ vis)) ∧
          every_try (isFrozenImpl d h) (checked_children (deref h l)) ({[l]} ∪ vis) =
          every (isFrozenImpl d h) (checked_children (deref h l)) ({[l]} ∪ vis)) as [Hans Htry].
  { destruct (decide (l < length h)) as [Hl | Hl].
    - apply (every_enough _ h d); [intros c w Hw; by apply IH |].
      pose proof (unvisited_visit h vis l Hl Hv). lia.
    - unfold deref. rewrite lookup_ge_None_2 by lia. simpl. split; [| done].
      exists true, ({[l]} ∪ vis). split; [done |]. split; [done |]. intros _.
      split; [apply closed_new_refl |]. intros c Hc. by apply elem_of_nil in Hc. }
  assert (answers h [VRef l] vis
            (every (isFrozenImpl d h) (checked_children (deref h l)) ({[l]} ∪ vis))) as Hres.
  { destruct Hans as (b & vis' & -> & Hsub & Htrue). exists b, vis'.
    split; [done |]. split; [set_solver |]. intros ->.
    destruct (Htrue eq_refl) as [[S C] Hin]. split; [split |].
    - set_solver.
    - intros l' Hl'.
      destruct (C l' Hl') as [[->%elem_of_singleton | ?]%elem_of_union | ?]; auto.
    - intros l' Hl'. apply list_elem_of_singleton in Hl'. injection Hl' as ->.
      apply S. set_solver. }
  destruct (o_kind (deref h l)); by rewrite ?Htry.
Qed.

Lemma isFrozenImpl_total d h v vis :
  size (unvisited h vis) < d → ∃ b vis', isFrozenImpl d h v vis = (Some b, vis').
Proof.
  intros Hd. destruct (isFrozenImpl_enough d h v vis Hd) as (b & vis' & E & _). eauto.
Qed.

Lemma isFrozenImpl_true d h v vis vis' :
  size (unvisited h vis) < d →
  isFrozenImpl d h v vis = (Some true, vis') →
  closed_new h vis vis' ∧ ∀ l, v = VRef l → l ∈ vis'.
Proof.
  intros Hd E. destruct (isFrozenImpl_enough d h v vis Hd) as (b & w & E' & _ & Htrue).
  rewrite E in E'. injection E' as <- <-. destruct (Htrue eq_refl) as [Hcl Hin].
  split; [done |]. intros l ->. apply Hin. left.
Qed.

Lemma enough_depth_enough h : size (unvisited h ∅) < enough_depth h.
Proof. rewrite unvisited_empty. unfold enough_depth. lia. Qed.

Lemma isFrozen_total h v : ∃ b vis, isFrozenImpl (enough_depth h) h v ∅ = (Some b, vis).
Proof. apply isFrozenImpl_total, enough_depth_enough. Qed.

(** [isFrozen] answers [true] exactly when every node below the value,
    along checked children, is single-level frozen. *)
Theorem isFrozen_iff h v :
  isFrozen h v = true ↔ ∀ l, reaches h v l → o_frozen (deref h l) = true.
Proof.
  unfold isFrozen. destruct (isFrozen_total h v) as (b & vis & E). rewrite E. split.
  - intros ->. apply isFrozenImpl_true in E as [[_ C] Hin]; [| apply enough_depth_enough].
    intros l (l0 & -> & Hr).
    assert (l ∈ vis) as Hl.
    { induction Hr as [l | l c l' Hc _ IH]; [by apply Hin |].
      apply IH. intros ? [= <-].
      destruct (C l (Hin l eq_refl)) as [Hl | [_ Hcl]]; [by apply not_elem_of_empty in Hl |].
      by apply Hcl. }
    destruct (C l Hl) as [Hl0 | [? _]]; [by apply not_elem_of_empty in Hl0 | done].
  - intros Hall. destruct b; [done |].
    apply isFrozenImpl_false in E as (l & Hr & Hl). rewrite (Hall l Hr) in Hl. done.
Qed.

(** ** What [freeze] reaches *)

Lemma deref_eq (h h' : heap) (l : loc) :
  o_kind (deref h' l) = o_kind (deref h l) →
  o_props (deref h' l) = o_props (deref h l) →
  o_frozen (deref h' l) = o_frozen (deref h l) →
  deref h' l = deref h l.
Proof. destruct (deref h' l), (deref h l); simpl; congruence. Qed.

Lemma freezes_only_checks h h' l c : freezes_only h h' → checks h l c → checks h' l c.
Proof.
  intros [_ H]. destruct (H l) as (Hk & Hp & _).
  unfold checks, checked_children, Object_getOwnPropertyNames. by rewrite Hk, Hp.
Qed.

Lemma freezes_only_reaches h h' v l : freezes_only h h' → reaches h v l → reaches h' v l.
Proof.
  intros Hf (l0 & -> & Hr). exists l0. split; [done |].
  induction Hr; [apply rtc_refl |]. eapply rtc_l; [by eapply freezes_only_checks | done].
Qed.

(** C1, counterexample: a node below an already frozen node stays unfrozen. *)
Lemma freeze_stops_at_frozen_node :
  freeze no_custom_freeze (VRef 0) frozen_middle = Ret (VRef 0, frozen_middle_after) ∧
  o_frozen (deref frozen_middle 1) = true ∧
  reaches frozen_middle_after (VRef 0) 2 ∧
  o_frozen (deref frozen_middle_after 2) = false.
Proof.
  repeat split.
  exists 0. split; [done |].
  apply (rtc_l _ _ 1); [apply list_elem_of_here |].
  apply (rtc_l _ _ 2); [apply list_elem_of_here |]. apply rtc_refl.
Qed.

(** C1, amended: from a root that is an unfrozen object without custom
    freeze, [freeze] comes back, returns the root, and leaves frozen (hence
    rejecting property addition, deletion and reassignment) exactly the
    nodes that were frozen before or that a path of scheduled children
    through nodes unfrozen before the call links to the root, cycles
    included; nothing but frozen flags changes. *)
Theorem freeze_reaches_thawed_graph call h l :
  o_frozen (deref h l) = false →
  isFreezable h (VRef l) = Ret false →
  freeze call (VRef l) h ≠ OutOfFuel ∧
  (Forall getters_safe h → ∃ h', freeze call (VRef l) h = Ret (VRef l, h')) ∧
  ∀ r h', freeze call (VRef l) h = Ret (r, h') →
    r = VRef l ∧ freezes_only h h' ∧
    (∀ l', thaw_path h l l' → o_frozen (deref h' l') = true ∧ rejects_writes h' l') ∧
    (∀ l', o_frozen (deref h' l') = true → o_frozen (deref h l') = true ∨ thaw_path h l l').
Proof.
  intros Hf Hz. destruct (freeze_traversal_returns call l h Hf Hz) as [Hfuel Hret].
  split; [done |]. split; [done |]. intros r h' Hfr.
  destruct (freeze_traversal_spec call l h r h' Hf Hz Hfr) as (-> & Hshape & Hiff).
  split; [done |]. split; [done |]. split.
  - intros l' Hp. assert (o_frozen (deref h' l') = true) by (apply Hiff; by right).
    split; [done | by apply frozen_rejects_writes].
  - intros l'. apply Hiff.
Qed.

Lemma freeze_mutual_cycle :
  ∃ h', freeze no_custom_freeze (VRef 0) mutual_cycle = Ret (VRef 0, h') ∧
        o_frozen (deref h' 0) = true ∧ o_frozen (deref h' 1) = true.
Proof.
  destruct (freeze_reaches_thawed_graph no_custom_freeze mutual_cycle 0 eq_refl eq_refl)
    as (_ & Hret & Hpost).
  destruct Hret as [h' Hh'].
  { repeat constructor; done. }
  exists h'. split; [done |].
  destruct (Hpost _ _ Hh') as (_ & _ & Hall & _). split.
  - apply Hall. by apply thaw_here.
  - apply Hall. apply (thaw_step _ 0 1 1); [done | | by apply thaw_here].
    eexists. split; [reflexivity |]. apply list_elem_of_here.
Defined.

Example freeze_self_cycle :
  freeze no_custom_freeze (VRef 0) self_cycle =
  Ret (VRef 0, [record [data "a" (VNumber 1); data "self" (VRef 0)] true]).
Proof. reflexivity. Qed.

(** C3, counterexample: a node that declares [freeze] below the root is
    frozen by the generic path, its child too, and its method never runs. *)
Lemma freeze_ignores_nested_freezable :
  isFreezable nested_freezable (VRef 1) = Ret true ∧
  freeze marking_freeze (VRef 0) nested_freezable = Ret (VRef 0, nested_freezable_after) ∧
  deref nested_freezable_after 4 = record [data "called" (VBoolean false)] false ∧
  o_frozen (deref nested_freezable_after 1) = true ∧
  o_frozen (deref nested_freezable_after 3) = true.
Proof. repeat split. Qed.

(** C3, amended: only the value handed to [freeze] is tested for the
    capability.  An unfrozen root object that declares it is handed to its
    own [freeze()], whose outcome is returned as it is, with no traversal
    by the engine; for any other root the outcome does not depend on the
    custom methods at all: the traversal invokes none. *)
Theorem freeze_delegates_at_root_only call call' h l :
  o_frozen (deref h l) = false →
  (isFreezable h (VRef l) = Ret true →
   ∃ f, get_property h l (PStr "freeze") = Ret (VRef f) ∧ is_function h f = true ∧
        freeze call (VRef l) h = call f l h) ∧
  (isFreezable h (VRef l) = Ret false →
   freeze call (VRef l) h = freeze call' (VRef l) h).
Proof.
  intros Hf. split.
  - intros Hz. destruct (isFreezable_true h l Hz) as (f & Hg & Hfun).
    exists f. split; [done |]. split; [done |]. by apply freeze_delegates.
  - intros Hz. by rewrite !freeze_traverses.
Qed.

Lemma freeze_delegates_at_root_witness :
  freeze marking_freeze (VRef 1) nested_freezable = marking_freeze 2 1 nested_freezable ∧
  freeze marking_freeze (VRef 0) nested_freezable =
  freeze no_custom_freeze (VRef 0) nested_freezable.
Proof.
  destruct (freeze_delegates_at_root_only marking_freeze no_custom_freeze nested_freezable 1
              eq_refl) as [Hroot _].
  destruct (Hroot eq_refl) as (f & Hg & _ & Hcall).
  injection Hg as <-.
  destruct (freeze_delegates_at_root_only marking_freeze no_custom_freeze nested_freezable 0
              eq_refl) as [_ Hother].
  split; [exact Hcall | exact (Hother eq_refl)].
Defined.

(** C6, counterexample: a custom [freeze()] that returns an unfrozen
    record makes the second call traverse and mutate. *)
Lemma freeze_twice_mutates_after_careless_freeze :
  let h1 := careless_freezable ++ [record [] false] in
  let h2 := careless_freezable ++ [record [] true] in
  freeze careless_freeze (VRef 0) careless_freezable = Ret (VRef 2, h1) ∧
  Object_isFrozen h1 (VRef 2) = false ∧
  freeze careless_freeze (VRef 2) h1 = Ret (VRef 2, h2) ∧
  h2 ≠ h1.
Proof. repeat split. discriminate. Qed.

(** C6, amended: whenever the first call returns a value that is atomic or
    single-level frozen, which it does on every path but the delegation to
    a custom [freeze()], the second call returns the same value through an
    early return, before any traversal, and leaves the store as it is. *)
Theorem freeze_idempotent call v h r h' :
  freeze call v h = Ret (r, h') →
  (Object_isFrozen h v = false → isFreezable h v = Ret true → Object_isFrozen h' r = true) →
  Object_isFrozen h' r = true ∧ freeze call r h' = Ret (r, h').
Proof.
  intros Hfr Hcustom.
  assert (Object_isFrozen h' r = true) as Hr; [| split; [done | by apply freeze_frozen]].
  destruct v; try (simpl in Hfr; injection Hfr as <- <-; done).
  destruct (Object_isFrozen h (VRef l)) eqn:Hf.
  { rewrite freeze_frozen in Hfr by done. by injection Hfr as <- <-. }
  destruct (isFreezable h (VRef l)) as [[] | |] eqn:Hz.
  - by apply Hcustom.
  - destruct (freeze_traversal_spec call l h r h' Hf Hz Hfr) as (-> & _ & Hiff).
    simpl. apply Hiff. right. by apply thaw_here.
  - unfold freeze in Hfr. rewrite Hf, Hz in Hfr. done.
  - unfold freeze in Hfr. rewrite Hf, Hz in Hfr. done.
Qed.

Lemma freeze_idempotent_witness :
  ∃ h', freeze no_custom_freeze (VRef 0) mutual_cycle = Ret (VRef 0, h') ∧
        freeze no_custom_freeze (VRef 0) h' = Ret (VRef 0, h').
Proof.
  eexists. split; [reflexivity |].
  apply (freeze_idempotent no_custom_freeze (VRef 0) mutual_cycle); [reflexivity | discriminate].
Defined.

(** C7, counterexample: an unfrozen function passed as the root goes
    through the generic path: it is frozen, and so is its [prototype]. *)
Lemma freeze_freezes_function_root :
  is_function function_root 0 = true ∧
  freeze no_custom_freeze (VRef 0) function_root = Ret (VRef 0, function_root_after) ∧
  o_frozen (deref function_root 0) = false ∧
  o_frozen (deref function_root_after 0) = true ∧
  o_frozen (deref function_root 1) = false ∧
  o_frozen (deref function_root_after 1) = true.
Proof. repeat split. Qed.

Lemma freeze_leaves_other_functions call h f l r h' :
  is_function h f = true →
  o_frozen (deref h l) = false → isFreezable h (VRef l) = Ret false →
  freeze call (VRef l) h = Ret (r, h') → f ≠ l → deref h' f = deref h f.
Proof.
  intros Hfun Hf Hz Hfr Hne.
  destruct (freeze_traversal_spec call l h r h' Hf Hz Hfr) as (_ & [_ Hshape] & Hiff).
  destruct (Hshape f) as (Hk & Hp & Hm). apply deref_eq; try done.
  destruct (o_frozen (deref h f)) eqn:E; [auto |].
  destruct (o_frozen (deref h' f)) eqn:E'; [| done].
  apply Hiff in E' as [? | Hpath]; [congruence |].
  apply thaw_path_function in Hpath; done.
Qed.

(** C7, amended: a function met as a child is never scheduled, so a
    traversal leaves every function other than its root exactly as it was,
    and the clone engine hands any function back by identity without
    allocating; a function passed as the root of [freeze] is an ordinary
    root of the traversal. *)
Theorem functions_are_leaves call h f :
  is_function h f = true →
  (∀ stack, push_if_object h stack (VRef f) = stack) ∧
  (∀ l, ¬ scheduled h l f) ∧
  (∀ l r h', o_frozen (deref h l) = false → isFreezable h (VRef l) = Ret false →
             freeze call (VRef l) h = Ret (r, h') → f ≠ l → deref h' f = deref h f) ∧
  (∀ depth visited, deepClone (S depth) (VRef f) visited h = Ret (VRef f, visited, h)) ∧
  (o_frozen (deref h f) = false → freeze call (VRef f) h =
     let! h' := freeze_loop (freeze_fuel h) [f] ∅ h in Ret (VRef f, h')).
Proof.
  intros Hfun. repeat split.
  - intros stack. unfold push_if_object, typeof. rewrite Hfun. by case_bool_decide.
  - intros l Hs%scheduled_not_function. congruence.
  - intros l r h' Hf Hz Hfr Hne. by eapply freeze_leaves_other_functions.
  - intros depth visited. simpl. rewrite Hfun. by case_bool_decide.
  - intros Hf. apply freeze_traverses; [done |].
    unfold isFreezable, typeof. rewrite Hfun. by case_bool_decide.
Qed.

Lemma functions_are_leaves_witness :
  deref nested_freezable_after 2 = deref nested_freezable 2 ∧
  deepClone 1 (VRef 2) ∅ nested_freezable = Ret (VRef 2, ∅, nested_freezable).
Proof.
  destruct (functions_are_leaves marking_freeze nested_freezable 2 eq_refl)
    as (_ & _ & Hleft & Hclone & _).
  split; [| apply Hclone].
  apply (Hleft 0 (VRef 0)); [reflexivity | reflexivity | reflexivity | discriminate].
Defined.

(** C10: [freeze] never schedules a function, so a function that is not
    the root stays as it was; the deep-frozen predicate, however, checks
    function-valued children like any other.  Hence whenever an unfrozen
    function lies below the root, [isFrozen] rejects what [freeze]
    returns, and there is such a graph. *)
Theorem isFrozen_of_freeze_can_be_false :
  (∀ call h l f r h',
     o_frozen (deref h l) = false → isFreezable h (VRef l) = Ret false →
     is_function h f = true → o_frozen (deref h f) = false → f ≠ l →
     reaches h (VRef l) f →
     freeze call (VRef l) h = Ret (r, h') →
     o_frozen (deref h' f) = false ∧ isFrozen h' r = false) ∧
  ∃ h l f h',
    is_function h f = true ∧ checks h l f ∧
    freeze no_custom_freeze (VRef l) h = Ret (VRef l, h') ∧
    isFrozen h' (VRef l) = false.
Proof.
  split.
  - intros call h l f r h' Hf Hz Hfun Hunf Hne Hreach Hfr.
    pose proof (freeze_leaves_other_functions call h f l r h' Hfun Hf Hz Hfr Hne) as Hleft.
    destruct (freeze_traversal_spec call l h r h' Hf Hz Hfr) as (-> & Hshape & _).
    assert (o_frozen (deref h' f) = false) as Hunf' by by rewrite Hleft.
    split; [done |].
    destruct (isFrozen h' (VRef l)) eqn:E; [| done].
    pose proof (proj1 (isFrozen_iff h' (VRef l)) E f (freezes_only_reaches _ _ _ _ Hshape Hreach)).
    congruence.
  - exists with_handler, 0, 1. eexists. repeat split. apply list_elem_of_here.
Qed.

Lemma isFrozen_of_freeze_witness :
  ∃ h', freeze no_custom_freeze (VRef 0) with_handler = Ret (VRef 0, h') ∧
        o_frozen (deref h' 1) = false ∧ isFrozen h' (VRef 0) = false.
Proof.
  destruct isFrozen_of_freeze_can_be_false as [Hgeneral _].
  eexists. split; [reflexivity |].
  apply (Hgeneral no_custom_freeze with_handler 0 1); try reflexivity.
  - discriminate.
  - exists 0. split; [reflexivity |]. apply rtc_once. apply list_elem_of_here.
Defined.

(** C4, at the failing input: the only unfrozen child of a frozen record
    sits under a symbol key, [freeze] would have reached it, and the
    deep-frozen predicate answers [true]. *)
Lemma isFrozen_misses_symbol_child :
  Object_getOwnPropertySymbols (deref symbol_child 0) =
    [Prop_ (PSym (Sym 0 "tag")) true (Data (VRef 1))] ∧
  isShallowFrozen symbol_child (VRef 0) = true ∧
  isShallowFrozen symbol_child (VRef 1) = false ∧
  schedule_children symbol_child (deref symbol_child 0) [] = Ret [1] ∧
  isFrozen symbol_child (VRef 0) = true.
Proof. repeat split. Qed.

Lemma includes_middle before needle after : includes needle (before +:+ needle +:+ after).
Proof. by exists before, after. Qed.

(** C9: [assertFrozen] raises a [FrozenAssertionError] that carries the
    value and whose message includes the name exactly when [isFrozen] is
    false; [assertMutable] raises the same kind of error exactly when the
    value is a non-null object ([typeof] "object") that is single-level
    frozen; otherwise each returns normally.  Neither touches the store. *)
Theorem assertions_raise_exactly_when_violated h v name :
  (isFrozen h v = true → assertFrozen h v name = Ret ()) ∧
  (isFrozen h v = false →
   ∃ message, assertFrozen h v name = Raise (FrozenAssertionError message v None) ∧
              includes (default "value" name) message) ∧
  (¬ (v ≠ VNull ∧ typeof h v = TObject ∧ Object_isFrozen h v = true) →
   assertMutable h v name = Ret ()) ∧
  (v ≠ VNull ∧ typeof h v = TObject ∧ Object_isFrozen h v = true →
   ∃ message, assertMutable h v name = Raise (FrozenAssertionError message v None) ∧
              includes (default "value" name) message).
Proof.
  unfold assertFrozen, assertMutable. repeat split.
  - by intros ->.
  - intros ->. simpl. eexists. split; [done |].
    apply (includes_middle "Expected ").
  - intros Hnot. destruct v; try done;
      (destruct (bool_decide _) eqn:Ht; [apply bool_decide_eq_true in Ht | done];
       destruct (Object_isFrozen _ _) eqn:Hf; [| done]; by destruct Hnot).
  - intros (Hn & Ht & Hf). rewrite Hf, bool_decide_eq_true_2 by done. simpl.
    destruct v; try done; (eexists; split; [done | apply (includes_middle "Expected ")]).
Qed.

Lemma assertions_witness :
  (∃ message, assertFrozen shallow_only (VRef 0) (Some "config") =
                Raise (FrozenAssertionError message (VRef 0) None) ∧
              includes "config" message) ∧
  (∃ message, assertMutable shallow_only (VRef 0) (Some "obj") =
                Raise (FrozenAssertionError message (VRef 0) None) ∧
              includes "obj" message) ∧
  assertMutable shallow_only (VRef 1) None = Ret ().
Proof.
  destruct (assertions_raise_exactly_when_violated shallow_only (VRef 0) (Some "config"))
    as (_ & Hraise & _).
  destruct (assertions_raise_exactly_when_violated shallow_only (VRef 0) (Some "obj"))
    as (_ & _ & _ & Hmut).
  destruct (assertions_raise_exactly_when_violated shallow_only (VRef 1) None)
    as (_ & _ & Hok & _).
  split; [exact (Hraise eq_refl) |]. split.
  - apply Hmut. repeat split. discriminate.
  - apply Hok. intros (_ & _ & Hf). discriminate Hf.
Defined.

(** ** The clone engine: updates of a copy in progress *)

Lemma clone_value_mono h0 n n' v : n ≤ n' → clone_value h0 n v → clone_value h0 n' v.
Proof. intros Hle. destruct v; simpl; try done. intros [? | ?]; [left; lia | by right]. Qed.

Lemma clone_property_mono h0 n n' o p :
  n ≤ n' → clone_property h0 n o p → clone_property h0 n' o p.
Proof.
  intros Hle (Ho & Hd & Hp). split; [done |]. split; [| done].
  intros v Hv. eapply clone_value_mono; eauto.
Qed.

Lemma clone_object_mono h0 n n' o : n ≤ n' → clone_object h0 n o → clone_object h0 n' o.
Proof.
  intros Hle (Hf & Hk & Hv & Hp). repeat split; try done.
  - eapply Forall_impl; [done |]. intros v. by apply clone_value_mono.
  - eapply Forall_impl; [done |]. intros p. by apply clone_property_mono.
Qed.

Lemma is_plain_shape o o' :
  shape (o_kind o') = shape (o_kind o) → is_plain o → is_plain o'.
Proof.
  intros Hs [b Hb]. rewrite Hb in Hs. unfold is_plain.
  destruct (o_kind o'); simpl in Hs; try done. eauto.
Qed.

Lemma is_custom_shape o o' :
  shape (o_kind o') = shape (o_kind o) → is_custom o → is_custom o'.
Proof.
  intros Hs [b Hb]. rewrite Hb in Hs. unfold is_custom.
  destruct (o_kind o'); simpl in Hs; try done. eauto.
Qed.

Lemma clone_property_shape h0 n o o' p :
  shape (o_kind o') = shape (o_kind o) → clone_property h0 n o p → clone_property h0 n o' p.
Proof.
  intros Hs (Ho & Hd & Hp). split; [done |]. split; [done |].
  destruct Hp as [(Hpl & He & Hv & Hnp) | Hc].
  - left. split; [by eapply is_plain_shape |]. split; [done |]. split; [done |].
    intros Hk. apply Hnp. destruct Hpl as [b Hb]. rewrite Hb, Hk in Hs. simpl in Hs.
    by rewrite Hb, Hs.
  - right. by eapply is_custom_shape.
Qed.

Lemma cloning_length h0 vis h : cloning h0 vis h → length h0 ≤ length h.
Proof. intros [[ext ->] _ _]. rewrite length_app. lia. Qed.

Lemma cloning_source h0 vis h l : cloning h0 vis h → l < length h0 → deref h l = deref h0 l.
Proof. intros [[ext ->] _ _] Hl. by apply deref_app_l. Qed.

Lemma cloning_init h0 : cloning h0 ∅ h0.
Proof.
  split.
  - exists []. by rewrite app_nil_r.
  - intros s c Hs. by rewrite lookup_empty in Hs.
  - intros c Hc. lia.
Qed.

Lemma cloning_update h0 vis h c o' :
  cloning h0 vis h → length h0 ≤ c < length h → clone_object h0 (length h) o' →
  cloning h0 vis (<[c := o']> h).
Proof.
  intros [[ext ->] Hvis Hnew] Hc Ho. split.
  - exists (<[c - length h0 := o']> ext). by rewrite insert_app_r_alt by lia.
  - intros s c' Hs. rewrite length_insert. eauto.
  - intros c'. rewrite length_insert. intros Hc'.
    destruct (decide (c = c')) as [<- | Hne].
    + by rewrite deref_insert_eq by lia.
    + rewrite deref_insert_ne by done. auto.
Qed.

Lemma cloning_alloc h0 vis h obj k :
  cloning h0 vis h → k ≠ KFunction → kind_values k = [] →
  cloning h0 (<[obj := length h]> vis) (h ++ [fresh k]) ∧
  cloning h0 vis (h ++ [fresh k]).
Proof.
  intros Hc Hk Hv. pose proof (cloning_length _ _ _ Hc) as Hle.
  destruct Hc as [[ext ->] Hvis Hnew].
  assert (∀ c, length h0 ≤ c < length ((h0 ++ ext) ++ [fresh k]) →
               clone_object h0 (length ((h0 ++ ext) ++ [fresh k])) (deref ((h0 ++ ext) ++ [fresh k]) c))
    as Hnew'.
  { intros c. rewrite (length_app _ [fresh k]). simpl. intros Hc.
    destruct (decide (c = length (h0 ++ ext))) as [-> | Hne].
    - rewrite deref_alloc. unfold clone_object, fresh. simpl. rewrite Hv.
      repeat split; try done; apply Forall_nil_2.
    - rewrite deref_app_l by lia. eapply clone_object_mono; [| apply Hnew]; lia. }
  split; split; try done.
  - exists (ext ++ [fresh k]). by rewrite app_assoc.
  - intros s c. rewrite (length_app _ [fresh k]). simpl.
    intros [[_ <-] | [_ Hs]]%lookup_insert_Some; [lia |].
    specialize (Hvis _ _ Hs). lia.
  - exists (ext ++ [fresh k]). by rewrite app_assoc.
  - intros s c Hs. rewrite (length_app _ [fresh k]). simpl.
    specialize (Hvis _ _ Hs). lia.
Qed.

Lemma cloning_unfrozen h0 vis h c :
  cloning h0 vis h → length h0 ≤ c < length h → o_frozen (deref h c) = false.
Proof. intros [_ _ Hnew] Hc. by destruct (Hnew c Hc). Qed.

Lemma elem_of_store_element elems i x v :
  v ∈ store_element elems i x → v ∈ elems ∨ v = x ∨ v = VUndefined.
Proof.
  unfold store_element. case_decide.
  - intros [j Hj]%list_elem_of_lookup_1.
    apply list_lookup_insert_Some in Hj as [(_ & -> & _) | [_ Hj]]; [auto | left].
    by eapply list_elem_of_lookup_2.
  - rewrite !elem_of_app. intros [? | [[-> _]%elem_of_replicate | ->%list_elem_of_singleton]]; auto.
Qed.

(** ** The clone engine: writes into a clone *)

Lemma written_insert h c o' :
  c < length h → shape (o_kind o') = shape (o_kind (deref h c)) → written h (<[c := o']> h) c.
Proof.
  intros Hc Hpl. split; [apply length_insert |]. split.
  - intros c' Hne. by apply deref_insert_ne.
  - by rewrite deref_insert_eq.
Qed.

Lemma written_refl h c : written h h c.
Proof. by split. Qed.

Lemma set_element_cloning h0 vis h c i x :
  cloning h0 vis h → length h0 ≤ c < length h → clone_value h0 (length h) x →
  ∃ h', set_element h c i x = Ret h' ∧ cloning h0 vis h' ∧ written h h' c.
Proof.
  intros Hcl Hc Hx. unfold set_element.
  rewrite (cloning_unfrozen h0 vis h c) by done.
  destruct (c_new _ _ _ Hcl c Hc) as (Hf & Hk & Hv & Hp).
  destruct (o_kind (deref h c)) eqn:Ek; try (eexists; split; [done |]; split; [done | apply written_refl]).
  eexists. split; [done |]. split.
  - apply cloning_update; [done | done |]. unfold clone_object, with_kind. simpl.
    repeat split; try done.
    + apply Forall_forall. intros v [Hv' | [-> | ->]]%elem_of_store_element; try done.
      rewrite Forall_forall in Hv. auto.
    + eapply Forall_impl; [done |]. intros p. apply clone_property_shape.
      simpl. by rewrite Ek.
  - apply written_insert; [lia |]. simpl. by rewrite Ek.
Qed.

Lemma elem_of_key_then_value_store entries k x v :
  v ∈ key_then_value (map_store entries k x) → v ∈ key_then_value entries ∨ v = k ∨ v = x.
Proof.
  induction entries as [| e entries IH]; simpl.
  - rewrite !elem_of_cons, elem_of_nil. naive_solver.
  - case_bool_decide; simpl; rewrite !elem_of_cons; naive_solver.
Qed.

Lemma Map_set_cloning h0 vis h c k x :
  cloning h0 vis h → length h0 ≤ c < length h →
  clone_value h0 (length h) k → clone_value h0 (length h) x →
  cloning h0 vis (Map_set h c k x) ∧ written h (Map_set h c k x) c.
Proof.
  intros Hcl Hc Hk Hx. unfold Map_set.
  destruct (c_new _ _ _ Hcl c Hc) as (Hf & Hkind & Hv & Hp).
  destruct (o_kind (deref h c)) eqn:Ek; try (split; [done | apply written_refl]).
  split.
  - apply cloning_update; [done | done |]. unfold clone_object, with_kind. simpl.
    repeat split; try done.
    + apply Forall_forall. intros v [Hv' | [-> | ->]]%elem_of_key_then_value_store; try done.
      rewrite Forall_forall in Hv. auto.
    + eapply Forall_impl; [done |]. intros p. apply clone_property_shape.
      simpl. by rewrite Ek.
  - apply written_insert; [lia |]. simpl. by rewrite Ek.
Qed.

Lemma Set_add_cloning h0 vis h c x :
  cloning h0 vis h → length h0 ≤ c < length h → clone_value h0 (length h) x →
  cloning h0 vis (Set_add h c x) ∧ written h (Set_add h c x) c.
Proof.
  intros Hcl Hc Hx. unfold Set_add.
  destruct (c_new _ _ _ Hcl c Hc) as (Hf & Hkind & Hv & Hp).
  destruct (o_kind (deref h c)) eqn:Ek; try (split; [done | apply written_refl]).
  case_bool_decide; [split; [done | apply written_refl] |].
  split.
  - apply cloning_update; [done | done |]. unfold clone_object, with_kind. simpl.
    repeat split; try done.
    + apply Forall_app. split; [done |]. by apply Forall_singleton.
    + eapply Forall_impl; [done |]. intros p. apply clone_property_shape.
      simpl. by rewrite Ek.
  - apply written_insert; [lia |]. simpl. by rewrite Ek.
Qed.

Lemma elem_of_place ps q p : p ∈ place ps q ↔ p = q ∨ p ∈ ps.
Proof.
  induction ps as [| r ps IH]; simpl.
  - rewrite list_elem_of_singleton, elem_of_nil. tauto.
  - destruct (precedes (p_key q) (p_key r)); rewrite !elem_of_cons; [tauto |].
    rewrite IH. tauto.
Qed.

Lemma Forall_place (P : property → Prop) ps q : Forall P ps → P q → Forall P (place ps q).
Proof.
  intros Hps Hq. apply Forall_forall. intros p [-> | Hp]%elem_of_place; [done |].
  rewrite Forall_forall in Hps. auto.
Qed.

Lemma precedes_trans a b c :
  precedes a b = true → precedes b c = true → precedes a c = true.
Proof.
  unfold precedes. intros Hab Hbc.
  repeat case_match; simplify_eq; try done.
  apply N.ltb_lt. apply N.ltb_lt in Hab, Hbc. lia.
Qed.

Lemma precedes_asym a b : precedes a b = true → precedes b a = false.
Proof.
  unfold precedes. intros Hab.
  repeat case_match; simplify_eq; try done.
  apply N.ltb_ge. apply N.ltb_lt in Hab. lia.
Qed.

Lemma ordered_nil : ordered [].
Proof. intros i j p q _ Hp. by rewrite lookup_nil in Hp. Qed.

Lemma ordered_cons p ps :
  ordered (p :: ps) ↔ (∀ q, q ∈ ps → precedes (p_key q) (p_key p) = false) ∧ ordered ps.
Proof.
  split.
  - intros Ho. split.
    + intros q [j Hj]%list_elem_of_lookup_1. by apply (Ho 0 (S j) p q); [lia | |].
    + intros i j q r Hij Hq Hr. by apply (Ho (S i) (S j) q r); [lia | |].
  - intros [Hp Ho] i j q r Hij Hq Hr. destruct j as [| j]; [lia |]. simpl in Hr.
    destruct i as [| i]; simpl in Hq.
    + injection Hq as <-. apply Hp. by eapply list_elem_of_lookup_2.
    + by apply (Ho i j q r); [lia | |].
Qed.

Lemma place_ordered ps q : ordered ps → ordered (place ps q).
Proof.
  induction ps as [| p ps IH]; simpl; intros Ho.
  - apply ordered_cons. split; [| apply ordered_nil]. intros r Hr. by apply elem_of_nil in Hr.
  - pose proof Ho as [Hp Hps]%ordered_cons.
    destruct (precedes (p_key q) (p_key p)) eqn:Hqp.
    + apply ordered_cons. split; [| done].
      intros r [-> | Hr]%elem_of_cons; [by apply precedes_asym |].
      destruct (precedes (p_key r) (p_key q)) eqn:Hrq; [| done].
      rewrite <- (Hp r Hr). symmetry. by eapply precedes_trans.
    + apply ordered_cons. split; [| auto].
      intros r [-> | Hr]%elem_of_place; auto.
Qed.

(** A key that precedes none of those that are there goes to the end. *)
Lemma place_end ps q :
  Forall (fun p => precedes (p_key q) (p_key p) = false) ps → place ps q = ps ++ [q].
Proof.
  induction 1 as [| p ps Hp _ IH]; simpl; [done |]. by rewrite Hp, IH.
Qed.

Lemma ordered_filter (P : property → Prop) `{∀ p, Decision (P p)} ps :
  ordered ps → ordered (filter P ps).
Proof.
  induction ps as [| p ps IH]; [done |]. intros [Hp Hps]%ordered_cons.
  rewrite filter_cons. destruct (decide (P p)); [| auto].
  apply ordered_cons. split; [| auto]. intros q [_ Hq]%list_elem_of_filter. auto.
Qed.

Lemma ordered_app l k :
  ordered l → ordered k →
  (∀ p q, p ∈ l → q ∈ k → precedes (p_key q) (p_key p) = false) → ordered (l ++ k).
Proof.
  induction l as [| p l IH]; [done |]. intros [Hp Hl]%ordered_cons Hk Hlk. simpl.
  apply ordered_cons. split.
  - intros q [Hq | Hq]%elem_of_app; [auto |]. apply Hlk; [left | done].
  - apply IH; [done | done |]. intros p' q Hp' Hq. apply Hlk; [by right | done].
Qed.

Lemma ordered_own_keys o :
  ordered (o_props o) →
  ordered (Object_keys o ++ Object_getOwnPropertySymbols o) ∧
  ordered (Object_getOwnPropertyNames o ++ Object_getOwnPropertySymbols o).
Proof.
  intros Ho.
  assert (∀ p q : property, is_symbol_key q = true → precedes (p_key q) (p_key p) = false) as Hs.
  { intros p q. unfold is_symbol_key. by destruct (p_key q). }
  split; (apply ordered_app; [by apply ordered_filter | by apply ordered_filter |]);
    intros p q _ [Hq _]%list_elem_of_filter; by apply Hs.
Qed.

Lemma ordered_app_l l k : ordered (l ++ k) → ordered l.
Proof.
  intros Ho i j p q Hij Hp Hq. apply (Ho i j p q Hij); by apply lookup_app_l_Some.
Qed.

Lemma ordered_keys ps ps' : map p_key ps = map p_key ps' → ordered ps → ordered ps'.
Proof.
  intros Hk Ho i j p q Hij Hp Hq.
  assert (∀ n r, ps' !! n = Some r → ∃ r0, ps !! n = Some r0 ∧ p_key r0 = p_key r) as Hback.
  { intros n r Hr. assert (map p_key ps' !! n = Some (p_key r)) as Hm
      by by rewrite list_lookup_fmap, Hr.
    rewrite <- Hk, list_lookup_fmap in Hm.
    destruct (ps !! n) as [r0 |]; [| done]. injection Hm as Hm. eauto. }
  destruct (Hback i p Hp) as (p0 & Hp0 & <-). destruct (Hback j q Hq) as (q0 & Hq0 & <-).
  by apply (Ho i j).
Qed.

Lemma assign_keys_same ps k x :
  has_key ps k = true →
  map p_key (map (fun p => if bool_decide (p_key p = k)
                           then Prop_ k (p_enumerable p) (Data x) else p) ps) = map p_key ps.
Proof.
  intros _. rewrite <- list_fmap_compose. apply list_fmap_ext. intros i p _. simpl.
  by case_bool_decide.
Qed.

Lemma assign_ordered ps k x : ordered ps → ordered (assign ps k x).
Proof.
  intros Ho. unfold assign. destruct (has_key ps k) eqn:Hhas.
  - eapply ordered_keys; [| exact Ho]. symmetry. by apply assign_keys_same.
  - by apply place_ordered.
Qed.

Lemma has_key_true ps k : has_key ps k = true ↔ ∃ p, p ∈ ps ∧ p_key p = k.
Proof.
  unfold has_key. rewrite bool_decide_eq_true, list_elem_of_fmap. naive_solver.
Qed.

Lemma has_key_false ps k : has_key ps k = false ↔ ∀ p, p ∈ ps → p_key p ≠ k.
Proof.
  unfold has_key. rewrite bool_decide_eq_false, list_elem_of_fmap. naive_solver.
Qed.

Lemma Forall_assign_gen (P : property → Prop) ps k x :
  Forall P ps →
  (∀ e, (e = true ∨ ∃ p, p ∈ ps ∧ p_key p = k ∧ p_enumerable p = e) → P (Prop_ k e (Data x))) →
  Forall P (assign ps k x).
Proof.
  intros Hps Hnew. unfold assign. destruct (has_key ps k).
  - apply Forall_forall. intros q (p & -> & Hp)%list_elem_of_fmap.
    rewrite Forall_forall in Hps. case_bool_decide; [| auto]. apply Hnew. right. eauto.
  - apply Forall_place; [done |]. apply Hnew. by left.
Qed.

Lemma Forall_assign h0 n o ps k x :
  is_plain o → (o_kind o = KPlain false → k ≠ PStr "__proto__") →
  Forall (clone_property h0 n o) ps →
  (∃ s sp, sp ∈ o_props (deref h0 s) ∧ p_key sp = k) →
  clone_value h0 n x →
  Forall (clone_property h0 n o) (assign ps k x).
Proof.
  intros Hpl Hnp Hps (s & sp & Hsp & Hk) Hx. apply Forall_assign_gen; [done |].
  intros e He. assert (e = true) as ->.
  { destruct He as [-> | (p & Hp & _ & <-)]; [done |].
    rewrite Forall_forall in Hps.
    destruct (Hps p Hp) as (_ & _ & [(_ & He & _) | [q Hq]]); [done |].
    destruct Hpl as [b Hb]. congruence. }
  split; [| split]; simpl.
  - exists s, sp. split; [done |]. split; [done |]. right. eauto.
  - by intros v [= <-].
  - left. split; [done |]. split; [done |]. split; [eauto | done].
Qed.

Lemma Forall_define (P : property → Prop) ps q :
  Forall P ps → P q → Forall P (define ps q).
Proof.
  intros Hps Hq. unfold define. destruct (has_key ps (p_key q)).
  - apply Forall_forall. intros r (p & -> & Hp)%list_elem_of_fmap.
    rewrite Forall_forall in Hps. case_bool_decide; auto.
  - by apply Forall_place.
Qed.

Lemma set_property_cloning h0 vis h c k x :
  cloning h0 vis h → length h0 ≤ c < length h →
  is_plain (deref h c) →
  (o_kind (deref h c) = KPlain false → k ≠ PStr "__proto__") →
  (∃ s sp, sp ∈ o_props (deref h0 s) ∧ p_key sp = k) →
  clone_value h0 (length h) x →
  ∃ h', set_property h c k x = Ret h' ∧ cloning h0 vis h' ∧ written h h' c.
Proof.
  intros Hcl Hc Hpl Hnp Hk Hx. unfold set_property.
  rewrite (cloning_unfrozen h0 vis h c) by done.
  destruct (c_new _ _ _ Hcl c Hc) as (Hf & Hkind & Hv & Hp).
  eexists. split; [done |]. split.
  - apply cloning_update; [done | done |]. unfold clone_object, with_props. simpl.
    repeat split; try done.
    eapply Forall_impl; [by apply Forall_assign |]. intros p. by apply clone_property_shape.
  - apply written_insert; [lia | done].
Qed.

(** On a record whose own properties are all data properties, an
    assignment under any key but [__proto__] is a plain write. *)
Lemma put_value_plain h l k x :
  is_plain (deref h l) →
  (o_kind (deref h l) = KPlain false → k ≠ PStr "__proto__") →
  Forall (fun p => ∃ v, p_slot p = Data v) (o_props (deref h l)) →
  o_frozen (deref h l) = false →
  put_value h l k x = set_property h l k x.
Proof.
  intros [b Hb] Hk Hdata Hf. unfold put_value. cbn [resolve].
  destruct (own_property (deref h l) k) as [p |] eqn:Hown.
  - unfold own_property in Hown. apply find_some in Hown as [Hp%list_elem_of_In _].
    rewrite Forall_forall in Hdata. destruct (Hdata p Hp) as [v ->]. by rewrite Hf.
  - rewrite Hb. destruct b; [done |]. by rewrite bool_decide_eq_false_2 by auto.
Qed.

Lemma put_value_cloning h0 vis h c k x :
  cloning h0 vis h → length h0 ≤ c < length h →
  is_plain (deref h c) →
  (o_kind (deref h c) = KPlain false → k ≠ PStr "__proto__") →
  (∃ s sp, sp ∈ o_props (deref h0 s) ∧ p_key sp = k) →
  clone_value h0 (length h) x →
  ∃ h', put_value h c k x = Ret h' ∧ cloning h0 vis h' ∧ written h h' c.
Proof.
  intros Hcl Hc Hpl Hproto Hk Hx. rewrite put_value_plain; try done.
  - by apply (set_property_cloning h0 vis).
  - destruct (c_new _ _ _ Hcl c Hc) as (_ & _ & _ & Hp).
    eapply Forall_impl; [exact Hp |]. simpl.
    intros p (_ & _ & [(_ & _ & Hd & _) | [q Hq]]); [done |].
    destruct Hpl as [b Hb]. congruence.
  - by eapply cloning_unfrozen.
Qed.

Lemma defineProperty_cloning h0 vis h c q :
  cloning h0 vis h → length h0 ≤ c < length h →
  is_custom (deref h c) →
  (∃ s sp, sp ∈ o_props (deref h0 s) ∧ p_key sp = p_key q ∧
           ((p_slot q = p_slot sp ∧ is_custom (deref h0 s)) ∨ ∃ v, p_slot q = Data v)) →
  (∀ v, p_slot q = Data v → clone_value h0 (length h) v) →
  ∃ h', defineProperty h c q = Ret h' ∧ cloning h0 vis h' ∧ written h h' c.
Proof.
  intros Hcl Hc Hnp Ho Hd. unfold defineProperty.
  rewrite (cloning_unfrozen h0 vis h c) by done.
  destruct (c_new _ _ _ Hcl c Hc) as (Hf & Hkind & Hv & Hp).
  eexists. split; [done |]. split.
  - apply cloning_update; [done | done |]. unfold clone_object, with_props. simpl.
    repeat split; try done.
    eapply Forall_impl.
    + apply Forall_define; [done |]. split; [done |]. split; [done |]. by right.
    + intros p. by apply clone_property_shape.
  - apply written_insert; [lia | done].
Qed.

(** ** The clone engine: loops and recursion *)

Lemma unvisited_dom_mono h0 (vis vis' : gmap loc loc) :
  vis ⊆ vis' → size (unvisited h0 (dom vis')) ≤ size (unvisited h0 (dom vis)).
Proof. intros H. apply unvisited_mono. by apply subseteq_dom. Qed.

(** Running a filler after a step that kept the copy well-formed. *)
Lemma filler_after h0 d clone vis h vis1 h1 r :
  vis ⊆ vis1 → length h ≤ length h1 →
  (∀ c, c < length h → c ≠ clone → deref h1 c = deref h c) →
  shape (o_kind (deref h1 clone)) = shape (o_kind (deref h clone)) →
  filler_spec h0 d clone vis1 h1 r → filler_spec h0 d clone vis h r.
Proof.
  intros Hsub Hlen Hframe Hpl. unfold filler_spec, clone_outcome.
  destruct r as [[vis' h'] | e |]; [| done |].
  - intros (Hcl & Hsub' & Hlen' & Hframe' & Hpl'). simpl in *.
    split; [done |]. split; [by etrans |]. split; [lia |]. split.
    + intros c Hc Hne. rewrite Hframe' by (done || lia). auto.
    + by rewrite Hpl'.
  - intros Hd. pose proof (unvisited_dom_mono h0 vis vis1 Hsub). lia.
Qed.

Lemma filler_done h0 d clone vis h :
  cloning h0 vis h → filler_spec h0 d clone vis h (Ret (vis, h)).
Proof.
  intros Hcl. unfold filler_spec, clone_outcome. simpl.
  split; [done |]. split; [done |]. split; [lia |]. split; [done | done].
Qed.

Section Loops.

Variables (h0 : heap) (d : nat) (rec : cloner).
Hypothesis Hclosed : heap_closed h0.
Hypothesis Hrec : cloner_spec h0 d rec.

(** One recursive call inside a filler for [clone], followed by [k]. *)
Lemma filler_call clone vis h x (k : value * gmap loc loc * heap → res (gmap loc loc * heap)) :
  cloning h0 vis h → length h0 ≤ clone < length h → source_value h0 x →
  (∀ x' vis1 h1,
     cloning h0 vis1 h1 → length h ≤ length h1 → clone_value h0 (length h1) x' →
     deref h1 clone = deref h clone →
     filler_spec h0 d clone vis1 h1 (k (x', vis1, h1))) →
  filler_spec h0 d clone vis h (bind (rec x vis h) k).
Proof.
  intros Hcl Hc Hx Hk. specialize (Hrec x vis h Hcl Hx).
  unfold clone_outcome in Hrec.
  destruct (rec x vis h) as [[[x' vis1] h1] | e |]; simpl in *; [| done | done].
  destruct Hrec as (Hcl1 & Hsub & Hlen & Hx' & Hframe).
  eapply filler_after; [done | done | | | ].
  - intros c Hlt _. by apply Hframe.
  - rewrite Hframe by lia. done.
  - apply Hk; try done. apply Hframe. lia.
Qed.

(** A write into [clone] inside a filler, followed by the rest [r]. *)
Lemma filler_write clone vis h h' r :
  written h h' clone → filler_spec h0 d clone vis h' r → filler_spec h0 d clone vis h r.
Proof.
  intros (Hlen & Hframe & Hpl). apply filler_after; try done; [lia |].
  intros c _ Hne. by apply Hframe.
Qed.

Lemma clone_elements_spec clone elems i vis h :
  cloning h0 vis h → length h0 ≤ clone < length h →
  Forall (source_value h0) elems →
  filler_spec h0 d clone vis h (clone_elements rec clone elems i vis h).
Proof.
  revert i vis h. induction elems as [| x elems IH]; intros i vis h Hcl Hc Hsrc; simpl.
  - by apply filler_done.
  - apply Forall_cons in Hsrc as [Hx Hsrc].
    apply filler_call; try done. intros x' vis1 h1 Hcl1 Hlen Hx' _. simpl.
    destruct (set_element_cloning h0 vis1 h1 clone i x') as (h2 & -> & Hcl2 & Hw);
      [done | lia | done |]. simpl.
    eapply filler_write; [done |]. apply IH; [done | | done].
    destruct Hw as [-> _]. lia.
Qed.

Lemma clone_entries_spec clone entries vis h :
  cloning h0 vis h → length h0 ≤ clone < length h →
  Forall (source_value h0) (key_then_value entries) →
  filler_spec h0 d clone vis h (clone_entries rec clone entries vis h).
Proof.
  revert vis h. induction entries as [| e entries IH]; intros vis h Hcl Hc Hsrc; simpl.
  - by apply filler_done.
  - simpl in Hsrc. apply Forall_cons in Hsrc as [Hk Hsrc]. apply Forall_cons in Hsrc as [Hx Hsrc].
    apply filler_call; try done. intros k' vis1 h1 Hcl1 Hlen1 Hk' _. simpl.
    apply filler_call; try done; [lia |]. intros x' vis2 h2 Hcl2 Hlen2 Hx' _. simpl.
    destruct (Map_set_cloning h0 vis2 h2 clone k' x') as [Hcl3 Hw]; [done | lia | | done |].
    { eapply clone_value_mono; [| done]. lia. }
    eapply filler_write; [done |]. apply IH; [done | | done].
    destruct Hw as [-> _]. lia.
Qed.

Lemma clone_members_spec clone members vis h :
  cloning h0 vis h → length h0 ≤ clone < length h →
  Forall (source_value h0) members →
  filler_spec h0 d clone vis h (clone_members rec clone members vis h).
Proof.
  revert vis h. induction members as [| x members IH]; intros vis h Hcl Hc Hsrc; simpl.
  - by apply filler_done.
  - apply Forall_cons in Hsrc as [Hx Hsrc].
    apply filler_call; try done. intros x' vis1 h1 Hcl1 Hlen Hx' _. simpl.
    destruct (Set_add_cloning h0 vis1 h1 clone x') as [Hcl2 Hw]; [done | lia | done |].
    eapply filler_write; [done |]. apply IH; [done | | done].
    destruct Hw as [-> _]. lia.
Qed.

Lemma read_slot_source s p x :
  p ∈ o_props (deref h0 s) → read_slot (p_slot p) = Ret x → source_value h0 x.
Proof.
  intros Hp Hx. apply (Hclosed s). unfold object_values. apply elem_of_app. right.
  apply list_elem_of_In, in_flat_map. exists p. split; [by apply list_elem_of_In |].
  apply list_elem_of_In. destruct (p_slot p) as [v | [v |]]; simpl in *; try done;
    injection Hx as <-; apply list_elem_of_here.
Qed.

Lemma read_slot_fuel s : read_slot s ≠ OutOfFuel.
Proof. by destruct s as [v | [v |]]. Qed.

Lemma read_slot_raise s p e :
  p ∈ o_props (deref h0 s) → read_slot (p_slot p) = Raise e → ¬ Forall getters_safe h0.
Proof.
  intros Hp Hr Hsafe. pose proof (deref_safe h0 Hsafe s) as Hs.
  unfold getters_safe in Hs. rewrite Forall_forall in Hs. specialize (Hs p Hp).
  destruct (p_slot p) as [v | [v |]]; simpl in *; done.
Qed.

Lemma clone_assign_spec clone s ps vis h :
  cloning h0 vis h → length h0 ≤ clone < length h →
  is_plain (deref h clone) →
  (∀ p, p ∈ ps → p ∈ o_props (deref h0 s)) →
  (o_kind (deref h clone) = KPlain false → ∀ p, p ∈ ps → p_key p ≠ PStr "__proto__") →
  filler_spec h0 d clone vis h (clone_assign rec clone ps vis h).
Proof.
  revert vis h. induction ps as [| p ps IH]; intros vis h Hcl Hc Hpl Hps Hproto; simpl.
  - by apply filler_done.
  - assert (p ∈ o_props (deref h0 s)) as Hp by (apply Hps; left).
    destruct (read_slot (p_slot p)) as [x | e |] eqn:Hread; simpl.
    + apply filler_call; try done; [by eapply read_slot_source |].
      intros x' vis1 h1 Hcl1 Hlen Hx' Hsame. simpl.
      destruct (put_value_cloning h0 vis1 h1 clone (p_key p) x') as (h2 & -> & Hcl2 & Hw);
        [done | lia | by rewrite Hsame | | by exists s, p | done |].
      { rewrite Hsame. intros Hk. apply Hproto; [done | left]. }
      simpl.
      eapply filler_write; [done |]. apply IH; [done | | | |].
      * destruct Hw as [-> _]. lia.
      * destruct Hw as (_ & _ & Hs). eapply is_plain_shape; [done |]. by rewrite Hsame.
      * intros q Hq. apply Hps. by right.
      * destruct Hw as (_ & _ & Hs). rewrite Hsame in Hs. intros Hk q Hq.
        apply Hproto; [| by right]. destruct Hpl as [b Hb]. rewrite Hb in Hs. rewrite Hk in Hs.
        simpl in Hs. injection Hs as <-. done.
    + unfold filler_spec, clone_outcome. by eapply read_slot_raise.
    + by apply read_slot_fuel in Hread.
Qed.

Lemma clone_descriptors_spec clone s ps vis h :
  cloning h0 vis h → length h0 ≤ clone < length h →
  is_custom (deref h clone) → is_custom (deref h0 s) →
  (∀ p, p ∈ ps → p ∈ o_props (deref h0 s)) →
  filler_spec h0 d clone vis h (clone_descriptors rec clone ps vis h).
Proof.
  revert vis h. induction ps as [| p ps IH]; intros vis h Hcl Hc Hnp Hcs Hps; simpl.
  - by apply filler_done.
  - assert (p ∈ o_props (deref h0 s)) as Hp by (apply Hps; left).
    assert (∀ q, q ∈ ps → q ∈ o_props (deref h0 s)) as Hps' by (intros q Hq; apply Hps; by right).
    destruct (p_slot p) as [x | g] eqn:Hslot.
    + apply filler_call; try done.
      { eapply (read_slot_source s p); [done |]. by rewrite Hslot. }
      intros x' vis1 h1 Hcl1 Hlen Hx' Hsame. simpl.
      destruct (defineProperty_cloning h0 vis1 h1 clone
                  (Prop_ (p_key p) (p_enumerable p) (Data x'))) as (h2 & -> & Hcl2 & Hw);
        [done | lia | by rewrite Hsame | | |]; simpl.
      { exists s, p. split; [done |]. split; [done |]. right. eauto. }
      { by intros v [= <-]. }
      eapply filler_write; [done |]. apply IH; [done | | | done | done].
      * destruct Hw as [-> _]. lia.
      * destruct Hw as (_ & _ & Hs). eapply is_custom_shape; [done |]. by rewrite Hsame.
    + destruct (defineProperty_cloning h0 vis h clone p) as (h2 & -> & Hcl2 & Hw);
        [done | done | done | | |]; simpl.
      { exists s, p. split; [done |]. split; [done |]. by left. }
      { intros v Hv. rewrite Hslot in Hv. done. }
      eapply filler_write; [done |]. apply IH; [done | | | done | done].
      * destruct Hw as [-> _]. lia.
      * destruct Hw as (_ & _ & Hs). by eapply is_custom_shape.
Qed.

End Loops.

Lemma bind_assoc {A B C} (m : res A) (f : A → res B) (g : B → res C) :
  bind (bind m f) g = bind m (fun a => bind (f a) g).
Proof. by destruct m. Qed.

Lemma filler_seq h0 d c vis h r1 (k : gmap loc loc * heap → res (gmap loc loc * heap)) :
  filler_spec h0 d c vis h r1 →
  (∀ vis1 h1, cloning h0 vis1 h1 → length h ≤ length h1 →
              shape (o_kind (deref h1 c)) = shape (o_kind (deref h c)) →
              filler_spec h0 d c vis1 h1 (k (vis1, h1))) →
  filler_spec h0 d c vis h (bind r1 k).
Proof.
  intros H1 Hk. destruct r1 as [[vis1 h1] | e |]; simpl; [| done | done].
  unfold filler_spec, clone_outcome in H1. simpl in H1.
  destruct H1 as (Hcl & Hsub & Hlen & Hframe & Hpl).
  eapply filler_after; try done. by apply Hk.
Qed.

(** A node: allocate the clone, record it, fill it, return it. *)
Lemma node_outcome h0 d vis h obj k (r : res (gmap loc loc * heap)) :
  cloning h0 vis h → obj < length h0 → vis !! obj = None →
  filler_spec h0 d (length h) (<[obj := length h]> vis) (h ++ [fresh k]) r →
  clone_outcome h0 (S d) vis h
    (fun a h' => clone_value h0 (length h') a.1 ∧ ∀ c, c < length h → deref h' c = deref h c)
    (bind r (fun r => Ret (VRef (length h), r.1, r.2))) snd.
Proof.
  intros Hcl Hobj Hnew Hr. pose proof (cloning_length _ _ _ Hcl) as Hle.
  unfold filler_spec, clone_outcome in *.
  destruct r as [[vis' h'] | e |]; simpl in *; [| done |].
  - destruct Hr as (Hcl' & Hsub & Hlen & Hframe & _).
    rewrite length_app in Hlen. simpl in Hlen.
    split; [done |]. split; [| split; [lia |]; split].
    + etrans; [| done]. by apply insert_subseteq.
    + left. lia.
    + intros c Hc. rewrite Hframe; [by apply deref_app_l | rewrite length_app; lia | lia].
  - rewrite dom_insert_L in Hr.
    assert (obj ∉ dom vis) as Hnd by by apply not_elem_of_dom.
    pose proof (unvisited_visit h0 (dom vis) obj Hobj Hnd). lia.
Qed.

Section DeepClone.

Variable h0 : heap.
Hypothesis Hclosed : heap_closed h0.
Hypothesis Hproto : proto_free h0.

Lemma source_kind_values l :
  Forall (source_value h0) (kind_values (o_kind (deref h0 l))).
Proof.
  apply Forall_forall. intros v Hv. apply (Hclosed l). unfold object_values.
  apply elem_of_app. by left.
Qed.

Lemma fresh_target vis h k :
  cloning h0 vis h → length h0 ≤ length h < length (h ++ [fresh k]).
Proof. intros Hcl%cloning_length. rewrite length_app. simpl. lia. Qed.

Theorem deepClone_spec d : cloner_spec h0 d (deepClone d).
Proof.
  induction d as [| d IH]; intros v vis h Hcl Hsrc; simpl.
  { unfold clone_outcome. lia. }
  destruct v as [| | b | n | s | n | s | obj];
    try (unfold clone_outcome; simpl; split; [done |]; split; [done |]; split; [lia |];
         split; done).
  simpl in Hsrc. unfold typeof.
  assert (is_function h obj = is_function h0 obj) as ->.
  { unfold is_function. by rewrite (cloning_source h0 vis h obj). }
  rewrite (cloning_source h0 vis h obj) by done.
  destruct (is_function h0 obj) eqn:Hnf.
  { rewrite bool_decide_eq_true_2 by done.
    unfold clone_outcome. simpl. split; [done |]. split; [done |]. split; [lia |].
    split; [by right | done]. }
  rewrite bool_decide_eq_false_2 by done.
  destruct (vis !! obj) as [c |] eqn:Hv.
  { unfold clone_outcome. simpl. split; [done |]. split; [done |]. split; [lia |].
    split; [| done]. left. by eapply c_visited. }
  pose proof (source_kind_values obj) as Hvals.
  destruct (o_kind (deref h0 obj)) eqn:Ek; simpl in *.
  - (* array *)
    destruct (cloning_alloc h0 vis h obj (KArray [])) as [Hcl1 _]; try done.
    apply (node_outcome h0 d vis h obj (KArray [])); try done.
    apply clone_elements_spec; try done. by eapply fresh_target.
  - (* map *)
    destruct (cloning_alloc h0 vis h obj (KMap [])) as [Hcl1 _]; try done.
    apply (node_outcome h0 d vis h obj (KMap [])); try done.
    apply clone_entries_spec; try done. by eapply fresh_target.
  - (* set *)
    destruct (cloning_alloc h0 vis h obj (KSet [])) as [Hcl1 _]; try done.
    apply (node_outcome h0 d vis h obj (KSet [])); try done.
    apply clone_members_spec; try done. by eapply fresh_target.
  - (* date *)
    destruct (cloning_alloc h0 vis h obj (KDate time)) as [_ Hcl1]; try done.
    pose proof (fresh_target vis h (KDate time) Hcl).
    unfold clone_outcome. simpl. split; [done |]. split; [done |].
    split; [rewrite length_app; simpl; lia |]. split; [left; lia |].
    intros c Hc. by apply deref_app_l.
  - (* regexp *)
    destruct (cloning_alloc h0 vis h obj (KRegExp source flags)) as [_ Hcl1]; try done.
    pose proof (fresh_target vis h (KRegExp source flags) Hcl).
    unfold clone_outcome. simpl. split; [done |]. split; [done |].
    split; [rewrite length_app; simpl; lia |]. split; [left; lia |].
    intros c Hc. by apply deref_app_l.
  - (* function: excluded above *)
    unfold is_function in Hnf. rewrite Ek in Hnf. done.
  - (* plain record *)
    destruct (cloning_alloc h0 vis h obj (KPlain null_proto)) as [Hcl1 _]; try done.
    pose proof (fresh_target vis h (KPlain null_proto) Hcl) as Ht.
    assert (is_plain (deref (h ++ [fresh (KPlain null_proto)]) (length h))) as Hpl0.
    { rewrite deref_alloc. by exists null_proto. }
    rewrite <- bind_assoc. apply (node_outcome h0 d vis h obj (KPlain null_proto)); try done.
    apply filler_seq.
    + apply (clone_assign_spec h0 d (deepClone d) Hclosed IH _ obj); try done.
      * intros p [_ Hp]%list_elem_of_filter. done.
      * rewrite deref_alloc. simpl. intros [= ->] p Hp. by apply (Hproto obj).
    + intros vis1 h1 Hcl2 Hlen Hs. simpl.
      apply (clone_assign_spec h0 d (deepClone d) Hclosed IH _ obj); try done; [lia | | |].
      * by eapply is_plain_shape.
      * intros p [_ Hp]%list_elem_of_filter. done.
      * intros _ p [Hp _]%list_elem_of_filter. unfold is_symbol_key in Hp.
        intros Hk. by rewrite Hk in Hp.
  - (* custom prototype *)
    destruct (cloning_alloc h0 vis h obj (KCustom proto)) as [Hcl1 _]; try done.
    pose proof (fresh_target vis h (KCustom proto) Hcl) as Ht.
    assert (is_custom (deref (h ++ [fresh (KCustom proto)]) (length h))) as Hnp.
    { rewrite deref_alloc. by exists proto. }
    rewrite <- bind_assoc. apply (node_outcome h0 d vis h obj (KCustom proto)); try done.
    apply filler_seq.
    + apply (clone_descriptors_spec h0 d (deepClone d) Hclosed IH _ obj); try done.
      * by exists proto.
      * intros p [_ Hp]%list_elem_of_filter. done.
    + intros vis1 h1 Hcl2 Hlen Hpl. simpl.
      apply (clone_descriptors_spec h0 d (deepClone d) Hclosed IH _ obj); try done; [lia | | |].
      * by eapply is_custom_shape.
      * by exists proto.
      * intros p [_ Hp]%list_elem_of_filter. done.
Qed.

End DeepClone.

(** ** Freezing a fresh clone *)

Lemma lookup_deref (h : heap) (l : loc) : l < length h → h !! l = Some (deref h l).
Proof. intros Hl. unfold deref. destruct (lookup_lt_is_Some_2 h l Hl) as [o ->]. done. Qed.

Lemma deref_dangling (h : heap) (l : loc) : length h ≤ l → deref h l = dangling.
Proof. intros Hl. unfold deref. by rewrite lookup_ge_None_2. Qed.

Lemma find_none_key (ps : list property) (k : pkey) :
  (∀ p, p ∈ ps → p_key p ≠ k) → List.find (fun p => bool_decide (p_key p = k)) ps = None.
Proof.
  induction ps as [| p ps IH]; intros H; simpl; [done |].
  rewrite bool_decide_eq_false_2 by (apply H; left). apply IH. intros q Hq. apply H. by right.
Qed.

Lemma no_freeze_isFreezable h v : no_custom_freeze_in h → isFreezable h v = Ret false.
Proof.
  intros Hno. assert (∀ fuel l, lookup_property fuel h l (PStr "freeze") = None) as Hnone.
  { induction fuel as [| fuel IH]; intros l; simpl; [done |].
    unfold own_property. rewrite find_none_key by (intros p Hp; by eapply Hno).
    by destruct (o_kind (deref h l)). }
  destruct v; try done. unfold isFreezable, has_property. rewrite Hnone.
  by case_bool_decide.
Qed.

Lemma cloning_cases h0 vis h l :
  cloning h0 vis h →
  (l < length h0 ∧ deref h l = deref h0 l) ∨
  (length h0 ≤ l < length h ∧ clone_object h0 (length h) (deref h l)) ∨
  (length h ≤ l ∧ deref h l = dangling).
Proof.
  intros Hcl. pose proof (cloning_length _ _ _ Hcl).
  destruct (decide (l < length h0)); [left; split; [done | by eapply cloning_source] |].
  destruct (decide (l < length h)); [right; left; split; [lia |]; apply (c_new _ _ _ Hcl); lia |].
  right; right. split; [lia | apply deref_dangling; lia].
Qed.

Lemma cloning_no_freeze h0 vis h :
  cloning h0 vis h → no_custom_freeze_in h0 → no_custom_freeze_in h.
Proof.
  intros Hcl Hno l p Hp.
  destruct (cloning_cases h0 vis h l Hcl) as [[_ E] | [[_ (_ & _ & _ & Hprops)] | [_ E]]].
  - rewrite E in Hp. by eapply Hno.
  - rewrite Forall_forall in Hprops. destruct (Hprops p Hp) as ((s & sp & Hsp & <- & _) & _).
    by eapply Hno.
  - rewrite E in Hp. by apply elem_of_nil in Hp.
Qed.

Lemma cloning_safe h0 vis h :
  cloning h0 vis h → Forall getters_safe h0 → Forall getters_safe h.
Proof.
  intros Hcl Hsafe. apply Forall_lookup. intros l o Hl.
  assert (o = deref h l) as -> by (unfold deref; by rewrite Hl).
  destruct (cloning_cases h0 vis h l Hcl) as [[_ E] | [[_ (_ & _ & _ & Hprops)] | [_ E]]].
  - rewrite E. by apply deref_safe.
  - unfold getters_safe. eapply Forall_impl; [done |]. simpl.
    intros p ((s & sp & Hsp & _ & [[Hslot _] | [v Hslot]]) & _); rewrite Hslot; [| done].
    pose proof (deref_safe h0 Hsafe s) as Hs. unfold getters_safe in Hs.
    rewrite Forall_forall in Hs. by apply Hs.
  - rewrite E. apply Forall_nil_2.
Qed.

Lemma accessors_atomic_shared h : accessors_atomic h → shared_getters_atomic h.
Proof. intros Hat l p c _. apply Hat. Qed.

Lemma clone_object_values h0 n o :
  shared_getters_atomic h0 → clone_object h0 n o → Forall (clone_value h0 n) (object_values o).
Proof.
  intros Hat (_ & _ & Hk & Hp). unfold object_values. apply Forall_app. split; [done |].
  apply Forall_forall. intros v Hv%list_elem_of_In%in_flat_map.
  destruct Hv as (p & Hp'%list_elem_of_In & Hv%list_elem_of_In).
  rewrite Forall_forall in Hp. destruct (Hp p Hp') as ((s & sp & Hsp & _ & Hslot) & Hdata & _).
  destruct (p_slot p) as [x | [x |]] eqn:E; simpl in Hv.
  - apply list_elem_of_singleton in Hv as ->. by apply Hdata.
  - apply list_elem_of_singleton in Hv as ->.
    destruct Hslot as [[Hslot Hcs] | [? ?]]; [| done].
    destruct x; simpl; try done. right. eapply Hat; [exact Hcs | exact Hsp |]. by rewrite <- Hslot.
  - by apply elem_of_nil in Hv.
Qed.

(** What the engine schedules is held by the object. *)
Lemma read_slot_value s x : read_slot s = Ret x → x ∈ slot_values s.
Proof. destruct s as [v | [v |]]; simpl; try done; intros [= <-]; apply list_elem_of_here. Qed.

Lemma push_props_value h ps st st' l :
  push_props h ps st = Ret st' → l ∈ st' →
  VRef l ∈ flat_map (fun p => slot_values (p_slot p)) ps ∨ l ∈ st.
Proof.
  revert st. induction ps as [| p ps IH]; intros st; simpl.
  - intros [= <-]. auto.
  - intros (x & Hx & Hps)%bind_Ret Hl. rewrite elem_of_app.
    destruct (IH _ Hps Hl) as [? | [[-> _] | ?]%push_if_object_elem]; auto.
    left. left. by apply read_slot_value.
Qed.

Lemma push_props_try_value h ps st l :
  l ∈ push_props_try h ps st →
  VRef l ∈ flat_map (fun p => slot_values (p_slot p)) ps ∨ l ∈ st.
Proof.
  revert st. induction ps as [| p ps IH]; intros st; simpl; [auto |].
  rewrite elem_of_app.
  destruct (read_slot (p_slot p)) as [x | |] eqn:Hx; intros Hl.
  - destruct (IH _ Hl) as [? | [[-> _] | ?]%push_if_object_elem]; auto.
    left. left. by apply read_slot_value.
  - destruct (IH _ Hl); auto.
  - destruct (IH _ Hl); auto.
Qed.

Lemma flat_map_filter_values (P : property → Prop) `{∀ p, Decision (P p)} ps v :
  v ∈ flat_map (fun p => slot_values (p_slot p)) (filter P ps) →
  v ∈ flat_map (fun p => slot_values (p_slot p)) ps.
Proof.
  intros (p & [_ Hp]%list_elem_of_In%list_elem_of_filter & Hv)%list_elem_of_In%in_flat_map.
  apply list_elem_of_In, in_flat_map. exists p. split; [by apply list_elem_of_In | done].
Qed.

Lemma scheduled_value h l c : scheduled h l c → VRef c ∈ object_values (deref h l).
Proof.
  intros (cs & Hcs & Hc). unfold object_values. rewrite elem_of_app.
  unfold schedule_children in Hcs. destruct (o_kind (deref h l)) eqn:Ek; simpl in *.
  - injection Hcs as <-. apply fold_push_elem in Hc as [[? _] | Hn]; [auto | by apply elem_of_nil in Hn].
  - injection Hcs as <-. apply fold_entry_elem in Hc as [[? _] | Hn]; [auto | by apply elem_of_nil in Hn].
  - injection Hcs as <-. apply fold_push_elem in Hc as [[? _] | Hn]; [auto | by apply elem_of_nil in Hn].
  - injection Hcs as <-. by apply elem_of_nil in Hc.
  - injection Hcs as <-. by apply elem_of_nil in Hc.
  - injection Hcs as <-. right.
    apply push_props_try_value in Hc as [Hc | Hc]; [by eapply flat_map_filter_values |].
    apply push_props_try_value in Hc as [Hc | Hc]; [by eapply flat_map_filter_values |].
    by apply elem_of_nil in Hc.
  - apply bind_Ret in Hcs as (st1 & H1 & H2). right.
    destruct (push_props_value _ _ _ _ _ H2 Hc) as [Hv | Hc1]; [by eapply flat_map_filter_values |].
    destruct (push_props_value _ _ _ _ _ H1 Hc1) as [Hv | Hn]; [by eapply flat_map_filter_values |].
    by apply elem_of_nil in Hn.
  - injection Hcs as <-. right.
    apply push_props_try_value in Hc as [Hc | Hc]; [by eapply flat_map_filter_values |].
    apply push_props_try_value in Hc as [Hc | Hc]; [by eapply flat_map_filter_values |].
    by apply elem_of_nil in Hc.
Qed.

Section FrozenClone.

Variables (h0 : heap) (vis : gmap loc loc) (h1 : heap).
Hypothesis Hcl : cloning h0 vis h1.
Hypothesis Hat : shared_getters_atomic h0.

Lemma is_function_source l : is_function h1 l = true → is_function h0 l = true.
Proof.
  unfold is_function.
  destruct (cloning_cases h0 vis h1 l Hcl) as [[_ ->] | [[_ (_ & Hk & _)] | [_ ->]]]; try done.
  by destruct (o_kind (deref h1 l)).
Qed.

Lemma source_function l : is_function h0 l = true → is_function h1 l = true ∧ l < length h0.
Proof.
  intros Hf. assert (l < length h0) as Hl.
  { destruct (decide (l < length h0)); [done |]. unfold is_function in Hf.
    rewrite deref_dangling in Hf by lia. done. }
  split; [| done]. unfold is_function. by rewrite (cloning_source h0 vis h1 l).
Qed.

(** A container held by a new object is new. *)
Lemma new_holds_new a b :
  length h0 ≤ a < length h1 → VRef b ∈ object_values (deref h1 a) →
  is_function h1 b = false → length h0 ≤ b < length h1.
Proof.
  intros Ha Hb Hnf. pose proof (clone_object_values h0 _ _ Hat (c_new _ _ _ Hcl a Ha)) as Hv.
  rewrite Forall_forall in Hv. destruct (Hv _ Hb) as [? | Hf]; [done |].
  apply source_function in Hf as [Hf _]. congruence.
Qed.

Lemma thaw_path_new c x :
  length h0 ≤ c < length h1 → thaw_path h1 c x → length h0 ≤ x < length h1.
Proof.
  intros Hc Hp. induction Hp as [| a b x _ Hs _ IH]; [done |].
  apply IH. eapply new_holds_new; [done | by apply scheduled_value |].
  by eapply scheduled_not_function.
Qed.

End FrozenClone.

(** ** On a clone, the engine schedules what the predicate checks *)

Lemma push_if_object_keep h st x l : l ∈ st → l ∈ push_if_object h st x.
Proof. intros Hl. apply push_if_object_elem. by right. Qed.

Lemma push_props_try_keep h ps st l : l ∈ st → l ∈ push_props_try h ps st.
Proof.
  revert st. induction ps as [| p ps IH]; intros st Hl; simpl; [done |].
  destruct (read_slot (p_slot p)); apply IH; [by apply push_if_object_keep | done | done].
Qed.

Lemma push_props_try_intro h ps st p b :
  p ∈ ps → read_slot (p_slot p) = Ret (VRef b) → is_function h b = false →
  b ∈ push_props_try h ps st.
Proof.
  intros Hp Hr Hnf. revert st. induction ps as [| q ps IH]; intros st; simpl.
  { by apply elem_of_nil in Hp. }
  apply elem_of_cons in Hp as [<- | Hp].
  - rewrite Hr. apply push_props_try_keep. apply push_if_object_elem. left. done.
  - destruct (read_slot (p_slot q)); by apply IH.
Qed.

Lemma push_props_data h ps st :
  Forall (fun p => ∃ v, p_slot p = Data v) ps →
  ∃ st', push_props h ps st = Ret st' ∧
         (∀ l, l ∈ st → l ∈ st') ∧
         (∀ p b, p ∈ ps → p_slot p = Data (VRef b) → is_function h b = false → b ∈ st').
Proof.
  revert st. induction ps as [| q ps IH]; intros st Hd; simpl.
  - exists st. split; [done |]. split; [done |]. intros p b Hp. by apply elem_of_nil in Hp.
  - apply Forall_cons in Hd as [[v Hv] Hd]. rewrite Hv. simpl.
    destruct (IH (push_if_object h st v) Hd) as (st' & -> & Hkeep & Hin).
    exists st'. split; [done |]. split.
    + intros l Hl. by apply Hkeep, push_if_object_keep.
    + intros p b [-> | Hp]%elem_of_cons Hs Hnf; [| by eapply Hin].
      rewrite Hv in Hs. injection Hs as ->. apply Hkeep, push_if_object_elem. by left.
Qed.

Lemma elem_of_readable ps p x :
  (p, x) ∈ readable ps → p ∈ ps ∧ read_slot (p_slot p) = Ret x.
Proof.
  unfold readable. intros (q & Hq & Hx)%list_elem_of_omap.
  destruct (read_slot (p_slot q)) eqn:E; try done. by injection Hx as <- <-.
Qed.

Lemma checked_property o b :
  VRef b ∈ map snd (readable (Object_getOwnPropertyNames o)) →
  ∃ p, p ∈ o_props o ∧ is_string_key p = true ∧ read_slot (p_slot p) = Ret (VRef b).
Proof.
  intros ([p x] & Hx & Hp%list_elem_of_In)%list_elem_of_In%in_map_iff. simpl in Hx. subst x.
  apply elem_of_readable in Hp as [[Hs Hp]%list_elem_of_filter Hr]. eauto.
Qed.

Lemma clone_checks_scheduled h0 n o h b :
  clone_object h0 n o → VRef b ∈ checked_children o → is_function h b = false →
  ∃ cs, schedule_children h o [] = Ret cs ∧ b ∈ cs.
Proof.
  intros (_ & Hk & _ & Hprops) Hb Hnf. rewrite Forall_forall in Hprops.
  unfold checked_children in Hb. unfold schedule_children.
  destruct (o_kind o) eqn:Ek; try done.
  - eexists. split; [done |]. apply fold_push_elem. by left.
  - eexists. split; [done |]. apply fold_entry_elem. by left.
  - eexists. split; [done |]. apply fold_push_elem. by left.
  - apply checked_property in Hb as (p & Hp & _).
    destruct (Hprops p Hp) as (_ & _ & [([c Hc] & _) | [c Hc]]); congruence.
  - apply checked_property in Hb as (p & Hp & _).
    destruct (Hprops p Hp) as (_ & _ & [([c Hc] & _) | [c Hc]]); congruence.
  - apply checked_property in Hb as (p & Hp & Hs & Hr).
    assert (∀ q, q ∈ o_props o → p_enumerable q = true ∧ ∃ v, p_slot q = Data v) as Hdata.
    { intros q Hq. destruct (Hprops q Hq) as (_ & _ & [(_ & ? & ? & _) | [c Hc]]); [done | congruence]. }
    destruct (push_props_data h (Object_keys o) []) as (st1 & -> & _ & Hin).
    { apply Forall_forall. intros q [_ Hq]%list_elem_of_filter. by apply Hdata. }
    simpl. destruct (push_props_data h (Object_getOwnPropertySymbols o) st1) as (cs & -> & Hkeep & _).
    { apply Forall_forall. intros q [_ Hq]%list_elem_of_filter. by apply Hdata. }
    exists cs. split; [done |]. apply Hkeep.
    destruct (Hdata p Hp) as [He [v Hv]]. rewrite Hv in Hr. simpl in Hr. injection Hr as ->.
    apply (Hin p); [| done | done].
    apply list_elem_of_filter. split; [| done]. by rewrite Hs, He.
  - apply checked_property in Hb as (p & Hp & Hs & Hr).
    eexists. split; [done |]. apply push_props_try_keep.
    eapply push_props_try_intro; [| done | done].
    apply list_elem_of_filter. done.
Qed.

Lemma set_prototype_other h l x h' c :
  set_prototype h l x = Ret h' → c ≠ l → deref h' c = deref h c.
Proof.
  unfold set_prototype, link. intros Hs Hne.
  repeat case_match; simplify_eq; try done; by apply deref_insert_ne.
Qed.

Lemma put_value_other h l k x h' c :
  put_value h l k x = Ret h' → c ≠ l → deref h' c = deref h c.
Proof.
  unfold put_value, set_property. intros Hp Hne.
  assert (∀ o, deref (<[l := o]> h) c = deref h c) as Hins.
  { intros o. by apply deref_insert_ne. }
  destruct (resolve _ h l k) as [holder p | |].
  - destruct (p_slot p); [| done]. destruct (o_frozen (deref h holder)); [done |].
    destruct (o_frozen (deref h l)); [done |]. by injection Hp as <-.
  - by eapply set_prototype_other.
  - destruct (o_frozen (deref h l)); [done |]. by injection Hp as <-.
Qed.

Lemma writes_to_other h s h' x : writes_to h s h' → x ≠ s → deref h' x = deref h x.
Proof.
  unfold writes_to, set_property, defineProperty, delete_property, set_element, Map_set, Set_add.
  intros Hw Hne.
  assert (∀ o, deref (<[s := o]> h) x = deref h x) as Hins.
  { intros o. by apply deref_insert_ne. }
  destruct Hw as [(k & v & Hw) | [(k & v & Hw) | [(p & Hw) | [(k & Hw) | [(i & v & Hw) |
                  [(k & v & ->) | (v & ->)]]]]]].
  - by eapply put_value_other.
  - destruct (o_frozen (deref h s)); [done |]. by injection Hw as <-.
  - destruct (o_frozen (deref h s)); [done |]. by injection Hw as <-.
  - destruct (own_property (deref h s) k); [| by injection Hw as <-].
    destruct (o_frozen (deref h s)); [done |]. by injection Hw as <-.
  - destruct (o_frozen (deref h s)); [done |].
    destruct (o_kind (deref h s)); by injection Hw as <-.
  - by destruct (o_kind (deref h s)).
  - destruct (o_kind (deref h s)); try done. by case_bool_decide.
Qed.

(** ** The scheduled children, spelled out *)

Lemma slot_values_read s x : x ∈ slot_values s → read_slot s = Ret x.
Proof.
  destruct s as [v | [v |]]; simpl; [| | by intros ?%elem_of_nil];
    by intros ->%list_elem_of_singleton.
Qed.

Lemma elem_of_flat_slot_values ps x :
  x ∈ flat_map (fun p => slot_values (p_slot p)) ps ↔ ∃ p, p ∈ ps ∧ x ∈ slot_values (p_slot p).
Proof.
  rewrite list_elem_of_In, in_flat_map. split; intros (p & Hp & Hx); exists p.
  - by rewrite !list_elem_of_In.
  - by rewrite <- !list_elem_of_In.
Qed.

Lemma push_props_try_iff h ps st l :
  l ∈ push_props_try h ps st ↔
  (VRef l ∈ flat_map (fun p => slot_values (p_slot p)) ps ∧ is_function h l = false) ∨ l ∈ st.
Proof.
  split.
  - intros Hl. destruct (push_props_try_value _ _ _ _ Hl) as [? | ?]; [| by right].
    destruct (push_props_try_elem _ _ _ _ Hl) as [? | ?]; auto.
  - intros [[(p & Hp & Hv)%elem_of_flat_slot_values Hnf] | Hl].
    + eapply push_props_try_intro; [done | by apply slot_values_read | done].
    + by apply push_props_try_keep.
Qed.

Lemma push_props_iff h ps st st' l :
  push_props h ps st = Ret st' →
  l ∈ st' ↔
  (VRef l ∈ flat_map (fun p => slot_values (p_slot p)) ps ∧ is_function h l = false) ∨ l ∈ st.
Proof.
  revert st. induction ps as [| p ps IH]; intros st; simpl.
  - intros [= <-]. rewrite elem_of_nil. tauto.
  - intros (x & Hx & Hps)%bind_Ret. rewrite (IH _ Hps), push_if_object_elem, elem_of_app.
    assert (VRef l ∈ slot_values (p_slot p) ↔ x = VRef l) as ->.
    { split.
      - intros Hv%slot_values_read. congruence.
      - intros ->. by apply read_slot_value. }
    tauto.
Qed.

(** [freeze] schedules exactly the containers among [scheduled_values];
    for a plain record this supposes that its reads succeed. *)
Lemma scheduled_iff h l c :
  (is_plain (deref h l) → getters_safe (deref h l)) →
  scheduled h l c ↔ VRef c ∈ scheduled_values (deref h l) ∧ is_function h c = false.
Proof.
  intros Hsafe. unfold scheduled, scheduled_values, schedule_children.
  destruct (o_kind (deref h l)) eqn:Ek.
  - split; [intros (cs & [= <-] & Hc) | intros Hc; eexists; split; [done |]];
      revert Hc; rewrite fold_push_elem, elem_of_nil; tauto.
  - split; [intros (cs & [= <-] & Hc) | intros Hc; eexists; split; [done |]];
      revert Hc; rewrite fold_entry_elem, elem_of_nil; tauto.
  - split; [intros (cs & [= <-] & Hc) | intros Hc; eexists; split; [done |]];
      revert Hc; rewrite fold_push_elem, elem_of_nil; tauto.
  - split; [intros (cs & [= <-] & Hc) | intros [Hc _]]; by apply elem_of_nil in Hc.
  - split; [intros (cs & [= <-] & Hc) | intros [Hc _]]; by apply elem_of_nil in Hc.
  - rewrite flat_map_app, elem_of_app.
    split; [intros (cs & [= <-] & Hc) | intros Hc; eexists; split; [done |]];
      revert Hc; rewrite !push_props_try_iff, elem_of_nil; tauto.
  - destruct (schedule_children_safe h (deref h l) [] (Hsafe (ex_intro _ _ Ek))) as [cs Hcs].
    unfold schedule_children in Hcs. rewrite Ek in Hcs. rewrite Hcs.
    apply bind_Ret in Hcs as (st1 & H1 & H2).
    rewrite flat_map_app, elem_of_app.
    split; [intros (cs' & [= <-] & Hc) | intros Hc; eexists; split; [done |]];
      revert Hc; rewrite (push_props_iff _ _ _ _ _ H2), (push_props_iff _ _ _ _ _ H1), elem_of_nil;
      tauto.
  - rewrite flat_map_app, elem_of_app.
    split; [intros (cs & [= <-] & Hc) | intros Hc; eexists; split; [done |]];
      revert Hc; rewrite !push_props_try_iff, elem_of_nil; tauto.
Qed.

(** On a clone, the engine schedules every container the clone holds. *)
Lemma clone_scheduled_values h0 n o v :
  clone_object h0 n o → v ∈ object_values o → v ∈ scheduled_values o.
Proof.
  intros (_ & Hk & _ & Hprops). rewrite Forall_forall in Hprops.
  unfold object_values, scheduled_values. rewrite elem_of_app.
  assert (∀ p, p ∈ o_props o → is_plain o ∨ is_custom o) as Hshape.
  { intros p Hp. destruct (Hprops p Hp) as (_ & _ & [(? & _) | ?]); auto. }
  assert (∀ p, p ∈ o_props o →
               p ∈ Object_getOwnPropertyNames o ++ Object_getOwnPropertySymbols o) as Hall.
  { intros p Hp. apply elem_of_app.
    unfold Object_getOwnPropertyNames, Object_getOwnPropertySymbols.
    rewrite !list_elem_of_filter. unfold is_string_key, is_symbol_key.
    destruct (p_key p); auto. }
  intros [Hv | (p & Hp & Hv)%elem_of_flat_slot_values].
  - destruct (o_kind o); simpl in *; try done; by apply elem_of_nil in Hv.
  - destruct (Hshape p Hp) as [[b Hb] | [q Hq]].
    + rewrite Hb. apply elem_of_flat_slot_values. exists p. split; [| done].
      destruct (Hprops p Hp) as (_ & _ & [(_ & He & _) | [q Hq]]); [| congruence].
      apply elem_of_app. unfold Object_keys, Object_getOwnPropertySymbols.
      rewrite !list_elem_of_filter. unfold is_string_key, is_symbol_key.
      rewrite He. destruct (p_key p); auto.
    + rewrite Hq. apply elem_of_flat_slot_values. exists p. split; [auto | done].
Qed.

Lemma clone_getters_safe h0 n o : clone_object h0 n o → is_plain o → getters_safe o.
Proof.
  intros (_ & _ & _ & Hprops) [b Hb]. unfold getters_safe.
  eapply Forall_impl; [exact Hprops |]. simpl.
  intros p (_ & _ & [(_ & _ & [v ->] & _) | [q Hq]]); [done | congruence].
Qed.

(** ** [frozenCopy] *)

Lemma checked_children_values o v : v ∈ checked_children o → v ∈ object_values o.
Proof.
  unfold checked_children, object_values. rewrite elem_of_app.
  destruct (o_kind o); simpl; auto;
    intros ([p x] & Hx & Hp%list_elem_of_In)%list_elem_of_In%in_map_iff; simpl in Hx; subst x;
    apply elem_of_readable in Hp as [[_ Hp]%list_elem_of_filter Hr]; right;
    apply list_elem_of_In, in_flat_map; exists p; (split; [by apply list_elem_of_In |]);
    by apply list_elem_of_In, read_slot_value.
Qed.

Lemma freezes_only_checks_inv h h' l c : freezes_only h h' → checks h' l c → checks h l c.
Proof.
  intros [_ H]. destruct (H l) as (Hk & Hp & _).
  unfold checks, checked_children, Object_getOwnPropertyNames. by rewrite Hk, Hp.
Qed.

Lemma reaches_source h f x :
  heap_closed h → f < length h → reaches h (VRef f) x → x < length h.
Proof.
  intros Hclosed Hf (f' & [= <-] & Hr). induction Hr as [| a b x Hab _ IH]; [done |].
  apply IH. apply (Hclosed a (VRef b)). by apply checked_children_values.
Qed.

Lemma deepClone_node_result d obj vis h v' vis' h' :
  deepClone d (VRef obj) vis h = Ret (v', vis', h') → is_function h obj = false →
  ∃ c, v' = VRef c ∧ (vis !! obj = Some c ∨ c = length h).
Proof.
  destruct d as [| d]; simpl; [done |]. intros Hdc Hnf. rewrite Hnf in Hdc.
  rewrite bool_decide_eq_false_2 in Hdc by done.
  destruct (vis !! obj) as [c |]; [inversion Hdc; subst; eauto |].
  unfold is_function in Hnf.
  destruct (o_kind (deref h obj)); try done;
    first [ by (inversion Hdc; subst; eauto)
          | by (apply bind_Ret in Hdc as (r & _ & Hdc); inversion Hdc; subst; eauto)
          | by (apply bind_Ret in Hdc as (r & _ & Hdc); apply bind_Ret in Hdc as (r' & _ & Hdc);
                inversion Hdc; subst; eauto) ].
Qed.

Section FrozenCopy.

Variable call : loc → loc → heap → res (value * heap).

Lemma frozenCopy_steps h l :
  heap_closed h → proto_free h → l < length h → is_function h l = false →
  match deepClone (enough_depth h) (VRef l) ∅ h with
  | Ret (v', vis, h1) =>
      cloning h vis h1 ∧ v' = VRef (length h) ∧ length h < length h1 ∧
      o_frozen (deref h1 (length h)) = false ∧
      frozenCopy call (VRef l) h = freeze call (VRef (length h)) h1
  | Raise e => ¬ Forall getters_safe h ∧ frozenCopy call (VRef l) h = Raise e
  | OutOfFuel => False
  end.
Proof.
  intros Hclosed Hproto Hl Hnf.
  pose proof (deepClone_spec h Hclosed Hproto (enough_depth h) (VRef l) ∅ h (cloning_init h) Hl)
    as Hout.
  unfold frozenCopy.
  destruct (deepClone (enough_depth h) (VRef l) ∅ h) as [[[v' vis] h1] | e |] eqn:Hdc;
    unfold clone_outcome in Hout; simpl in Hout; unfold bind.
  - destruct Hout as (Hcl & _ & Hlen & Hv & _).
    destruct (deepClone_node_result _ _ _ _ _ _ _ Hdc Hnf) as (c & -> & [Hc | ->]);
      [by rewrite lookup_empty in Hc |].
    assert (length h < length h1) as Hlt.
    { destruct Hv as [? | Hf]; [lia |]. unfold is_function in Hf.
      rewrite deref_dangling in Hf by lia. done. }
    split; [done |]. split; [done |]. split; [done |]. split; [| done].
    apply (cloning_unfrozen h vis h1); [done | lia].
  - done.
  - rewrite dom_empty_L, unvisited_empty in Hout. unfold enough_depth in Hout. lia.
Qed.

(** The copy of an object that is not a function, as long as the clone
    declares no custom freeze. *)
Lemma frozenCopy_spec h l :
  heap_closed h → proto_free h → shared_getters_atomic h →
  l < length h → is_function h l = false →
  (∀ vis h1, deepClone (enough_depth h) (VRef l) ∅ h = Ret (VRef (length h), vis, h1) →
             isFreezable h1 (VRef (length h)) = Ret false) →
  frozenCopy call (VRef l) h ≠ OutOfFuel ∧
  (Forall getters_safe h → ∃ r h', frozenCopy call (VRef l) h = Ret (r, h')) ∧
  ∀ r h', frozenCopy call (VRef l) h = Ret (r, h') →
    (∀ s, s < length h → h' !! s = h !! s) ∧
    (isShallowFrozen h' (VRef l) = isShallowFrozen h (VRef l)) ∧
    r = VRef (length h) ∧ length h < length h' ∧
    (∃ vis h1, deepClone (enough_depth h) (VRef l) ∅ h = Ret (r, vis, h1) ∧
               freezes_only h1 h') ∧
    (∀ x, contained h' r x → length h ≤ x < length h' ∧ o_frozen (deref h' x) = true) ∧
    (∀ s h'', s < length h → writes_to h' s h'' →
              ∀ x, length h ≤ x → deref h'' x = deref h' x) ∧
    (isFrozen h' r = true ↔
     ∀ f, is_function h f = true → reaches h' r f → isFrozen h (VRef f) = true).
Proof.
  intros Hclosed Hproto Hat Hl Hnf Hfz.
  pose proof (frozenCopy_steps h l Hclosed Hproto Hl Hnf) as Hsteps.
  destruct (deepClone (enough_depth h) (VRef l) ∅ h) as [[[v' vis] h1] | e |] eqn:Hdc; [| | done].
  2:{ destruct Hsteps as [Hunsafe ->]. split; [done |]. split; [done | done]. }
  destruct Hsteps as (Hcl & -> & Hlt & Hunf & ->).
  specialize (Hfz vis h1 eq_refl) as Hz.
  set (c := length h) in *.
  destruct (freeze_traversal_returns call c h1 Hunf Hz) as [Hfuel Hret].
  split; [done |]. split.
  { intros Hsafe. destruct Hret as [h' Hh']; [by eapply cloning_safe | eauto]. }
  intros r h' Hfr.
  destruct (freeze_traversal_spec call c h1 r h' Hunf Hz Hfr) as (-> & Hshape & Hiff).
  assert (length h' = length h1) as Hlen by apply Hshape.
  assert (∀ x, thaw_path h1 c x → length h ≤ x < length h1) as Hnewpath.
  { intros x. apply (thaw_path_new h vis h1 Hcl Hat). unfold c. lia. }
  assert (∀ s, s < length h → deref h' s = deref h s) as Hold.
  { intros s Hs. rewrite <- (cloning_source h vis h1 s Hcl Hs).
    destruct Hshape as [_ Hshape]. destruct (Hshape s) as (Hk & Hp & Hm).
    apply deref_eq; try done.
    destruct (o_frozen (deref h1 s)) eqn:E1; [auto |].
    destruct (o_frozen (deref h' s)) eqn:E'; [| done].
    apply Hiff in E' as [? | Hpath%Hnewpath]; [congruence | lia]. }
  assert (∀ x, contained h' (VRef c) x → length h ≤ x < length h1 ∧ thaw_path h1 c x) as Hbelow.
  { intros x (c' & [= <-] & Hr). revert x Hr.
    apply (rtc_ind_r (fun x => length h ≤ x < length h1 ∧ thaw_path h1 c x)).
    - split; [unfold c; lia | by apply thaw_here].
    - intros y z Hcy [Hyz Hnf'] [Hy Hpy].
      assert (VRef z ∈ object_values (deref h1 y)) as Hyz1.
      { destruct Hshape as [_ Hshape]. destruct (Hshape y) as (Hk & Hp & _).
        unfold object_values in *. by rewrite <- Hk, <- Hp. }
      assert (is_function h1 z = false) as Hnf1.
      { by rewrite <- (freezes_only_is_function h1 h'). }
      assert (scheduled h1 y z) as Hs.
      { apply scheduled_iff.
        - eapply clone_getters_safe. by apply (c_new _ _ _ Hcl).
        - split; [| done]. eapply clone_scheduled_values; [by apply (c_new _ _ _ Hcl) | done]. }
      assert (length h ≤ z < length h1) as Hz1.
      { eapply (new_holds_new h vis h1); try done. }
      split; [done |]. eapply thaw_path_snoc; [done | done |].
      by eapply cloning_unfrozen. }
  split; [| split; [| split; [| split; [| split; [| split; [| split]]]]]].
  - intros s Hs. rewrite !lookup_deref by lia. f_equal. by apply Hold.
  - simpl. by rewrite Hold.
  - done.
  - lia.
  - exists vis, h1. done.
  - intros x Hx. destruct (Hbelow x Hx) as [Hnew Hp]. split; [lia |]. apply Hiff. by right.
  - intros s h'' Hs Hw x Hx. eapply writes_to_other; [done | lia].
  - assert (∀ f, is_function h f = true → f < length h) as Hflt.
    { intros f Hf. destruct (decide (f < length h)); [done |]. unfold is_function in Hf.
      rewrite deref_dangling in Hf by lia. done. }
    assert (∀ f x, f < length h → reaches h (VRef f) x → reaches h' (VRef f) x) as Hpath.
    { intros f x Hf (f' & [= <-] & Hr). exists f. split; [done |]. revert x Hr.
      apply (rtc_ind_r (fun x => rtc (checks h') f x)); [apply rtc_refl |].
      intros y z Hfy Hyz IH. eapply rtc_r; [done |].
      assert (y < length h) as Hy.
      { eapply reaches_source; [done | done |]. by exists f. }
      unfold checks in *. by rewrite (Hold y). }
    split.
    + intros Hall f Hf (c' & [= <-] & Hcf). apply isFrozen_iff. intros x Hx.
      pose proof (reaches_source h f x Hclosed (Hflt f Hf) Hx) as Hxlt.
      rewrite <- (Hold x Hxlt). apply (proj1 (isFrozen_iff h' (VRef c)) Hall).
      destruct (Hpath f x (Hflt f Hf) Hx) as (f' & [= <-] & Hfx).
      exists c. split; [done |]. by etrans.
    + intros Hfun. apply isFrozen_iff. intros x (c' & [= <-] & Hr).
      assert (contained h' (VRef c) x ∨
              (∃ f, is_function h f = true ∧ reaches h' (VRef c) f ∧ reaches h (VRef f) x))
        as [Hx | (f & Hf & Hcf & Hfx)].
      { revert x Hr.
        apply (rtc_ind_r (fun x => contained h' (VRef c) x ∨
                 ∃ f, is_function h f = true ∧ reaches h' (VRef c) f ∧ reaches h (VRef f) x)).
        - left. exists c. split; [done | apply rtc_refl].
        - intros y z Hcy Hyz [(c' & [= <-] & Hy) | (f & Hf & Hcf & Hfy)].
          + destruct (is_function h' z) eqn:Hfz'.
            * right. exists z. split; [| split].
              -- apply (is_function_source h vis h1 Hcl).
                 by rewrite <- (freezes_only_is_function h1 h').
              -- exists c. split; [done |]. by eapply rtc_r.
              -- exists z. split; [done | apply rtc_refl].
            * left. exists c. split; [done |]. eapply rtc_r; [done |].
              split; [| done]. by apply checked_children_values.
          + right. exists f. split; [done |]. split; [done |].
            assert (y < length h) as Hylt by (eapply reaches_source; [done | by apply Hflt | done]).
            destruct Hfy as (f' & [= <-] & Hfy). exists f. split; [done |].
            eapply rtc_r; [done |]. unfold checks in *. by rewrite <- (Hold y). }
      * destruct (Hbelow x Hx) as [_ Hp]. apply Hiff. by right.
      * assert (x < length h) as Hxlt by (eapply reaches_source; [done | by apply Hflt | done]).
        rewrite Hold by done. by apply (isFrozen_iff h (VRef f)); [apply Hfun |].
Qed.

End FrozenCopy.

(** ** Call depth on chains *)

Lemma chain_length b n : length (chain b n) = n.
Proof. unfold chain. by rewrite length_map, length_seq. Qed.

Lemma chain_deref b n i : i < n → deref (chain b n) i = chain_node b n i.
Proof.
  intros Hi. apply deref_lookup. unfold chain.
  rewrite list_lookup_fmap, lookup_seq_lt by done. done.
Qed.

Lemma chain_deref_ext b n ext i : i < n → deref (chain b n ++ ext) i = chain_node b n i.
Proof. intros Hi. rewrite deref_app_l by (by rewrite chain_length). by apply chain_deref. Qed.

Lemma chain_frozen n l : o_frozen (deref (chain true n) l) = true.
Proof.
  destruct (decide (l < n)); [by rewrite chain_deref |].
  rewrite deref_dangling; [done |]. rewrite chain_length. lia.
Qed.

Lemma chain_props b n l p :
  p ∈ o_props (deref (chain b n) l) →
  p = data "child" (VRef (S l)) ∧ S l < n ∨ p = data "value" (VNumber 0).
Proof.
  destruct (decide (l < n)).
  - rewrite chain_deref by done. simpl. intros ->%list_elem_of_singleton.
    case_decide; auto.
  - rewrite deref_dangling by (rewrite chain_length; lia). simpl. by intros ?%elem_of_nil.
Qed.

Lemma chain_closed b n : heap_closed (chain b n).
Proof.
  intros l v Hv. unfold object_values in Hv. apply elem_of_app in Hv as [Hv | Hv].
  - destruct (decide (l < n)).
    + rewrite chain_deref in Hv by done. by apply elem_of_nil in Hv.
    + rewrite deref_dangling in Hv by (rewrite chain_length; lia). by apply elem_of_nil in Hv.
  - apply list_elem_of_In, in_flat_map in Hv as (p & Hp%list_elem_of_In & Hv%list_elem_of_In).
    apply chain_props in Hp as [[-> Hlt] | ->]; simpl in Hv;
      apply list_elem_of_singleton in Hv as ->; simpl; [by rewrite chain_length | done].
Qed.

Lemma chain_no_custom_freeze b n : no_custom_freeze_in (chain b n).
Proof. intros l p [[-> _] | ->]%chain_props; done. Qed.

Lemma chain_accessors_atomic b n : accessors_atomic (chain b n).
Proof. intros l p c [[-> _] | ->]%chain_props; done. Qed.

Lemma chain_getters_safe b n : Forall getters_safe (chain b n).
Proof.
  apply Forall_lookup. intros l o Hl.
  assert (o = deref (chain b n) l) as -> by (unfold deref; by rewrite Hl).
  apply Forall_forall. intros p [[-> _] | ->]%chain_props; done.
Qed.

Lemma chain_not_function b n ext l : is_function (chain b n ++ ext) l = false ∨ n ≤ l.
Proof.
  destruct (decide (l < n)); [left | right; lia].
  unfold is_function. by rewrite chain_deref_ext.
Qed.

Lemma record_checked_children k v b : checked_children (record [data k v] b) = [v].
Proof.
  unfold checked_children, Object_getOwnPropertyNames. simpl. done.
Qed.

Lemma record_keys k v b : Object_keys (record [data k v] b) = [data k v].
Proof. unfold Object_keys. simpl. by rewrite filter_cons_True. Qed.

Lemma record_symbols k v b : Object_getOwnPropertySymbols (record [data k v] b) = [].
Proof. unfold Object_getOwnPropertySymbols. simpl. done. Qed.

Lemma record_schedule h k c b :
  is_function h c = false → schedule_children h (record [data k (VRef c)] b) [] = Ret [c].
Proof.
  intros Hnf. unfold schedule_children.
  change (o_kind (record [data k (VRef c)] b)) with (KPlain false). cbv beta iota.
  rewrite record_keys, record_symbols. simpl. rewrite Hnf.
  by rewrite bool_decide_eq_true_2.
Qed.

Lemma chain_proto_free b n : proto_free (chain b n).
Proof.
  intros l p _ [_ Hp]%list_elem_of_filter. by apply chain_props in Hp as [[-> _] | ->].
Qed.

Lemma chain_frozen_to_length k n : length (chain_frozen_to k n) = n.
Proof. unfold chain_frozen_to. by rewrite length_map, length_seq. Qed.

Lemma chain_frozen_to_deref k n i :
  i < n → deref (chain_frozen_to k n) i = chain_node (bool_decide (i < k)) n i.
Proof.
  intros Hi. apply deref_lookup. unfold chain_frozen_to.
  rewrite list_lookup_fmap, lookup_seq_lt by done. done.
Qed.

Lemma chain_frozen_to_all n : chain_frozen_to n n = chain true n.
Proof.
  unfold chain_frozen_to, chain. apply map_ext_in. intros i [_ Hi]%in_seq.
  by rewrite bool_decide_eq_true_2 by lia.
Qed.

(** The predicate on a chain whose [k] outermost records are frozen, with
    room for [d] nested calls: it looks at the records from [i] to
    [i + d - 1] and never raises, since the call for which there is no room
    is made inside [try { } catch { }]. *)
Lemma isFrozenImpl_chain k n d i vis :
  i < n → 0 < d → (∀ j, i ≤ j → j ∉ vis) →
  (isFrozenImpl d (chain_frozen_to k n) (VRef i) vis).1 =
  Some (bool_decide (¬ (k < i + d ∧ k < n))).
Proof.
  revert i vis. induction d as [| d IH]; intros i vis Hi Hd Hvis; [lia |]. simpl.
  rewrite bool_decide_eq_false_2 by (apply Hvis; lia).
  unfold Object_isFrozen. rewrite chain_frozen_to_deref by done. simpl.
  case_bool_decide as Hik; simpl.
  2:{ by rewrite bool_decide_eq_false_2 by lia. }
  unfold chain_node.
  destruct (decide (S i < n)) as [Hlast | Hlast]; rewrite record_checked_children; simpl.
  - destruct d as [| d].
    + simpl. by rewrite bool_decide_eq_true_2 by lia.
    + specialize (IH (S i) ({[i]} ∪ vis) ltac:(lia) ltac:(lia)).
      destruct (isFrozenImpl (S d) (chain_frozen_to k n) (VRef (S i)) ({[i]} ∪ vis))
        as [r w] eqn:E.
      simpl in IH. rewrite IH by (intros j Hj; specialize (Hvis j); set_solver by lia).
      case_bool_decide as H1; simpl.
      * by rewrite bool_decide_eq_true_2 by lia.
      * by rewrite bool_decide_eq_false_2 by lia.
  - assert (isFrozenImpl d (chain_frozen_to k n) (VNumber 0) ({[i]} ∪ vis) =
            (match d with 0 => None | S _ => Some true end, {[i]} ∪ vis)) as ->
      by by destruct d.
    destruct d; simpl; by rewrite bool_decide_eq_true_2 by lia.
Qed.

Lemma chain_frozen_to_checks k n i : S i < n → checks (chain_frozen_to k n) i (S i).
Proof.
  intros Hi. unfold checks. rewrite chain_frozen_to_deref by lia. unfold chain_node.
  rewrite decide_True by done. rewrite record_checked_children. apply list_elem_of_here.
Qed.

Lemma chain_frozen_to_reaches k n i : i < n → reaches (chain_frozen_to k n) (VRef 0) i.
Proof.
  intros Hi. exists 0. split; [done |]. induction i as [| i IH]; [apply rtc_refl |].
  eapply rtc_r; [apply IH; lia | by apply chain_frozen_to_checks].
Qed.

Lemma isFrozen_chain_frozen_to k n : k < n → isFrozen (chain_frozen_to k n) (VRef 0) = false.
Proof.
  intros Hk. apply not_true_is_false. intros Hf.
  pose proof (proj1 (isFrozen_iff _ _) Hf k (chain_frozen_to_reaches k n k Hk)) as Hfk.
  rewrite chain_frozen_to_deref in Hfk by done. simpl in Hfk.
  by rewrite bool_decide_eq_false_2 in Hfk by lia.
Qed.

(** Likewise for the clone engine. *)
Lemma deepClone_chain_short n d i vis ext :
  i < n → d ≤ n - i → (∀ j, i ≤ j → vis !! j = None) →
  deepClone d (VRef i) vis (chain false n ++ ext) = OutOfFuel.
Proof.
  revert i vis ext. induction d as [| d IH]; intros i vis ext Hi Hd Hvis; simpl; [done |].
  destruct (chain_not_function false n ext i) as [-> | ?]; [| lia].
  rewrite bool_decide_eq_false_2 by done.
  rewrite Hvis by lia. rewrite chain_deref_ext by done.
  unfold chain_node. simpl.
  case_decide as Hlast; rewrite record_keys; simpl.
  - rewrite <- app_assoc. rewrite IH; [done | lia | lia |].
    intros j Hj. rewrite lookup_insert_ne by lia. apply Hvis. lia.
  - assert (d = 0) as -> by lia. done.
Qed.

Lemma deepClone_chain_long n d :
  n < d → ∃ r, deepClone d (VRef 0) ∅ (chain false n) = Ret r.
Proof.
  intros Hd. destruct (decide (0 < n)) as [Hn | Hn].
  - pose proof (deepClone_spec (chain false n) (chain_closed false n) (chain_proto_free false n)
                  d (VRef 0) ∅
                  (chain false n) (cloning_init _)) as Hout.
    unfold clone_outcome in Hout.
    destruct (deepClone d (VRef 0) ∅ (chain false n)) as [r | e |]; [eauto | |].
    + destruct Hout; [simpl; by rewrite chain_length | apply chain_getters_safe].
    + rewrite dom_empty_L, unvisited_empty, chain_length in Hout.
      specialize (Hout ltac:(simpl; by rewrite chain_length)). lia.
  - assert (n = 0) as -> by lia. destruct d; [lia |]. simpl. eauto.
Qed.

Lemma chain_scheduled n i : S i < n → scheduled (chain false n) i (S i).
Proof.
  intros Hi. unfold scheduled. rewrite chain_deref by lia. unfold chain_node.
  rewrite decide_True by done.
  destruct (chain_not_function false n [] (S i)) as [Hnf | ?]; [| lia].
  rewrite app_nil_r in Hnf. rewrite record_schedule by done.
  eexists. split; [done |]. apply list_elem_of_here.
Qed.

Lemma chain_thaw_path n i : i < n → thaw_path (chain false n) 0 i.
Proof.
  induction i as [| i IH]; intros Hi.
  - apply thaw_here. by rewrite chain_deref.
  - eapply thaw_path_snoc; [apply IH; lia | by apply chain_scheduled |].
    by rewrite chain_deref.
Qed.

Section Chains.

Variable call : loc → loc → heap → res (value * heap).

Lemma freeze_chain n :
  0 < n →
  ∃ h', freeze call (VRef 0) (chain false n) = Ret (VRef 0, h') ∧
        ∀ i, i < n → o_frozen (deref h' i) = true.
Proof.
  intros Hn.
  assert (o_frozen (deref (chain false n) 0) = false) as Hf by by rewrite chain_deref.
  pose proof (no_freeze_isFreezable _ (VRef 0) (chain_no_custom_freeze false n)) as Hz.
  destruct (freeze_traversal_returns call 0 _ Hf Hz) as [_ Hret].
  destruct (Hret (chain_getters_safe false n)) as [h' Hh']. exists h'. split; [done |].
  destruct (freeze_traversal_spec call 0 _ _ _ Hf Hz Hh') as (_ & _ & Hiff).
  intros i Hi. apply Hiff. right. by apply chain_thaw_path.
Qed.

(** C2, counterexample: the clone engine nests one call per level, so no
    bound on the nesting lets it get through every chain, and with room
    for 1000 calls it fails on the chain of 1000 records.  The predicate
    nests its calls in the same way; it does come back when the stack is
    exhausted, but only because that error is swallowed: with room for 1000
    calls it accepts a chain of 1001 records whose innermost record is not
    frozen. *)
Lemma recursive_traversals_nest_with_depth :
  deepClone 1000 (VRef 0) ∅ (chain false 1000) = OutOfFuel ∧
  ¬ (∃ bound, ∀ n, deepClone bound (VRef 0) ∅ (chain false n) ≠ OutOfFuel) ∧
  o_frozen (deref (chain_frozen_to 1000 1001) 1000) = false ∧
  reaches (chain_frozen_to 1000 1001) (VRef 0) 1000 ∧
  (isFrozenImpl 1000 (chain_frozen_to 1000 1001) (VRef 0) ∅).1 = Some true ∧
  isFrozen (chain_frozen_to 1000 1001) (VRef 0) = false.
Proof.
  assert (∀ n, 0 < n → deepClone n (VRef 0) ∅ (chain false n) = OutOfFuel) as Hclone.
  { intros n Hn. rewrite <- (app_nil_r (chain false n)).
    apply deepClone_chain_short; [done | lia |]. intros j _. apply lookup_empty. }
  split; [apply Hclone; lia |]. split; [| split; [| split; [| split]]].
  - intros [bound Hb]. destruct bound as [| bound]; [by apply (Hb 0) |].
    by apply (Hb (S bound)), Hclone; lia.
  - rewrite chain_frozen_to_deref by lia. unfold chain_node, record. cbn [o_frozen].
    by rewrite bool_decide_eq_false_2 by lia.
  - apply chain_frozen_to_reaches. lia.
  - rewrite isFrozenImpl_chain; [| lia | lia | set_solver].
    by rewrite bool_decide_eq_true_2 by lia.
  - apply isFrozen_chain_frozen_to. lia.
Qed.

(** C2, amended: [freeze] walks a chain of any length with its explicit
    stack, no nested call, and leaves every record frozen.  The clone
    engine of [frozenCopy] and [isFrozen] nest one call per level.  On a
    chain of [n] records the clone engine finishes exactly when the stack
    has room for more than [n] nested calls ([n + 1] calls, 1001 for 1000
    records), and then [frozenCopy] returns.  [isFrozen] comes back from a
    chain of records whatever room the stack has, because the call that
    finds no room is made inside [try { } catch { }]; with room for [d]
    calls it has looked at the [d] outermost records only, and accepts the
    chain as soon as these are frozen.  With room for the whole walk it
    accepts the chain exactly when every record is frozen. *)
Theorem traversal_depth_on_chains n :
  0 < n →
  (∃ h', freeze call (VRef 0) (chain false n) = Ret (VRef 0, h') ∧
         ∀ i, i < n → o_frozen (deref h' i) = true) ∧
  (∀ d, deepClone d (VRef 0) ∅ (chain false n) = OutOfFuel ↔ d ≤ n) ∧
  (∀ d, n < d → ∃ r, deepClone d (VRef 0) ∅ (chain false n) = Ret r) ∧
  (∃ r h', frozenCopy call (VRef 0) (chain false n) = Ret (r, h')) ∧
  (∀ d, 0 < d → (isFrozenImpl d (chain true n) (VRef 0) ∅).1 = Some true) ∧
  (∀ d k, 0 < d → k < n →
          (isFrozenImpl d (chain_frozen_to k n) (VRef 0) ∅).1 = Some (bool_decide (d ≤ k))) ∧
  isFrozen (chain true n) (VRef 0) = true ∧
  (∀ k, k < n → isFrozen (chain_frozen_to k n) (VRef 0) = false).
Proof.
  intros Hn. split; [by apply freeze_chain |].
  split; [| split; [| split; [| split; [| split; [| split]]]]].
  - intros d. split.
    + intros Hnone. destruct (decide (d ≤ n)); [done |].
      destruct (deepClone_chain_long n d) as [r E]; [lia | congruence].
    + intros Hd. rewrite <- (app_nil_r (chain false n)).
      apply deepClone_chain_short; [done | lia |]. intros j _. apply lookup_empty.
  - apply deepClone_chain_long.
  - destruct (frozenCopy_spec call (chain false n) 0) as (_ & Hret & _).
    + apply chain_closed.
    + apply chain_proto_free.
    + apply accessors_atomic_shared, chain_accessors_atomic.
    + by rewrite chain_length.
    + unfold is_function. by rewrite chain_deref.
    + intros vis h1 Hdc. apply no_freeze_isFreezable.
      pose proof (frozenCopy_steps call (chain false n) 0 (chain_closed _ _)
                    (chain_proto_free _ _)) as Hsteps.
      rewrite chain_length in Hsteps. specialize (Hsteps Hn).
      rewrite Hdc in Hsteps. destruct Hsteps as (Hcl & _).
      { unfold is_function. by rewrite chain_deref. }
      eapply cloning_no_freeze; [exact Hcl | apply chain_no_custom_freeze].
    + apply Hret, chain_getters_safe.
  - intros d Hd. rewrite <- chain_frozen_to_all.
    rewrite isFrozenImpl_chain; [| lia | lia | set_solver].
    by rewrite bool_decide_eq_true_2 by lia.
  - intros d k Hd Hk. rewrite isFrozenImpl_chain; [| lia | lia | set_solver].
    apply f_equal. apply bool_decide_ext. lia.
  - apply isFrozen_iff. intros l _. apply chain_frozen.
  - intros k Hk. by apply isFrozen_chain_frozen_to.
Qed.

End Chains.

(** ** Instances *)

Lemma traversal_depth_on_chains_witness :
  isFrozen (chain true 3) (VRef 0) = true ∧
  (∀ d, deepClone d (VRef 0) ∅ (chain false 3) = OutOfFuel ↔ d ≤ 3) ∧
  (∀ d, 0 < d → (isFrozenImpl d (chain true 3) (VRef 0) ∅).1 = Some true) ∧
  (isFrozenImpl 2 (chain_frozen_to 2 3) (VRef 0) ∅).1 = Some true ∧
  isFrozen (chain_frozen_to 2 3) (VRef 0) = false.
Proof.
  destruct (traversal_depth_on_chains no_custom_freeze 3)
    as (_ & Hc & _ & _ & Hany & Hpart & Hf & Hnot).
  - lia.
  - split; [exact Hf |]. split; [exact Hc |]. split; [exact Hany |]. split.
    + apply (Hpart 2 2); lia.
    + apply (Hnot 2). lia.
Defined.

Lemma nested_source_props l p :
  p ∈ o_props (deref nested_source l) →
  p = data "a" (VNumber 1) ∨ p = data "nested" (VRef 1) ∨ p = data "value" (VNumber 10).
Proof.
  destruct l as [| [| l]]; simpl; rewrite ?elem_of_cons, ?elem_of_nil; tauto.
Qed.

Lemma nested_source_closed : heap_closed nested_source.
Proof.
  intros l v Hv. unfold object_values in Hv. apply elem_of_app in Hv as [Hv | Hv].
  - destruct l as [| [| l]]; simpl in Hv; by apply elem_of_nil in Hv.
  - apply list_elem_of_In, in_flat_map in Hv as (p & Hp%list_elem_of_In & Hv%list_elem_of_In).
    apply nested_source_props in Hp as [-> | [-> | ->]]; simpl in Hv;
      apply list_elem_of_singleton in Hv as ->; simpl; lia.
Qed.

Lemma nested_source_no_custom_freeze : no_custom_freeze_in nested_source.
Proof. intros l p [-> | [-> | ->]]%nested_source_props; done. Qed.

Lemma nested_source_accessors_atomic : accessors_atomic nested_source.
Proof. intros l p c [-> | [-> | ->]]%nested_source_props; done. Qed.

(** C8, at the failing input: the only unfrozen child of a frozen record
    sits under a symbol key.  [freeze] schedules it, so it belongs to the
    value, and it is not frozen; [findUnfrozenPath] lists the string keys
    only and returns [null].  On the three examples of the claim, where
    the unfrozen child sits under a string key, it returns the path
    stated. *)
Lemma findUnfrozenPath_misses_symbol_child String_object exponent_notation :
  schedule_children symbol_child (deref symbol_child 0) [] = Ret [1] ∧
  isShallowFrozen symbol_child (VRef 1) = false ∧
  findUnfrozenPath String_object exponent_notation symbol_child (VRef 0) = Ret None ∧
  findUnfrozenPath String_object exponent_notation second_unfrozen (VRef 0) = Ret (Some "b") ∧
  findUnfrozenPath String_object exponent_notation array_second_unfrozen (VRef 0) =
    Ret (Some "arr[1]") ∧
  findUnfrozenPath String_object exponent_notation shallow_only (VRef 0) = Ret (Some "nested").
Proof. repeat split; reflexivity. Qed.

(** * Further properties of the engine and of the predicates *)

(** ** [ensureFrozen] *)

(** X1: [ensureFrozen] is [freeze]: on every value, in every store and
    whatever the custom methods do, the two calls have the same outcome;
    the guard of [ensureFrozen] only repeats the early return of
    [freeze]. *)
Theorem ensureFrozen_is_freeze call v h : ensureFrozen call v h = freeze call v h.
Proof.
  destruct v as [| | | | | | | l]; try done. unfold ensureFrozen.
  destruct (bool_decide (typeof h (VRef l) = TObject) && Object_isFrozen h (VRef l)) eqn:Hg;
    [| done].
  apply andb_true_iff in Hg as [_ Hf]. by rewrite freeze_frozen.
Qed.

(** ** Deep frozenness is hereditary *)

Lemma reaches_trans h v l l' : reaches h v l → reaches h (VRef l) l' → reaches h v l'.
Proof.
  intros (l0 & -> & H1) (l1 & [= <-] & H2). exists l0. split; [done |].
  by etrans.
Qed.

Lemma reaches_self h l : reaches h (VRef l) l.
Proof. exists l. split; [done | apply rtc_refl]. Qed.

(** X2: whatever is deeply frozen is frozen at the top level, and so is
    everything the predicate descends into: each object below a deeply
    frozen value is itself deeply frozen and single-level frozen. *)
Theorem isFrozen_hereditary h v :
  isFrozen h v = true →
  isShallowFrozen h v = true ∧
  ∀ l, reaches h v l → isFrozen h (VRef l) = true ∧ isShallowFrozen h (VRef l) = true.
Proof.
  intros Hv. pose proof (proj1 (isFrozen_iff h v) Hv) as Hall. split.
  - destruct v as [| | | | | | | l]; try done. simpl. apply Hall, reaches_self.
  - intros l Hl. split; [| by apply Hall].
    apply isFrozen_iff. intros l' Hl'. apply Hall. by eapply reaches_trans.
Qed.

Lemma isFrozen_hereditary_witness :
  isFrozen (chain true 3) (VRef 0) = true ∧
  isFrozen (chain true 3) (VRef 2) = true ∧
  isShallowFrozen (chain true 3) (VRef 2) = true.
Proof.
  assert (isFrozen (chain true 3) (VRef 0) = true) as H by (vm_compute; reflexivity).
  split; [exact H |].
  apply (isFrozen_hereditary (chain true 3) (VRef 0) H).
  exists 0. split; [reflexivity |].
  apply (rtc_l _ _ 1); [vm_compute; left | ].
  apply (rtc_l _ _ 2); [vm_compute; left | apply rtc_refl].
Defined.

(** ** When [freeze] throws *)

Lemma push_props_raise h ps st e :
  push_props h ps st = Raise e → e = Thrown ∧ ∃ p, p ∈ ps ∧ p_slot p = Accessor None.
Proof.
  revert st. induction ps as [| p ps IH]; intros st; simpl; [done |].
  destruct (p_slot p) as [v | [v |]] eqn:Hs; simpl.
  - intros (-> & q & ? & ?)%IH. split; [done |]. exists q. split; [by right | done].
  - intros (-> & q & ? & ?)%IH. split; [done |]. exists q. split; [by right | done].
  - intros [= <-]. split; [done |]. exists p. split; [by left | done].
Qed.

Lemma push_props_throwing h ps st p :
  p ∈ ps → p_slot p = Accessor None → push_props h ps st = Raise Thrown.
Proof.
  revert st. induction ps as [| q ps IH]; intros st Hin Hs; [by apply elem_of_nil in Hin |].
  simpl. apply elem_of_cons in Hin as [<- | Hin].
  - by rewrite Hs.
  - destruct (read_slot (p_slot q)) as [x | e |] eqn:Hr; simpl.
    + by apply IH.
    + by destruct (p_slot q) as [? | [? |]]; simpl in Hr; simplify_eq.
    + by destruct (p_slot q) as [? | [? |]].
Qed.

Lemma schedule_children_raise h o st e :
  schedule_children h o st = Raise e → e = Thrown ∧ throwing_plain o.
Proof.
  unfold schedule_children, throwing_plain, is_plain.
  destruct (o_kind o) eqn:Hk; try done.
  destruct (push_props h (Object_keys o) st) as [st1 | e1 |] eqn:H1; simpl.
  - intros (-> & p & ? & ?)%push_props_raise. split; [done |]. split; [by eexists |].
    exists p. split; [| done]. apply elem_of_app. by right.
  - intros [= <-]. apply push_props_raise in H1 as (-> & p & ? & ?).
    split; [done |]. split; [by eexists |]. exists p. split; [| done].
    apply elem_of_app. by left.
  - done.
Qed.

Lemma schedule_children_throwing h o st :
  throwing_plain o → schedule_children h o st = Raise Thrown.
Proof.
  intros [[b Hk] (p & [Hin | Hin]%elem_of_app & Hs)]; unfold schedule_children; rewrite Hk.
  - by erewrite push_props_throwing.
  - destruct (push_props h (Object_keys o) st) as [st1 | e1 |] eqn:H1; simpl.
    + by eapply push_props_throwing.
    + by apply push_props_raise in H1 as [-> _].
    + by apply push_props_fuel in H1.
Qed.

Lemma freezes_only_throwing h h' l :
  freezes_only h h' → throwing_plain (deref h' l) ↔ throwing_plain (deref h l).
Proof.
  intros [_ H]. destruct (H l) as (Hk & Hp & _).
  unfold throwing_plain, is_plain, Object_keys, Object_getOwnPropertySymbols.
  by rewrite Hk, Hp.
Qed.

(** A raise of the loop comes from a plain record with a throwing getter
    that the walk has reached. *)
Lemma freeze_loop_raise h0 roots fuel stack visited h e :
  loop_inv h0 roots h stack visited →
  freeze_loop fuel stack visited h = Raise e →
  e = Thrown ∧ ∃ r n, r ∈ roots ∧ thaw_path h0 r n ∧ throwing_plain (deref h0 n).
Proof.
  revert stack visited h. induction fuel as [| fuel IH]; intros stack visited h Hinv.
  - by destruct stack.
  - destruct stack as [| cur rest]; simpl; [done |].
    destruct (bool_decide (cur ∈ visited) || o_frozen (deref h cur)) eqn:Hskip.
    + apply IH. by eapply loop_inv_skip.
    + apply orb_false_iff in Hskip as [_ Hf].
      destruct (schedule_children h (deref h cur) rest) as [st | e1 |] eqn:Hst; simpl.
      * apply IH. by eapply loop_inv_expand.
      * intros [= <-]. apply schedule_children_raise in Hst as [-> Hthrow].
        split; [done |].
        assert (o_frozen (deref h0 cur) = false) as Hf0.
        { destruct (o_frozen (deref h0 cur)) eqn:Hc; [| done].
          destruct (inv_shape _ _ _ _ _ Hinv) as [_ Hsh].
          destruct (Hsh cur) as (_ & _ & Hfr). rewrite Hfr in Hf; done. }
        destruct (inv_stack _ _ _ _ _ Hinv cur) as [Hc | (r & Hr & Hp)];
          [by left | congruence |].
        exists r, cur. split; [done |]. split; [done |].
        by apply (freezes_only_throwing h0 h cur (inv_shape _ _ _ _ _ Hinv)).
      * by apply schedule_children_fuel in Hst.
Qed.

(** Whatever the loop freezes has had its children scheduled. *)
Lemma freeze_loop_frozen_scheduled fuel stack visited h h' n :
  freeze_loop fuel stack visited h = Ret h' →
  o_frozen (deref h n) = false → o_frozen (deref h' n) = true →
  ¬ throwing_plain (deref h n).
Proof.
  revert stack visited h. induction fuel as [| fuel IH]; intros stack visited h.
  - destruct stack; simpl; [| done]. intros [= <-]. congruence.
  - destruct stack as [| cur rest]; simpl; [intros [= <-]; congruence |].
    destruct (bool_decide (cur ∈ visited) || o_frozen (deref h cur)) eqn:Hskip.
    + apply IH.
    + apply orb_false_iff in Hskip as [_ Hf].
      destruct (schedule_children h (deref h cur) rest) as [st | e1 |] eqn:Hst; simpl; try done.
      intros Hloop Hn Hn' Hthrow.
      destruct (decide (n = cur)) as [-> | Hne].
      * by rewrite (schedule_children_throwing h _ rest Hthrow) in Hst.
      * eapply IH; [done | | done |].
        -- by rewrite Object_freeze_ne.
        -- by rewrite Object_freeze_ne.
Qed.

(** X3: the error behaviour of the traversal.  From an unfrozen root
    without custom freeze, [freeze] throws exactly when its walk reaches a
    plain record one of whose enumerable string-keyed or symbol-keyed
    getters throws, and what it throws is the getter's exception; a
    getter of an object with a custom prototype or of a function never
    makes it throw. *)
Theorem freeze_throws_iff call h l :
  o_frozen (deref h l) = false →
  isFreezable h (VRef l) = Ret false →
  (∀ e, freeze call (VRef l) h = Raise e → e = Thrown) ∧
  (freeze call (VRef l) h = Raise Thrown ↔
   ∃ n, thaw_path h l n ∧ throwing_plain (deref h n)).
Proof.
  intros Hf Hz. rewrite freeze_traverses by done.
  assert (∀ e, freeze_loop (freeze_fuel h) [l] ∅ h = Raise e →
               e = Thrown ∧ ∃ n, thaw_path h l n ∧ throwing_plain (deref h n)) as Hraise.
  { intros e He. eapply freeze_loop_raise in He as (-> & r & n & Hr & Hp & Ht);
      [| apply loop_inv_init].
    apply list_elem_of_singleton in Hr as ->. eauto. }
  split.
  - intros e. destruct (freeze_loop (freeze_fuel h) [l] ∅ h) as [h' | e' |] eqn:Hl;
      simpl; try done.
    intros [= <-]. by apply Hraise.
  - split.
    + destruct (freeze_loop (freeze_fuel h) [l] ∅ h) as [h' | e' |] eqn:Hl; simpl; try done.
      intros _. by destruct (Hraise _ eq_refl) as [_ ?].
    + intros (n & Hp & Ht).
      destruct (freeze_loop (freeze_fuel h) [l] ∅ h) as [h' | e' |] eqn:Hl; simpl.
      * exfalso. pose proof (freeze_loop_spec _ _ _ _ Hl) as [_ Hiff].
        eapply (freeze_loop_frozen_scheduled _ _ _ _ _ n Hl); [by eapply thaw_path_end | | done].
        apply Hiff. right. exists l. split; [by apply list_elem_of_singleton | done].
      * by destruct (Hraise e' eq_refl) as [-> _].
      * exfalso. eapply (freeze_loop_fuel (freeze_fuel h) [l] ∅ h); [| done].
        pose proof (unfrozen_cost_le h). simpl. lia.
Qed.

Lemma freeze_throws_witness :
  freeze no_custom_freeze (VRef 0) throwing_getter = Raise Thrown.
Proof.
  apply (freeze_throws_iff no_custom_freeze throwing_getter 0); [reflexivity | reflexivity |].
  exists 1. split.
  - apply (thaw_step _ 0 1 1); [reflexivity | | by apply thaw_here].
    exists [1]. split; [reflexivity | by left].
  - split; [by exists false |].
    exists (Prop_ (PStr "boom") true (Accessor None)). split; [by left | reflexivity].
Defined.

(** ** When [isFrozen] accepts what [freeze] returns *)

Lemma freezes_only_reaches_inv h h' v l : freezes_only h h' → reaches h' v l → reaches h v l.
Proof.
  intros Hf (l0 & -> & Hr). exists l0. split; [done |].
  induction Hr; [apply rtc_refl |]. eapply rtc_l; [by eapply freezes_only_checks_inv | done].
Qed.

(** If every object the predicate descends into was frozen or is reached
    by the walk, the predicate accepts the result. *)
Lemma freeze_covers_isFrozen call h l r h' :
  o_frozen (deref h l) = false →
  isFreezable h (VRef l) = Ret false →
  freeze call (VRef l) h = Ret (r, h') →
  (∀ c, reaches h (VRef l) c → o_frozen (deref h c) = true ∨ thaw_path h l c) →
  isFrozen h' r = true.
Proof.
  intros Hf Hz Hfr Hall.
  destruct (freeze_traversal_spec call l h r h' Hf Hz Hfr) as (-> & Hsh & Hiff).
  apply isFrozen_iff. intros c Hc. apply Hiff, Hall. by eapply freezes_only_reaches_inv.
Qed.

(** X4: from an unfrozen root without custom freeze, [isFrozen] accepts
    the result of [freeze] exactly when every object the predicate
    descends into was frozen before the call or is reached by the walk of
    [freeze]: the two traversals do not follow the same children. *)
Theorem isFrozen_of_freeze_iff call h l r h' :
  o_frozen (deref h l) = false →
  isFreezable h (VRef l) = Ret false →
  freeze call (VRef l) h = Ret (r, h') →
  isFrozen h' r = true ↔
  ∀ c, reaches h (VRef l) c → o_frozen (deref h c) = true ∨ thaw_path h l c.
Proof.
  intros Hf Hz Hfr. split; [| by eapply freeze_covers_isFrozen].
  destruct (freeze_traversal_spec call l h r h' Hf Hz Hfr) as (-> & Hsh & Hiff).
  intros Hall c Hc. apply Hiff.
  apply (proj1 (isFrozen_iff h' (VRef l)) Hall).
  by eapply freezes_only_reaches.
Qed.

Lemma isFrozen_of_freeze_iff_witness :
  isFrozen (map freeze_object mutual_cycle) (VRef 0) = true ↔
  ∀ c, reaches mutual_cycle (VRef 0) c →
       o_frozen (deref mutual_cycle c) = true ∨ thaw_path mutual_cycle 0 c.
Proof.
  apply (isFrozen_of_freeze_iff no_custom_freeze mutual_cycle 0 (VRef 0)); reflexivity.
Defined.

(** ** Data stores *)

Lemma data_object_deref h l : Forall data_object h → l < length h → data_object (deref h l).
Proof.
  intros Hall Hl. rewrite Forall_lookup in Hall. eapply Hall. by apply lookup_deref.
Qed.

Lemma data_no_function h l : Forall data_object h → is_function h l = false.
Proof.
  intros Hall. unfold is_function. destruct (decide (l < length h)) as [Hl | Hl].
  - destruct (data_object_deref h l Hall Hl) as (_ & _ & Hk).
    by destruct (o_kind (deref h l)).
  - by rewrite deref_dangling by lia.
Qed.

Lemma data_getters_safe h : Forall data_object h → Forall getters_safe h.
Proof. intros H. eapply Forall_impl; [exact H |]. by intros o (_ & ? & _). Qed.

Lemma lookup_property_elem fuel h l k p :
  lookup_property fuel h l k = Some p → ∃ l', p ∈ o_props (deref h l').
Proof.
  revert l. induction fuel as [| fuel IH]; intros l; simpl; [done |].
  destruct (own_property (deref h l) k) as [q |] eqn:Hown.
  - intros [= <-]. exists l. unfold own_property in Hown.
    apply find_some in Hown as [Hin _]. by apply list_elem_of_In.
  - destruct (o_kind (deref h l)); try done. apply IH.
Qed.

Lemma data_isFreezable h v : Forall data_object h → isFreezable h v = Ret false.
Proof.
  intros Hall. unfold isFreezable. destruct v as [| | | | | | | l]; try done.
  case_bool_decide; [| done].
  destruct (has_property h l (PStr "freeze")); [| done].
  unfold get_property.
  destruct (lookup_property (S (length h)) h l (PStr "freeze")) as [p |] eqn:Hp; [| done].
  apply lookup_property_elem in Hp as [l' Hin].
  pose proof (deref_safe h (data_getters_safe h Hall) l') as Hsafe.
  unfold getters_safe in Hsafe. rewrite Forall_forall in Hsafe. specialize (Hsafe p Hin).
  destruct (p_slot p) as [x | [x |]]; simpl; try done.
  - destruct x; simpl; try done. by rewrite data_no_function.
  - destruct x; simpl; try done. by rewrite data_no_function.
Qed.

(** On data, [freeze] schedules every child the predicate checks. *)
Lemma data_checks_scheduled h l c :
  Forall data_object h → checks h l c → scheduled h l c.
Proof.
  intros Hall Hc.
  assert (l < length h) as Hl.
  { destruct (decide (l < length h)); [done |].
    unfold checks in Hc. rewrite deref_dangling in Hc by lia. by apply elem_of_nil in Hc. }
  destruct (data_object_deref h l Hall Hl) as (_ & Hsafe & Hk).
  apply scheduled_iff; [done |]. split; [| by apply data_no_function].
  pose proof Hc as Hc0.
  unfold checks, checked_children in Hc. unfold scheduled_values.
  destruct (o_kind (deref h l)) eqn:Hkind; try done.
  - by destruct (Hk c).
  - by destruct (Hk c).
  - apply checked_property in Hc as (p & Hin & Hs & Hr).
    apply elem_of_flat_slot_values. exists p. split; [| by apply read_slot_value].
    apply elem_of_app. left. unfold Object_keys. apply list_elem_of_filter. split; [| done].
    rewrite Forall_forall in Hk. rewrite Hs, (Hk p Hin Hs). done.
  - apply checked_property in Hc as (p & Hin & Hs & Hr).
    apply elem_of_flat_slot_values. exists p. split; [| by apply read_slot_value].
    apply elem_of_app. left. unfold Object_getOwnPropertyNames.
    apply list_elem_of_filter. by split.
Qed.

Lemma data_reaches_thaw h l c :
  Forall data_object h → l < length h → reaches h (VRef l) c →
  o_frozen (deref h c) = true ∨ thaw_path h l c.
Proof.
  intros Hall Hl (l0 & [= <-] & Hr). revert c Hr.
  apply (rtc_ind_r (fun c => o_frozen (deref h c) = true ∨ thaw_path h l c)).
  - right. apply thaw_here. by destruct (data_object_deref h l Hall Hl).
  - intros y z _ Hyz [Hy | Hy].
    + exfalso. unfold checks in Hyz.
      destruct (decide (y < length h)) as [Hlt | Hge].
      * destruct (data_object_deref h y Hall Hlt) as [Hu _]. congruence.
      * rewrite deref_dangling in Hyz by lia. by apply elem_of_nil in Hyz.
    + destruct (o_frozen (deref h z)) eqn:Hz; [by left | right].
      eapply thaw_path_snoc; [done | by apply data_checks_scheduled | done].
Qed.

(** X5: on a store of unfrozen data (no function, no throwing getter,
    plain records with enumerable string-keyed properties only, dates and
    patterns that hold no reference), [freeze] of any object of the store
    returns that object, and [isFrozen] accepts it: there the predicate
    and the engine agree, cycles included. *)
Theorem isFrozen_of_freeze_on_data call h l :
  Forall data_object h → l < length h →
  ∃ h', freeze call (VRef l) h = Ret (VRef l, h') ∧ isFrozen h' (VRef l) = true.
Proof.
  intros Hall Hl.
  assert (o_frozen (deref h l) = false) as Hf by by destruct (data_object_deref h l Hall Hl).
  pose proof (data_isFreezable h (VRef l) Hall) as Hz.
  destruct (freeze_traversal_returns call l h Hf Hz) as [_ Hret].
  destruct (Hret (data_getters_safe h Hall)) as [h' Hfr].
  exists h'. split; [done |].
  apply (freeze_covers_isFrozen call h l (VRef l) h' Hf Hz Hfr).
  intros c Hc. by apply data_reaches_thaw.
Qed.

Lemma isFrozen_of_freeze_on_data_witness :
  ∃ h', freeze no_custom_freeze (VRef 0) mutual_cycle = Ret (VRef 0, h') ∧
        isFrozen h' (VRef 0) = true.
Proof.
  apply (isFrozen_of_freeze_on_data no_custom_freeze mutual_cycle 0); [| simpl; lia].
  unfold mutual_cycle, data_object, getters_safe. simpl.
  repeat (first [apply Forall_cons | apply Forall_nil | split | done]).
Defined.

(** ** [countFrozenObjects] *)

Lemma frozen_among_insert h l X :
  l ∉ X →
  frozen_among h ({[l]} ∪ X) = (if o_frozen (deref h l) then 1 else 0) + frozen_among h X.
Proof.
  intros Hl. unfold frozen_among. rewrite filter_union_L, size_union.
  - f_equal. rewrite filter_singleton_L; [| apply _].
    destruct (o_frozen (deref h l)); case_decide; try done;
      first [apply size_singleton | apply size_empty].
  - intros x [_ Hx]%elem_of_filter [_ Hx']%elem_of_filter.
    by apply elem_of_singleton in Hx as ->.
  - apply _.
Qed.

Lemma unfrozen_among_insert h l X :
  l ∉ X →
  unfrozen_among h ({[l]} ∪ X) = (if o_frozen (deref h l) then 0 else 1) + unfrozen_among h X.
Proof.
  intros Hl. unfold unfrozen_among. rewrite filter_union_L, size_union.
  - f_equal. rewrite filter_singleton_L; [| apply _].
    destruct (o_frozen (deref h l)); case_decide; try done;
      first [apply size_singleton | apply size_empty].
  - intros x [_ Hx]%elem_of_filter [_ Hx']%elem_of_filter.
    by apply elem_of_singleton in Hx as ->.
  - apply _.
Qed.

Lemma among_total h X : frozen_among h X + unfrozen_among h X = size X.
Proof.
  unfold frozen_among, unfrozen_among.
  induction X as [| l X Hl IH] using set_ind_L.
  - rewrite !filter_empty_L; try apply _. by rewrite size_empty.
  - pose proof (frozen_among_insert h l X Hl) as Hf.
    pose proof (unfrozen_among_insert h l X Hl) as Hu.
    unfold frozen_among, unfrozen_among in Hf, Hu. rewrite Hf, Hu.
    rewrite size_union, size_singleton by set_solver.
    destruct (o_frozen (deref h l)); lia.
Qed.

Lemma tallied_visit h (st : counting) l :
  tallied h st → l ∉ st.1.1 →
  tallied h (if o_frozen (deref h l) then ({[l]} ∪ st.1.1, S st.1.2, st.2)
             else ({[l]} ∪ st.1.1, st.1.2, S st.2)).
Proof.
  intros [Hf Hu] Hl. unfold tallied.
  pose proof (frozen_among_insert h l _ Hl) as Hf'.
  pose proof (unfrozen_among_insert h l _ Hl) as Hu'.
  destruct (o_frozen (deref h l)); simpl; rewrite Hf', Hu'; lia.
Qed.

Lemma count_closed_refl h vs vis : count_closed h vs vis vis.
Proof. split; [done | auto]. Qed.

Lemma count_closed_cons h v vs V V1 V2 :
  count_closed h [v] V V1 → count_closed h vs V1 V2 → count_closed h (v :: vs) V V2.
Proof.
  intros [Hs1 H1] [Hs2 H2]. split; [set_solver |].
  intros l Hl. destruct (H2 l Hl) as [Hl1 | [(w & Hw & Hr) Hc]].
  - destruct (H1 l Hl1) as [? | [(w & Hw & Hr) Hc]]; [by left | right].
    apply list_elem_of_singleton in Hw as ->. split.
    + exists v. split; [by left | done].
    + intros c Hlc. apply Hs2. by apply Hc.
  - right. split; [| done]. exists w. split; [by right | done].
Qed.

(** With that much room, the guarded loop and the unguarded one are the
    same loop. *)
Lemma count_all_enough (cnt : counter) (h : heap) n cs st :
  (∀ c s, size (unvisited h s.1.1) < n → counted h [c] s (cnt c s)) →
  size (unvisited h st.1.1) < n →
  counted h cs st (count_all cnt cs st) ∧ count_all_try cnt cs st = count_all cnt cs st.
Proof.
  intros Hcnt. revert st. induction cs as [| c cs IH]; intros st Hn; simpl.
  - split; [| done]. exists st. split; [done |]. split; [done |]. intros Ht.
    split; [done |]. split; [apply count_closed_refl |].
    intros l Hl. by apply elem_of_nil in Hl.
  - destruct (Hcnt c st Hn) as (s1 & -> & Hsub1 & Hpost1). simpl.
    destruct (IH s1) as [(st' & E & Hsub' & Hpost') ->].
    { pose proof (unvisited_mono h _ _ Hsub1). lia. }
    split; [| done]. exists st'. split; [done |]. split; [set_solver |]. intros Ht.
    destruct (Hpost1 Ht) as (Ht1 & Hcl1 & Hin1).
    destruct (Hpost' Ht1) as (Ht' & Hcl' & Hin').
    split; [done |]. split; [by eapply count_closed_cons |].
    intros l [<- | Hl]%elem_of_cons; [| by apply Hin'].
    apply Hcl'. apply Hin1. by left.
Qed.

Lemma count_enough d h v st :
  size (unvisited h st.1.1) < d → counted h [v] st (count d h v st).
Proof.
  revert v st. induction d as [| d IH]; intros v st Hd; [lia |]. simpl.
  assert (((∀ l, v ≠ VRef l) ∧ counted h [v] st (Some (), st)) ∨ ∃ l, v = VRef l)
    as [[Hne Hatom] | [obj ->]].
  { destruct v as [| | b | n | s | n | s | l]; [left .. | right; by exists l];
      (split; [done |]); exists st; (split; [done |]); (split; [done |]); intros Ht;
      (split; [done |]); (split; [apply count_closed_refl |]);
      intros l Hl; by apply list_elem_of_singleton in Hl. }
  { destruct v; try done. by destruct (Hne l). }
  case_bool_decide as Hvis.
  { exists st. split; [done |]. split; [done |]. intros Ht. split; [done |].
    split; [apply count_closed_refl |].
    intros l Hl. apply list_elem_of_singleton in Hl. by injection Hl as ->. }
  set (st1 := if Object_isFrozen h (VRef obj) then ({[obj]} ∪ st.1.1, S st.1.2, st.2)
              else ({[obj]} ∪ st.1.1, st.1.2, S st.2)).
  assert (st1.1.1 = {[obj]} ∪ st.1.1) as Hvis1.
  { unfold st1. by destruct (Object_isFrozen h (VRef obj)). }
  assert (counted h (counted_children (deref h obj)) st1
            (count_all (count d h) (counted_children (deref h obj)) st1) ∧
          count_all_try (count d h) (counted_children (deref h obj)) st1 =
          count_all (count d h) (counted_children (deref h obj)) st1) as [Hall Htry].
  { destruct (decide (obj < length h)) as [Hlt | Hge].
    - apply (count_all_enough _ h d); [intros c s Hs; by apply IH |].
      rewrite Hvis1. pose proof (unvisited_visit h st.1.1 obj Hlt Hvis). lia.
    - unfold counted_children. rewrite (deref_dangling h obj) by lia. simpl.
      split; [| done]. exists st1. split; [done |]. split; [done |]. intros Ht.
      split; [done |]. split; [apply count_closed_refl |].
      intros l Hl. by apply elem_of_nil in Hl. }
  assert (counted h [VRef obj] st
            (count_all (count d h) (counted_children (deref h obj)) st1)) as Hres.
  { destruct Hall as (st' & -> & Hsub & Hpost). exists st'.
    rewrite Hvis1 in Hsub. split; [done |]. split; [set_solver |]. intros Ht.
    assert (tallied h st1) as Ht1.
    { pose proof (tallied_visit h st obj Ht Hvis) as Hv. unfold st1, Object_isFrozen.
      by destruct (o_frozen (deref h obj)). }
    destruct (Hpost Ht1) as (Ht' & [_ Hcl] & Hin). rewrite Hvis1 in Hcl.
    split; [done |]. split; [split; [set_solver |] |].
    + intros l Hl. destruct (Hcl l Hl) as [Hl0 | [(w & Hw & l0 & -> & Hr) Hc]].
      * apply elem_of_union in Hl0 as [->%elem_of_singleton | ?]; [| by left].
        right. split.
        -- exists (VRef obj). split; [by left |]. exists obj. split; [done | apply rtc_refl].
        -- intros c Hc. by apply Hin.
      * right. split; [| done]. exists (VRef obj). split; [by left |].
        exists obj. split; [done |]. by eapply rtc_l.
    + intros l Hl. apply list_elem_of_singleton in Hl. injection Hl as ->.
      apply Hsub. set_solver. }
  fold st1. destruct (o_kind (deref h obj)); by rewrite ?Htry.
Qed.

Lemma count_from_empty h v :
  ∃ st, count (enough_depth h) h v (∅, 0, 0) = (Some (), st) ∧ tallied h st ∧
        ∀ l, l ∈ st.1.1 ↔ count_reaches h v l.
Proof.
  destruct (count_enough (enough_depth h) h v (∅, 0, 0)) as (st & Hst & _ & Hpost).
  { simpl. rewrite unvisited_empty. unfold enough_depth. lia. }
  exists st. split; [done |].
  assert (tallied h (∅, 0, 0)) as H0.
  { unfold tallied, frozen_among, unfrozen_among. simpl.
    rewrite !filter_empty_L; try apply _. by rewrite size_empty. }
  destruct (Hpost H0) as (Ht & [_ Hcl] & Hin). simpl in Hcl.
  split; [done |]. intros l. split.
  - intros Hl. destruct (Hcl l Hl) as [Hl0 | [(w & ->%list_elem_of_singleton & Hr) _]];
      [set_solver | done].
  - intros (l0 & -> & Hr). revert l Hr. apply rtc_ind_r.
    + apply Hin. by left.
    + intros x y _ Hxy Hx. destruct (Hcl x Hx) as [Hx0 | [_ Hc]]; [set_solver |]. by apply Hc.
Qed.

(** X6: [countFrozenObjects] comes back on every value of every store,
    cycles included, and it counts each object below the value exactly
    once: [total] is the number of distinct objects (functions too) that
    the value is or that lie below it along array elements, map keys and
    values, set members and the readable values of own enumerable
    string-keyed properties; [frozen] is how many of them are frozen at
    the top level, [unfrozen] how many are not, and
    [total = frozen + unfrozen]. *)
Theorem countFrozenObjects_counts_reachable h v :
  ∃ X : gset loc,
    (∀ l, l ∈ X ↔ count_reaches h v l) ∧
    countFrozenObjects h v = Some (Stats (frozen_among h X) (unfrozen_among h X) (size X)) ∧
    size X = frozen_among h X + unfrozen_among h X.
Proof.
  destruct (count_from_empty h v) as (st & Hst & [Hf Hu] & Hiff).
  exists st.1.1. split; [done |]. unfold countFrozenObjects. rewrite Hst.
  rewrite <- (among_total h st.1.1). split; [| done]. by rewrite Hf, Hu.
Qed.

(** Whatever [count] descends into, the deep-frozen predicate checks. *)
Lemma counts_checks h l c : counts h l c → checks h l c.
Proof.
  unfold counts, checks, counted_children, checked_children.
  destruct (o_kind (deref h l)); try done;
    intros ((p & x) & -> & Hpx)%list_elem_of_fmap;
    apply elem_of_readable in Hpx as [Hin Hr];
    apply list_elem_of_fmap; exists (p, x); (split; [done |]);
    unfold readable; apply list_elem_of_omap; exists p; rewrite Hr; (split; [| done]);
    unfold Object_keys in Hin; apply list_elem_of_filter in Hin as [Hk Hin];
    unfold Object_getOwnPropertyNames; apply list_elem_of_filter;
    (split; [| done]); by destruct (is_string_key p).
Qed.

Lemma count_reaches_reaches h v l : count_reaches h v l → reaches h v l.
Proof.
  intros (l0 & -> & Hr). exists l0. split; [done |].
  induction Hr; [apply rtc_refl |]. eapply rtc_l; [by apply counts_checks | done].
Qed.

(** X7: what is deeply frozen has no unfrozen object to count: whenever
    [isFrozen] accepts a value, [countFrozenObjects] reports
    [unfrozen = 0] and [frozen = total]. *)
Theorem countFrozenObjects_of_frozen h v :
  isFrozen h v = true →
  ∃ n, countFrozenObjects h v = Some (Stats n 0 n).
Proof.
  intros Hv. destruct (count_from_empty h v) as (st & Hst & [Hf Hu] & Hiff).
  exists st.1.2. unfold countFrozenObjects. rewrite Hst.
  assert (st.2 = 0) as ->.
  { rewrite Hu. unfold unfrozen_among. apply size_empty_iff, elem_of_equiv_empty.
    intros l [Hl Hin]%elem_of_filter.
    apply Hiff, count_reaches_reaches in Hin.
    pose proof (proj1 (isFrozen_iff h v) Hv l Hin). congruence. }
  by rewrite Nat.add_0_r.
Qed.

Lemma countFrozenObjects_of_frozen_witness :
  ∃ n, countFrozenObjects (chain true 3) (VRef 0) = Some (Stats n 0 n).
Proof.
  apply (countFrozenObjects_of_frozen (chain true 3) (VRef 0)). vm_compute. reflexivity.
Defined.

(** * Batches and builders *)

(** ** The engine inside a closed part of the store *)

Lemma heap_ext (h h' : heap) :
  length h = length h' → (∀ l, l < length h → deref h l = deref h' l) → h = h'.
Proof.
  intros Hlen Hd. apply list_eq. intros l.
  destruct (decide (l < length h)) as [Hl | Hl].
  - rewrite (lookup_deref h l Hl), (lookup_deref h' l) by lia. f_equal. by apply Hd.
  - rewrite !lookup_ge_None_2; [done | lia | lia].
Qed.

Lemma typeof_app h ext v : source_value h v → typeof (h ++ ext) v = typeof h v.
Proof.
  destruct v as [| | | | | | | l]; try done. simpl. intros Hl.
  unfold is_function. by rewrite deref_app_l.
Qed.

Lemma push_if_object_local h h' st x :
  typeof h' x = typeof h x → push_if_object h' st x = push_if_object h st x.
Proof. intros Ht. unfold push_if_object. destruct x; try done. by rewrite Ht. Qed.

Lemma fold_push_local h h' xs st :
  Forall (fun x => typeof h' x = typeof h x) xs →
  fold_left (push_if_object h') xs st = fold_left (push_if_object h) xs st.
Proof.
  intros Hall. revert st. induction Hall as [| x xs Hx _ IH]; intros st; simpl; [done |].
  by rewrite (push_if_object_local h h'), IH.
Qed.

Lemma fold_entry_local h h' es st :
  Forall (fun x => typeof h' x = typeof h x) (key_then_value es) →
  fold_left (push_entry h') es st = fold_left (push_entry h) es st.
Proof.
  revert st. induction es as [| e es IH]; intros st Hall; simpl; [done |].
  simpl in Hall. apply Forall_cons in Hall as [H1 Hall]. apply Forall_cons in Hall as [H2 Hall].
  unfold push_entry at 2 4.
  by rewrite !(push_if_object_local h h'), IH.
Qed.

Lemma push_props_local h h' ps st :
  Forall (fun x => typeof h' x = typeof h x) (flat_map (fun p => slot_values (p_slot p)) ps) →
  push_props h' ps st = push_props h ps st.
Proof.
  revert st. induction ps as [| p ps IH]; intros st Hall; simpl; [done |].
  simpl in Hall. apply Forall_app in Hall as [H1 Hall].
  destruct (p_slot p) as [x | [x |]]; simpl in *; try done.
  - apply Forall_cons in H1 as [H1 _]. by rewrite (push_if_object_local h h'), IH.
  - apply Forall_cons in H1 as [H1 _]. by rewrite (push_if_object_local h h'), IH.
Qed.

Lemma push_props_try_local h h' ps st :
  Forall (fun x => typeof h' x = typeof h x) (flat_map (fun p => slot_values (p_slot p)) ps) →
  push_props_try h' ps st = push_props_try h ps st.
Proof.
  revert st. induction ps as [| p ps IH]; intros st Hall; simpl; [done |].
  simpl in Hall. apply Forall_app in Hall as [H1 Hall].
  destruct (p_slot p) as [x | [x |]]; simpl in *.
  - apply Forall_cons in H1 as [H1 _]. by rewrite (push_if_object_local h h'), IH.
  - apply Forall_cons in H1 as [H1 _]. by rewrite (push_if_object_local h h'), IH.
  - by apply IH.
Qed.

Lemma Forall_flat_filter (Q : value → Prop) (P : property → Prop) `{∀ p, Decision (P p)} ps :
  Forall Q (flat_map (fun p => slot_values (p_slot p)) ps) →
  Forall Q (flat_map (fun p => slot_values (p_slot p)) (filter P ps)).
Proof.
  rewrite !Forall_forall. intros Hall v Hv. apply Hall. by eapply flat_map_filter_values.
Qed.

(** Scheduling looks at the store only through the type of the values the
    object holds. *)
Lemma schedule_children_local h h' o st :
  Forall (fun x => typeof h' x = typeof h x) (object_values o) →
  schedule_children h' o st = schedule_children h o st.
Proof.
  unfold object_values. intros [Hk Hp]%Forall_app. unfold schedule_children.
  destruct (o_kind o); simpl in Hk.
  - by rewrite (fold_push_local h h').
  - by rewrite (fold_entry_local h h').
  - by rewrite (fold_push_local h h').
  - done.
  - done.
  - rewrite (push_props_try_local h h' (Object_getOwnPropertyNames o))
      by by apply Forall_flat_filter.
    by rewrite (push_props_try_local h h' (Object_getOwnPropertySymbols o))
      by by apply Forall_flat_filter.
  - rewrite (push_props_local h h' (Object_keys o)) by by apply Forall_flat_filter.
    destruct (push_props h (Object_keys o) st); simpl; try done.
    by rewrite (push_props_local h h' (Object_getOwnPropertySymbols o))
      by by apply Forall_flat_filter.
  - rewrite (push_props_try_local h h' (Object_getOwnPropertyNames o))
      by by apply Forall_flat_filter.
    by rewrite (push_props_try_local h h' (Object_getOwnPropertySymbols o))
      by by apply Forall_flat_filter.
Qed.

Lemma closed_typeof_app h ext l :
  heap_closed h →
  Forall (fun x => typeof (h ++ ext) x = typeof h x) (object_values (deref h l)).
Proof.
  intros Hc. apply Forall_forall. intros v Hv. apply typeof_app. by eapply Hc.
Qed.

Lemma scheduled_frame h ext l c :
  heap_closed h → l < length h → scheduled (h ++ ext) l c ↔ scheduled h l c.
Proof.
  intros Hc Hl. unfold scheduled. rewrite deref_app_l by done.
  by rewrite (schedule_children_local h (h ++ ext)) by by apply closed_typeof_app.
Qed.

Lemma scheduled_source h l c : heap_closed h → scheduled h l c → c < length h.
Proof. intros Hc Hs. apply scheduled_value in Hs. by apply (Hc l (VRef c)). Qed.

Lemma thaw_path_frame h ext r x :
  heap_closed h → r < length h → thaw_path (h ++ ext) r x ↔ thaw_path h r x.
Proof.
  intros Hc Hr. split.
  - intros Hp. induction Hp as [l Hf | l c l' Hf Hs _ IH].
    + apply thaw_here. by rewrite deref_app_l in Hf.
    + apply scheduled_frame in Hs; [| done | done].
      eapply thaw_step; [by rewrite deref_app_l in Hf | done |].
      apply IH. by eapply scheduled_source.
  - intros Hp. induction Hp as [l Hf | l c l' Hf Hs _ IH].
    + apply thaw_here. by rewrite deref_app_l.
    + eapply thaw_step; [by rewrite deref_app_l | by apply scheduled_frame |].
      apply IH. by eapply scheduled_source.
Qed.

Lemma thaw_path_lt h r x : thaw_path h r x → x < length h.
Proof. intros Hp. by eapply deref_unfrozen_lt, thaw_path_end. Qed.

Lemma thaw_path_trans h a b c : thaw_path h a b → thaw_path h b c → thaw_path h a c.
Proof.
  intros Hab Hbc. induction Hab as [l Hf | l x l' Hf Hs _ IH]; [done |].
  eapply thaw_step; [done | done | by apply IH].
Qed.

Lemma freezes_only_scheduled h h' l c : freezes_only h h' → scheduled h' l c ↔ scheduled h l c.
Proof.
  intros Hf. unfold scheduled. destruct Hf as [Hlen Hd]. destruct (Hd l) as (Hk & Hp & _).
  assert (schedule_children h' (deref h' l) [] = schedule_children h (deref h l) []) as ->;
    [| done].
  rewrite (schedule_children_ext h h') by done.
  unfold schedule_children, Object_keys, Object_getOwnPropertyNames, Object_getOwnPropertySymbols.
  by rewrite Hk, Hp.
Qed.

Lemma freezes_only_unfrozen h h' l :
  freezes_only h h' → o_frozen (deref h' l) = false → o_frozen (deref h l) = false.
Proof.
  intros [_ Hd] Hf. destruct (Hd l) as (_ & _ & Hfr).
  destruct (o_frozen (deref h l)); [| done]. by rewrite Hfr in Hf.
Qed.

Lemma thaw_path_mono h h' r x : freezes_only h h' → thaw_path h' r x → thaw_path h r x.
Proof.
  intros Hf Hp. induction Hp as [l Hl | l c l' Hl Hs _ IH].
  - apply thaw_here. by eapply freezes_only_unfrozen.
  - eapply thaw_step; [by eapply freezes_only_unfrozen | | done].
    by apply (freezes_only_scheduled h h' l c Hf).
Qed.

(** A path of the earlier store survives, or runs into a node that has
    been frozen since. *)
Lemma thaw_path_split h h' r x :
  freezes_only h h' → thaw_path h r x →
  thaw_path h' r x ∨
  ∃ y, o_frozen (deref h y) = false ∧ o_frozen (deref h' y) = true ∧ thaw_path h y x.
Proof.
  intros Hf Hp. induction Hp as [l Hl | l c l' Hl Hs Hp IH].
  - destruct (o_frozen (deref h' l)) eqn:Hl'.
    + right. exists l. split; [done |]. split; [done |]. by apply thaw_here.
    + left. by apply thaw_here.
  - destruct (o_frozen (deref h' l)) eqn:Hl'.
    + right. exists l. split; [done |]. split; [done |]. by eapply thaw_step.
    + destruct IH as [IH | (y & ? & ? & ?)].
      * left. eapply thaw_step; [done | | done].
        by apply (freezes_only_scheduled h h' l c Hf).
      * right. by exists y.
Qed.

Lemma frozen_from_refl h : frozen_from h [] h.
Proof.
  split; [apply freezes_only_refl |]. intros l. split; [by left |].
  intros [? | (r & Hr & _)]; [done | by apply elem_of_nil in Hr].
Qed.

Lemma frozen_from_seq h h1 h2 roots1 roots2 :
  frozen_from h roots1 h1 → frozen_from h1 roots2 h2 → frozen_from h (roots1 ++ roots2) h2.
Proof.
  intros [Hf1 H1] [Hf2 H2]. split; [by eapply freezes_only_trans |].
  intros l. rewrite H2, H1. split.
  - intros [[? | (r & Hr & Hp)] | (r & Hr & Hp)].
    + by left.
    + right. exists r. split; [apply elem_of_app; by left | done].
    + right. exists r. split; [apply elem_of_app; by right | by eapply thaw_path_mono].
  - intros [? | (r & [Hr | Hr]%elem_of_app & Hp)].
    + left. by left.
    + left. right. by exists r.
    + destruct (thaw_path_split h h1 r l Hf1 Hp) as [Hp1 | (y & Hy & Hy1 & Hyl)].
      * right. by exists r.
      * left. apply H1 in Hy1 as [Hy1 | (r1 & Hr1 & Hp1)]; [congruence |].
        right. exists r1. split; [done |]. by eapply thaw_path_trans.
Qed.

Lemma frozen_from_roots h roots roots' h' :
  (∀ r, r ∈ roots → o_frozen (deref h r) = false → r ∈ roots') →
  (∀ r, r ∈ roots' → o_frozen (deref h r) = false → r ∈ roots) →
  frozen_from h roots h' → frozen_from h roots' h'.
Proof.
  intros H1 H2 [Hf Hiff]. split; [done |]. intros l. rewrite Hiff.
  split; (intros [? | (r & Hr & Hp)]; [by left | right]); exists r; (split; [| done]).
  - apply H1; [done | by eapply thaw_path_start].
  - apply H2; [done | by eapply thaw_path_start].
Qed.

Lemma freezes_only_closed h h' : freezes_only h h' → heap_closed h → heap_closed h'.
Proof.
  intros [Hlen Hd] Hc l v Hv. destruct (Hd l) as (Hk & Hp & _).
  unfold object_values in Hv. rewrite Hk, Hp in Hv.
  specialize (Hc l v Hv). destruct v; try done. simpl in *. lia.
Qed.

(** ** One [freeze] inside a closed part of the store *)

Lemma deref_app_r (h ext : heap) (l : loc) :
  length h ≤ l → deref (h ++ ext) l = deref ext (l - length h).
Proof. intros Hl. unfold deref. by rewrite lookup_app_r. Qed.

Lemma no_custom_freeze_app h ext :
  no_custom_freeze_in h → Forall (fun o => ∀ p, p ∈ o_props o → p_key p ≠ PStr "freeze") ext →
  no_custom_freeze_in (h ++ ext).
Proof.
  intros Hno Hext l p Hp. destruct (decide (l < length h)) as [Hl | Hl].
  - rewrite deref_app_l in Hp by done. by eapply Hno.
  - rewrite deref_app_r in Hp by lia. unfold deref in Hp.
    destruct (ext !! (l - length h)) as [o |] eqn:Ho; simpl in Hp.
    + rewrite Forall_lookup in Hext. by eapply Hext.
    + by apply elem_of_nil in Hp.
Qed.

Lemma freezes_only_no_freeze h h' :
  freezes_only h h' → no_custom_freeze_in h → no_custom_freeze_in h'.
Proof.
  intros [_ Hd] Hno l p Hp. destruct (Hd l) as (_ & Hprops & _).
  rewrite Hprops in Hp. by eapply Hno.
Qed.

Lemma freezes_only_source h h' v : freezes_only h h' → source_value h v → source_value h' v.
Proof. intros [Hlen _]. destruct v; try done. simpl. lia. Qed.

Lemma getters_safe_app h ext :
  Forall getters_safe h → Forall getters_safe ext → Forall getters_safe (h ++ ext).
Proof. intros. by apply Forall_app. Qed.

Lemma freezes_only_getters h h' :
  freezes_only h h' → Forall getters_safe h → Forall getters_safe h'.
Proof.
  intros Hf Hs. apply Forall_lookup. intros l o Hl.
  apply deref_lookup in Hl as <-. by eapply freezes_only_safe.
Qed.

(** Without custom freeze, [freeze] never runs out of fuel, and it returns
    its argument unless a getter throws. *)
Lemma freeze_plain_returns call h v :
  no_custom_freeze_in h →
  freeze call v h ≠ OutOfFuel ∧
  (Forall getters_safe h → ∃ h', freeze call v h = Ret (v, h')).
Proof.
  intros Hno. destruct v as [| | | | | | | l]; try (split; [done | by eexists]).
  destruct (o_frozen (deref h l)) eqn:Hf.
  - rewrite freeze_frozen by done. split; [done | by eexists].
  - apply freeze_traversal_returns; [done | by apply no_freeze_isFreezable].
Qed.

Lemma freeze_prefix call g ext v r h' :
  heap_closed g → source_value g v → no_custom_freeze_in (g ++ ext) →
  freeze call v (g ++ ext) = Ret (r, h') →
  r = v ∧ ∃ g', h' = g' ++ ext ∧ frozen_from g (refs [v]) g'.
Proof.
  intros Hc Hv Hno Hfr.
  destruct v as [| | | | | | | l];
    try (injection Hfr as <- <-; split; [done |]; exists g; split; [done |];
         apply frozen_from_refl).
  simpl in Hv. change (refs [VRef l]) with [l].
  destruct (o_frozen (deref (g ++ ext) l)) eqn:Hf.
  - rewrite freeze_frozen in Hfr by done. injection Hfr as <- <-.
    split; [done |]. exists g. split; [done |].
    eapply frozen_from_roots; [| | apply frozen_from_refl].
    + intros r Hr. by apply elem_of_nil in Hr.
    + intros r ->%list_elem_of_singleton Hu. rewrite deref_app_l in Hf by done. congruence.
  - pose proof (no_freeze_isFreezable _ (VRef l) Hno) as Hz.
    destruct (freeze_traversal_spec call l _ r h' Hf Hz Hfr) as (-> & Hsh & Hiff).
    split; [done |]. destruct Hsh as [Hlen Hd].
    assert (∀ x, thaw_path (g ++ ext) l x ↔ thaw_path g l x) as Hframe.
    { intros x. by apply thaw_path_frame. }
    assert (∀ x, length g ≤ x → deref h' x = deref (g ++ ext) x) as Hout.
    { intros x Hx. destruct (Hd x) as (Hk & Hp & Hfz). apply deref_eq; [done | done |].
      destruct (o_frozen (deref (g ++ ext) x)) eqn:Hfx; [by apply Hfz |].
      destruct (o_frozen (deref h' x)) eqn:Hfx'; [| done].
      apply Hiff in Hfx' as [? | Hp']; [congruence |].
      apply Hframe, thaw_path_lt in Hp'. lia. }
    rewrite length_app in Hlen.
    assert (h' = take (length g) h' ++ ext) as Heq.
    { rewrite <- (take_drop (length g) h') at 1. f_equal.
      apply heap_ext; [rewrite length_drop; lia |].
      intros x Hx. rewrite length_drop in Hx.
      assert (deref (drop (length g) h') x = deref h' (length g + x)) as ->.
      { unfold deref. by rewrite lookup_drop. }
      rewrite Hout by lia. rewrite deref_app_r by lia. f_equal. lia. }
    exists (take (length g) h'). split; [done |].
    assert (length (take (length g) h') = length g) as Hlen'.
    { rewrite length_take. lia. }
    assert (∀ x, x < length g → deref (take (length g) h') x = deref h' x) as Hin.
    { intros x Hx. rewrite Heq at 2. by rewrite deref_app_l by lia. }
    split; [split; [done |] |].
    + intros x. destruct (decide (x < length g)) as [Hx | Hx].
      * rewrite Hin by done. destruct (Hd x) as (Hk & Hp & Hfz).
        by rewrite deref_app_l in Hk, Hp, Hfz by done.
      * by rewrite !deref_dangling by lia.
    + intros x. destruct (decide (x < length g)) as [Hx | Hx].
      * rewrite Hin by done. rewrite Hiff, Hframe, deref_app_l by done.
        split; (intros [? | Hp]; [by left | right]).
        -- exists l. split; [by apply list_elem_of_singleton | done].
        -- by destruct Hp as (r & ->%list_elem_of_singleton & Hp).
      * rewrite !deref_dangling by lia. split; [by left | done].
Qed.

(** ** [freezeAll] *)

Lemma refs_cons_app v vs : refs (v :: vs) = refs [v] ++ refs vs.
Proof. unfold refs. simpl. by destruct v. Qed.

Lemma set_element_last g elems i x :
  i < length elems →
  set_element (g ++ [Obj (KArray elems) [] false]) (length g) i x =
  Ret (g ++ [Obj (KArray (<[i := x]> elems)) [] false]).
Proof.
  intros Hi. unfold set_element. rewrite deref_alloc. simpl. f_equal.
  unfold store_element. rewrite decide_True by done.
  rewrite insert_app_r_alt by lia. by rewrite Nat.sub_diag.
Qed.

Lemma array_no_freeze elems f :
  Forall (fun o => ∀ p, p ∈ o_props o → p_key p ≠ PStr "freeze") [Obj (KArray elems) [] f].
Proof. apply Forall_singleton. intros p Hp. by apply elem_of_nil in Hp. Qed.

Lemma array_getters_safe elems f : Forall getters_safe [Obj (KArray elems) [] f].
Proof. apply Forall_singleton. unfold getters_safe. simpl. constructor. Qed.

Lemma freeze_each_spec call objects : ∀ g elems i,
  heap_closed g → no_custom_freeze_in g → Forall (source_value g) objects →
  i + length objects ≤ length elems →
  let h := g ++ [Obj (KArray elems) [] false] in
  freeze_each call (length g) objects i h ≠ OutOfFuel ∧
  (Forall getters_safe g → ∃ h', freeze_each call (length g) objects i h = Ret h') ∧
  ∀ h', freeze_each call (length g) objects i h = Ret h' →
    ∃ g', h' = g' ++ [Obj (KArray (take i elems ++ objects ++ drop (i + length objects) elems))
                        [] false] ∧
          frozen_from g (refs objects) g'.
Proof.
  induction objects as [| obj objects IH]; intros g elems i Hc Hno Hsrc Hi h.
  - simpl. split; [done |]. split; [by eexists |]. intros h' [= <-].
    exists g. rewrite Nat.add_0_r, take_drop. split; [done | apply frozen_from_refl].
  - apply Forall_cons in Hsrc as [Hobj Hsrc]. simpl in Hi.
    assert (no_custom_freeze_in h) as Hno'.
    { apply no_custom_freeze_app; [done | apply array_no_freeze]. }
    destruct (freeze_plain_returns call h obj Hno') as [Hfuel Hret].
    assert (∀ r h1, freeze call obj h = Ret (r, h1) →
              ∃ g1, r = obj ∧ h1 = g1 ++ [Obj (KArray elems) [] false] ∧
                    frozen_from g (refs [obj]) g1 ∧ length g1 = length g ∧
                    heap_closed g1 ∧ no_custom_freeze_in g1 ∧
                    Forall (source_value g1) objects) as Hstep.
    { intros r h1 Hfr.
      destruct (freeze_prefix call g _ obj r h1 Hc Hobj Hno' Hfr) as (-> & g1 & -> & Hff).
      exists g1. destruct Hff as [Hfo Hiff].
      split; [done |]. split; [done |]. split; [done |]. split; [apply Hfo |].
      split; [by eapply freezes_only_closed |]. split; [by eapply freezes_only_no_freeze |].
      eapply Forall_impl; [exact Hsrc |]. intros v. by apply freezes_only_source. }
    simpl. split; [| split].
    + destruct (freeze call obj h) as [[r h1] | e |] eqn:Hfr; simpl; try done.
      destruct (Hstep r h1 eq_refl) as (g1 & -> & -> & Hff & Hlen & Hc1 & Hno1 & Hsrc1).
      simpl. rewrite <- Hlen, set_element_last by lia. simpl.
      apply (IH g1 (<[i := obj]> elems) (S i)); try done. rewrite length_insert. lia.
    + intros Hsafe. destruct Hret as [h1 Hfr].
      { apply getters_safe_app; [done | apply array_getters_safe]. }
      rewrite Hfr. destruct (Hstep obj h1 Hfr) as (g1 & _ & -> & Hff & Hlen & Hc1 & Hno1 & Hsrc1).
      simpl. rewrite <- Hlen, set_element_last by lia. simpl.
      apply (IH g1 (<[i := obj]> elems) (S i)); try done; [rewrite length_insert; lia |].
      eapply freezes_only_getters; [apply Hff | done].
    + intros h'. destruct (freeze call obj h) as [[r h1] | e |] eqn:Hfr; simpl; try done.
      destruct (Hstep r h1 eq_refl) as (g1 & -> & -> & Hff & Hlen & Hc1 & Hno1 & Hsrc1).
      simpl. rewrite <- Hlen, set_element_last by lia. simpl. intros Hrest.
      destruct (IH g1 (<[i := obj]> elems) (S i)) as (_ & _ & Hspec); try done;
        [rewrite length_insert; lia |].
      destruct (Hspec h' Hrest) as (g' & -> & Hff').
      exists g'. split.
      * do 2 f_equal. rewrite take_S_r with (x := obj) by (apply list_lookup_insert_eq; lia).
        rewrite take_insert_ge by lia. rewrite drop_insert_lt by lia.
        rewrite <- app_assoc. simpl. by rewrite Nat.add_succ_r.
      * pose proof (frozen_from_seq _ _ _ _ _ Hff Hff') as Hseq.
        rewrite <- refs_cons_app in Hseq. exact Hseq.
Qed.

(** X8: [freezeAll] on a store without dangling reference and without
    custom freeze: it comes back (with a result as soon as no getter
    throws) and returns a new array that holds the arguments themselves,
    in order, and that is itself not frozen; each argument is frozen at
    the top level, and in the store exactly that is frozen which was
    frozen before or which the walk of [freeze] reaches from one of the
    arguments; nothing else changes. *)
Theorem freezeAll_freezes_each call objects h :
  heap_closed h → no_custom_freeze_in h → Forall (source_value h) objects →
  freezeAll call objects h ≠ OutOfFuel ∧
  (Forall getters_safe h → ∃ h', freezeAll call objects h = Ret (VRef (length h), h')) ∧
  ∀ r h', freezeAll call objects h = Ret (r, h') →
    r = VRef (length h) ∧
    ∃ g', h' = g' ++ [Obj (KArray objects) [] false] ∧
          frozen_from h (refs objects) g' ∧
          ∀ v, v ∈ objects → isShallowFrozen h' v = true.
Proof.
  intros Hc Hno Hsrc. unfold freezeAll, alloc, new_Array, fresh. simpl.
  destruct (freeze_each_spec call objects h (replicate (length objects) VUndefined) 0
              Hc Hno Hsrc) as (Hfuel & Hret & Hspec).
  { rewrite length_replicate. lia. }
  simpl in Hfuel, Hret, Hspec. split; [| split].
  - by destruct (freeze_each call (length h) objects 0 _).
  - intros Hs. destruct (Hret Hs) as [h' ->]. by eexists.
  - intros r h'. destruct (freeze_each call (length h) objects 0 _) as [h1 | e |] eqn:Hl;
      simpl; try done.
    intros [= <- <-]. split; [done |].
    destruct (Hspec h1 eq_refl) as (g' & -> & Hff).
    rewrite drop_ge, app_nil_r in * by (rewrite length_replicate; lia).
    exists g'. split; [done |]. split; [done |].
    intros v Hv. destruct v as [| | | | | | | l]; try done. simpl.
    rewrite Forall_forall in Hsrc. specialize (Hsrc _ Hv). simpl in Hsrc.
    destruct Hff as [[Hlen _] Hiff]. rewrite deref_app_l by lia.
    apply Hiff. destruct (o_frozen (deref h l)) eqn:Hf; [by left | right].
    exists l. split; [| by apply thaw_here].
    unfold refs. apply list_elem_of_omap. by exists (VRef l).
Qed.

Lemma freezeAll_witness :
  ∃ g', freezeAll no_custom_freeze [VRef 1; VNumber 7] nested_source =
          Ret (VRef 2, g' ++ [Obj (KArray [VRef 1; VNumber 7]) [] false]) ∧
        frozen_from nested_source [1] g'.
Proof.
  destruct (freezeAll_freezes_each no_custom_freeze [VRef 1; VNumber 7] nested_source
              nested_source_closed nested_source_no_custom_freeze) as (_ & Hret & Hspec).
  { repeat constructor. }
  destruct Hret as [h' Hfa].
  { repeat constructor; done. }
  destruct (Hspec _ _ Hfa) as (_ & g' & Heq & Hff & _).
  exists g'. rewrite <- Heq. split; [exact Hfa | exact Hff].
Defined.

(** ** Own names and what they read *)

Lemma pretty_N_go_not_freeze x s : s ≠ "freeze" → pretty_N_go x s ≠ "freeze".
Proof.
  revert s. induction (N.lt_wf_0 x) as [x _ IH]; intros s Hs.
  assert (x = 0 ∨ 0 < x)%N as [-> | Hx] by lia.
  - by rewrite pretty_N_go_0.
  - rewrite pretty_N_go_step by done. apply IH.
    { by apply N.div_lt. }
    unfold pretty_N_char. by repeat case_match.
Qed.

(** No index is spelled [freeze]. *)
Lemma pretty_not_freeze (i : nat) : pretty i ≠ "freeze".
Proof.
  unfold pretty, pretty_nat, pretty, pretty_N. case_decide; [done |].
  by apply pretty_N_go_not_freeze.
Qed.

Lemma indexed_names elems name :
  name ∈ map fst (indexed elems) → ∃ i : nat, name = pretty i.
Proof.
  unfold indexed. intros ((n & x) & -> & Hin)%list_elem_of_fmap.
  apply list_elem_of_lookup in Hin as [j Hj].
  rewrite list_lookup_imap in Hj.
  destruct (elems !! j); simpl in Hj; [| done]. injection Hj as <- _. by exists j.
Qed.

Lemma indexed_values elems name x :
  (name, x) ∈ indexed elems → x ∈ elems.
Proof.
  unfold indexed. intros [j Hj]%list_elem_of_lookup. rewrite list_lookup_imap in Hj.
  destruct (elems !! j) as [y |] eqn:Hy; simpl in Hj; [| done]. injection Hj as _ <-.
  by eapply list_elem_of_lookup_2.
Qed.

Lemma element_named_elem elems name x : element_named elems name = Some x → x ∈ elems.
Proof.
  unfold element_named.
  destruct (List.find _ (indexed elems)) as [[n y] |] eqn:Hf; simpl; [| done].
  intros [= <-]. apply find_some in Hf as [Hin _].
  by eapply indexed_values, list_elem_of_In.
Qed.

Lemma element_named_some elems name :
  name ∈ map fst (indexed elems) → is_Some (element_named elems name).
Proof.
  intros ((n & x) & -> & Hin)%list_elem_of_fmap. unfold element_named.
  destruct (List.find (fun e => bool_decide (e.1 = (n, x).1)) (indexed elems)) as [e |] eqn:Hf;
    [by eexists |].
  exfalso. eapply find_none in Hf; [| by apply list_elem_of_In].
  simpl in Hf. by rewrite bool_decide_eq_true_2 in Hf.
Qed.

Lemma own_property_some o k p : p ∈ o_props o → p_key p = k → is_Some (own_property o k).
Proof.
  intros Hin Hk. unfold own_property.
  destruct (List.find _ (o_props o)) as [q |] eqn:Hf; [by eexists |].
  exfalso. eapply find_none in Hf; [| by apply list_elem_of_In].
  simpl in Hf. by rewrite bool_decide_eq_true_2 in Hf.
Qed.

Lemma own_property_elem o k p : own_property o k = Some p → p ∈ o_props o ∧ p_key p = k.
Proof.
  unfold own_property. intros [Hin Hk]%find_some. split; [by apply list_elem_of_In |].
  by apply bool_decide_eq_true in Hk.
Qed.

Lemma key_names_cases o name :
  name ∈ key_names o →
  (∃ elems, o_kind o = KArray elems ∧ name ∈ map fst (indexed elems)) ∨
  (∃ p, p ∈ o_props o ∧ p_key p = PStr name ∧ p_enumerable p = true).
Proof.
  unfold key_names. intros [Hin | Hin]%elem_of_app.
  - left. destruct (o_kind o) as [elems | | | | | | |]; try by apply elem_of_nil in Hin.
    by exists elems.
  - right. apply list_elem_of_omap in Hin as (p & Hp & Hk).
    unfold Object_keys in Hp. apply list_elem_of_filter in Hp as [He Hp].
    exists p. split; [done |]. destruct (p_key p); [| done]. injection Hk as ->.
    split; [done |]. by apply andb_true_iff in He as [_ He].
Qed.

Lemma key_names_not_freeze o :
  (∀ p, p ∈ o_props o → p_key p ≠ PStr "freeze") → "freeze" ∉ key_names o.
Proof.
  intros Hno [(elems & _ & Hin) | (p & Hp & Hk & _)]%key_names_cases.
  - apply indexed_names in Hin as [i Hi]. by eapply pretty_not_freeze.
  - by eapply Hno.
Qed.

Lemma get_named_read h l name :
  name ∈ key_names (deref h l) → get_named h l name = read_named (deref h l) name.
Proof.
  intros Hin. unfold get_named, read_named, get_property. simpl.
  assert (own_property (deref h l) (PStr name) = None →
          ∃ elems, o_kind (deref h l) = KArray elems ∧ is_Some (element_named elems name))
    as Hnone.
  { intros Hown. apply key_names_cases in Hin as [(elems & Hk & Hin) | (p & Hp & Hk & _)].
    - exists elems. split; [done |]. by apply element_named_some.
    - destruct (own_property_some _ _ p Hp Hk) as [q Hq]. congruence. }
  destruct (own_property (deref h l) (PStr name)) as [p |] eqn:Hown.
  - by destruct (o_kind (deref h l)).
  - destruct (Hnone eq_refl) as (elems & Hk & x & Hx). by rewrite Hk, Hx.
Qed.

Lemma read_named_ext o o' name :
  o_kind o' = o_kind o → o_props o' = o_props o → read_named o' name = read_named o name.
Proof. intros Hk Hp. unfold read_named, own_property. by rewrite Hk, Hp. Qed.

Lemma key_names_ext o o' :
  o_kind o' = o_kind o → o_props o' = o_props o → key_names o' = key_names o.
Proof. intros Hk Hp. unfold key_names, Object_keys. by rewrite Hk, Hp. Qed.

Lemma read_named_value o name x :
  read_named o name = Ret x → x = VUndefined ∨ x ∈ object_values o.
Proof.
  unfold read_named, object_values.
  destruct (match o_kind o with KArray elems => element_named elems name | _ => None end)
    as [y |] eqn:He.
  - intros [= <-]. right. apply elem_of_app. left.
    destruct (o_kind o) as [elems | | | | | | |]; try done. simpl.
    by eapply element_named_elem.
  - destruct (own_property o (PStr name)) as [p |] eqn:Hown; [| intros [= <-]; by left].
    intros Hr. right. apply elem_of_app. right.
    apply own_property_elem in Hown as [Hp _].
    apply elem_of_flat_slot_values. exists p. split; [done | by apply read_slot_value].
Qed.

Lemma read_named_source h l name x :
  heap_closed h → read_named (deref h l) name = Ret x → source_value h x.
Proof.
  intros Hc [-> | Hx]%read_named_value; [done |]. by eapply Hc.
Qed.

Lemma read_named_fuel o name : read_named o name ≠ OutOfFuel.
Proof.
  unfold read_named. destruct (match o_kind o with KArray _ => _ | _ => _ end); [done |].
  destruct (own_property o (PStr name)); [apply read_slot_fuel | done].
Qed.

Lemma read_named_safe o name : getters_safe o → ∃ x, read_named o name = Ret x.
Proof.
  intros Hs. unfold read_named.
  destruct (match o_kind o with KArray _ => _ | _ => _ end); [by eexists |].
  destruct (own_property o (PStr name)) as [p |] eqn:Hown; [| by eexists].
  apply own_property_elem in Hown as [Hp _].
  unfold getters_safe in Hs. rewrite Forall_forall in Hs. specialize (Hs p Hp).
  destruct (p_slot p) as [v | [v |]]; simpl; [by eexists | by eexists | done].
Qed.

(** ** [freezeRecord] *)

Lemma assign_own_of o ps name x :
  Forall (own_of o) ps → name ∈ key_names o → read_named o name = Ret x →
  Forall (own_of o) (assign ps (PStr name) x).
Proof.
  intros Hps Hin Hr. apply Forall_assign_gen; [done |].
  intros e He. assert (e = true) as ->.
  { destruct He as [-> | (p & Hp & _ & <-)]; [done |].
    rewrite Forall_forall in Hps. by destruct (Hps p Hp) as (n & v & -> & _). }
  exists name, x. split; [reflexivity | done].
Qed.

Lemma assign_keys ps k x k' :
  (∃ p, p ∈ ps ∧ p_key p = k') ∨ k' = k → ∃ p, p ∈ assign ps k x ∧ p_key p = k'.
Proof.
  unfold assign. destruct (has_key ps k) eqn:Hhas.
  - apply has_key_true in Hhas as (q & Hq & Hqk).
    intros [(p & Hp & Hkp) | ->].
    + eexists. split; [apply list_elem_of_fmap; by exists p |].
      case_bool_decide; simpl; congruence.
    + eexists. split; [apply list_elem_of_fmap; by exists q |].
      by rewrite bool_decide_eq_true_2.
  - intros [(p & Hp & Hkp) | ->].
    + exists p. split; [apply elem_of_place; by right | done].
    + eexists. split; [apply elem_of_place; by left | done].
Qed.

Lemma set_property_last g b ps k x :
  set_property (g ++ [Obj (KPlain b) ps false]) (length g) k x =
  Ret (g ++ [Obj (KPlain b) (assign ps k x) false]).
Proof.
  unfold set_property. rewrite deref_alloc. simpl. f_equal.
  rewrite insert_app_r_alt by lia. by rewrite Nat.sub_diag.
Qed.

Lemma put_value_last g b ps k x :
  Forall (fun p => ∃ v, p_slot p = Data v) ps → (b = false → k ≠ PStr "__proto__") →
  put_value (g ++ [Obj (KPlain b) ps false]) (length g) k x =
  Ret (g ++ [Obj (KPlain b) (assign ps k x) false]).
Proof.
  intros Hdata Hk. rewrite put_value_plain.
  - apply set_property_last.
  - rewrite deref_alloc. by exists b.
  - rewrite deref_alloc. simpl. intros [= ->]. by apply Hk.
  - by rewrite deref_alloc.
  - by rewrite deref_alloc.
Qed.

Lemma own_of_data o ps : Forall (own_of o) ps → Forall (fun p => ∃ v, p_slot p = Data v) ps.
Proof.
  intros Hps. eapply Forall_impl; [exact Hps |]. intros p (name & v & -> & _). simpl. eauto.
Qed.

Lemma own_of_no_freeze o ps :
  (∀ p, p ∈ o_props o → p_key p ≠ PStr "freeze") → Forall (own_of o) ps →
  Forall (fun o' => ∀ p, p ∈ o_props o' → p_key p ≠ PStr "freeze") [Obj (KPlain false) ps false].
Proof.
  intros Hno Hps. apply Forall_singleton. simpl. intros p Hp.
  rewrite Forall_forall in Hps. destruct (Hps p Hp) as (name & v & -> & Hin & _).
  simpl. intros [= ->]. by eapply key_names_not_freeze.
Qed.

Lemma own_of_getters_safe o ps : Forall (own_of o) ps → Forall getters_safe [Obj (KPlain false) ps false].
Proof.
  intros Hps. apply Forall_singleton. unfold getters_safe. simpl.
  eapply Forall_impl; [exact Hps |]. by intros p (name & v & -> & _).
Qed.

Lemma read_values_cons o name names x :
  read_named o name = Ret x → read_values o (name :: names) = x :: read_values o names.
Proof. intros Hr. unfold read_values. simpl. by rewrite Hr. Qed.

Lemma freeze_values_spec call o record names : ∀ g ps,
  heap_closed g → no_custom_freeze_in g → record < length g →
  o_kind (deref g record) = o_kind o → o_props (deref g record) = o_props o →
  (∀ name, name ∈ names → name ∈ key_names o ∧ name ≠ "__proto__") →
  Forall (own_of o) ps →
  let h := g ++ [Obj (KPlain false) ps false] in
  freeze_values call record (length g) names h ≠ OutOfFuel ∧
  (Forall getters_safe g → ∃ h', freeze_values call record (length g) names h = Ret h') ∧
  ∀ h', freeze_values call record (length g) names h = Ret h' →
    ∃ g' ps', h' = g' ++ [Obj (KPlain false) ps' false] ∧
      frozen_from g (refs (read_values o names)) g' ∧
      Forall (own_of o) ps' ∧
      ∀ k, (∃ p, p ∈ ps ∧ p_key p = k) ∨ (∃ name, name ∈ names ∧ k = PStr name) →
           ∃ p, p ∈ ps' ∧ p_key p = k.
Proof.
  induction names as [| name names IH]; intros g ps Hc Hno Hrec Hk Hp Hnames Hps h.
  - simpl. split; [done |]. split; [by eexists |]. intros h' [= <-].
    exists g, ps. split; [done |]. split; [apply frozen_from_refl |]. split; [done |].
    intros k [? | (name & Hn & _)]; [done | by apply elem_of_nil in Hn].
  - assert (name ∈ key_names o ∧ name ≠ "__proto__") as [Hname Hnp] by (apply Hnames; by left).
    assert (∀ p, p ∈ o_props o → p_key p ≠ PStr "freeze") as Hno_o.
    { intros p Hin. rewrite <- Hp in Hin. by eapply Hno. }
    assert (no_custom_freeze_in h) as Hno'.
    { apply no_custom_freeze_app; [done | by apply (own_of_no_freeze o)]. }
    assert (get_named h record name = read_named o name) as Hget.
    { rewrite get_named_read; unfold h; rewrite deref_app_l by done.
      - by apply read_named_ext.
      - by rewrite (key_names_ext o). }
    cbn [freeze_values]. rewrite Hget.
    destruct (read_named o name) as [x | e |] eqn:Hread; cbn [bind].
    2: { split; [done |]. split; [| done]. intros Hsafe.
         destruct (read_named_safe (deref g record) name) as [y Hy]; [by apply deref_safe |].
         rewrite (read_named_ext o) in Hy by done. congruence. }
    2: { by apply read_named_fuel in Hread. }
    assert (source_value g x) as Hx.
    { apply (read_named_source g record name); [done |]. by rewrite (read_named_ext o). }
    destruct (freeze_plain_returns call h x Hno') as [Hfuel Hret].
    assert (∀ r h1, freeze call x h = Ret (r, h1) →
              ∃ g1, r = x ∧ h1 = g1 ++ [Obj (KPlain false) ps false] ∧
                    frozen_from g (refs [x]) g1 ∧ length g1 = length g ∧
                    heap_closed g1 ∧ no_custom_freeze_in g1 ∧
                    o_kind (deref g1 record) = o_kind o ∧
                    o_props (deref g1 record) = o_props o) as Hstep.
    { intros r h1 Hfr.
      destruct (freeze_prefix call g _ x r h1 Hc Hx Hno' Hfr) as (-> & g1 & -> & Hff).
      exists g1. destruct Hff as [Hfo Hiff].
      split; [done |]. split; [done |]. split; [done |]. split; [apply Hfo |].
      split; [by eapply freezes_only_closed |]. split; [by eapply freezes_only_no_freeze |].
      destruct Hfo as [_ Hd]. destruct (Hd record) as (Hk1 & Hp1 & _).
      split; congruence. }
    assert (∀ g1, length g1 = length g →
              put_value (g1 ++ [Obj (KPlain false) ps false]) (length g) (PStr name) x =
              Ret (g1 ++ [Obj (KPlain false) (assign ps (PStr name) x) false])) as Hset.
    { intros g1 <-. apply put_value_last; [by eapply own_of_data |]. intros _ [= ->]. done. }
    pose proof (assign_own_of o ps name x Hps Hname Hread) as Hps'.
    assert (∀ nm, nm ∈ names → nm ∈ key_names o ∧ nm ≠ "__proto__") as Hnames'.
    { intros nm Hnm. apply Hnames. by right. }
    assert (refs (read_values o (name :: names)) = refs [x] ++ refs (read_values o names))
      as Hroots.
    { rewrite (read_values_cons o name names x Hread). apply refs_cons_app. }
    rewrite Hroots. clear Hroots.
    split; [| split].
    + destruct (freeze call x h) as [[r h1] | e |] eqn:Hfr; simpl; try done.
      destruct (Hstep r h1 eq_refl) as (g1 & -> & -> & Hff & Hlen & Hc1 & Hno1 & Hk1 & Hp1).
      simpl. rewrite Hset by done. simpl. rewrite <- Hlen.
      apply (IH g1 (assign ps (PStr name) x)); try done. lia.
    + intros Hsafe. destruct Hret as [h1 Hfr].
      { apply getters_safe_app; [done | by eapply own_of_getters_safe]. }
      rewrite Hfr. destruct (Hstep x h1 Hfr) as (g1 & _ & -> & Hff & Hlen & Hc1 & Hno1 & Hk1 & Hp1).
      simpl. rewrite Hset by done. simpl. rewrite <- Hlen.
      apply (IH g1 (assign ps (PStr name) x)); try done; [lia |].
      eapply freezes_only_getters; [apply Hff | done].
    + intros h'. destruct (freeze call x h) as [[r h1] | e |] eqn:Hfr; simpl; try done.
      destruct (Hstep r h1 eq_refl) as (g1 & -> & -> & Hff & Hlen & Hc1 & Hno1 & Hk1 & Hp1).
      simpl. rewrite Hset by done. simpl. rewrite <- Hlen. intros Hrest.
      destruct (IH g1 (assign ps (PStr name) x)) as (_ & _ & Hspec); try done; [lia |].
      destruct (Hspec h' Hrest) as (g' & ps' & -> & Hff' & Hown & Hkeys).
      exists g', ps'. split; [done |]. split; [| split; [done |]].
      * exact (frozen_from_seq _ _ _ _ _ Hff Hff').
      * intros k Hk'. apply Hkeys.
        destruct Hk' as [(p & Hin & Hkp) | (nm & [-> | Hnm]%elem_of_cons & ->)].
        -- left. apply assign_keys. left. by exists p.
        -- left. apply assign_keys. by right.
        -- right. by exists nm.
Qed.

Lemma elem_of_read_values o names name v :
  name ∈ names → read_named o name = Ret v → v ∈ read_values o names.
Proof.
  intros Hin Hr. unfold read_values. apply list_elem_of_omap. exists name. by rewrite Hr.
Qed.

Lemma elem_of_refs l vs : l ∈ refs vs ↔ VRef l ∈ vs.
Proof.
  unfold refs. rewrite list_elem_of_omap. split.
  - intros (v & Hv & Hl). destruct v; try done. by injection Hl as ->.
  - intros Hv. by exists (VRef l).
Qed.

(** Whatever is among the roots is frozen at the top level afterwards. *)
Lemma frozen_from_root h roots g' ext v :
  frozen_from h roots g' → source_value h v → (∀ l, v = VRef l → l ∈ roots) →
  isShallowFrozen (g' ++ ext) v = true.
Proof.
  intros [[Hlen _] Hiff] Hsrc Hroot. destruct v as [| | | | | | | l]; try done.
  simpl in *. rewrite deref_app_l by lia. apply Hiff.
  destruct (o_frozen (deref h l)) eqn:Hf; [by left | right].
  exists l. split; [by apply Hroot | by apply thaw_here].
Qed.

(** X9: [freezeRecord] on a store without dangling reference and without
    custom freeze, for an argument that does not list [__proto__] among
    its keys (assigned to the new record, that name would reach the
    inherited setter instead of making a property): it comes back (with a
    result as soon as no getter throws) and returns a new plain record,
    itself not frozen, whose
    properties are exactly the names [Object.keys] lists for the argument,
    each an enumerable data property that holds the very value the
    argument reads under that name, frozen at the top level; in the store
    exactly that is frozen which was frozen before or which the walk of
    [freeze] reaches from one of these values, so the argument itself
    stays as it was unless one of its values leads back to it. *)
Theorem freezeRecord_freezes_values call record h :
  heap_closed h → no_custom_freeze_in h → record < length h →
  "__proto__" ∉ key_names (deref h record) →
  let o := deref h record in
  freezeRecord call record h ≠ OutOfFuel ∧
  (Forall getters_safe h → ∃ h', freezeRecord call record h = Ret (VRef (length h), h')) ∧
  ∀ r h', freezeRecord call record h = Ret (r, h') →
    r = VRef (length h) ∧
    ∃ g' ps, h' = g' ++ [Obj (KPlain false) ps false] ∧
      frozen_from h (refs (read_values o (key_names o))) g' ∧
      (∀ name, name ∈ key_names o →
         ∃ v, read_named o name = Ret v ∧
              own_property (Obj (KPlain false) ps false) (PStr name) = Some (data name v) ∧
              isShallowFrozen h' v = true) ∧
      (∀ p, p ∈ ps → ∃ name, name ∈ key_names o ∧ p_key p = PStr name).
Proof.
  intros Hc Hno Hrec Hnp o. unfold freezeRecord, alloc, fresh. simpl.
  rewrite deref_app_l by done. fold o.
  destruct (freeze_values_spec call o record (key_names o) h [] Hc Hno Hrec eq_refl eq_refl)
    as (Hfuel & Hret & Hspec); [| constructor |].
  { intros name Hname. split; [done |]. intros ->. done. }
  simpl in Hfuel, Hret, Hspec. split; [| split].
  - by destruct (freeze_values call record (length h) (key_names o) _).
  - intros Hs. destruct (Hret Hs) as [h' ->]. by eexists.
  - intros r h'.
    destruct (freeze_values call record (length h) (key_names o) _) as [h1 | e |] eqn:Hl;
      simpl; try done.
    intros [= <- <-]. split; [done |].
    destruct (Hspec h1 eq_refl) as (g' & ps' & -> & Hff & Hown & Hkeys).
    exists g', ps'. split; [done |]. split; [done |].
    rewrite Forall_forall in Hown. split.
    + intros name Hname.
      destruct (Hkeys (PStr name)) as (p & Hp & Hk); [right; by exists name |].
      destruct (own_property_some (Obj (KPlain false) ps' false) (PStr name) p Hp Hk) as [q Hq].
      pose proof (own_property_elem _ _ _ Hq) as [Hqin Hqk]. simpl in Hqin.
      destruct (Hown q Hqin) as (n & v & -> & Hn & Hr). simpl in Hqk. injection Hqk as ->.
      exists v. split; [done |]. split; [done |].
      eapply frozen_from_root; [done | by eapply read_named_source |].
      intros l ->. apply elem_of_refs. by eapply elem_of_read_values.
    + intros p Hp. destruct (Hown p Hp) as (n & v & -> & Hn & _). by exists n.
Qed.

Lemma freezeRecord_witness :
  ∃ g' ps,
    freezeRecord no_custom_freeze 0 nested_source =
      Ret (VRef 2, g' ++ [Obj (KPlain false) ps false]) ∧
    own_property (Obj (KPlain false) ps false) (PStr "nested") = Some (data "nested" (VRef 1)) ∧
    isShallowFrozen (g' ++ [Obj (KPlain false) ps false]) (VRef 1) = true.
Proof.
  destruct (freezeRecord_freezes_values no_custom_freeze 0 nested_source
              nested_source_closed nested_source_no_custom_freeze) as (_ & Hret & Hspec).
  { simpl. lia. }
  { vm_compute. intros H. repeat (apply elem_of_cons in H as [H | H]; [discriminate H |]).
    by apply elem_of_nil in H. }
  destruct Hret as [h' Hfr].
  { repeat constructor; done. }
  destruct (Hspec _ _ Hfr) as (_ & g' & ps & Heq & _ & Hnames & _).
  exists g', ps. rewrite <- Heq. split; [exact Hfr |].
  destruct (Hnames "nested") as (v & Hv & Hown & Hsh).
  { vm_compute. right. left. }
  vm_compute in Hv. injection Hv as <-. split; [exact Hown | exact Hsh].
Defined.

(** ** [freeze] of a container that has just been built *)

Lemma elem_of_containers h vs l :
  l ∈ containers h vs ↔ VRef l ∈ vs ∧ is_function h l = false.
Proof. unfold containers. rewrite list_elem_of_filter, elem_of_refs. tauto. Qed.

Lemma is_function_app h ext l : l < length h → is_function (h ++ ext) l = is_function h l.
Proof. intros Hl. unfold is_function. by rewrite deref_app_l. Qed.

Lemma scheduled_values_source o v :
  v ∈ scheduled_values o → v ∈ object_values o.
Proof.
  unfold scheduled_values, object_values. intros Hv. apply elem_of_app.
  destruct (o_kind o); simpl; try (by left); try (by apply elem_of_nil in Hv); right.
  - apply elem_of_flat_slot_values in Hv as (p & [Hp | Hp]%elem_of_app & Hx);
      apply elem_of_flat_slot_values; exists p; (split; [| done]);
      [unfold Object_getOwnPropertyNames in Hp | unfold Object_getOwnPropertySymbols in Hp];
      by apply list_elem_of_filter in Hp as [_ Hp].
  - apply elem_of_flat_slot_values in Hv as (p & [Hp | Hp]%elem_of_app & Hx);
      apply elem_of_flat_slot_values; exists p; (split; [| done]);
      [unfold Object_keys in Hp | unfold Object_getOwnPropertySymbols in Hp];
      by apply list_elem_of_filter in Hp as [_ Hp].
  - apply elem_of_flat_slot_values in Hv as (p & [Hp | Hp]%elem_of_app & Hx);
      apply elem_of_flat_slot_values; exists p; (split; [| done]);
      [unfold Object_getOwnPropertyNames in Hp | unfold Object_getOwnPropertySymbols in Hp];
      by apply list_elem_of_filter in Hp as [_ Hp].
Qed.

Lemma thaw_path_inv h a x :
  thaw_path h a x → x = a ∨ ∃ c, scheduled h a c ∧ thaw_path h c x.
Proof. intros Hp. inversion Hp; subst; [by left | right; eauto]. Qed.

(** The new container at the end of a closed store: [freeze] marks it,
    and walks the store from the containers it holds. *)
Lemma freeze_fresh call h o r h' :
  heap_closed h → Forall (source_value h) (object_values o) → o_frozen o = false →
  (is_plain o → getters_safe o) →
  isFreezable (h ++ [o]) (VRef (length h)) = Ret false →
  freeze call (VRef (length h)) (h ++ [o]) = Ret (r, h') →
  r = VRef (length h) ∧
  ∃ g', h' = g' ++ [freeze_object o] ∧
        frozen_from h (containers h (scheduled_values o)) g'.
Proof.
  intros Hc Hsrc Hfo Hsafe Hz Hfr. set (a := length h) in *.
  assert (o_frozen (deref (h ++ [o]) a) = false) as Hf by by rewrite deref_alloc.
  destruct (freeze_traversal_spec call a _ r h' Hf Hz Hfr) as (-> & [Hlen Hd] & Hiff).
  split; [done |]. rewrite length_app in Hlen. simpl in Hlen.
  assert (∀ x, thaw_path (h ++ [o]) a x ↔
               x = a ∨ ∃ c, c ∈ containers h (scheduled_values o) ∧ thaw_path h c x) as Hpath.
  { intros x.
    assert (∀ c, scheduled (h ++ [o]) a c ↔ c ∈ containers h (scheduled_values o) ∧ c < a)
      as Hsch.
    { intros c. rewrite scheduled_iff by by rewrite deref_alloc.
      rewrite deref_alloc, elem_of_containers. split.
      - intros [Hv Hnf].
        assert (c < a) as Hca.
        { rewrite Forall_forall in Hsrc. by apply (Hsrc (VRef c)), scheduled_values_source. }
        by rewrite is_function_app in Hnf.
      - intros [[Hv Hnf] Hca]. by rewrite is_function_app. }
    split.
    - intros [-> | (c & [Hcs Hca]%Hsch & Hp)]%thaw_path_inv; [by left | right].
      exists c. split; [done |]. by apply thaw_path_frame in Hp.
    - intros [-> | (c & Hcs & Hp)]; [by apply thaw_here |].
      assert (c < a) as Hca.
      { apply elem_of_containers in Hcs as [Hv _]. rewrite Forall_forall in Hsrc.
        by apply (Hsrc (VRef c)), scheduled_values_source. }
      eapply thaw_step; [done | by apply Hsch | by apply thaw_path_frame]. }
  assert (deref h' a = freeze_object o) as Hnew.
  { destruct (Hd a) as (Hk & Hp & _). rewrite deref_alloc in Hk, Hp.
    assert (o_frozen (deref h' a) = true) as Hfa by (apply Hiff; right; by apply thaw_here).
    unfold freeze_object. destruct (deref h' a); simpl in *. by subst. }
  assert (h' = take a h' ++ [freeze_object o]) as Heq.
  { rewrite <- (take_drop a h') at 1. f_equal.
    apply heap_ext; [rewrite length_drop; simpl; lia |].
    intros x Hx. rewrite length_drop in Hx. assert (x = 0) as -> by lia.
    assert (deref (drop a h') 0 = deref h' (a + 0)) as -> by (unfold deref; by rewrite lookup_drop).
    by rewrite Nat.add_0_r. }
  exists (take a h'). split; [done |].
  assert (length (take a h') = a) as Hlen' by (rewrite length_take; lia).
  assert (∀ x, x < a → deref (take a h') x = deref h' x) as Hin.
  { intros x Hx. rewrite Heq at 2. by rewrite deref_app_l by lia. }
  split; [split; [done |] |].
  - intros x. destruct (decide (x < a)) as [Hx | Hx].
    + rewrite Hin by done. destruct (Hd x) as (Hk & Hp & Hfz).
      by rewrite deref_app_l in Hk, Hp, Hfz by done.
    + by rewrite !deref_dangling by lia.
  - intros x. destruct (decide (x < a)) as [Hx | Hx].
    + rewrite Hin by done. rewrite Hiff, Hpath, deref_app_l by done.
      split; [intros [? | [-> | ?]]; [by left | lia | by right] |].
      intros [? | ?]; [by left | right; by right].
    + rewrite !deref_dangling by lia. split; [by left | done].
Qed.

Lemma freeze_fresh_returns call h o :
  o_frozen o = false →
  isFreezable (h ++ [o]) (VRef (length h)) = Ret false →
  freeze call (VRef (length h)) (h ++ [o]) ≠ OutOfFuel ∧
  (Forall getters_safe h → getters_safe o →
   ∃ h', freeze call (VRef (length h)) (h ++ [o]) = Ret (VRef (length h), h')).
Proof.
  intros Hfo Hz.
  assert (o_frozen (deref (h ++ [o]) (length h)) = false) as Hf by by rewrite deref_alloc.
  destruct (freeze_traversal_returns call _ _ Hf Hz) as [Hfuel Hret].
  split; [done |]. intros Hs Ho. apply Hret, Forall_app. split; [done |].
  by apply Forall_singleton.
Qed.

(** A container without properties and with a built-in prototype has no
    custom freeze. *)
Lemma propless_not_freezable h o :
  o_props o = [] → (∀ p, o_kind o ≠ KCustom p) → o_kind o ≠ KFunction →
  isFreezable (h ++ [o]) (VRef (length h)) = Ret false.
Proof.
  intros Hp Hk Hfun. unfold isFreezable, has_property, typeof, is_function.
  rewrite deref_alloc. simpl.
  assert (own_property (deref (h ++ [o]) (length h)) (PStr "freeze") = None) as ->.
  { rewrite deref_alloc. unfold own_property. by rewrite Hp. }
  rewrite deref_alloc.
  destruct (o_kind o) eqn:Hkind; try done; try by case_bool_decide. by destruct (Hk proto).
Qed.

Lemma builtin_not_freezable h k :
  (∀ p, k ≠ KCustom p) → k ≠ KFunction →
  isFreezable (h ++ [fresh k]) (VRef (length h)) = Ret false.
Proof. intros. by apply propless_not_freezable. Qed.

(** ** The array builders *)

Import builders.

(** X10: the array builders [frozenArray], [frozenArrayOf], [frozenTuple]
    and [frozenPair] are one function of the items.  On a store without
    dangling reference it comes back (with a result as soon as no getter
    throws) and returns a new array that holds the items themselves, in
    order, is frozen and rejects writes; the items are not copied: every
    item that is an object other than a function is frozen in place, and
    in the store exactly that is frozen which was frozen before or which
    the walk of [freeze] reaches from such an item.  A custom freeze of an
    item is never invoked. *)
Theorem array_builders_freeze_items call items h :
  heap_closed h → Forall (source_value h) items →
  frozenArray call items h = frozenArrayOf call items h ∧
  frozenTuple call items h = frozenArrayOf call items h ∧
  (∀ first second, items = [first; second] →
     frozenPair call first second h = frozenArrayOf call items h) ∧
  frozenArrayOf call items h ≠ OutOfFuel ∧
  (Forall getters_safe h → ∃ h', frozenArrayOf call items h = Ret (VRef (length h), h')) ∧
  ∀ r h', frozenArrayOf call items h = Ret (r, h') →
    r = VRef (length h) ∧
    ∃ g', h' = g' ++ [Obj (KArray items) [] true] ∧
          frozen_from h (containers h items) g' ∧
          rejects_writes h' (length h) ∧
          ∀ l, VRef l ∈ items → is_function h l = false → o_frozen (deref h' l) = true.
Proof.
  intros Hc Hsrc. split; [done |]. split; [done |]. split; [by intros ? ? -> |].
  unfold frozenArrayOf, alloc. simpl.
  pose proof (builtin_not_freezable h (KArray items)) as Hz.
  destruct (freeze_fresh_returns call h (fresh (KArray items)) eq_refl) as [Hfuel Hret];
    [by apply Hz |].
  split; [done |]. split.
  - intros Hs. apply Hret; [done |]. unfold getters_safe. simpl. constructor.
  - intros r h' Hfr.
    destruct (freeze_fresh call h (fresh (KArray items)) r h' Hc) as (-> & g' & -> & Hff);
      try done.
    { unfold object_values. simpl. by rewrite app_nil_r. }
    { by intros [b Hb]. }
    { by apply Hz. }
    split; [done |]. exists g'. split; [done |]. split; [done |].
    destruct Hff as [[Hlen _] Hiff]. split.
    + apply frozen_rejects_writes. by rewrite <- Hlen, deref_alloc.
    + intros l Hl Hnf. rewrite Forall_forall in Hsrc. specialize (Hsrc _ Hl). simpl in Hsrc.
      rewrite deref_app_l by lia. apply Hiff.
      destruct (o_frozen (deref h l)) eqn:Hf; [by left | right].
      exists l. split; [by apply elem_of_containers | by apply thaw_here].
Qed.

Lemma array_builders_witness :
  ∃ g', frozenArrayOf no_custom_freeze [VRef 1; VNumber 7] nested_source =
          Ret (VRef 2, g' ++ [Obj (KArray [VRef 1; VNumber 7]) [] true]) ∧
        o_frozen (deref (g' ++ [Obj (KArray [VRef 1; VNumber 7]) [] true]) 1) = true.
Proof.
  destruct (array_builders_freeze_items no_custom_freeze [VRef 1; VNumber 7] nested_source
              nested_source_closed) as (_ & _ & _ & _ & Hret & Hspec).
  { repeat constructor. }
  destruct Hret as [h' Hfa].
  { repeat constructor; done. }
  destruct (Hspec _ _ Hfa) as (_ & g' & Heq & _ & _ & Hitems).
  exists g'. rewrite <- Heq. split; [exact Hfa |].
  apply Hitems; [left | reflexivity].
Defined.

Import builders.

(** ** The set builders *)

Lemma Set_add_last g ms ps f x :
  Set_add (g ++ [Obj (KSet ms) ps f]) (length g) x = g ++ [Obj (KSet (add_member ms x)) ps f].
Proof.
  unfold Set_add, add_member. rewrite deref_alloc. simpl. case_bool_decide; [done |].
  rewrite insert_app_r_alt by lia. by rewrite Nat.sub_diag.
Qed.

Lemma fold_Set_add g ms ps f items :
  foldl (fun h x => Set_add h (length g) x) (g ++ [Obj (KSet ms) ps f]) items =
  g ++ [Obj (KSet (foldl add_member ms items)) ps f].
Proof.
  revert ms. induction items as [| x items IH]; intros ms; simpl; [done |].
  by rewrite Set_add_last, IH.
Qed.

Lemma new_Set_spec items h :
  new_Set items h = (length h, h ++ [Obj (KSet (distinct items)) [] false]).
Proof. unfold new_Set, alloc, fresh, distinct. simpl. by rewrite fold_Set_add. Qed.

Lemma add_member_elem ms x y : y ∈ add_member ms x ↔ y ∈ ms ∨ y = x.
Proof.
  unfold add_member. case_bool_decide.
  - split; [by left | by intros [? | ->]].
  - rewrite elem_of_app, list_elem_of_singleton. tauto.
Qed.

Lemma add_member_NoDup ms x : NoDup ms → NoDup (add_member ms x).
Proof.
  intros Hnd. unfold add_member. case_bool_decide; [done |].
  apply NoDup_app. split; [done |]. split; [| apply NoDup_singleton].
  intros y Hy ->%list_elem_of_singleton. done.
Qed.

Lemma fold_add_member ms items :
  NoDup ms →
  NoDup (foldl add_member ms items) ∧
  ∀ y, y ∈ foldl add_member ms items ↔ y ∈ ms ∨ y ∈ items.
Proof.
  revert ms. induction items as [| x items IH]; intros ms Hnd; simpl.
  - split; [done |]. intros y. rewrite elem_of_nil. tauto.
  - destruct (IH (add_member ms x) (add_member_NoDup ms x Hnd)) as [Hnd' Hiff].
    split; [done |]. intros y. rewrite Hiff, add_member_elem, elem_of_cons. tauto.
Qed.

Lemma distinct_spec items :
  NoDup (distinct items) ∧ ∀ y, y ∈ distinct items ↔ y ∈ items.
Proof.
  destruct (fold_add_member [] items (NoDup_nil_2)) as [Hnd Hiff].
  split; [done |]. intros y. rewrite (Hiff y), elem_of_nil. tauto.
Qed.

Lemma containers_source h vs :
  Forall (source_value h) vs → ∀ l, l ∈ containers h vs → l < length h.
Proof.
  intros Hsrc l [Hl _]%elem_of_containers. rewrite Forall_forall in Hsrc.
  by apply (Hsrc (VRef l)).
Qed.

(** X11: the set builders [frozenSet] and [frozenSetOf] are one function
    of the items.  On a store without dangling reference it comes back
    (with a result as soon as no getter throws) and returns a new frozen
    set whose members are the distinct items, each once; every item that
    is an object other than a function is frozen in place, and the store
    is otherwise frozen exactly as far as the walk of [freeze] reaches
    from them.  The frozen flag does not protect the members: a later
    [add] of a new item still succeeds and extends the set. *)
Theorem set_builders_freeze_members call items h :
  heap_closed h → Forall (source_value h) items →
  frozenSetOf call items h = frozenSet call items h ∧
  frozenSet call items h ≠ OutOfFuel ∧
  (Forall getters_safe h → ∃ h', frozenSet call items h = Ret (VRef (length h), h')) ∧
  ∀ r h', frozenSet call items h = Ret (r, h') →
    r = VRef (length h) ∧
    ∃ g', h' = g' ++ [Obj (KSet (distinct items)) [] true] ∧
          NoDup (distinct items) ∧ (∀ x, x ∈ distinct items ↔ x ∈ items) ∧
          frozen_from h (containers h items) g' ∧
          (∀ l, VRef l ∈ items → is_function h l = false → o_frozen (deref h' l) = true) ∧
          (∀ x, x ∉ items →
                Set_add h' (length h) x = g' ++ [Obj (KSet (distinct items ++ [x])) [] true]).
Proof.
  intros Hc Hsrc. split; [done |].
  unfold frozenSet. rewrite new_Set_spec. simpl.
  destruct (distinct_spec items) as [Hnd Hmem].
  assert (isFreezable (h ++ [Obj (KSet (distinct items)) [] false]) (VRef (length h)) = Ret false)
    as Hz.
  { by apply propless_not_freezable. }
  destruct (freeze_fresh_returns call h (Obj (KSet (distinct items)) [] false) eq_refl Hz)
    as [Hfuel Hret].
  split; [done |]. split.
  - intros Hs. apply Hret; [done |]. unfold getters_safe. simpl. constructor.
  - intros r h' Hfr.
    destruct (freeze_fresh call h (Obj (KSet (distinct items)) [] false) r h' Hc)
      as (-> & g' & -> & Hff); try done.
    { unfold object_values. simpl. rewrite app_nil_r.
      rewrite Forall_forall in *. intros x Hx. by apply Hsrc, Hmem. }
    { by intros [b Hb]. }
    split; [done |]. exists g'. split; [done |]. split; [done |]. split; [done |].
    assert (frozen_from h (containers h items) g') as Hff'.
    { eapply frozen_from_roots; [| | exact Hff]; simpl; intros l Hl _;
        apply elem_of_containers in Hl as [Hl ?]; apply elem_of_containers;
        (split; [by apply Hmem | done]). }
    split; [done |]. destruct Hff' as [[Hlen _] Hiff]. split.
    + intros l Hl Hnf. rewrite Forall_forall in Hsrc. specialize (Hsrc _ Hl). simpl in Hsrc.
      rewrite deref_app_l by lia. apply Hiff.
      destruct (o_frozen (deref h l)) eqn:Hf; [by left | right].
      exists l. split; [by apply elem_of_containers | by apply thaw_here].
    + intros x Hx. unfold freeze_object. simpl. rewrite <- Hlen, Set_add_last.
      unfold add_member.
      rewrite bool_decide_eq_false_2; [done |]. by rewrite Hmem.
Qed.

Lemma set_builders_witness :
  ∃ g', frozenSet no_custom_freeze [VRef 1; VNumber 7; VRef 1] nested_source =
          Ret (VRef 2, g' ++ [Obj (KSet [VRef 1; VNumber 7]) [] true]) ∧
        o_frozen (deref (g' ++ [Obj (KSet [VRef 1; VNumber 7]) [] true]) 1) = true.
Proof.
  destruct (set_builders_freeze_members no_custom_freeze [VRef 1; VNumber 7; VRef 1]
              nested_source nested_source_closed) as (_ & _ & Hret & Hspec).
  { repeat constructor. }
  destruct Hret as [h' Hfa].
  { repeat constructor; done. }
  destruct (Hspec _ _ Hfa) as (_ & g' & Heq & _ & _ & _ & Hitems & _).
  exists g'. change [VRef 1; VNumber 7] with (distinct [VRef 1; VNumber 7; VRef 1]).
  rewrite <- Heq. split; [exact Hfa |].
  apply Hitems; [left | reflexivity].
Defined.

Import builders.

(** ** The map builders *)

Lemma Map_set_last g es ps f k x :
  Map_set (g ++ [Obj (KMap es) ps f]) (length g) k x =
  g ++ [Obj (KMap (map_store es k x)) ps f].
Proof.
  unfold Map_set. rewrite deref_alloc. simpl.
  rewrite insert_app_r_alt by lia. by rewrite Nat.sub_diag.
Qed.

Lemma fold_Map_set g es ps f entries :
  foldl (fun h e => Map_set h (length g) e.1 e.2) (g ++ [Obj (KMap es) ps f]) entries =
  g ++ [Obj (KMap (foldl (fun es e => map_store es e.1 e.2) es entries)) ps f].
Proof.
  revert es. induction entries as [| e entries IH]; intros es; simpl; [done |].
  by rewrite Map_set_last, IH.
Qed.

Lemma new_Map_spec entries h :
  new_Map entries h = (length h, h ++ [Obj (KMap (entries_of entries)) [] false]).
Proof. unfold new_Map, alloc, fresh, entries_of. simpl. by rewrite fold_Map_set. Qed.

Lemma map_store_elem es k x k' x' :
  NoDup (map fst es) →
  (k', x') ∈ map_store es k x ↔ (k' = k ∧ x' = x) ∨ (k' ≠ k ∧ (k', x') ∈ es).
Proof.
  induction es as [| [k0 x0] es IH]; simpl; intros Hnd.
  - rewrite list_elem_of_singleton, elem_of_nil. split; [intros [= -> ->]; by left |].
    intros [[-> ->] | [_ []]]. done.
  - apply NoDup_cons in Hnd as [Hk0 Hnd]. case_bool_decide as Hk; simpl in Hk.
    + subst k0. rewrite !elem_of_cons. split.
      * intros [[= -> ->] | Hin]; [by left | right]. split; [| by right].
        intros ->. apply Hk0. apply list_elem_of_fmap. by exists (k, x').
      * intros [[-> ->] | [Hne [[= -> ->] | Hin]]]; [by left | done | by right].
    + rewrite !elem_of_cons, IH by done. split.
      * intros [[= -> ->] | [[-> ->] | [Hne Hin]]]; [right | by left | right].
        -- split; [done | by left].
        -- split; [done | by right].
      * intros [[-> ->] | [Hne [[= -> ->] | Hin]]]; [right; by left | by left |].
        right. right. done.
Qed.

Lemma map_store_keys es k x k' :
  k' ∈ map fst (map_store es k x) ↔ k' = k ∨ k' ∈ map fst es.
Proof.
  induction es as [| [k0 x0] es IH]; simpl.
  - rewrite list_elem_of_singleton, elem_of_nil. tauto.
  - case_bool_decide as Hk; simpl in *.
    + subst k0. rewrite !elem_of_cons. tauto.
    + rewrite !elem_of_cons, IH. tauto.
Qed.

Lemma map_store_NoDup es k x : NoDup (map fst es) → NoDup (map fst (map_store es k x)).
Proof.
  induction es as [| [k0 x0] es IH]; simpl; intros Hnd.
  - apply NoDup_singleton.
  - apply NoDup_cons in Hnd as [Hk0 Hnd]. case_bool_decide as Hk; simpl in *.
    + subst k0. by apply NoDup_cons.
    + apply NoDup_cons. split; [| by apply IH].
      rewrite map_store_keys. intros [-> | ?]; done.
Qed.

Lemma bound_snoc {K} `{EqDecision K} (entries : list (K * value)) e k :
  bound (entries ++ [e]) k = if bool_decide (fst e = k) then Some (snd e) else bound entries k.
Proof. unfold bound. rewrite reverse_snoc. simpl. by case_bool_decide. Qed.

Lemma bound_elem {K} `{EqDecision K} (entries : list (K * value)) k x :
  bound entries k = Some x → (k, x) ∈ entries.
Proof.
  unfold bound. destruct (List.find _ (reverse entries)) as [[k' x'] |] eqn:Hf; [| done].
  simpl. intros [= <-]. apply find_some in Hf as [Hin Hk]. simpl in Hk.
  apply bool_decide_eq_true in Hk as <-. by apply elem_of_reverse, list_elem_of_In.
Qed.

Lemma bound_some {K} `{EqDecision K} (entries : list (K * value)) k :
  k ∈ map fst entries → is_Some (bound entries k).
Proof.
  intros ([k' x] & -> & Hin)%list_elem_of_fmap. unfold bound.
  destruct (List.find (fun e => bool_decide (e.1 = (k', x).1)) (reverse entries)) as [e |] eqn:Hf;
    [by eexists |].
  exfalso. eapply find_none in Hf; [| by apply list_elem_of_In, elem_of_reverse].
  simpl in Hf. by rewrite bool_decide_eq_true_2 in Hf.
Qed.

Lemma entries_of_snoc entries e :
  entries_of (entries ++ [e]) = map_store (entries_of entries) e.1 e.2.
Proof. unfold entries_of. by rewrite foldl_snoc. Qed.

Lemma entries_of_spec entries :
  NoDup (map fst (entries_of entries)) ∧
  ∀ k x, (k, x) ∈ entries_of entries ↔ bound entries k = Some x.
Proof.
  induction entries as [| e entries [Hnd Hiff]] using rev_ind.
  - split; [apply NoDup_nil_2 |]. intros k x. by rewrite elem_of_nil.
  - rewrite entries_of_snoc. split; [by apply map_store_NoDup |].
    intros k x. rewrite map_store_elem, bound_snoc, Hiff by done.
    case_bool_decide as Hk.
    + split; [intros [[_ ->] | [? _]]; [done | congruence] |].
      intros [= ->]. by left.
    + split; [intros [[? _] | [_ ?]]; [congruence | done] |].
      intros Hb. right. split; [congruence | done].
Qed.

Lemma key_then_value_elem es v :
  v ∈ key_then_value es ↔ ∃ e, e ∈ es ∧ (v = e.1 ∨ v = e.2).
Proof.
  unfold key_then_value. rewrite list_elem_of_In, in_flat_map. split.
  - intros (e & He & Hv). exists e. split; [by apply list_elem_of_In |].
    simpl in Hv. destruct Hv as [<- | [<- | []]]; auto.
  - intros (e & He & Hv). exists e. split; [by apply list_elem_of_In |].
    simpl. destruct Hv as [-> | ->]; auto.
Qed.

Lemma entries_of_values entries v :
  v ∈ key_then_value (entries_of entries) → v ∈ key_then_value entries.
Proof.
  rewrite !key_then_value_elem. intros ([k x] & He & Hv).
  apply entries_of_spec, bound_elem in He. by exists (k, x).
Qed.

(** X12: [frozenMap] on a store without dangling reference comes back
    (with a result as soon as no getter throws) and returns a new frozen
    map with one entry per distinct key, carrying the value of the last
    entry given under that key; the keys and values in the map that are
    objects other than functions are frozen in place, and the store is
    otherwise frozen exactly as far as the walk of [freeze] reaches from
    them, so a value that a later entry replaced is not frozen on that
    account.  The frozen flag does not protect the entries: a later [set]
    still succeeds and stores its entry. *)
Theorem frozenMap_freezes_entries call entries h :
  heap_closed h → Forall (source_value h) (key_then_value entries) →
  frozenMap call entries h ≠ OutOfFuel ∧
  (Forall getters_safe h → ∃ h', frozenMap call entries h = Ret (VRef (length h), h')) ∧
  ∀ r h', frozenMap call entries h = Ret (r, h') →
    r = VRef (length h) ∧
    ∃ g', h' = g' ++ [Obj (KMap (entries_of entries)) [] true] ∧
          NoDup (map fst (entries_of entries)) ∧
          (∀ k x, (k, x) ∈ entries_of entries ↔ bound entries k = Some x) ∧
          frozen_from h (containers h (key_then_value (entries_of entries))) g' ∧
          (∀ k x, Map_set h' (length h) k x =
                  g' ++ [Obj (KMap (map_store (entries_of entries) k x)) [] true]).
Proof.
  intros Hc Hsrc. unfold frozenMap. rewrite new_Map_spec. simpl.
  destruct (entries_of_spec entries) as [Hnd Hmem].
  assert (isFreezable (h ++ [Obj (KMap (entries_of entries)) [] false]) (VRef (length h))
          = Ret false) as Hz by by apply propless_not_freezable.
  destruct (freeze_fresh_returns call h (Obj (KMap (entries_of entries)) [] false) eq_refl Hz)
    as [Hfuel Hret].
  split; [done |]. split.
  - intros Hs. apply Hret; [done |]. unfold getters_safe. simpl. constructor.
  - intros r h' Hfr.
    destruct (freeze_fresh call h (Obj (KMap (entries_of entries)) [] false) r h' Hc)
      as (-> & g' & -> & Hff); try done.
    { unfold object_values. simpl. rewrite app_nil_r.
      rewrite Forall_forall in *. intros x Hx. by apply Hsrc, entries_of_values. }
    { by intros [b Hb]. }
    split; [done |]. exists g'. split; [done |]. split; [done |]. split; [done |].
    split; [done |].
    intros k x. destruct Hff as [[Hlen _] _].
    unfold freeze_object. simpl. by rewrite <- Hlen, Map_set_last.
Qed.

Lemma frozenMap_witness :
  ∃ g', frozenMap no_custom_freeze [(VString "k", VRef 0); (VString "k", VRef 1)] nested_source =
          Ret (VRef 2, g' ++ [Obj (KMap [(VString "k", VRef 1)]) [] true]) ∧
        frozen_from nested_source [1] g'.
Proof.
  destruct (frozenMap_freezes_entries no_custom_freeze
              [(VString "k", VRef 0); (VString "k", VRef 1)] nested_source
              nested_source_closed) as (_ & Hret & Hspec).
  { repeat constructor. }
  destruct Hret as [h' Hfa].
  { repeat constructor; done. }
  destruct (Hspec _ _ Hfa) as (_ & g' & Heq & _ & _ & Hff & _).
  exists g'.
  change [(VString "k", VRef 1)]
    with (entries_of [(VString "k", VRef 0); (VString "k", VRef 1)]).
  rewrite <- Heq. split; [exact Hfa | exact Hff].
Defined.

Import builders.

(** ** [frozenMapFromObject] *)

Lemma named_entries_cons o name names x :
  read_named o name = Ret x →
  named_entries o (name :: names) = (VString name, x) :: named_entries o names.
Proof. intros Hr. unfold named_entries. simpl. by rewrite Hr. Qed.

(** The loop reads every name in turn and stores what it reads; it stops
    at the first getter that throws. *)
Lemma set_named_spec o obj names : ∀ g es,
  obj < length g →
  o_kind (deref g obj) = o_kind o → o_props (deref g obj) = o_props o →
  (∀ name, name ∈ names → name ∈ key_names o) →
  let h := g ++ [Obj (KMap es) [] false] in
  set_named obj (length g) names h ≠ OutOfFuel ∧
  (∀ e, set_named obj (length g) names h = Raise e → e = Thrown) ∧
  ((∃ name, name ∈ names ∧ read_named o name = Raise Thrown) →
   set_named obj (length g) names h = Raise Thrown) ∧
  ∀ h', set_named obj (length g) names h = Ret h' →
    (∀ name, name ∈ names → ∃ x, read_named o name = Ret x) ∧
    h' = g ++ [Obj (KMap (foldl (fun es e => map_store es e.1 e.2) es (named_entries o names)))
                 [] false].
Proof.
  induction names as [| name names IH]; intros g es Hobj Hk Hp Hnames h.
  - simpl. split; [done |]. split; [done |]. split.
    + intros (name & Hn & _). by apply elem_of_nil in Hn.
    + intros h' [= <-]. split; [| done]. intros name Hn. by apply elem_of_nil in Hn.
  - assert (get_named h obj name = read_named o name) as Hget.
    { rewrite get_named_read; unfold h; rewrite deref_app_l by done.
      - by apply read_named_ext.
      - rewrite (key_names_ext o) by done. apply Hnames. by left. }
    cbn [set_named]. rewrite Hget.
    destruct (read_named o name) as [x | e |] eqn:Hread; cbn [bind].
    + unfold h. rewrite Map_set_last.
      destruct (IH g (map_store es (VString name) x) Hobj Hk Hp) as (Hfuel & He & Hthrow & Hspec).
      { intros nm Hnm. apply Hnames. by right. }
      split; [done |]. split; [done |]. split.
      * intros (nm & [-> | Hnm]%elem_of_cons & Hr); [congruence |]. apply Hthrow. by exists nm.
      * intros h' Hh'. destruct (Hspec h' Hh') as [Hall ->]. split.
        -- intros nm [-> | Hnm]%elem_of_cons; [by exists x | by apply Hall].
        -- by rewrite (named_entries_cons o name names x Hread).
    + assert (e = Thrown) as ->.
      { unfold read_named in Hread.
        destruct (match o_kind o with KArray _ => _ | _ => _ end); [done |].
        destruct (own_property o (PStr name)) as [p |]; [| done].
        by destruct (p_slot p) as [? | [? |]]; simpl in Hread; simplify_eq. }
      split; [done |]. split; [by intros e [= <-] |]. split; [done | done].
    + by apply read_named_fuel in Hread.
Qed.

Lemma named_entries_values o names v :
  v ∈ key_then_value (named_entries o names) →
  (∃ name, v = VString name) ∨ v ∈ read_values o names.
Proof.
  rewrite key_then_value_elem. intros ([k x] & He & Hv).
  unfold named_entries in He. apply list_elem_of_omap in He as (name & Hn & Hr).
  destruct (read_named o name) as [y | |] eqn:Hy; try done. injection Hr as <- <-.
  simpl in Hv. destruct Hv as [-> | ->]; [left; by eexists | right].
  by eapply elem_of_read_values.
Qed.

Lemma named_entries_bound o names name x :
  name ∈ names → read_named o name = Ret x →
  bound (named_entries o names) (VString name) = Some x.
Proof.
  intros Hn Hr.
  destruct (bound_some (named_entries o names) (VString name)) as [y Hy].
  { apply list_elem_of_fmap. exists (VString name, x). split; [done |].
    unfold named_entries. apply list_elem_of_omap. exists name. by rewrite Hr. }
  rewrite Hy. f_equal. apply bound_elem in Hy.
  unfold named_entries in Hy. apply list_elem_of_omap in Hy as (nm & _ & Hy).
  destruct (read_named o nm) as [z | |] eqn:Hz; try done. injection Hy as -> <-. congruence.
Qed.

(** X13: [frozenMapFromObject] on an object of a store without dangling
    reference: it comes back; it throws as soon as a getter among the own
    enumerable string-keyed properties throws; otherwise it returns a new
    frozen map with one
    entry per name that [Object.keys] lists, keyed by the name as a
    string and holding the value the object reads under it; these values
    are frozen in place as by [freeze], and the object itself is left as
    it was unless one of its values leads back to it. *)
Theorem frozenMapFromObject_reads_own_names call obj h :
  heap_closed h → obj < length h →
  let o := deref h obj in
  frozenMapFromObject call obj h ≠ OutOfFuel ∧
  (Forall getters_safe h → ∃ h', frozenMapFromObject call obj h = Ret (VRef (length h), h')) ∧
  ((∃ name, name ∈ key_names o ∧ read_named o name = Raise Thrown) →
   frozenMapFromObject call obj h = Raise Thrown) ∧
  ∀ r h', frozenMapFromObject call obj h = Ret (r, h') →
    r = VRef (length h) ∧
    (∀ name, name ∈ key_names o → ∃ x, read_named o name = Ret x) ∧
    ∃ g', h' = g' ++ [Obj (KMap (entries_of (named_entries o (key_names o)))) [] true] ∧
          (∀ name x, (VString name, x) ∈ entries_of (named_entries o (key_names o)) ↔
                     name ∈ key_names o ∧ read_named o name = Ret x) ∧
          frozen_from h (containers h (read_values o (key_names o))) g'.
Proof.
  intros Hc Hobj o. unfold frozenMapFromObject, alloc, fresh. simpl.
  rewrite deref_app_l by done. fold o.
  destruct (set_named_spec o obj (key_names o) h [] Hobj eq_refl eq_refl)
    as (Hfuel & He & Hthrow & Hspec); [done |].
  simpl in Hfuel, He, Hthrow, Hspec.
  set (es := entries_of (named_entries o (key_names o))).
  assert (isFreezable (h ++ [Obj (KMap es) [] false]) (VRef (length h)) = Ret false) as Hz
    by by apply propless_not_freezable.
  destruct (freeze_fresh_returns call h (Obj (KMap es) [] false) eq_refl Hz) as [Hfuel' Hret].
  assert (∀ name x, (VString name, x) ∈ es ↔ name ∈ key_names o ∧ read_named o name = Ret x)
    as Hes.
  { intros name x. unfold es. rewrite (proj2 (entries_of_spec _)). split.
    - intros Hb%bound_elem. unfold named_entries in Hb.
      apply list_elem_of_omap in Hb as (nm & Hn & Hr).
      destruct (read_named o nm) as [y | |] eqn:Hy; try done. by injection Hr as -> <-.
    - intros [Hn Hr]. by apply named_entries_bound. }
  assert (Forall (source_value h) (key_then_value es)) as Hsrc.
  { apply Forall_forall. intros v Hv%entries_of_values.
    apply named_entries_values in Hv as [[name ->] | Hv]; [done |].
    unfold read_values in Hv. apply list_elem_of_omap in Hv as (name & _ & Hr).
    destruct (read_named o name) as [y | |] eqn:Hy; try done. injection Hr as <-.
    by eapply read_named_source. }
  split; [| split; [| split]].
  - destruct (set_named obj (length h) (key_names o) _) as [h1 | e |] eqn:Hl; simpl; try done.
    by destruct (Hspec h1 eq_refl) as [_ ->].
  - intros Hs.
    destruct (set_named obj (length h) (key_names o) _) as [h1 | e |] eqn:Hl; simpl.
    + destruct (Hspec h1 eq_refl) as [_ ->]. apply Hret; [done |].
      unfold getters_safe. simpl. constructor.
    + exfalso. specialize (He e eq_refl). subst e.
      assert (∀ names, (∀ nm, nm ∈ names → nm ∈ key_names o) →
                ∀ g es', set_named obj (length g) names (g ++ [Obj (KMap es') [] false])
                         = Raise Thrown →
                o_kind (deref g obj) = o_kind o → o_props (deref g obj) = o_props o →
                obj < length g →
                ∃ nm, nm ∈ names ∧ read_named o nm = Raise Thrown) as Hfind.
      { induction names as [| nm names IHn]; intros Hsub g es' Hr Hk Hp Hlt; [done |].
        cbn [set_named] in Hr.
        assert (get_named (g ++ [Obj (KMap es') [] false]) obj nm = read_named o nm) as Hget.
        { rewrite get_named_read; rewrite deref_app_l by done.
          - by apply read_named_ext.
          - rewrite (key_names_ext o) by done. apply Hsub. by left. }
        rewrite Hget in Hr. destruct (read_named o nm) as [x | e |] eqn:Hread; cbn [bind] in Hr.
        - rewrite Map_set_last in Hr. destruct (IHn) with (g := g) (es' := map_store es' (VString nm) x)
            as (nm' & ? & ?); try done.
          { intros n Hn. apply Hsub. by right. }
          exists nm'. split; [by right | done].
        - injection Hr as ->. exists nm. split; [by left | done].
        - done. }
      destruct (Hfind (key_names o) (fun _ H => H) h [] Hl eq_refl eq_refl Hobj) as (nm & Hn & Hr).
      destruct (read_named_safe o nm) as [y Hy]; [by apply deref_safe | congruence].
    + done.
  - intros Hex. by rewrite (Hthrow Hex).
  - intros r h'.
    destruct (set_named obj (length h) (key_names o) _) as [h1 | e |] eqn:Hl; simpl; try done.
    destruct (Hspec h1 eq_refl) as [Hall ->]. intros Hfr.
    destruct (freeze_fresh call h (Obj (KMap es) [] false) r h' Hc) as (-> & g' & -> & Hff);
      try done.
    { unfold object_values. simpl. by rewrite app_nil_r. }
    { by intros [b Hb]. }
    split; [done |]. split; [done |]. exists g'. split; [done |]. split; [done |].
    eapply frozen_from_roots; [| | exact Hff]; simpl; intros l Hl' _;
      apply elem_of_containers in Hl' as [Hl' Hnf]; apply elem_of_containers; (split; [| done]).
    + apply entries_of_values, named_entries_values in Hl' as [[name [=]] | Hv]. done.
    + unfold read_values in Hl'. apply list_elem_of_omap in Hl' as (name & Hn & Hr).
      destruct (read_named o name) as [y | |] eqn:Hy; try done. injection Hr as ->.
      apply key_then_value_elem. exists (VString name, VRef l). split; [| by right].
      by apply Hes.
Qed.

Lemma frozenMapFromObject_witness :
  ∃ g', frozenMapFromObject no_custom_freeze 0 nested_source =
          Ret (VRef 2,
               g' ++ [Obj (KMap [(VString "a", VNumber 1); (VString "nested", VRef 1)]) [] true]) ∧
        frozen_from nested_source [1] g'.
Proof.
  destruct (frozenMapFromObject_reads_own_names no_custom_freeze 0 nested_source
              nested_source_closed) as (_ & Hret & _ & Hspec).
  { simpl. lia. }
  destruct Hret as [h' Hfa].
  { repeat constructor; done. }
  destruct (Hspec _ _ Hfa) as (_ & _ & g' & Heq & _ & Hff).
  exists g'. split; [| exact Hff]. rewrite Hfa. f_equal. f_equal. exact Heq.
Defined.

Import builders.

(** ** [frozenObject] and [frozenRecordFilled] *)

Lemma assign_from ps k x (P : property → Prop) :
  Forall (fun p => p_enumerable p = true) ps →
  Forall P ps → P (Prop_ k true (Data x)) → Forall P (assign ps k x).
Proof.
  intros Hen HP Hnew. apply Forall_assign_gen; [done |].
  intros e [-> | (p & Hp & _ & <-)]; [done |].
  rewrite Forall_forall in Hen. by rewrite (Hen p Hp).
Qed.

Lemma assign_data ps k x :
  Forall (fun p => ∃ v, p_slot p = Data v) ps →
  Forall (fun p => ∃ v, p_slot p = Data v) (assign ps k x).
Proof. intros Hps. apply Forall_assign_gen; [done |]. intros e _. simpl. eauto. Qed.

Lemma assign_entries_last entries : ∀ g ps,
  Forall (fun p => ∃ v, p_slot p = Data v) ps →
  Forall (fun e => e.1 ≠ PStr "__proto__") entries →
  assign_entries (length g) entries (g ++ [Obj (KPlain false) ps false]) =
  Ret (g ++ [Obj (KPlain false) (foldl (fun ps e => assign ps e.1 e.2) ps entries) false]).
Proof.
  induction entries as [| e entries IH]; intros g ps Hps Hk; simpl; [done |].
  apply Forall_cons in Hk as [He Hk].
  rewrite put_value_last by done. simpl. apply IH; [by apply assign_data | done].
Qed.

Lemma assign_each_entries obj keys v h :
  assign_each obj keys v h = assign_entries obj (map (fun key => (PStr key, v)) keys) h.
Proof.
  revert h. induction keys as [| key keys IH]; intros h; simpl; [done |].
  destruct (put_value h obj (PStr key) v); simpl; [apply IH | done | done].
Qed.

Lemma find_key_map (f : property → property) ps k :
  (∀ p, p_key (f p) = p_key p) →
  List.find (fun p => bool_decide (p_key p = k)) (map f ps) =
  f <$> List.find (fun p => bool_decide (p_key p = k)) ps.
Proof.
  intros Hf. induction ps as [| p ps IH]; simpl; [done |].
  rewrite Hf. by case_bool_decide.
Qed.

Lemma find_none_has_key ps k :
  has_key ps k = false → List.find (fun p => bool_decide (p_key p = k)) ps = None.
Proof. intros Hk. apply find_none_key. by apply (proj1 (has_key_false _ _)). Qed.

Lemma find_key_place ps q k :
  has_key ps (p_key q) = false →
  List.find (fun p => bool_decide (p_key p = k)) (place ps q) =
  if bool_decide (p_key q = k) then Some q
  else List.find (fun p => bool_decide (p_key p = k)) ps.
Proof.
  intros Hq0. pose proof (proj1 (has_key_false _ _) Hq0) as Hq. clear Hq0.
  induction ps as [| p ps IH]; simpl; [done |].
  assert (p_key p ≠ p_key q) as Hp by (apply Hq; left).
  destruct (precedes (p_key q) (p_key p)); simpl.
  - by case_bool_decide.
  - rewrite IH by (intros r Hr; apply Hq; by right).
    repeat case_bool_decide; congruence.
Qed.

Lemma assign_find ps k x k' :
  Forall (fun p => p_enumerable p = true) ps →
  List.find (fun p => bool_decide (p_key p = k')) (assign ps k x) =
  if bool_decide (k' = k) then Some (Prop_ k true (Data x))
  else List.find (fun p => bool_decide (p_key p = k')) ps.
Proof.
  intros Hen. unfold assign. destruct (has_key ps k) eqn:Hhas.
  - rewrite find_key_map by (intros p; by case_bool_decide).
    destruct (List.find (fun p => bool_decide (p_key p = k')) ps) as [p |] eqn:Hfind; simpl.
    + apply find_some in Hfind as [Hp%list_elem_of_In Hk%bool_decide_eq_true].
      rewrite Forall_forall in Hen. rewrite <- Hk.
      case_bool_decide as H1; [| done]. by rewrite (Hen p Hp).
    + rewrite bool_decide_eq_false_2; [done |]. intros ->.
      apply has_key_true in Hhas as (p & Hp & Hk).
      eapply find_none in Hfind; [| by apply list_elem_of_In].
      by rewrite bool_decide_eq_true_2 in Hfind.
  - rewrite find_key_place by done. simpl. by repeat case_bool_decide.
Qed.

Lemma assigned_snoc entries e : assigned (entries ++ [e]) = assign (assigned entries) e.1 e.2.
Proof. unfold assigned. by rewrite foldl_snoc. Qed.

Lemma assigned_enumerable entries : Forall (fun p => p_enumerable p = true) (assigned entries).
Proof.
  induction entries as [| e entries IH] using rev_ind; [constructor |].
  rewrite assigned_snoc. by apply assign_from.
Qed.

Lemma assigned_from entries :
  Forall (fun p => ∃ e, e ∈ entries ∧ p = entry_property e) (assigned entries).
Proof.
  induction entries as [| e entries IH] using rev_ind; [constructor |].
  rewrite assigned_snoc. apply assign_from; [apply assigned_enumerable | |].
  - eapply Forall_impl; [exact IH |]. intros p (e' & He' & ->). exists e'.
    split; [apply elem_of_app; by left | done].
  - exists e. split; [apply elem_of_app; right; by left | done].
Qed.

Lemma assigned_data entries : Forall (fun p => ∃ v, p_slot p = Data v) (assigned entries).
Proof.
  induction entries as [| e entries IH] using rev_ind; [constructor |].
  rewrite assigned_snoc. by apply assign_data.
Qed.

Lemma assigned_ordered entries : ordered (assigned entries).
Proof.
  induction entries as [| e entries IH] using rev_ind; [apply ordered_nil |].
  rewrite assigned_snoc. by apply assign_ordered.
Qed.

Lemma assigned_own entries kd f k :
  own_property (Obj kd (assigned entries) f) k =
  (fun x => Prop_ k true (Data x)) <$> bound entries k.
Proof.
  unfold own_property. simpl.
  induction entries as [| e entries IH] using rev_ind; [done |].
  rewrite assigned_snoc, assign_find, bound_snoc by apply assigned_enumerable.
  rewrite IH. repeat case_bool_decide; try congruence. subst. done.
Qed.

Lemma plain_isFreezable h ps :
  let o := Obj (KPlain false) ps false in
  isFreezable (h ++ [o]) (VRef (length h)) =
  match own_property o (PStr "freeze") with
  | Some p => let! f := read_slot (p_slot p) in
              Ret (bool_decide (typeof (h ++ [o]) f = TFunction))
  | None => Ret false
  end.
Proof.
  intros o. unfold isFreezable, has_property, get_property, typeof, is_function.
  rewrite deref_alloc. simpl. rewrite deref_alloc.
  by destruct (own_property o (PStr "freeze")) as [p |].
Qed.

Lemma plain_get_freeze h ps :
  let o := Obj (KPlain false) ps false in
  get_property (h ++ [o]) (length h) (PStr "freeze") =
  match own_property o (PStr "freeze") with
  | Some p => read_slot (p_slot p)
  | None => Ret VUndefined
  end.
Proof.
  intros o. unfold get_property. simpl. rewrite deref_alloc.
  by destruct (own_property o (PStr "freeze")).
Qed.

Lemma enumerable_scheduled_values o v :
  is_plain o → Forall (fun p => p_enumerable p = true) (o_props o) →
  v ∈ scheduled_values o ↔ v ∈ property_values (o_props o).
Proof.
  intros [b Hb] Hen. unfold scheduled_values, property_values. rewrite Hb.
  rewrite !elem_of_flat_slot_values. split.
  - intros (p & [Hp | Hp]%elem_of_app & Hv); exists p; (split; [| done]).
    + unfold Object_keys in Hp. by apply list_elem_of_filter in Hp as [_ Hp].
    + unfold Object_getOwnPropertySymbols in Hp. by apply list_elem_of_filter in Hp as [_ Hp].
  - intros (p & Hp & Hv). exists p. split; [| done]. apply elem_of_app.
    rewrite Forall_forall in Hen. specialize (Hen p Hp).
    destruct (is_string_key p) eqn:Hs.
    + left. unfold Object_keys. apply list_elem_of_filter. split; [| done].
      rewrite Hs, Hen. done.
    + right. unfold Object_getOwnPropertySymbols. apply list_elem_of_filter. split; [| done].
      unfold is_symbol_key. unfold is_string_key in Hs. by destruct (p_key p).
Qed.

(** X14: from entries none of which is keyed [__proto__] (assigned to the
    new record, that key would reach the inherited setter), [frozenObject]
    builds a plain record in which every key holds,
    as an enumerable data property, the value of the last entry given
    under that key, the keys being listed in the engine's order (array
    indices in ascending order, then the other strings and then the
    symbols, each in the order of their first entry), and hands it to
    [freeze].  If the record so built
    carries a function under [freeze], it is not frozen by the library:
    it is handed to that function, whose outcome is returned as it is.
    Otherwise, on a store without dangling reference, the call comes back
    (with a result as soon as no getter throws) and returns the new
    record, frozen and rejecting writes, with the objects it holds frozen
    in place as by [freeze].  [frozenRecordFilled] is [frozenObject] on
    the entries that pair every key with the one value. *)
Theorem frozenObject_last_entry_wins call entries h :
  heap_closed h → Forall (source_value h) (map snd entries) →
  Forall (fun e => e.1 ≠ PStr "__proto__") entries →
  let o := Obj (KPlain false) (assigned entries) false in
  (∀ k, own_property o k = (fun x => Prop_ k true (Data x)) <$> bound entries k) ∧
  ordered (assigned entries) ∧
  (∀ f, bound entries (PStr "freeze") = Some (VRef f) → is_function h f = true →
        frozenObject call entries h = call f (length h) (h ++ [o])) ∧
  ((∀ f, bound entries (PStr "freeze") = Some (VRef f) → is_function h f = false) →
   frozenObject call entries h ≠ OutOfFuel ∧
   (Forall getters_safe h → ∃ h', frozenObject call entries h = Ret (VRef (length h), h')) ∧
   ∀ r h', frozenObject call entries h = Ret (r, h') →
     r = VRef (length h) ∧
     ∃ g', h' = g' ++ [freeze_object o] ∧
           frozen_from h (containers h (property_values (assigned entries))) g' ∧
           rejects_writes h' (length h)) ∧
  (∀ keys v, entries = map (fun key => (PStr key, v)) keys →
             frozenRecordFilled call keys v h = frozenObject call entries h).
Proof.
  intros Hc Hsrc Hnp o.
  pose proof (plain_isFreezable h (assigned entries)) as HisF.
  pose proof (plain_get_freeze h (assigned entries)) as Hget.
  cbv zeta in HisF, Hget. fold o in HisF, Hget.
  assert (∀ k, own_property o k = (fun x => Prop_ k true (Data x)) <$> bound entries k) as Hown.
  { intros k. apply assigned_own. }
  assert (frozenObject call entries h = freeze call (VRef (length h)) (h ++ [o])) as Hfo.
  { unfold frozenObject, alloc, fresh. simpl. by rewrite assign_entries_last. }
  assert (∀ keys v, entries = map (fun key => (PStr key, v)) keys →
                    frozenRecordFilled call keys v h = frozenObject call entries h) as Hfilled.
  { intros keys v ->. unfold frozenRecordFilled, frozenObject. simpl.
    by rewrite assign_each_entries. }
  assert (∀ f, bound entries (PStr "freeze") = Some (VRef f) →
               is_function (h ++ [o]) f = is_function h f) as Hfun.
  { intros f Hf%bound_elem. apply is_function_app.
    rewrite Forall_forall in Hsrc. apply (Hsrc (VRef f)).
    apply list_elem_of_fmap. by exists (PStr "freeze", VRef f). }
  split; [done |]. split; [apply assigned_ordered |]. split; [| split; [| done]].
  - intros f Hb Hf. rewrite Hfo.
    apply freeze_delegates; [by rewrite deref_alloc | |].
    + rewrite HisF, Hown, Hb. simpl. rewrite Hfun, Hf by done. done.
    + by rewrite Hget, Hown, Hb.
  - intros Hnf.
    assert (isFreezable (h ++ [o]) (VRef (length h)) = Ret false) as Hz.
    { rewrite HisF, Hown.
      destruct (bound entries (PStr "freeze")) as [v |] eqn:Hb; simpl; [| done].
      f_equal. apply bool_decide_eq_false_2. destruct v as [| | | | | | | f]; try done.
      simpl. rewrite Hfun, (Hnf f) by done. done. }
    assert (getters_safe o) as Hsafe.
    { unfold getters_safe. simpl. eapply Forall_impl; [apply assigned_from |].
      by intros p (e & _ & ->). }
    rewrite Hfo. destruct (freeze_fresh_returns call h o eq_refl Hz) as [Hfuel Hret].
    split; [done |]. split; [intros Hs; by apply Hret |].
    intros r h' Hfr.
    destruct (freeze_fresh call h o r h' Hc) as (-> & g' & -> & Hff); try done.
    { unfold object_values. simpl. apply Forall_forall. intros v Hv.
      apply elem_of_flat_slot_values in Hv as (p & Hp & Hv).
      pose proof (assigned_from entries) as Hfrom. rewrite Forall_forall in Hfrom.
      destruct (Hfrom p Hp) as (e & He & ->). simpl in Hv.
      apply list_elem_of_singleton in Hv as ->. rewrite Forall_forall in Hsrc.
      apply Hsrc. apply list_elem_of_fmap. by exists e. }
    split; [done |]. exists g'. split; [done |]. split.
    + eapply frozen_from_roots; [| | exact Hff]; intros l Hl _;
        apply elem_of_containers in Hl as [Hl ?]; apply elem_of_containers; (split; [| done]).
      * apply (enumerable_scheduled_values o) in Hl; [done | by exists false |].
        apply assigned_enumerable.
      * apply (enumerable_scheduled_values o); [by exists false | | done].
        apply assigned_enumerable.
    + destruct Hff as [[Hlen _] _]. apply frozen_rejects_writes.
      by rewrite <- Hlen, deref_alloc.
Qed.

Lemma frozenObject_witness :
  ∃ g', frozenObject no_custom_freeze [(PStr "a", VNumber 1); (PStr "a", VRef 1)] nested_source =
          Ret (VRef 2, g' ++ [Obj (KPlain false) [data "a" (VRef 1)] true]) ∧
        frozen_from nested_source [1] g'.
Proof.
  destruct (frozenObject_last_entry_wins no_custom_freeze
              [(PStr "a", VNumber 1); (PStr "a", VRef 1)] nested_source
              nested_source_closed) as (_ & _ & _ & Hplain & _).
  { repeat constructor. }
  { repeat constructor; discriminate. }
  destruct Hplain as (_ & Hret & Hspec).
  { intros f Hb. vm_compute in Hb. discriminate Hb. }
  destruct Hret as [h' Hfa].
  { repeat constructor; done. }
  destruct (Hspec _ _ Hfa) as (_ & g' & Heq & Hff & _).
  exists g'. split; [| exact Hff]. rewrite Hfa. f_equal. f_equal. exact Heq.
Defined.

(** ** The cached sentinels *)

Lemma deref_app_plus (h ext : heap) (i : nat) : deref (h ++ ext) (length h + i) = deref ext i.
Proof. rewrite deref_app_r by lia. f_equal. lia. Qed.

(** [freeze] of a new container that holds nothing. *)
Lemma freeze_empty call h o :
  o_frozen o = false → o_props o = [] → kind_values (o_kind o) = [] →
  (∀ p, o_kind o ≠ KCustom p) → o_kind o ≠ KFunction →
  freeze call (VRef (length h)) (h ++ [o]) = Ret (VRef (length h), h ++ [freeze_object o]).
Proof.
  intros Hf Hp Hv Hk Hfun.
  rewrite freeze_traverses; [| by rewrite deref_alloc | by apply propless_not_freezable].
  unfold freeze_fuel. simpl freeze_loop.
  rewrite bool_decide_eq_false_2 by set_solver. rewrite deref_alloc, Hf. simpl.
  assert (schedule_children (h ++ [o]) o [] = Ret []) as ->.
  { unfold schedule_children, Object_keys, Object_getOwnPropertySymbols,
      Object_getOwnPropertyNames. rewrite Hp.
    destruct (o_kind o) as [| entries | | | | | |]; simpl in Hv; try rewrite Hv; try done.
    by destruct entries. }
  simpl. unfold Object_freeze. rewrite deref_alloc.
  rewrite insert_app_r_alt by lia. rewrite Nat.sub_diag. simpl.
  by destruct (sum_list _).
Qed.

(** X15: loading the module appends four empty containers to the store,
    a record, an array, a map and a set, each frozen; every call of
    [emptyFrozenObject], [emptyFrozenArray], [emptyFrozenMap] and
    [emptyFrozenSet] returns the one cached for it, which is deeply
    frozen.  The record and the array reject every write.  The map and the
    set do not: they are shared by all callers, and a [set] or an [add]
    on them still succeeds, after which the shared sentinel is no longer
    empty. *)
Theorem sentinels_are_shared call h :
  let a := length h in
  let h' := h ++ [Obj (KPlain false) [] true; Obj (KArray []) [] true;
                  Obj (KMap []) [] true; Obj (KSet []) [] true] in
  let s := Sentinels (VRef a) (VRef (a + 1)) (VRef (a + 2)) (VRef (a + 3)) in
  load_module call h = Ret (s, h') ∧
  emptyFrozenObject s = VRef a ∧ emptyFrozenArray s = VRef (a + 1) ∧
  emptyFrozenMap s = VRef (a + 2) ∧ emptyFrozenSet s = VRef (a + 3) ∧
  isFrozen h' (emptyFrozenObject s) = true ∧ isFrozen h' (emptyFrozenArray s) = true ∧
  isFrozen h' (emptyFrozenMap s) = true ∧ isFrozen h' (emptyFrozenSet s) = true ∧
  rejects_writes h' a ∧ rejects_writes h' (a + 1) ∧
  (∀ k x, Map_set h' (a + 2) k x =
          h ++ [Obj (KPlain false) [] true; Obj (KArray []) [] true;
                Obj (KMap [(k, x)]) [] true; Obj (KSet []) [] true]) ∧
  (∀ x, Set_add h' (a + 3) x =
        h ++ [Obj (KPlain false) [] true; Obj (KArray []) [] true;
              Obj (KMap []) [] true; Obj (KSet [x]) [] true]).
Proof.
  intros a h' s.
  assert (∀ i o, i < 4 → [Obj (KPlain false) [] true; Obj (KArray []) [] true;
                          Obj (KMap []) [] true; Obj (KSet []) [] true] !! i = Some o →
            checked_children o = [] ∧ o_frozen o = true) as Hobjs.
  { intros [| [| [| [| i]]]] o Hi [= <-]; try lia; done. }
  assert (∀ i, i < 4 → isFrozen h' (VRef (a + i)) = true) as Hfrozen.
  { intros i Hi. apply isFrozen_iff. intros l (l0 & [= <-] & Hr).
    assert (∃ o, [Obj (KPlain false) [] true; Obj (KArray []) [] true;
                  Obj (KMap []) [] true; Obj (KSet []) [] true] !! i = Some o) as [o Ho].
    { apply lookup_lt_is_Some. simpl. lia. }
    destruct (Hobjs i o Hi Ho) as [Hch Hfz].
    assert (deref h' (a + i) = o) as Hd.
    { unfold h', a. rewrite deref_app_plus. by apply deref_lookup. }
    apply rtc_inv in Hr as [<- | (y & Hxy & _)].
    - by rewrite Hd.
    - unfold checks in Hxy. rewrite Hd, Hch in Hxy. by apply elem_of_nil in Hxy. }
  split; [| split; [done |]; split; [done |]; split; [done |]; split; [done |]].
  - unfold load_module, new_Map, new_Set, alloc. cbn [fst snd foldl].
    rewrite (freeze_empty call h (fresh (KPlain false))) by done. cbn [bind fst snd].
    rewrite (freeze_empty call _ (fresh (KArray []))) by done. cbn [bind fst snd].
    rewrite (freeze_empty call _ (fresh (KMap []))) by done. cbn [bind fst snd].
    rewrite (freeze_empty call _ (fresh (KSet []))) by done. cbn [bind fst snd].
    unfold s, h', a. rewrite !length_app. simpl. rewrite <- !app_assoc. simpl.
    by rewrite <- !Nat.add_assoc.
  - assert (isFrozen h' (VRef a) = true) as H0.
    { rewrite <- (Nat.add_0_r a). apply Hfrozen. lia. }
    split; [exact H0 |].
    split; [apply Hfrozen; lia |]. split; [apply Hfrozen; lia |].
    split; [apply Hfrozen; lia |].
    split; [| split; [| split]].
    + apply frozen_rejects_writes. unfold h', a. rewrite <- (Nat.add_0_r (length h)).
      by rewrite deref_app_plus.
    + apply frozen_rejects_writes. unfold h', a. by rewrite deref_app_plus.
    + intros k x. unfold Map_set, h', a. rewrite deref_app_plus. simpl.
      rewrite insert_app_r_alt by lia. f_equal.
      replace (length h + 2 - length h) with 2 by lia. done.
    + intros x. unfold Set_add, h', a. rewrite deref_app_plus. simpl.
      rewrite insert_app_r_alt by lia. f_equal.
      replace (length h + 3 - length h) with 3 by lia. done.
Qed.

(** * Copies *)

(** ** What [frozenCopy] does not copy *)

Lemma function_not_freezable h f : is_function h f = true → isFreezable h (VRef f) = Ret false.
Proof.
  intros Hf. unfold isFreezable. simpl. rewrite Hf.
  by rewrite bool_decide_eq_false_2.
Qed.

Lemma deepClone_function h f vis :
  is_function h f = true →
  deepClone (enough_depth h) (VRef f) vis h = Ret (VRef f, vis, h).
Proof. intros Hf. unfold enough_depth. simpl. by rewrite Hf, bool_decide_eq_true_2. Qed.

(** X16: a function is never copied.  [frozenCopy] (and [snapshot], which
    is the same function) applied to a function is [freeze] applied to
    that very function: no object is created, the function is returned
    itself, and if it was not frozen it is frozen in place, together with
    whatever the walk of [freeze] reaches from it; the original, then, is
    modified.  A primitive is returned as it is, with the store
    untouched. *)
Theorem frozenCopy_of_function_freezes_original call h f :
  is_function h f = true →
  snapshot call (VRef f) h = frozenCopy call (VRef f) h ∧
  frozenCopy call (VRef f) h = freeze call (VRef f) h ∧
  (∀ v, (∀ l, v ≠ VRef l) → frozenCopy call v h = Ret (v, h)) ∧
  ∀ r h', frozenCopy call (VRef f) h = Ret (r, h') →
    r = VRef f ∧ length h' = length h ∧ o_frozen (deref h' f) = true ∧
    (o_frozen (deref h f) = false → h' ≠ h).
Proof.
  intros Hf. split; [done |].
  assert (frozenCopy call (VRef f) h = freeze call (VRef f) h) as Heq.
  { unfold frozenCopy. by rewrite deepClone_function. }
  split; [done |]. split.
  - intros v Hv. unfold frozenCopy, enough_depth.
    destruct v as [| | | | | | | l]; try done. by destruct (Hv l).
  - intros r h'. rewrite Heq. intros Hfr.
    destruct (o_frozen (deref h f)) eqn:Hfz.
    + rewrite freeze_frozen in Hfr by done. injection Hfr as <- <-. done.
    + pose proof (function_not_freezable h f Hf) as Hz.
      destruct (freeze_traversal_spec call f h r h' Hfz Hz Hfr) as (-> & [Hlen _] & Hiff).
      assert (o_frozen (deref h' f) = true) as Hf'.
      { apply Hiff. right. by apply thaw_here. }
      split; [done |]. split; [done |]. split; [done |].
      intros _ ->. congruence.
Qed.

Lemma frozenCopy_of_function_witness :
  frozenCopy no_custom_freeze (VRef 0) function_root =
    freeze no_custom_freeze (VRef 0) function_root ∧
  frozenCopy no_custom_freeze (VRef 0) function_root = Ret (VRef 0, function_root_after).
Proof.
  destruct (frozenCopy_of_function_freezes_original no_custom_freeze function_root 0 eq_refl)
    as (_ & Heq & _).
  split; [exact Heq |]. rewrite Heq. reflexivity.
Defined.

(** ** The copy mirrors the source: twins *)

Lemma function_lt h l : is_function h l = true → l < length h.
Proof.
  intros Hf. destruct (decide (l < length h)); [done |].
  unfold is_function in Hf. rewrite deref_dangling in Hf by lia. done.
Qed.

Lemma cloning_function h0 vis h l : cloning h0 vis h → is_function h l = is_function h0 l.
Proof.
  intros Hcl. destruct (is_function h0 l) eqn:Hf.
  - by apply (source_function h0 vis h Hcl).
  - destruct (is_function h l) eqn:Hf'; [| done].
    apply (is_function_source h0 vis h Hcl) in Hf'. congruence.
Qed.

Lemma shape_dated o o' :
  shape (o_kind o') = shape (o_kind o) → dated o → o_kind o' = o_kind o.
Proof. unfold dated. destruct (o_kind o), (o_kind o'); simpl; congruence || done. Qed.

Lemma dated_shape o o' : shape (o_kind o') = shape (o_kind o) → dated o' → dated o.
Proof. unfold dated. destruct (o_kind o), (o_kind o'); simpl; congruence || done. Qed.

Lemma kept_refl h : kept h h.
Proof. by split. Qed.

Lemma kept_trans h1 h2 h3 : kept h1 h2 → kept h2 h3 → kept h1 h3.
Proof.
  intros [Hl1 H1] [Hl2 H2]. split; [lia |].
  intros c Hc. destruct (H1 c Hc) as [Hs1 Hp1]. destruct (H2 c) as [Hs2 Hp2]; [lia |].
  split; [by rewrite Hs2 |]. intros Hd. rewrite Hp2, Hp1; [done | done |].
  eapply dated_shape; [| exact Hd]. done.
Qed.

Lemma written_kept h h' c : ¬ dated (deref h c) → written h h' c → kept h h'.
Proof.
  intros Hnd (Hlen & Hne & Hsh). split; [lia |]. intros c' _.
  destruct (decide (c' = c)) as [-> | Hc]; [done | by rewrite Hne].
Qed.

Lemma frame_kept h h' :
  length h ≤ length h' → (∀ c, c < length h → deref h' c = deref h c) → kept h h'.
Proof. intros Hlen Hfr. split; [done |]. intros c Hc. by rewrite Hfr. Qed.

Lemma copied_kept h0 vis h v v' vis' h' : copied h0 vis h v v' vis' h' → kept h h'.
Proof. intros Hc. apply frame_kept; [apply (d_grow _ _ _ _ _ _ _ Hc) | apply (d_frame _ _ _ _ _ _ _ Hc)]. Qed.

Lemma filled_kept h0 clone vis h vis' h' :
  ¬ dated (deref h clone) → filled h0 clone vis h vis' h' → kept h h'.
Proof.
  intros Hnd Hf. split; [apply (f_grow _ _ _ _ _ _ Hf) |].
  intros c Hc. destruct (decide (c = clone)) as [-> | Hne].
  - split; [apply (f_shape _ _ _ _ _ _ Hf) | done].
  - by rewrite (f_frame _ _ _ _ _ _ Hf).
Qed.

Lemma twin_mono h0 vis vis' h h' v v' :
  vis ⊆ vis' → kept h h' → twin h0 vis h v v' → twin h0 vis' h' v v'.
Proof.
  intros Hsub [Hlen Hk]. destruct v as [| | | | | | | x]; simpl; try done.
  destruct (is_function h0 x); [done |].
  assert (dated (deref h0 x) →
          (∃ c, v' = VRef c ∧ length h0 ≤ c < length h ∧
                o_kind (deref h c) = o_kind (deref h0 x) ∧ o_props (deref h c) = []) →
          ∃ c, v' = VRef c ∧ length h0 ≤ c < length h' ∧
               o_kind (deref h' c) = o_kind (deref h0 x) ∧ o_props (deref h' c) = [])
    as Hd.
  { intros Hdt (c & -> & Hc & Hkind & Hprops). exists c. split; [done |]. split; [lia |].
    destruct (Hk c) as [Hsh Hpr]; [lia |].
    assert (dated (deref h c)) as Hdc by (unfold dated in *; by rewrite Hkind).
    split; [| by rewrite Hpr].
    rewrite <- Hkind. by apply shape_dated. }
  assert ((∃ c, vis !! x = Some c ∧ v' = VRef c) → ∃ c, vis' !! x = Some c ∧ v' = VRef c) as Hv.
  { intros (c & Hc & ->). exists c. split; [| done]. by eapply lookup_weaken. }
  unfold dated in Hd. destruct (o_kind (deref h0 x)); auto.
Qed.

Lemma twin_ref h0 vis h x v' : twin h0 vis h (VRef x) v' → ∃ c, v' = VRef c.
Proof.
  simpl. destruct (is_function h0 x); [by eauto |].
  destruct (o_kind (deref h0 x)); intros (c & H1 & H2); eauto; destruct H1; eauto.
Qed.

Lemma twin_atom h0 vis h v v' : (∀ l, v ≠ VRef l) → twin h0 vis h v v' → v' = v.
Proof. intros Hv. destruct v; simpl; try done. by destruct (Hv l). Qed.

Lemma twin_atom_inv h0 vis h v v' : (∀ l, v' ≠ VRef l) → twin h0 vis h v v' → v = v'.
Proof.
  intros Hv. destruct v as [| | | | | | | x]; simpl; try done.
  intros [c ->]%twin_ref. by destruct (Hv c).
Qed.

Lemma twin_visited h0 vis h x c v' :
  copying h0 vis h → vis !! x = Some c → twin h0 vis h (VRef x) v' → v' = VRef c.
Proof.
  intros Hcp Hx. destruct (k_src _ _ _ Hcp x c Hx) as [Hnd Hnf].
  simpl. rewrite Hnf. unfold dated in Hnd.
  destruct (o_kind (deref h0 x)); try (by destruct Hnd);
    intros (c' & Hc' & ->); congruence.
Qed.

Lemma Forall2_twin_mono h0 vis vis' h h' xs xs' :
  vis ⊆ vis' → kept h h' → Forall2 (twin h0 vis h) xs xs' → Forall2 (twin h0 vis' h') xs xs'.
Proof. intros Hs Hk H. eapply Forall2_impl; [exact H |]. intros x x'. by apply twin_mono. Qed.

Lemma twin_assigned_mono h0 vis vis' h h' p p' :
  vis ⊆ vis' → kept h h' → twin_assigned h0 vis h p p' → twin_assigned h0 vis' h' p p'.
Proof.
  intros Hs Hk (Hkey & Hen & x & x' & Hr & Hsl & Ht).
  split; [done |]. split; [done |]. exists x, x'. eauto using twin_mono.
Qed.

Lemma twin_defined_mono h0 vis vis' h h' p p' :
  vis ⊆ vis' → kept h h' → twin_defined h0 vis h p p' → twin_defined h0 vis' h' p p'.
Proof.
  intros Hs Hk (Hkey & Hen & Hsl). split; [done |]. split; [done |].
  destruct (p_slot p); [| done]. destruct Hsl as (x' & Hx' & Ht). eauto using twin_mono.
Qed.

Lemma twin_entry_mono h0 vis vis' h h' e e' :
  vis ⊆ vis' → kept h h' → twin_entry h0 vis h e e' → twin_entry h0 vis' h' e e'.
Proof. intros Hs Hk [H1 H2]. split; eauto using twin_mono. Qed.

Lemma mirror_mono h0 vis vis' h h' s c :
  vis ⊆ vis' → kept h h' → deref h' c = deref h c →
  mirror h0 vis h s c → mirror h0 vis' h' s c.
Proof.
  intros Hs Hk Heq. unfold mirror. rewrite Heq.
  destruct (o_kind (deref h0 s)); try done.
  - intros (elems' & H1 & H2 & H3). exists elems'. eauto using Forall2_twin_mono.
  - intros (entries' & H1 & H2 & H3). exists entries'. split; [done |]. split; [done |].
    eapply Forall2_impl; [exact H3 |]. intros e e'. by apply twin_entry_mono.
  - intros (members' & H1 & H2 & H3). exists members'. eauto using Forall2_twin_mono.
  - intros [H1 H2]. split; [done |].
    eapply Forall2_impl; [exact H2 |]. intros p p'. by apply twin_assigned_mono.
  - intros [H1 H2]. split; [done |].
    eapply Forall2_impl; [exact H2 |]. intros p p'. by apply twin_defined_mono.
Qed.

(** ** The state of the copy *)

Lemma copying_init h0 : copying h0 ∅ h0.
Proof. split; [apply cloning_init | | |]; intros *; by rewrite lookup_empty. Qed.

Lemma copying_kept h0 vis h h' :
  copying h0 vis h → cloning h0 vis h' → kept h h' → copying h0 vis h'.
Proof.
  intros Hcp Hcl [Hlen Hk]. split; [done | apply (k_inj _ _ _ Hcp) | | apply (k_src _ _ _ Hcp)].
  intros s c Hs Hd. apply (k_kind _ _ _ Hcp s c Hs).
  eapply dated_shape; [| exact Hd]. apply Hk.
  apply (c_visited _ _ _ (k_cloning _ _ _ Hcp) s c Hs).
Qed.

Lemma copying_write h0 vis h h' c :
  copying h0 vis h → cloning h0 vis h' → ¬ dated (deref h c) → written h h' c →
  copying h0 vis h'.
Proof. intros Hcp Hcl Hnd Hw. eapply copying_kept; eauto using written_kept. Qed.

Lemma alloc_kept h o : kept h (h ++ [o]).
Proof.
  apply frame_kept; [rewrite length_app; lia |].
  intros c Hc. by apply deref_app_l.
Qed.

Lemma copying_node h0 vis h obj o :
  copying h0 vis h → vis !! obj = None →
  ¬ dated (deref h0 obj) → is_function h0 obj = false → ¬ dated o →
  cloning h0 (<[obj := length h]> vis) (h ++ [o]) →
  copying h0 (<[obj := length h]> vis) (h ++ [o]).
Proof.
  intros Hcp Hnone Hnd Hnf Hno Hcl.
  pose proof (c_visited _ _ _ (k_cloning _ _ _ Hcp)) as Hvis.
  split; [done | | |].
  - intros s1 s2 c. rewrite !lookup_insert_Some.
    intros [[<- <-] | [Hne1 H1]] [[<- Hc] | [Hne2 H2]]; try done.
    + apply Hvis in H2. lia.
    + apply Hvis in H1. lia.
    + by eapply (k_inj _ _ _ Hcp).
  - intros s c. rewrite lookup_insert_Some. intros [[<- <-] | [Hne Hs]].
    + by rewrite deref_alloc.
    + rewrite deref_app_l by (apply Hvis in Hs; lia). by apply (k_kind _ _ _ Hcp s).
  - intros s c. rewrite lookup_insert_Some. intros [[<- <-] | [Hne Hs]]; [done |].
    by apply (k_src _ _ _ Hcp s c).
Qed.

(** ** A loop, one step after the other *)

Lemma filled_refl h0 clone vis h : copying h0 vis h → filled h0 clone vis h vis h.
Proof. intros Hcp. split; try done. intros s c H1 H2. congruence. Qed.

Lemma filled_write h0 clone vis h h2 vis' h' :
  written h h2 clone → filled h0 clone vis h2 vis' h' → filled h0 clone vis h vis' h'.
Proof.
  intros (Hlen & Hne & Hsh) Hf. split.
  - apply (f_copying _ _ _ _ _ _ Hf).
  - rewrite <- Hlen. apply (f_grow _ _ _ _ _ _ Hf).
  - intros c Hc Hcc. rewrite (f_frame _ _ _ _ _ _ Hf) by (done || lia). by apply Hne.
  - by rewrite (f_shape _ _ _ _ _ _ Hf).
  - intros s c H1 H2. rewrite <- Hlen. by apply (f_mirror _ _ _ _ _ _ Hf).
Qed.

Lemma filled_call h0 clone vis h x x' vis1 h1 vis' h' :
  length h0 ≤ clone < length h → ¬ dated (deref h clone) →
  copied h0 vis h x x' vis1 h1 → filled h0 clone vis1 h1 vis' h' →
  filled h0 clone vis h vis' h'.
Proof.
  intros Hclone Hnd Hc Hf.
  assert (¬ dated (deref h1 clone)) as Hnd1.
  { by rewrite (d_frame _ _ _ _ _ _ _ Hc) by lia. }
  destruct (d_grow _ _ _ _ _ _ _ Hc) as [Hs1 Hl1].
  destruct (f_grow _ _ _ _ _ _ Hf) as [Hs2 Hl2].
  split.
  - apply (f_copying _ _ _ _ _ _ Hf).
  - split; [by etrans | lia].
  - intros c Hlt Hne. rewrite (f_frame _ _ _ _ _ _ Hf) by (done || lia).
    by apply (d_frame _ _ _ _ _ _ _ Hc).
  - rewrite (f_shape _ _ _ _ _ _ Hf). by rewrite (d_frame _ _ _ _ _ _ _ Hc) by lia.
  - intros s c H1 H2. destruct (vis1 !! s) as [c1 |] eqn:Hs.
    + assert (c1 = c) as ->.
      { pose proof (lookup_weaken _ _ _ _ Hs Hs2). congruence. }
      destruct (d_mirror _ _ _ _ _ _ _ Hc s c Hs H2) as [Hge Hm]. split; [done |].
      pose proof (c_visited _ _ _ (k_cloning _ _ _ (d_copying _ _ _ _ _ _ _ Hc)) s c Hs) as Hlt.
      eapply mirror_mono; [exact Hs2 | by eapply filled_kept | | exact Hm].
      apply (f_frame _ _ _ _ _ _ Hf); lia.
    + destruct (f_mirror _ _ _ _ _ _ Hf s c H1 Hs) as [Hge Hm]. split; [lia | done].
Qed.

Lemma filled_seq h0 clone vis h vis1 h1 vis' h' :
  length h0 ≤ clone < length h → ¬ dated (deref h clone) →
  filled h0 clone vis h vis1 h1 → filled h0 clone vis1 h1 vis' h' →
  filled h0 clone vis h vis' h'.
Proof.
  intros Hclone Hnd Hc Hf.
  assert (¬ dated (deref h1 clone)) as Hnd1.
  { intros Hd. apply Hnd. eapply dated_shape; [| exact Hd]. apply (f_shape _ _ _ _ _ _ Hc). }
  destruct (f_grow _ _ _ _ _ _ Hc) as [Hs1 Hl1].
  destruct (f_grow _ _ _ _ _ _ Hf) as [Hs2 Hl2].
  split.
  - apply (f_copying _ _ _ _ _ _ Hf).
  - split; [by etrans | lia].
  - intros c Hlt Hne. rewrite (f_frame _ _ _ _ _ _ Hf) by (done || lia).
    by apply (f_frame _ _ _ _ _ _ Hc).
  - rewrite (f_shape _ _ _ _ _ _ Hf). apply (f_shape _ _ _ _ _ _ Hc).
  - intros s c H1 H2. destruct (vis1 !! s) as [c1 |] eqn:Hs.
    + assert (c1 = c) as ->.
      { pose proof (lookup_weaken _ _ _ _ Hs Hs2). congruence. }
      destruct (f_mirror _ _ _ _ _ _ Hc s c Hs H2) as [Hge Hm]. split; [done |].
      pose proof (c_visited _ _ _ (k_cloning _ _ _ (f_copying _ _ _ _ _ _ Hc)) s c Hs) as Hlt.
      eapply mirror_mono; [exact Hs2 | by eapply filled_kept | | exact Hm].
      apply (f_frame _ _ _ _ _ _ Hf); lia.
    + destruct (f_mirror _ _ _ _ _ _ Hf s c H1 Hs) as [Hge Hm]. split; [lia | done].
Qed.

(** ** Distinct sources have distinct twins *)

Lemma twin_fresh h0 vis h x x' vis1 h1 y y' :
  copying h0 vis h → copied h0 vis h x x' vis1 h1 →
  twin h0 vis h y y' → clone_value h0 (length h) y' →
  y ≠ x → y' ≠ x'.
Proof.
  intros Hcp Hc Hy Hcv Hne ->.
  pose proof (k_cloning _ _ _ Hcp) as Hcl.
  pose proof (cloning_length _ _ _ Hcl) as Hlen0.
  pose proof (d_twin _ _ _ _ _ _ _ Hc) as Hx.
  destruct x as [| | | | | | | a];
    try (apply twin_atom in Hx; [| done]; subst x';
         apply twin_atom_inv in Hy; [| done]; congruence).
  destruct (twin_ref _ _ _ _ _ Hx) as [c ->].
  destruct y as [| | | | | | | b]; try (simpl in Hy; discriminate).
  assert (b ≠ a) as Hba by congruence.
  destruct (is_function h0 a) eqn:Hfa.
  { (* a function is its own twin, and lives in the source *)
    simpl in Hx. rewrite Hfa in Hx. injection Hx as ->.
    apply function_lt in Hfa as Hlt. simpl in Hy.
    destruct (is_function h0 b) eqn:Hfb; [congruence |].
    destruct (o_kind (deref h0 b)); destruct Hy as (c' & H1 & H2);
      try (destruct H2 as [H2 _]; injection H1 as <-; lia);
      (injection H2 as <-; apply (c_visited _ _ _ Hcl) in H1; lia). }
  destruct (vis !! a) as [ca |] eqn:Hva.
  - (* already visited: the recorded clone *)
    assert (c = ca) as ->.
    { pose proof (lookup_weaken _ _ _ _ Hva (proj1 (d_grow _ _ _ _ _ _ _ Hc))) as Hva1.
      pose proof (twin_visited _ _ _ _ _ _ (d_copying _ _ _ _ _ _ _ Hc) Hva1 Hx). congruence. }
    pose proof (c_visited _ _ _ Hcl _ _ Hva) as Hca.
    simpl in Hy. destruct (is_function h0 b) eqn:Hfb.
    { injection Hy as ->. apply function_lt in Hfb. lia. }
    pose proof (k_kind _ _ _ Hcp a ca Hva) as Hnd. unfold dated in Hnd.
    destruct (o_kind (deref h0 b)) eqn:Hkb; destruct Hy as (c' & H1 & H2);
      try (injection H2 as <-; by pose proof (k_inj _ _ _ Hcp _ _ _ H1 Hva));
      (injection H1 as <-; destruct H2 as (_ & H2 & _); rewrite H2 in Hnd; by apply Hnd).
  - (* not yet visited: a new object *)
    pose proof (d_new _ _ _ _ _ _ _ Hc a c eq_refl eq_refl Hfa Hva) as Hge.
    simpl in Hcv. destruct Hcv as [Hlt | Hf]; [lia |].
    apply function_lt in Hf. lia.
Qed.

(** ** Writes that extend the clone *)

Lemma store_element_end elems x : store_element elems (length elems) x = elems ++ [x].
Proof.
  unfold store_element. rewrite decide_False by lia. by rewrite Nat.sub_diag.
Qed.

Lemma assign_fresh ps k x :
  k ∉ map p_key ps → Forall (fun k' => precedes k k' = false) (map p_key ps) →
  assign ps k x = ps ++ [Prop_ k true (Data x)].
Proof.
  intros Hk Hord. unfold assign, has_key. rewrite bool_decide_eq_false_2 by done.
  apply place_end. by apply Forall_fmap in Hord.
Qed.

Lemma define_fresh ps q :
  p_key q ∉ map p_key ps → Forall (fun k' => precedes (p_key q) k' = false) (map p_key ps) →
  define ps q = ps ++ [q].
Proof.
  intros Hk Hord. unfold define, has_key. rewrite bool_decide_eq_false_2 by done.
  apply place_end. by apply Forall_fmap in Hord.
Qed.

(** In a list that is in order, a key precedes none of the keys before it. *)
Lemma ordered_app_fresh l p k :
  ordered (l ++ p :: k) → Forall (fun k' => precedes (p_key p) k' = false) (map p_key l).
Proof.
  intros Ho. apply Forall_fmap, Forall_lookup. intros i q Hq. simpl.
  apply (Ho i (length l) q p).
  - by eapply lookup_lt_Some.
  - by apply lookup_app_l_Some.
  - by rewrite list_lookup_middle.
Qed.

Lemma ordered_snoc_app l p k : ordered (l ++ p :: k) → ordered ((l ++ [p]) ++ k).
Proof. by rewrite <- app_assoc. Qed.

Lemma map_store_fresh entries k x : k ∉ map fst entries → map_store entries k x = entries ++ [(k, x)].
Proof.
  induction entries as [| e entries IH]; simpl; [done |].
  rewrite not_elem_of_cons. intros [Hne Hk].
  rewrite bool_decide_eq_false_2 by congruence. by rewrite IH.
Qed.

Lemma set_element_end h c elems x h' :
  o_kind (deref h c) = KArray elems → c < length h →
  set_element h c (length elems) x = Ret h' →
  deref h' c = with_kind (deref h c) (KArray (elems ++ [x])).
Proof.
  intros Hk Hc. unfold set_element. destruct (o_frozen (deref h c)); [done |].
  rewrite Hk, store_element_end. intros [= <-]. by rewrite deref_insert_eq.
Qed.

Lemma Set_add_end h c members x :
  o_kind (deref h c) = KSet members → c < length h → x ∉ members →
  deref (Set_add h c x) c = with_kind (deref h c) (KSet (members ++ [x])).
Proof.
  intros Hk Hc Hx. unfold Set_add. rewrite Hk, bool_decide_eq_false_2 by done.
  by rewrite deref_insert_eq.
Qed.

Lemma Map_set_end h c entries k x :
  o_kind (deref h c) = KMap entries → c < length h → k ∉ map fst entries →
  deref (Map_set h c k x) c = with_kind (deref h c) (KMap (entries ++ [(k, x)])).
Proof.
  intros Hk Hc Hx. unfold Map_set. rewrite Hk, map_store_fresh by done.
  by rewrite deref_insert_eq.
Qed.

Lemma set_property_end h c k x h' :
  c < length h → k ∉ map p_key (o_props (deref h c)) →
  Forall (fun k' => precedes k k' = false) (map p_key (o_props (deref h c))) →
  set_property h c k x = Ret h' →
  deref h' c = with_props (deref h c) (o_props (deref h c) ++ [Prop_ k true (Data x)]).
Proof.
  intros Hc Hk Hord. unfold set_property. destruct (o_frozen (deref h c)); [done |].
  rewrite assign_fresh by done. intros [= <-]. by rewrite deref_insert_eq.
Qed.

Lemma defineProperty_end h c q h' :
  c < length h → p_key q ∉ map p_key (o_props (deref h c)) →
  Forall (fun k' => precedes (p_key q) k' = false) (map p_key (o_props (deref h c))) →
  defineProperty h c q = Ret h' →
  deref h' c = with_props (deref h c) (o_props (deref h c) ++ [q]).
Proof.
  intros Hc Hk Hord. unfold defineProperty. destruct (o_frozen (deref h c)); [done |].
  rewrite define_fresh by done. intros [= <-]. by rewrite deref_insert_eq.
Qed.

Lemma Forall2_elem_r {A B} (P : A → B → Prop) l k y' :
  Forall2 P l k → y' ∈ k → ∃ y, y ∈ l ∧ P y y'.
Proof.
  induction 1 as [| y z l k Hyz _ IH]; [by intros ?%elem_of_nil |].
  intros [-> | Hin]%elem_of_cons.
  - exists y. split; [left | done].
  - destruct (IH Hin) as (y0 & H1 & H2). exists y0. split; [by right | done].
Qed.

Lemma twin_assigned_keys h0 vis h ps ps' :
  Forall2 (twin_assigned h0 vis h) ps ps' → map p_key ps' = map p_key ps.
Proof. induction 1 as [| p p' ps ps' (Hk & _) _ IH]; simpl; [done | by rewrite Hk, IH]. Qed.

Lemma twin_defined_keys h0 vis h ps ps' :
  Forall2 (twin_defined h0 vis h) ps ps' → map p_key ps' = map p_key ps.
Proof. induction 1 as [| p p' ps ps' (Hk & _) _ IH]; simpl; [done | by rewrite Hk, IH]. Qed.

Lemma NoDup_app_fresh {A} (l : list A) x k : NoDup (l ++ x :: k) → x ∉ l.
Proof.
  rewrite NoDup_app. intros (_ & Hd & _) Hx. apply (Hd x Hx). left.
Qed.

Lemma NoDup_snoc_app {A} (l : list A) x k : NoDup (l ++ x :: k) → NoDup ((l ++ [x]) ++ k).
Proof. by rewrite <- app_assoc. Qed.

(** ** The loops copy position by position *)

Section Fidelity.

Variables (h0 : heap) (rec : cloner).
Hypothesis Hclosed : heap_closed h0.
Hypothesis Hrec : copier h0 rec.

Lemma clone_holds vis h clone x :
  cloning h0 vis h → length h0 ≤ clone < length h →
  x ∈ kind_values (o_kind (deref h clone)) → clone_value h0 (length h) x.
Proof.
  intros Hcl Hc Hx. destruct (c_new _ _ _ Hcl clone Hc) as (_ & _ & Hv & _).
  rewrite Forall_forall in Hv. by apply Hv.
Qed.

Lemma clone_elements_filled clone elems : ∀ sdone done vis h vis' h',
  copying h0 vis h → length h0 ≤ clone < length h →
  Forall (source_value h0) elems →
  o_kind (deref h clone) = KArray done → Forall2 (twin h0 vis h) sdone done →
  clone_elements rec clone elems (length done) vis h = Ret (vis', h') →
  filled h0 clone vis h vis' h' ∧
  o_props (deref h' clone) = o_props (deref h clone) ∧
  ∃ all', o_kind (deref h' clone) = KArray all' ∧
          Forall2 (twin h0 vis' h') (sdone ++ elems) all'.
Proof.
  induction elems as [| x elems IH]; intros sdone done vis h vis' h' Hcp Hc Hsrc Hk Hdone Hrun.
  { simpl in Hrun. injection Hrun as <- <-. split; [by apply filled_refl |].
    split; [done |]. exists done. by rewrite app_nil_r. }
  assert (¬ dated (deref h clone)) as Hnd0
    by (unfold dated; first [rewrite Hk | destruct Hpl as [? ->]]; simpl; tauto).
  simpl in Hrun. apply Forall_cons in Hsrc as [Hx Hsrc].
  apply bind_Ret in Hrun as ([[x' vis1] h1] & Hcall & Hrun). simpl in Hrun.
  apply bind_Ret in Hrun as (h2 & Hset & Hrun).
  pose proof (Hrec _ _ _ _ _ _ Hcp Hx Hcall) as Hcd.
  pose proof Hcd as [Hcp1 [Hs1 Hl1] Hfr1 Hval1 Htw1 _ _].
  assert (deref h1 clone = deref h clone) as Hsame by (apply Hfr1; lia).
  assert (¬ dated (deref h1 clone)) as Hnd1 by by rewrite Hsame.
  destruct (set_element_cloning h0 vis1 h1 clone (length done) x' (k_cloning _ _ _ Hcp1))
    as (h2' & Hset' & Hcl2 & Hw); [lia | done |].
  rewrite Hset in Hset'. injection Hset' as <-.
  assert (deref h2 clone = with_kind (deref h clone) (KArray (done ++ [x']))) as Hnew.
  { rewrite <- Hsame. eapply set_element_end; [by rewrite Hsame | lia | done]. }
  assert (copying h0 vis1 h2) as Hcp2 by (eapply copying_write; eauto).
  assert (kept h h2) as Hk2.
  { eapply kept_trans; [by eapply frame_kept | exact (written_kept _ _ _ Hnd1 Hw)]. }
  destruct (IH (sdone ++ [x]) (done ++ [x']) vis1 h2 vis' h' Hcp2)
    as (Hf & Hprops & all' & Hall & Htw); try done.
  - destruct Hw as [-> _]. lia.
  - by rewrite Hnew.
  - apply Forall2_app; [exact (Forall2_twin_mono h0 vis vis1 h h2 _ _ Hs1 Hk2 Hdone) |].
    constructor; [| constructor]. exact (twin_mono h0 _ _ _ _ _ _ (reflexivity _) (written_kept _ _ _ Hnd1 Hw) Htw1).
  - rewrite length_app. simpl. by rewrite Nat.add_1_r.
  - split; [| split].
    + eapply filled_call; [done | exact Hnd0 | exact Hcd |]. by eapply filled_write.
    + by rewrite Hprops, Hnew.
    + exists all'. split; [done |]. by rewrite <- app_assoc in Htw.
Qed.

Lemma clone_members_filled clone members : ∀ sdone done vis h vis' h',
  copying h0 vis h → length h0 ≤ clone < length h →
  Forall (source_value h0) members → NoDup (sdone ++ members) →
  o_kind (deref h clone) = KSet done → Forall2 (twin h0 vis h) sdone done →
  clone_members rec clone members vis h = Ret (vis', h') →
  filled h0 clone vis h vis' h' ∧
  o_props (deref h' clone) = o_props (deref h clone) ∧
  ∃ all', o_kind (deref h' clone) = KSet all' ∧
          Forall2 (twin h0 vis' h') (sdone ++ members) all'.
Proof.
  induction members as [| x members IH];
    intros sdone done vis h vis' h' Hcp Hc Hsrc Hnd Hk Hdone Hrun.
  { simpl in Hrun. injection Hrun as <- <-. split; [by apply filled_refl |].
    split; [done |]. exists done. by rewrite app_nil_r. }
  assert (¬ dated (deref h clone)) as Hnd0
    by (unfold dated; first [rewrite Hk | destruct Hpl as [? ->]]; simpl; tauto).
  simpl in Hrun. apply Forall_cons in Hsrc as [Hx Hsrc].
  apply bind_Ret in Hrun as ([[x' vis1] h1] & Hcall & Hrun). simpl in Hrun.
  pose proof (Hrec _ _ _ _ _ _ Hcp Hx Hcall) as Hcd.
  pose proof Hcd as [Hcp1 [Hs1 Hl1] Hfr1 Hval1 Htw1 _ _].
  assert (deref h1 clone = deref h clone) as Hsame by (apply Hfr1; lia).
  assert (¬ dated (deref h1 clone)) as Hnd1 by by rewrite Hsame.
  assert (x' ∉ done) as Hfresh.
  { intros Hin. destruct (Forall2_elem_r _ _ _ _ Hdone Hin) as (y & Hy & Hyt).
    eapply (twin_fresh h0 vis h x x' vis1 h1 y x'); try done.
    - eapply clone_holds; [apply (k_cloning _ _ _ Hcp) | done | by rewrite Hk].
    - intros ->. by apply (NoDup_app_fresh _ _ _ Hnd). }
  destruct (Set_add_cloning h0 vis1 h1 clone x' (k_cloning _ _ _ Hcp1)) as [Hcl2 Hw];
    [lia | done |].
  set (h2 := Set_add h1 clone x') in *.
  assert (deref h2 clone = with_kind (deref h clone) (KSet (done ++ [x']))) as Hnew.
  { rewrite <- Hsame. apply Set_add_end; [by rewrite Hsame | lia | done]. }
  assert (copying h0 vis1 h2) as Hcp2 by (eapply copying_write; eauto).
  assert (kept h h2) as Hk2.
  { eapply kept_trans; [by eapply frame_kept | exact (written_kept _ _ _ Hnd1 Hw)]. }
  destruct (IH (sdone ++ [x]) (done ++ [x']) vis1 h2 vis' h' Hcp2)
    as (Hf & Hprops & all' & Hall & Htw); try done.
  - destruct Hw as [-> _]. lia.
  - by apply NoDup_snoc_app.
  - by rewrite Hnew.
  - apply Forall2_app; [exact (Forall2_twin_mono h0 vis vis1 h h2 _ _ Hs1 Hk2 Hdone) |].
    constructor; [| constructor]. exact (twin_mono h0 _ _ _ _ _ _ (reflexivity _) (written_kept _ _ _ Hnd1 Hw) Htw1).
  - split; [| split].
    + eapply filled_call; [done | exact Hnd0 | exact Hcd |]. by eapply filled_write.
    + by rewrite Hprops, Hnew.
    + exists all'. split; [done |]. by rewrite <- app_assoc in Htw.
Qed.

Lemma clone_entries_filled clone entries : ∀ sdone done vis h vis' h',
  copying h0 vis h → length h0 ≤ clone < length h →
  Forall (source_value h0) (key_then_value entries) → NoDup (map fst (sdone ++ entries)) →
  o_kind (deref h clone) = KMap done → Forall2 (twin_entry h0 vis h) sdone done →
  clone_entries rec clone entries vis h = Ret (vis', h') →
  filled h0 clone vis h vis' h' ∧
  o_props (deref h' clone) = o_props (deref h clone) ∧
  ∃ all', o_kind (deref h' clone) = KMap all' ∧
          Forall2 (twin_entry h0 vis' h') (sdone ++ entries) all'.
Proof.
  induction entries as [| [k v] entries IH];
    intros sdone done vis h vis' h' Hcp Hc Hsrc Hnd Hk Hdone Hrun.
  { simpl in Hrun. injection Hrun as <- <-. split; [by apply filled_refl |].
    split; [done |]. exists done. by rewrite app_nil_r. }
  assert (¬ dated (deref h clone)) as Hnd0
    by (unfold dated; first [rewrite Hk | destruct Hpl as [? ->]]; simpl; tauto).
  simpl in Hrun, Hsrc.
  apply Forall_cons in Hsrc as [Hks Hsrc]. apply Forall_cons in Hsrc as [Hvs Hsrc].
  apply bind_Ret in Hrun as ([[k' vis1] h1] & Hcallk & Hrun). simpl in Hrun.
  apply bind_Ret in Hrun as ([[v' vis2] h2] & Hcallv & Hrun). simpl in Hrun.
  pose proof (Hrec _ _ _ _ _ _ Hcp Hks Hcallk) as Hck.
  pose proof Hck as [Hcp1 [Hs1 Hl1] Hfr1 Hval1 Htw1 _ _].
  pose proof (Hrec _ _ _ _ _ _ Hcp1 Hvs Hcallv) as Hcv.
  pose proof Hcv as [Hcp2 [Hs2 Hl2] Hfr2 Hval2 Htw2 _ _].
  assert (deref h2 clone = deref h clone) as Hsame.
  { rewrite Hfr2 by lia. apply Hfr1. lia. }
  assert (¬ dated (deref h2 clone)) as Hnd1 by by rewrite Hsame.
  assert (¬ dated (deref h1 clone)) as Hnd01 by (rewrite Hfr1 by lia; done).
  assert (k' ∉ map fst done) as Hfresh.
  { intros (e' & -> & Hin)%list_elem_of_fmap.
    destruct (Forall2_elem_r _ _ _ _ Hdone Hin) as (e0 & He0 & [Hyt _]).
    eapply (twin_fresh h0 vis h k e'.1 vis1 h1 e0.1 e'.1); try done.
    - eapply clone_holds; [apply (k_cloning _ _ _ Hcp) | done |]. rewrite Hk. simpl.
      unfold key_then_value. apply list_elem_of_In, in_flat_map. exists e'.
      split; [by apply list_elem_of_In | by left].
    - intros Heq. rewrite map_app in Hnd. simpl in Hnd.
      apply (NoDup_app_fresh _ _ _ Hnd). rewrite <- Heq.
      apply list_elem_of_fmap. by exists e0. }
  destruct (Map_set_cloning h0 vis2 h2 clone k' v' (k_cloning _ _ _ Hcp2)) as [Hcl3 Hw];
    [lia | by eapply clone_value_mono | done |].
  set (h3 := Map_set h2 clone k' v') in *.
  assert (deref h3 clone = with_kind (deref h clone) (KMap (done ++ [(k', v')]))) as Hnew.
  { rewrite <- Hsame. apply Map_set_end; [by rewrite Hsame | lia | done]. }
  assert (copying h0 vis2 h3) as Hcp3 by (eapply copying_write; eauto).
  assert (kept h1 h3) as Hk13.
  { eapply kept_trans; [by eapply frame_kept | exact (written_kept _ _ _ Hnd1 Hw)]. }
  assert (kept h h3) as Hk03.
  { eapply kept_trans; [by eapply frame_kept | done]. }
  destruct (IH (sdone ++ [(k, v)]) (done ++ [(k', v')]) vis2 h3 vis' h' Hcp3)
    as (Hf & Hprops & all' & Hall & Htw); try done.
  - destruct Hw as [-> _]. lia.
  - by rewrite <- app_assoc.
  - by rewrite Hnew.
  - apply Forall2_app.
    + eapply Forall2_impl; [exact Hdone |]. intros e e'.
      apply (twin_entry_mono h0 vis vis2 h h3); [by etrans | done].
    + constructor; [| constructor]. split; simpl.
      * exact (twin_mono h0 _ _ _ _ _ _ Hs2 Hk13 Htw1).
      * exact (twin_mono h0 _ _ _ _ _ _ (reflexivity _) (written_kept _ _ _ Hnd1 Hw) Htw2).
  - split; [| split].
    + eapply filled_call; [done | exact Hnd0 | exact Hck |].
      eapply filled_call; [lia | exact Hnd01 | exact Hcv |]. by eapply filled_write.
    + by rewrite Hprops, Hnew.
    + exists all'. split; [done |]. by rewrite <- app_assoc in Htw.
Qed.

Lemma clone_assign_filled clone s ps : ∀ sdone vis h vis' h',
  copying h0 vis h → length h0 ≤ clone < length h →
  is_plain (deref h clone) →
  (∀ p, p ∈ ps → p ∈ o_props (deref h0 s)) →
  (o_kind (deref h clone) = KPlain false → ∀ p, p ∈ ps → p_key p ≠ PStr "__proto__") →
  NoDup (map p_key (sdone ++ ps)) → ordered (sdone ++ ps) →
  Forall2 (twin_assigned h0 vis h) sdone (o_props (deref h clone)) →
  clone_assign rec clone ps vis h = Ret (vis', h') →
  filled h0 clone vis h vis' h' ∧
  o_kind (deref h' clone) = o_kind (deref h clone) ∧
  Forall2 (twin_assigned h0 vis' h') (sdone ++ ps) (o_props (deref h' clone)).
Proof.
  induction ps as [| p ps IH];
    intros sdone vis h vis' h' Hcp Hc Hpl Hps Hproto Hnd Hord Hdone Hrun.
  { simpl in Hrun. injection Hrun as <- <-. split; [by apply filled_refl |].
    split; [done |]. by rewrite app_nil_r. }
  assert (¬ dated (deref h clone)) as Hnd0
    by (unfold dated; first [rewrite Hk | destruct Hpl as [? ->]]; simpl; tauto).
  simpl in Hrun.
  apply bind_Ret in Hrun as (x & Hread & Hrun).
  apply bind_Ret in Hrun as ([[x' vis1] h1] & Hcall & Hrun). simpl in Hrun.
  apply bind_Ret in Hrun as (h2 & Hset & Hrun).
  assert (p ∈ o_props (deref h0 s)) as Hp by (apply Hps; left).
  assert (source_value h0 x) as Hx by by eapply (read_slot_source h0 Hclosed).
  pose proof (Hrec _ _ _ _ _ _ Hcp Hx Hcall) as Hcd.
  pose proof Hcd as [Hcp1 [Hs1 Hl1] Hfr1 Hval1 Htw1 _ _].
  assert (deref h1 clone = deref h clone) as Hsame by (apply Hfr1; lia).
  assert (¬ dated (deref h1 clone)) as Hnd1 by by rewrite Hsame.
  assert (p_key p ∉ map p_key (o_props (deref h clone))) as Hfresh.
  { rewrite (twin_assigned_keys _ _ _ _ _ Hdone).
    rewrite map_app in Hnd. simpl in Hnd. by apply (NoDup_app_fresh _ _ _ Hnd). }
  assert (Forall (fun k' => precedes (p_key p) k' = false)
            (map p_key (o_props (deref h clone)))) as Hlast.
  { rewrite (twin_assigned_keys _ _ _ _ _ Hdone). by eapply ordered_app_fresh. }
  assert (put_value h1 clone (p_key p) x' = set_property h1 clone (p_key p) x') as Hput.
  { apply put_value_plain; rewrite Hsame; try done.
    - intros Hk. apply Hproto; [done | left].
    - apply Forall_forall. intros q' Hq'.
      destruct (Forall2_elem_r _ _ _ _ Hdone Hq') as (q & _ & (_ & _ & x0 & x0' & _ & Hq & _)).
      eauto.
    - eapply cloning_unfrozen; [apply (k_cloning _ _ _ Hcp) | done]. }
  rewrite Hput in Hset.
  destruct (set_property_cloning h0 vis1 h1 clone (p_key p) x' (k_cloning _ _ _ Hcp1))
    as (h2' & Hset' & Hcl2 & Hw);
    [lia | by rewrite Hsame | rewrite Hsame; intros Hk; apply Hproto; [done | left]
     | by exists s, p | done |].
  rewrite Hset in Hset'. injection Hset' as <-.
  assert (deref h2 clone =
          with_props (deref h clone)
            (o_props (deref h clone) ++ [Prop_ (p_key p) true (Data x')])) as Hnew.
  { rewrite <- Hsame.
    eapply set_property_end; [lia | by rewrite Hsame | by rewrite Hsame | done]. }
  assert (copying h0 vis1 h2) as Hcp2 by (eapply copying_write; eauto).
  assert (kept h h2) as Hk2.
  { eapply kept_trans; [by eapply frame_kept | exact (written_kept _ _ _ Hnd1 Hw)]. }
  destruct (IH (sdone ++ [p]) vis1 h2 vis' h' Hcp2) as (Hf & Hkind & Htw); try done.
  - destruct Hw as [-> _]. lia.
  - by rewrite Hnew.
  - intros q Hq. apply Hps. by right.
  - rewrite Hnew. simpl. intros Hk q Hq. apply Hproto; [done | by right].
  - by rewrite <- app_assoc.
  - by rewrite <- app_assoc.
  - rewrite Hnew. simpl. apply Forall2_app.
    + eapply Forall2_impl; [exact Hdone |]. intros q q'. by apply twin_assigned_mono.
    + constructor; [| constructor]. split; [done |]. split; [done |]. exists x, x'.
      split; [done |]. split; [done |].
      exact (twin_mono h0 _ _ _ _ _ _ (reflexivity _) (written_kept _ _ _ Hnd1 Hw) Htw1).
  - split; [| split].
    + eapply filled_call; [done | exact Hnd0 | exact Hcd |]. by eapply filled_write.
    + by rewrite Hkind, Hnew.
    + by rewrite <- app_assoc in Htw.
Qed.

Lemma data_slot_source s p x :
  p ∈ o_props (deref h0 s) → p_slot p = Data x → source_value h0 x.
Proof.
  intros Hp Hx. apply (read_slot_source h0 Hclosed s p); [done |]. by rewrite Hx.
Qed.

Lemma clone_descriptors_filled clone s ps : ∀ sdone vis h vis' h',
  copying h0 vis h → length h0 ≤ clone < length h →
  is_custom (deref h clone) → is_custom (deref h0 s) →
  (∀ p, p ∈ ps → p ∈ o_props (deref h0 s)) →
  NoDup (map p_key (sdone ++ ps)) → ordered (sdone ++ ps) →
  Forall2 (twin_defined h0 vis h) sdone (o_props (deref h clone)) →
  clone_descriptors rec clone ps vis h = Ret (vis', h') →
  filled h0 clone vis h vis' h' ∧
  o_kind (deref h' clone) = o_kind (deref h clone) ∧
  Forall2 (twin_defined h0 vis' h') (sdone ++ ps) (o_props (deref h' clone)).
Proof.
  induction ps as [| p ps IH];
    intros sdone vis h vis' h' Hcp Hc Hpl Hcs Hps Hnd Hord Hdone Hrun.
  { simpl in Hrun. injection Hrun as <- <-. split; [by apply filled_refl |].
    split; [done |]. by rewrite app_nil_r. }
  assert (¬ dated (deref h clone)) as Hnd0
    by (unfold dated; first [rewrite Hk | destruct Hpl as [? ->]]; simpl; tauto).
  simpl in Hrun.
  assert (p ∈ o_props (deref h0 s)) as Hp by (apply Hps; left).
  assert (p_key p ∉ map p_key (o_props (deref h clone))) as Hfresh.
  { rewrite (twin_defined_keys _ _ _ _ _ Hdone).
    rewrite map_app in Hnd. simpl in Hnd. by apply (NoDup_app_fresh _ _ _ Hnd). }
  assert (Forall (fun k' => precedes (p_key p) k' = false)
            (map p_key (o_props (deref h clone)))) as Hlast.
  { rewrite (twin_defined_keys _ _ _ _ _ Hdone). by eapply ordered_app_fresh. }
  destruct (p_slot p) as [x | g] eqn:Hslot.
  - apply bind_Ret in Hrun as ([[x' vis1] h1] & Hcall & Hrun). simpl in Hrun.
    apply bind_Ret in Hrun as (h2 & Hset & Hrun).
    assert (source_value h0 x) as Hx by by eapply data_slot_source.
    pose proof (Hrec _ _ _ _ _ _ Hcp Hx Hcall) as Hcd.
    pose proof Hcd as [Hcp1 [Hs1 Hl1] Hfr1 Hval1 Htw1 _ _].
    assert (deref h1 clone = deref h clone) as Hsame by (apply Hfr1; lia).
    assert (¬ dated (deref h1 clone)) as Hnd1 by by rewrite Hsame.
    set (q := Prop_ (p_key p) (p_enumerable p) (Data x')) in *.
    destruct (defineProperty_cloning h0 vis1 h1 clone q (k_cloning _ _ _ Hcp1))
      as (h2' & Hset' & Hcl2 & Hw); [lia | by rewrite Hsame | | |].
    { exists s, p. split; [done |]. split; [done |]. right. by exists x'. }
    { intros v [= <-]. done. }
    rewrite Hset in Hset'. injection Hset' as <-.
    assert (deref h2 clone =
            with_props (deref h clone) (o_props (deref h clone) ++ [q])) as Hnew.
    { rewrite <- Hsame.
      eapply defineProperty_end; [lia | by rewrite Hsame | by rewrite Hsame | done]. }
    assert (copying h0 vis1 h2) as Hcp2 by (eapply copying_write; eauto).
    assert (kept h h2) as Hk2.
    { eapply kept_trans; [by eapply frame_kept | exact (written_kept _ _ _ Hnd1 Hw)]. }
    destruct (IH (sdone ++ [p]) vis1 h2 vis' h' Hcp2) as (Hf & Hkind & Htw); try done.
    + destruct Hw as [-> _]. lia.
    + by rewrite Hnew.
    + intros q' Hq. apply Hps. by right.
    + by rewrite <- app_assoc.
    + by rewrite <- app_assoc.
    + rewrite Hnew. simpl. apply Forall2_app.
      * eapply Forall2_impl; [exact Hdone |]. intros q0 q'. by apply twin_defined_mono.
      * constructor; [| constructor]. split; [done |]. split; [done |]. rewrite Hslot.
        exists x'. split; [done |].
        exact (twin_mono h0 _ _ _ _ _ _ (reflexivity _) (written_kept _ _ _ Hnd1 Hw) Htw1).
    + split; [| split].
      * eapply filled_call; [done | exact Hnd0 | exact Hcd |]. by eapply filled_write.
      * by rewrite Hkind, Hnew.
      * by rewrite <- app_assoc in Htw.
  - apply bind_Ret in Hrun as (h2 & Hset & Hrun).
    destruct (defineProperty_cloning h0 vis h clone p (k_cloning _ _ _ Hcp))
      as (h2' & Hset' & Hcl2 & Hw); [lia | done | | |].
    { exists s, p. split; [done |]. split; [done |]. by left. }
    { intros v Hv. congruence. }
    rewrite Hset in Hset'. injection Hset' as <-.
    assert (deref h2 clone =
            with_props (deref h clone) (o_props (deref h clone) ++ [p])) as Hnew.
    { eapply defineProperty_end; [lia | done | done | done]. }
    assert (copying h0 vis h2) as Hcp2 by (eapply copying_write; eauto).
    assert (kept h h2) as Hk2 by exact (written_kept _ _ _ Hnd0 Hw).
    destruct (IH (sdone ++ [p]) vis h2 vis' h' Hcp2) as (Hf & Hkind & Htw); try done.
    + destruct Hw as [-> _]. lia.
    + by rewrite Hnew.
    + intros q' Hq. apply Hps. by right.
    + by rewrite <- app_assoc.
    + by rewrite <- app_assoc.
    + rewrite Hnew. simpl. apply Forall2_app.
      * eapply Forall2_impl; [exact Hdone |]. intros q0 q'. by apply twin_defined_mono.
      * constructor; [| constructor]. split; [done |]. split; [done |]. by rewrite Hslot.
    + split; [| split].
      * by eapply filled_write.
      * by rewrite Hkind, Hnew.
      * by rewrite <- app_assoc in Htw.
Qed.

End Fidelity.

(** ** The clone engine mirrors the source *)

Lemma NoDup_map_inj {A B} (f : A → B) l x y :
  NoDup (map f l) → x ∈ l → y ∈ l → f x = f y → x = y.
Proof.
  induction l as [| z l IH]; simpl; [by intros _ ?%elem_of_nil |].
  intros [Hz Hl]%NoDup_cons [-> | Hx]%elem_of_cons [-> | Hy]%elem_of_cons Heq; try done.
  - destruct Hz. rewrite Heq. apply list_elem_of_fmap. by exists y.
  - destruct Hz. rewrite <- Heq. apply list_elem_of_fmap. by exists x.
  - by apply IH.
Qed.

Lemma NoDup_map_filter {A B} (f : A → B) (P : A → Prop) `{∀ x, Decision (P x)} l :
  NoDup (map f l) → NoDup (map f (filter P l)).
Proof.
  induction l as [| z l IH]; simpl; [done |].
  intros [Hz Hl]%NoDup_cons. rewrite filter_cons. destruct (decide (P z)); [| by apply IH].
  simpl. apply NoDup_cons. split; [| by apply IH].
  intros (y & Hy & [_ Hin]%list_elem_of_filter)%list_elem_of_fmap.
  apply Hz. apply list_elem_of_fmap. by exists y.
Qed.

Lemma NoDup_keys_split (P Q : property → Prop)
    `{∀ x, Decision (P x)} `{∀ x, Decision (Q x)} ps :
  (∀ p, P p → Q p → False) → NoDup (map p_key ps) →
  NoDup (map p_key (filter P ps ++ filter Q ps)).
Proof.
  intros Hdisj Hnd. rewrite map_app. apply NoDup_app.
  split; [by apply NoDup_map_filter |]. split; [| by apply NoDup_map_filter].
  intros k (p & -> & [Hp Hin]%list_elem_of_filter)%list_elem_of_fmap
           (q & Heq & [Hq Hin']%list_elem_of_filter)%list_elem_of_fmap.
  assert (p = q) as -> by by eapply NoDup_map_inj.
  by eapply Hdisj.
Qed.

Lemma plain_keys_NoDup o :
  NoDup (map p_key (o_props o)) →
  NoDup (map p_key (Object_keys o ++ Object_getOwnPropertySymbols o)).
Proof.
  apply NoDup_keys_split. intros p Hs Hy. unfold is_string_key, is_symbol_key in *.
  destruct (p_key p); simpl in *; done.
Qed.

Lemma custom_keys_NoDup o :
  NoDup (map p_key (o_props o)) →
  NoDup (map p_key (Object_getOwnPropertyNames o ++ Object_getOwnPropertySymbols o)).
Proof.
  apply NoDup_keys_split. intros p Hs Hy. unfold is_string_key, is_symbol_key in *.
  destruct (p_key p); simpl in *; done.
Qed.

Lemma twin_of_visited h0 vis h x c :
  copying h0 vis h → vis !! x = Some c → twin h0 vis h (VRef x) (VRef c).
Proof.
  intros Hcp Hx. destruct (k_src _ _ _ Hcp x c Hx) as [Hnd Hnf].
  simpl. rewrite Hnf. unfold dated in Hnd.
  destruct (o_kind (deref h0 x)); try (by destruct Hnd); eauto.
Qed.

Lemma copied_here h0 vis h v v' :
  copying h0 vis h → clone_value h0 (length h) v' → twin h0 vis h v v' →
  (∀ x, v = VRef x → is_function h0 x = false → vis !! x = None → False) →
  copied h0 vis h v v' vis h.
Proof.
  intros Hcp Hv Ht Hn. split; try done.
  - intros x c -> _ Hf Hx. exfalso. by eapply Hn.
  - intros s c H1 H2. congruence.
Qed.

Lemma copied_dated h0 vis h obj :
  copying h0 vis h → obj < length h0 → is_function h0 obj = false →
  dated (deref h0 obj) →
  copied h0 vis h (VRef obj) (VRef (length h)) vis (h ++ [fresh (o_kind (deref h0 obj))]).
Proof.
  intros Hcp Hobj Hnf Hd.
  pose proof (k_cloning _ _ _ Hcp) as Hcl.
  pose proof (cloning_length _ _ _ Hcl) as Hlen.
  destruct (cloning_alloc h0 vis h obj (o_kind (deref h0 obj)) Hcl) as [_ Hcl1].
  { unfold dated in Hd. by destruct (o_kind (deref h0 obj)). }
  { unfold dated in Hd. by destruct (o_kind (deref h0 obj)). }
  split.
  - eapply copying_kept; [done | done | apply alloc_kept].
  - split; [done |]. rewrite length_app. lia.
  - intros c Hc. by apply deref_app_l.
  - left. rewrite length_app. simpl. lia.
  - simpl. rewrite Hnf. unfold dated in Hd.
    destruct (o_kind (deref h0 obj)) eqn:Ek; try done;
      (exists (length h); split; [done |]; split; [rewrite length_app; simpl; lia |];
       by rewrite deref_alloc).
  - intros x c _ [= <-] _ _. lia.
  - intros s c H1 H2. congruence.
Qed.

Lemma copied_node h0 vis h obj o vis' h' :
  copying h0 vis h → obj < length h0 → vis !! obj = None →
  ¬ dated (deref h0 obj) → is_function h0 obj = false → ¬ dated o →
  filled h0 (length h) (<[obj := length h]> vis) (h ++ [o]) vis' h' →
  mirror h0 vis' h' obj (length h) →
  copied h0 vis h (VRef obj) (VRef (length h)) vis' h'.
Proof.
  intros Hcp Hobj Hnone Hnd Hnf Hno Hf Hm.
  destruct (f_grow _ _ _ _ _ _ Hf) as [Hsub Hlen]. rewrite length_app in Hlen. simpl in Hlen.
  pose proof (cloning_length _ _ _ (k_cloning _ _ _ Hcp)) as Hlen0.
  assert (vis' !! obj = Some (length h)) as Hobj'.
  { eapply lookup_weaken; [| exact Hsub]. apply lookup_insert_eq. }
  split.
  - apply (f_copying _ _ _ _ _ _ Hf).
  - split; [| lia]. etrans; [| exact Hsub]. by apply insert_subseteq.
  - intros c Hc. rewrite (f_frame _ _ _ _ _ _ Hf).
    + by apply deref_app_l.
    + rewrite length_app. simpl. lia.
    + lia.
  - left. lia.
  - apply twin_of_visited; [apply (f_copying _ _ _ _ _ _ Hf) | done].
  - intros x c _ [= <-] _ _. lia.
  - intros s c H1 H2. destruct (decide (s = obj)) as [-> | Hne].
    + rewrite Hobj' in H1. injection H1 as <-. split; [lia | done].
    + destruct (f_mirror _ _ _ _ _ _ Hf s c H1) as [Hge Hm'].
      * by rewrite lookup_insert_ne.
      * rewrite length_app in Hge. simpl in Hge. split; [lia | done].
Qed.

Section Mirror.

Variable h0 : heap.
Hypothesis Hclosed : heap_closed h0.
Hypothesis Hkeys : well_keyed h0.
Hypothesis Hproto : proto_free h0.

Theorem deepClone_copied d : copier h0 (deepClone d).
Proof.
  induction d as [| d IH]; intros v vis h v' vis' h' Hcp Hsrc Hrun; [done |].
  pose proof (k_cloning _ _ _ Hcp) as Hcl.
  simpl in Hrun.
  destruct v as [| | b | n | s | n | s | obj];
    try (injection Hrun as <- <- <-; by apply copied_here).
  simpl in Hsrc. unfold typeof in Hrun.
  rewrite (cloning_function h0 vis h obj Hcl) in Hrun.
  rewrite (cloning_source h0 vis h obj) in Hrun by done.
  destruct (is_function h0 obj) eqn:Hnf.
  { rewrite bool_decide_eq_true_2 in Hrun by done. injection Hrun as <- <- <-.
    apply copied_here; [done | by right | simpl; by rewrite Hnf |].
    intros x [= <-]. congruence. }
  rewrite bool_decide_eq_false_2 in Hrun by done.
  destruct (vis !! obj) as [c |] eqn:Hv.
  { injection Hrun as <- <- <-.
    apply copied_here; [done | left; by eapply c_visited | by apply twin_of_visited |].
    intros x [= <-]. congruence. }
  pose proof (source_kind_values h0 Hclosed obj) as Hvals.
  destruct (Hkeys obj) as (Hkp & Hko & Hkk).
  destruct (ordered_own_keys _ Hko) as [Hord1 Hord2].
  pose proof (fresh_target h0 vis h (o_kind (deref h0 obj)) Hcl) as Ht.
  rewrite length_app in Ht. simpl in Ht.
  assert (∀ k, length h0 ≤ length h < length (h ++ [fresh k])) as Hrange.
  { intros k. rewrite length_app. simpl. lia. }
  destruct (o_kind (deref h0 obj)) eqn:Ek; simpl in *.
  - (* array *)
    apply bind_Ret in Hrun as ([vis1 h1] & Hloop & [= <- <- <-]).
    destruct (cloning_alloc h0 vis h obj (KArray [])) as [Hcl1 _]; try done.
    assert (copying h0 (<[obj := length h]> vis) (h ++ [fresh (KArray [])])) as Hcp1.
    { apply copying_node; try done; unfold dated; simpl; rewrite ?Ek; tauto. }
    destruct (clone_elements_filled h0 (deepClone d) IH (length h) elems [] []
                _ _ vis1 h1 Hcp1) as (Hf & Hprops & all' & Hall & Htw);
      [apply Hrange | done | by rewrite deref_alloc | constructor | exact Hloop |].
    apply (copied_node h0 vis h obj (fresh (KArray [])));
      try done; try (unfold dated; simpl; rewrite ?Ek; tauto).
    unfold mirror. rewrite Ek. exists all'. split; [done |].
    split; [by rewrite Hprops, deref_alloc | done].
  - (* map *)
    apply bind_Ret in Hrun as ([vis1 h1] & Hloop & [= <- <- <-]).
    destruct (cloning_alloc h0 vis h obj (KMap [])) as [Hcl1 _]; try done.
    assert (copying h0 (<[obj := length h]> vis) (h ++ [fresh (KMap [])])) as Hcp1.
    { apply copying_node; try done; unfold dated; simpl; rewrite ?Ek; tauto. }
    destruct (clone_entries_filled h0 (deepClone d) IH (length h) entries [] []
                _ _ vis1 h1 Hcp1) as (Hf & Hprops & all' & Hall & Htw);
      [apply Hrange | done | done | by rewrite deref_alloc | constructor | exact Hloop |].
    apply (copied_node h0 vis h obj (fresh (KMap [])));
      try done; try (unfold dated; simpl; rewrite ?Ek; tauto).
    unfold mirror. rewrite Ek. exists all'. split; [done |].
    split; [by rewrite Hprops, deref_alloc | done].
  - (* set *)
    apply bind_Ret in Hrun as ([vis1 h1] & Hloop & [= <- <- <-]).
    destruct (cloning_alloc h0 vis h obj (KSet [])) as [Hcl1 _]; try done.
    assert (copying h0 (<[obj := length h]> vis) (h ++ [fresh (KSet [])])) as Hcp1.
    { apply copying_node; try done; unfold dated; simpl; rewrite ?Ek; tauto. }
    destruct (clone_members_filled h0 (deepClone d) IH (length h) members [] []
                _ _ vis1 h1 Hcp1) as (Hf & Hprops & all' & Hall & Htw);
      [apply Hrange | done | done | by rewrite deref_alloc | constructor | exact Hloop |].
    apply (copied_node h0 vis h obj (fresh (KSet [])));
      try done; try (unfold dated; simpl; rewrite ?Ek; tauto).
    unfold mirror. rewrite Ek. exists all'. split; [done |].
    split; [by rewrite Hprops, deref_alloc | done].
  - (* date *)
    injection Hrun as <- <- <-. rewrite <- Ek. apply copied_dated; try done.
    unfold dated. by rewrite Ek.
  - (* pattern *)
    injection Hrun as <- <- <-. rewrite <- Ek. apply copied_dated; try done.
    unfold dated. by rewrite Ek.
  - (* function: excluded above *)
    unfold is_function in Hnf. rewrite Ek in Hnf. done.
  - (* plain record *)
    apply bind_Ret in Hrun as ([vis1 h1] & Hloop1 & Hrun). simpl in Hrun.
    apply bind_Ret in Hrun as ([vis2 h2] & Hloop2 & [= <- <- <-]).
    destruct (cloning_alloc h0 vis h obj (KPlain null_proto)) as [Hcl1 _]; try done.
    assert (copying h0 (<[obj := length h]> vis) (h ++ [fresh (KPlain null_proto)])) as Hcp1.
    { apply copying_node; try done; unfold dated; simpl; rewrite ?Ek; tauto. }
    pose proof (plain_keys_NoDup _ Hkp) as Hnd.
    destruct (clone_assign_filled h0 (deepClone d) Hclosed IH (length h) obj
                (Object_keys (deref h0 obj)) [] _ _ vis1 h1 Hcp1) as (Hf1 & Hkind1 & Htw1);
      [apply Hrange | rewrite deref_alloc; by exists null_proto
       | by intros p [_ Hp]%list_elem_of_filter
       | rewrite deref_alloc; simpl; intros [= ->] p Hp; by apply (Hproto obj)
       | simpl; rewrite map_app in Hnd; by apply NoDup_app in Hnd as [? _]
       | simpl; by eapply ordered_app_l
       | rewrite deref_alloc; constructor | exact Hloop1 |].
    rewrite deref_alloc in Hkind1. simpl in Hkind1, Htw1.
    destruct (f_grow _ _ _ _ _ _ Hf1) as [_ Hl1]. rewrite length_app in Hl1. simpl in Hl1.
    destruct (clone_assign_filled h0 (deepClone d) Hclosed IH (length h) obj
                (Object_getOwnPropertySymbols (deref h0 obj)) (Object_keys (deref h0 obj))
                _ _ vis2 h2 (f_copying _ _ _ _ _ _ Hf1)) as (Hf2 & Hkind2 & Htw2);
      [lia | by exists null_proto | by intros p [_ Hp]%list_elem_of_filter
       | intros _ p [Hp _]%list_elem_of_filter Hk; unfold is_symbol_key in Hp;
         by rewrite Hk in Hp
       | done | done | done | exact Hloop2 |].
    apply (copied_node h0 vis h obj (fresh (KPlain null_proto)));
      try done; try (unfold dated; simpl; rewrite ?Ek; tauto).
    { eapply filled_seq; [apply Hrange | rewrite deref_alloc; unfold dated; simpl; tauto
                        | exact Hf1 | exact Hf2]. }
    unfold mirror. rewrite Ek. split; [by rewrite Hkind2 | done].
  - (* custom prototype *)
    apply bind_Ret in Hrun as ([vis1 h1] & Hloop1 & Hrun). simpl in Hrun.
    apply bind_Ret in Hrun as ([vis2 h2] & Hloop2 & [= <- <- <-]).
    destruct (cloning_alloc h0 vis h obj (KCustom proto)) as [Hcl1 _]; try done.
    assert (copying h0 (<[obj := length h]> vis) (h ++ [fresh (KCustom proto)])) as Hcp1.
    { apply copying_node; try done; unfold dated; simpl; rewrite ?Ek; tauto. }
    pose proof (custom_keys_NoDup _ Hkp) as Hnd.
    destruct (clone_descriptors_filled h0 (deepClone d) Hclosed IH (length h) obj
                (Object_getOwnPropertyNames (deref h0 obj)) [] _ _ vis1 h1 Hcp1)
      as (Hf1 & Hkind1 & Htw1);
      [apply Hrange | rewrite deref_alloc; by exists proto | by exists proto
       | by intros p [_ Hp]%list_elem_of_filter
       | simpl; rewrite map_app in Hnd; by apply NoDup_app in Hnd as [? _]
       | simpl; by eapply ordered_app_l
       | rewrite deref_alloc; constructor | exact Hloop1 |].
    rewrite deref_alloc in Hkind1. simpl in Hkind1, Htw1.
    destruct (f_grow _ _ _ _ _ _ Hf1) as [_ Hl1]. rewrite length_app in Hl1. simpl in Hl1.
    destruct (clone_descriptors_filled h0 (deepClone d) Hclosed IH (length h) obj
                (Object_getOwnPropertySymbols (deref h0 obj))
                (Object_getOwnPropertyNames (deref h0 obj))
                _ _ vis2 h2 (f_copying _ _ _ _ _ _ Hf1)) as (Hf2 & Hkind2 & Htw2);
      [lia | by exists proto | by exists proto | by intros p [_ Hp]%list_elem_of_filter
       | done | done | done | exact Hloop2 |].
    apply (copied_node h0 vis h obj (fresh (KCustom proto)));
      try done; try (unfold dated; simpl; rewrite ?Ek; tauto).
    { eapply filled_seq; [apply Hrange | rewrite deref_alloc; unfold dated; simpl; tauto
                        | exact Hf1 | exact Hf2]. }
    unfold mirror. rewrite Ek. split; [by rewrite Hkind2 | done].
Qed.

End Mirror.

(** ** The frozen copy mirrors the source *)

Lemma twin_frozen h0 vis h h' v v' :
  freezes_only h h' → twin h0 vis h v v' → twin h0 vis h' v v'.
Proof.
  intros [Hlen Hsame]. destruct v as [| | | | | | | x]; simpl; try done.
  destruct (is_function h0 x); [done |].
  destruct (o_kind (deref h0 x)); try done;
    intros (c & -> & Hc & Hk & Hp); exists c; destruct (Hsame c) as (Hk' & Hp' & _);
    (split; [done |]; split; [lia |]; split; congruence).
Qed.

Lemma mirror_frozen h0 vis h h' s c :
  freezes_only h h' → mirror h0 vis h s c → mirror h0 vis h' s c.
Proof.
  intros Hfo. pose proof Hfo as [Hlen Hsame]. destruct (Hsame c) as (Hk & Hp & _).
  unfold mirror. rewrite Hk, Hp.
  destruct (o_kind (deref h0 s)); try done.
  - intros (elems' & H1 & H2 & H3). exists elems'. split; [done |]. split; [done |].
    eapply Forall2_impl; [exact H3 |]. intros x x'. by apply twin_frozen.
  - intros (entries' & H1 & H2 & H3). exists entries'. split; [done |]. split; [done |].
    eapply Forall2_impl; [exact H3 |]. intros e e' [Ha Hb]. split; by eapply twin_frozen.
  - intros (members' & H1 & H2 & H3). exists members'. split; [done |]. split; [done |].
    eapply Forall2_impl; [exact H3 |]. intros x x'. by apply twin_frozen.
  - intros [H1 H2]. split; [done |].
    eapply Forall2_impl; [exact H2 |]. intros p p' (Ha & Hb & x & x' & Hx & Hx' & Ht).
    split; [done |]. split; [done |]. exists x, x'. eauto using twin_frozen.
  - intros [H1 H2]. split; [done |].
    eapply Forall2_impl; [exact H2 |]. intros p p' (Ha & Hb & Hs).
    split; [done |]. split; [done |]. destruct (p_slot p); [| done].
    destruct Hs as (x' & Hx' & Ht). eauto using twin_frozen.
Qed.

Lemma heap_closed_Forall h :
  Forall (fun o => Forall (source_value h) (object_values o)) h → heap_closed h.
Proof.
  intros Hall l v Hv. destruct (h !! l) as [o |] eqn:Hl.
  - rewrite (deref_lookup _ _ _ Hl) in Hv.
    rewrite Forall_lookup in Hall. specialize (Hall l o Hl).
    rewrite Forall_forall in Hall. by apply Hall.
  - unfold deref in Hv. rewrite Hl in Hv. by apply elem_of_nil in Hv.
Qed.

Lemma no_custom_freeze_Forall h :
  Forall (fun o => Forall (fun p => p_key p ≠ PStr "freeze") (o_props o)) h →
  no_custom_freeze_in h.
Proof.
  intros Hall l p Hp. destruct (h !! l) as [o |] eqn:Hl.
  - rewrite (deref_lookup _ _ _ Hl) in Hp.
    rewrite Forall_lookup in Hall. specialize (Hall l o Hl).
    rewrite Forall_forall in Hall. by apply Hall.
  - unfold deref in Hp. rewrite Hl in Hp. by apply elem_of_nil in Hp.
Qed.

Lemma well_keyed_Forall h : Forall keyed h → well_keyed h.
Proof.
  intros Hall l. destruct (h !! l) as [o |] eqn:Hl.
  - rewrite (deref_lookup _ _ _ Hl). rewrite Forall_lookup in Hall. by apply (Hall l).
  - unfold deref. rewrite Hl. split; simpl; [constructor |]. split; [apply ordered_nil | done].
Qed.

Lemma proto_free_Forall h :
  Forall (fun o => o_kind o = KPlain false →
                   Forall (fun p => p_key p ≠ PStr "__proto__") (o_props o)) h →
  proto_free h.
Proof.
  intros Hall l p Hk [_ Hp]%list_elem_of_filter. destruct (h !! l) as [o |] eqn:Hl.
  - rewrite (deref_lookup _ _ _ Hl) in Hp, Hk.
    rewrite Forall_lookup in Hall. specialize (Hall l o Hl Hk).
    rewrite Forall_forall in Hall. by apply Hall.
  - unfold deref in Hp. rewrite Hl in Hp. by apply elem_of_nil in Hp.
Qed.

(** The order of a list written out. *)
Lemma ordered_list ps :
  (fix go ps := match ps with
                | [] => true
                | p :: ps => forallb (fun q => negb (precedes (p_key q) (p_key p))) ps && go ps
                end) ps = true →
  ordered ps.
Proof.
  induction ps as [| p ps IH]; [intros _; apply ordered_nil |].
  intros [Hp Hps]%andb_true_iff. apply ordered_cons. split; [| auto].
  intros q Hq%list_elem_of_In. rewrite forallb_forall in Hp. by apply negb_true_iff, Hp.
Qed.

Lemma shared_source_closed : heap_closed shared_source.
Proof.
  apply heap_closed_Forall. unfold shared_source, object_values.
  repeat (constructor; simpl; try lia).
Qed.

Lemma shared_source_no_custom_freeze : no_custom_freeze_in shared_source.
Proof. apply no_custom_freeze_Forall. repeat (constructor; try done). Qed.

Lemma shared_source_well_keyed : well_keyed shared_source.
Proof.
  apply well_keyed_Forall. unfold keyed.
  repeat (constructor; simpl; rewrite ?elem_of_cons, ?elem_of_nil; try done;
          try (by apply ordered_list); try naive_solver).
Qed.

Lemma shared_source_proto_free : proto_free shared_source.
Proof. apply proto_free_Forall. repeat (constructor; try done). Qed.

(** The table of a frozen copy, as long as the clone declares no custom
    freeze. *)
Lemma frozenCopy_table call h l :
  heap_closed h → well_keyed h → proto_free h →
  l < length h → is_function h l = false →
  ∀ r h', frozenCopy call (VRef l) h = Ret (r, h') →
    (∀ vis h1, deepClone (enough_depth h) (VRef l) ∅ h = Ret (VRef (length h), vis, h1) →
               isFreezable h1 (VRef (length h)) = Ret false) →
    ∃ vis : gmap loc loc,
      twin h vis h' (VRef l) r ∧
      (∀ s1 s2 c, vis !! s1 = Some c → vis !! s2 = Some c → s1 = s2) ∧
      (∀ s c, vis !! s = Some c → length h ≤ c < length h' ∧ mirror h vis h' s c).
Proof.
  intros Hclosed Hkeys Hproto Hl Hnf r h' Hfr Hfz.
  pose proof (frozenCopy_steps call h l Hclosed Hproto Hl Hnf) as Hsteps.
  destruct (deepClone (enough_depth h) (VRef l) ∅ h) as [[[v' vis] h1] | e |] eqn:Hdc;
    [| | done].
  2:{ destruct Hsteps as [_ Hr]. congruence. }
  destruct Hsteps as (Hcl & -> & Hlt & Hunf & Heq).
  specialize (Hfz vis h1 eq_refl). rewrite Heq in Hfr.
  destruct (freeze_traversal_spec call _ h1 r h' Hunf Hfz Hfr) as (-> & Hfo & _).
  pose proof (deepClone_copied h Hclosed Hkeys Hproto (enough_depth h) (VRef l) ∅ h _ _ _
                (copying_init h) Hl Hdc) as Hcd.
  exists vis. split; [| split].
  - eapply twin_frozen; [done |]. apply (d_twin _ _ _ _ _ _ _ Hcd).
  - apply (k_inj _ _ _ (d_copying _ _ _ _ _ _ _ Hcd)).
  - intros s c Hs.
    destruct (d_mirror _ _ _ _ _ _ _ Hcd s c Hs (lookup_empty s)) as [Hge Hm].
    pose proof (c_visited _ _ _ Hcl s c Hs) as Hc.
    destruct Hfo as [Hlen Hsame]. split; [lia |].
    by apply (mirror_frozen h vis h1 h').
Qed.

(** On a store without own property named [freeze], no clone declares a
    custom freeze. *)
Lemma clone_without_freeze h l :
  heap_closed h → proto_free h → no_custom_freeze_in h →
  l < length h → is_function h l = false →
  ∀ vis h1, deepClone (enough_depth h) (VRef l) ∅ h = Ret (VRef (length h), vis, h1) →
            isFreezable h1 (VRef (length h)) = Ret false.
Proof.
  intros Hclosed Hproto Hno Hl Hnf vis h1 Hdc. apply no_freeze_isFreezable.
  pose proof (frozenCopy_steps no_custom_freeze h l Hclosed Hproto Hl Hnf) as Hsteps.
  rewrite Hdc in Hsteps. destruct Hsteps as (Hcl & _).
  by eapply cloning_no_freeze.
Qed.

(** X17: the copy has the shape of the source.  On a store without
    dangling reference, without own property named [freeze], with keys as
    the platform keeps them and in which no record that inherits from
    [Object.prototype] lists [__proto__] among its keys, [frozenCopy] on
    an object that is not a function comes back, with a result as soon
    as no getter throws.  On
    return there is a one-to-one table [vis] from the source objects it
    visited to objects created by the call, the result is the [twin] of
    the argument, and every object of the table is the [mirror] of its
    source: an array, a map or a set holds, position by position, the
    twins of what the source holds, and none of the source's own
    properties; a plain record has the source's enumerable string-keyed
    and all its symbol-keyed properties, in that order, all as enumerable
    data properties holding the twin of what the source reads there; an
    object with a custom prototype has all the source's own properties,
    accessors as they are, under the same prototype.  A twin is the value
    itself for a primitive and for a function (shared, not copied), a new
    date or pattern without own properties for a date or a pattern, and
    the table's entry otherwise, so that sharing and cycles of the source
    are those of the copy. *)
Theorem frozenCopy_mirrors_source call h l :
  heap_closed h → well_keyed h → proto_free h → no_custom_freeze_in h →
  l < length h → is_function h l = false →
  frozenCopy call (VRef l) h ≠ OutOfFuel ∧
  (Forall getters_safe h → ∃ r h', frozenCopy call (VRef l) h = Ret (r, h')) ∧
  ∀ r h', frozenCopy call (VRef l) h = Ret (r, h') →
    ∃ vis : gmap loc loc,
      twin h vis h' (VRef l) r ∧
      (∀ s1 s2 c, vis !! s1 = Some c → vis !! s2 = Some c → s1 = s2) ∧
      (∀ s c, vis !! s = Some c → length h ≤ c < length h' ∧ mirror h vis h' s c).
Proof.
  intros Hclosed Hkeys Hproto Hno Hl Hnf.
  pose proof (clone_without_freeze h l Hclosed Hproto Hno Hl Hnf) as Hfz.
  pose proof (frozenCopy_steps call h l Hclosed Hproto Hl Hnf) as Hsteps.
  split; [| split].
  - destruct (deepClone (enough_depth h) (VRef l) ∅ h) as [[[v' vis] h1] | e |] eqn:Hdc;
      [| | done].
    + destruct Hsteps as (Hcl & -> & Hlt & Hunf & ->).
      by destruct (freeze_traversal_returns call _ h1 Hunf (Hfz vis h1 eq_refl)).
    + destruct Hsteps as [_ ->]. done.
  - intros Hsafe.
    destruct (deepClone (enough_depth h) (VRef l) ∅ h) as [[[v' vis] h1] | e |] eqn:Hdc;
      [| | done].
    + destruct Hsteps as (Hcl & -> & Hlt & Hunf & ->).
      destruct (freeze_traversal_returns call _ h1 Hunf (Hfz vis h1 eq_refl)) as [_ Hret].
      destruct Hret as [h' Hh']; [by eapply cloning_safe | eauto].
    + by destruct Hsteps as [Hunsafe _].
  - intros r h' Hfr. by apply (frozenCopy_table call h l).
Qed.

Lemma frozenCopy_mirrors_witness :
  frozenCopy no_custom_freeze (VRef 0) shared_source = Ret (VRef 3, shared_copy) ∧
  ∃ vis, twin shared_source vis shared_copy (VRef 0) (VRef 3) ∧
         ∀ s c, vis !! s = Some c → mirror shared_source vis shared_copy s c.
Proof.
  assert (frozenCopy no_custom_freeze (VRef 0) shared_source = Ret (VRef 3, shared_copy))
    as Hrun by reflexivity.
  split; [exact Hrun |].
  destruct (frozenCopy_mirrors_source no_custom_freeze shared_source 0
              shared_source_closed shared_source_well_keyed shared_source_proto_free
              shared_source_no_custom_freeze
              ltac:(simpl; lia) eq_refl) as (_ & _ & Hspec).
  destruct (Hspec (VRef 3) shared_copy Hrun) as (vis & Ht & _ & Hm).
  exists vis. split; [done |]. intros s c Hs. by apply Hm.
Defined.

(** ** One copy after the other *)

Lemma cloning_closed h0 vis h :
  cloning h0 vis h → heap_closed h0 → accessors_atomic h0 → heap_closed h.
Proof.
  intros Hcl Hc Hat l v Hv. pose proof (cloning_length _ _ _ Hcl) as Hlen.
  destruct (cloning_cases h0 vis h l Hcl) as [[_ E] | [[Hl Hobj] | [_ E]]].
  - rewrite E in Hv. specialize (Hc l v Hv). destruct v; try done. simpl in *. lia.
  - pose proof (clone_object_values h0 _ _ (accessors_atomic_shared _ Hat) Hobj) as Hvals.
    rewrite Forall_forall in Hvals. specialize (Hvals v Hv).
    destruct v as [| | | | | | | c]; try done. simpl in *.
    destruct Hvals as [? | Hf%function_lt]; lia.
  - rewrite E in Hv. by apply elem_of_nil in Hv.
Qed.

Lemma cloning_atomic h0 vis h :
  cloning h0 vis h → accessors_atomic h0 → accessors_atomic h.
Proof.
  intros Hcl Hat l p c Hp Hslot. rewrite (cloning_function h0 vis h c Hcl).
  destruct (cloning_cases h0 vis h l Hcl) as [[_ E] | [[_ (_ & _ & _ & Hprops)] | [_ E]]].
  - rewrite E in Hp. by eapply Hat.
  - rewrite Forall_forall in Hprops.
    destruct (Hprops p Hp) as ((s & sp & Hsp & _ & [[Hs _] | [v Hs]]) & _); [| congruence].
    eapply Hat; [exact Hsp | congruence].
  - rewrite E in Hp. by apply elem_of_nil in Hp.
Qed.

Lemma freezes_only_atomic h h' :
  freezes_only h h' → accessors_atomic h → accessors_atomic h'.
Proof.
  intros Hfo Hat l p c Hp Hslot. rewrite (freezes_only_is_function h h') by done.
  destruct Hfo as [_ Hd]. destruct (Hd l) as (_ & Hprops & _). rewrite Hprops in Hp.
  by eapply Hat.
Qed.

Lemma cloning_proto_free h0 vis h : cloning h0 vis h → proto_free h0 → proto_free h.
Proof.
  intros Hcl Hpf l p Hk Hp.
  destruct (cloning_cases h0 vis h l Hcl) as [[_ E] | [[_ (_ & _ & _ & Hprops)] | [_ E]]].
  - rewrite E in Hp, Hk. by eapply Hpf.
  - apply list_elem_of_filter in Hp as [_ Hp]. rewrite Forall_forall in Hprops.
    destruct (Hprops p Hp) as (_ & _ & [(_ & _ & _ & Hnp) | [q Hq]]); [auto | congruence].
  - rewrite E in Hp. apply list_elem_of_filter in Hp as [_ Hp]. by apply elem_of_nil in Hp.
Qed.

Lemma freezes_only_proto_free h h' : freezes_only h h' → proto_free h → proto_free h'.
Proof.
  intros [_ Hd] Hpf l p Hk Hp. destruct (Hd l) as (Hkind & Hprops & _).
  apply (Hpf l); [congruence |]. unfold Object_keys in *. by rewrite <- Hprops.
Qed.

Lemma contained_lt h y z :
  heap_closed h → source_value h y → contained h y z → z < length h.
Proof.
  intros Hc Hy (c & -> & Hr). simpl in Hy.
  induction Hr as [| a b x [Hab _] _ IH]; [done |]. apply IH. by apply (Hc a (VRef b)).
Qed.

Lemma frozenCopy_atom call h x :
  (∀ l, x ≠ VRef l) → frozenCopy call x h = Ret (x, h).
Proof.
  intros Hx. unfold frozenCopy, enough_depth.
  destruct x as [| | | | | | | l]; try done. by destruct (Hx l).
Qed.

Lemma tidy_frozenCopy call h x :
  tidy h → source_value h x → (∀ l, x = VRef l → is_function h l = false) →
  frozenCopy call x h ≠ OutOfFuel ∧
  (Forall getters_safe h → ∃ y h', frozenCopy call x h = Ret (y, h')) ∧
  ∀ y h', frozenCopy call x h = Ret (y, h') →
    tidy h' ∧ (Forall getters_safe h → Forall getters_safe h') ∧
    length h ≤ length h' ∧ (∀ s, s < length h → deref h' s = deref h s) ∧
    source_value h' y ∧ (∀ l, is_function h' l = is_function h l) ∧
    copy_in h' (length h) (length h') x y.
Proof.
  intros (Hc & Hno & Hat & Hpf) Hx Hnf.
  assert ((∃ l, x = VRef l) ∨ ∀ l, x ≠ VRef l) as [[l ->] | Hx'].
  { destruct x; eauto. }
  2:{ rewrite (frozenCopy_atom call h x Hx'). split; [done |]. split; [by eauto |].
      intros y h' [= <- <-]. split; [by repeat split |]. do 5 (split; [done |]).
      destruct x as [| | | | | | | l]; try done. by destruct (Hx' l). }
  simpl in Hx. specialize (Hnf l eq_refl).
  pose proof (clone_without_freeze h l Hc Hpf Hno Hx Hnf) as Hfz.
  destruct (frozenCopy_spec call h l Hc Hpf (accessors_atomic_shared _ Hat) Hx Hnf Hfz)
    as (Hfuel & Hret & Hspec).
  split; [done |]. split; [done |]. intros y h' Hfr.
  destruct (Hspec y h' Hfr) as (Hold & _ & -> & Hcr & (vis & h1 & Hdc & Hfo) & Hcont & _ & _).
  pose proof (frozenCopy_steps call h l Hc Hpf Hx Hnf) as Hsteps.
  rewrite Hdc in Hsteps. destruct Hsteps as (Hcl & _ & Hlt & Hunf & Heq).
  assert (heap_closed h') as Hc'.
  { eapply freezes_only_closed; [done |]. by eapply cloning_closed. }
  assert (∀ s, s < length h → deref h' s = deref h s) as Hsame.
  { intros s Hs. specialize (Hold s Hs). unfold deref. by rewrite Hold. }
  split; [| split; [| split; [| split; [| split; [| split]]]]].
  - split; [done |]. split; [| split].
    + eapply freezes_only_no_freeze; [done |]. by eapply cloning_no_freeze.
    + eapply freezes_only_atomic; [done |]. by eapply cloning_atomic.
    + eapply freezes_only_proto_free; [done |]. by eapply cloning_proto_free.
  - intros Hs. eapply freezes_only_getters; [done |]. by eapply cloning_safe.
  - lia.
  - done.
  - simpl. lia.
  - intros f. rewrite (freezes_only_is_function h1 h') by done.
    by apply (cloning_function h vis h1).
  - simpl. exists (length h). split; [done |]. intros z Hz'.
    by destruct (Hcont z Hz') as [Hge Hfz'].
Qed.

(** ** [frozenCopyAll] *)

(** What lies at or below a value does not change when only other
    objects are written. *)
Lemma contained_frame h h' a y :
  heap_closed h → source_value h y →
  (∀ s, s < length h → s ≠ a → deref h' s = deref h s) →
  is_function h a = false →
  (∀ z, contained h y z → z ≠ a) →
  ∀ z, contained h' y z → contained h y z.
Proof.
  intros Hc Hy Hsame Hfa Hna z (c & -> & Hr). revert z Hr.
  apply (rtc_ind_r (fun z => contained h (VRef c) z)).
  - exists c. split; [done | apply rtc_refl].
  - intros z1 z2 _ [Hch Hnf] IH.
    pose proof (contained_lt h _ z1 Hc Hy IH) as Hlt.
    pose proof (Hna z1 IH) as Hne.
    assert (VRef z2 ∈ object_values (deref h z1)) as Hch'.
    { by rewrite <- Hsame. }
    assert (z2 < length h) as Hlt2 by by apply (Hc z1 (VRef z2)).
    assert (is_function h z2 = false) as Hnf'.
    { destruct (decide (z2 = a)) as [-> | Hne2]; [done |].
      unfold is_function in *. by rewrite <- Hsame. }
    destruct IH as (c' & [= <-] & Hr). exists c. split; [done |].
    eapply rtc_r; [done | by split].
Qed.

Lemma heap_closed_app h o :
  heap_closed h → Forall (source_value h) (object_values o) → heap_closed (h ++ [o]).
Proof.
  intros Hc Ho l v Hv.
  assert (source_value h v) as Hs.
  { destruct (decide (l < length h)) as [Hl | Hl].
    - rewrite deref_app_l in Hv by done. by eapply Hc.
    - destruct (decide (l = length h)) as [-> | Hne].
      + rewrite deref_alloc in Hv. rewrite Forall_forall in Ho. by apply Ho.
      + rewrite deref_dangling in Hv by (rewrite length_app; simpl; lia).
        by apply elem_of_nil in Hv. }
  destruct v; try done. simpl in *. rewrite length_app. lia.
Qed.

Lemma accessors_atomic_app h o :
  accessors_atomic h → heap_closed h → o_props o = [] → accessors_atomic (h ++ [o]).
Proof.
  intros Hat Hc Ho l p c Hp Hs.
  destruct (decide (l < length h)) as [Hl | Hl].
  - rewrite deref_app_l in Hp by done.
    pose proof (Hat l p c Hp Hs) as Hf. rewrite is_function_app; [done |].
    by apply function_lt.
  - destruct (decide (l = length h)) as [-> | Hne].
    + rewrite deref_alloc, Ho in Hp. by apply elem_of_nil in Hp.
    + rewrite deref_dangling in Hp by (rewrite length_app; simpl; lia).
      by apply elem_of_nil in Hp.
Qed.

Lemma proto_free_app h o : proto_free h → o_props o = [] → proto_free (h ++ [o]).
Proof.
  intros Hpf Ho l p Hk Hp.
  destruct (decide (l < length h)) as [Hl | Hl].
  - rewrite deref_app_l in Hp, Hk by done. by eapply Hpf.
  - destruct (decide (l = length h)) as [-> | Hne].
    + rewrite deref_alloc in Hp. unfold Object_keys in Hp. rewrite Ho in Hp.
      by apply elem_of_nil in Hp.
    + rewrite deref_dangling in Hp by (rewrite length_app; simpl; lia).
      by apply elem_of_nil in Hp.
Qed.

Lemma tidy_alloc h o :
  tidy h → Forall (source_value h) (object_values o) → o_props o = [] → tidy (h ++ [o]).
Proof.
  intros (Hc & Hno & Hat & Hpf) Hv Hp. split; [by apply heap_closed_app |]. split; [| split].
  - apply no_custom_freeze_app; [done |]. apply Forall_singleton.
    intros p. rewrite Hp. by intros ?%elem_of_nil.
  - by apply accessors_atomic_app.
  - by apply proto_free_app.
Qed.

(** Replacing the contents of an array. *)
Lemma array_insert_spec h a elems elems' :
  heap_closed h → no_custom_freeze_in h → accessors_atomic h →
  a < length h → deref h a = Obj (KArray elems) [] false →
  Forall (source_value h) elems' →
  let h' := <[a := Obj (KArray elems') [] false]> h in
  heap_closed h' ∧ no_custom_freeze_in h' ∧ accessors_atomic h' ∧
  (Forall getters_safe h → Forall getters_safe h') ∧
  (∀ l, is_function h' l = is_function h l) ∧
  (∀ l, l ≠ a → deref h' l = deref h l) ∧
  deref h' a = Obj (KArray elems') [] false.
Proof.
  intros Hc Hno Hat Ha Hobj Hel h'.
  assert (∀ l, l ≠ a → deref h' l = deref h l) as Hne.
  { intros l Hl. unfold h'. by rewrite deref_insert_ne. }
  assert (deref h' a = Obj (KArray elems') [] false) as Heq.
  { unfold h'. by rewrite deref_insert_eq. }
  assert (∀ l, is_function h' l = is_function h l) as Hfun.
  { intros l. unfold is_function. destruct (decide (l = a)) as [-> | Hl].
    - by rewrite Heq, Hobj.
    - by rewrite Hne. }
  assert (length h' = length h) as Hlen by (unfold h'; by rewrite length_insert).
  split; [| split; [| split; [| split; [| done]]]].
  - intros l v Hv. assert (source_value h v) as Hs.
    { destruct (decide (l = a)) as [-> | Hl].
      - rewrite Heq in Hv. unfold object_values in Hv. simpl in Hv.
        rewrite app_nil_r in Hv. rewrite Forall_forall in Hel. by apply Hel.
      - rewrite Hne in Hv by done. by eapply Hc. }
    destruct v; try done. simpl in *. lia.
  - intros l p Hp. destruct (decide (l = a)) as [-> | Hl].
    + rewrite Heq in Hp. by apply elem_of_nil in Hp.
    + rewrite Hne in Hp by done. by eapply Hno.
  - intros l p c Hp Hs. rewrite Hfun. destruct (decide (l = a)) as [-> | Hl].
    + rewrite Heq in Hp. by apply elem_of_nil in Hp.
    + rewrite Hne in Hp by done. by eapply Hat.
  - intros Hs. unfold h'. apply Forall_insert; [done |]. unfold getters_safe. simpl. constructor.
Qed.


Lemma copy_in_frame h h' a lo hi x y :
  heap_closed h → source_value h y → a < lo → hi ≤ length h →
  (∀ s, s < length h → s ≠ a → deref h' s = deref h s) →
  is_function h a = false →
  copy_in h lo hi x y → copy_in h' lo hi x y.
Proof.
  intros Hc Hy Ha Hhi Hsame Hfa. unfold copy_in.
  destruct x as [| | | | | | | l]; try done.
  intros (c & -> & Hin). exists c. split; [done |]. intros z Hz.
  assert (contained h (VRef c) z) as Hz'.
  { eapply (contained_frame h h' a); try done. intros z' Hz'. apply Hin in Hz'. lia. }
  destruct (Hin z Hz') as [Hr Hf]. split; [done |]. rewrite Hsame; [done | lia | lia].
Qed.

Lemma copies_in_frame h h' a xs : ∀ ys lo,
  heap_closed h → a < lo →
  (∀ s, s < length h → s ≠ a → deref h' s = deref h s) → length h ≤ length h' →
  is_function h a = false → Forall (source_value h) ys →
  copies_in h lo xs ys → copies_in h' lo xs ys.
Proof.
  induction xs as [| x xs IH]; intros [| y ys] lo Hc Ha Hsame Hlen Hfa Hys; simpl; try done.
  - lia.
  - apply Forall_cons in Hys as [Hy Hys]. intros (hi & Hlo & Hcp & Hrest).
    assert (hi ≤ length h) as Hhi.
    { clear -Hrest. revert ys hi Hrest.
      induction xs as [| x' xs IH']; intros [| y' ys] hi; simpl; try done.
      intros (hi' & Hle & _ & Hr). apply IH' in Hr. lia. }
    exists hi. split; [done |]. split.
    + by eapply copy_in_frame.
    + apply IH; try done. lia.
Qed.









Lemma nested_source_proto_free : proto_free nested_source.
Proof. apply proto_free_Forall. repeat (constructor; try done). Qed.

Lemma nested_source_getters_safe : Forall getters_safe nested_source.
Proof. unfold getters_safe. repeat (constructor; try done). Qed.

Lemma nested_source_no_function l : is_function nested_source l = false.
Proof. by destruct l as [| [| l]]. Qed.


(** ** [frozenCopyRecord] *)

Lemma copy_in_mono h' lo lo' hi hi' x y :
  lo ≤ lo' → hi' ≤ hi → copy_in h' lo' hi' x y → copy_in h' lo hi x y.
Proof.
  intros Hl Hh. unfold copy_in. destruct x; try done.
  intros (c & -> & Hin). exists c. split; [done |]. intros z Hz.
  destruct (Hin z Hz) as [? ?]. split; [lia | done].
Qed.

Lemma Forall_assign_data (Q : property → Prop) ps name y :
  Forall Q ps → (∀ p, Q p → p_enumerable p = true) → Q (data name y) →
  Forall Q (assign ps (PStr name) y).
Proof.
  intros Hps Hen Hq. apply Forall_assign_gen; [done |].
  intros e [-> | (p & Hp & _ & <-)]; [done |].
  rewrite Forall_forall in Hps. by rewrite (Hen p (Hps p Hp)).
Qed.

(** Replacing the properties of a record by data properties keeps the
    store tidy. *)
Lemma tidy_record_insert h a ps ps' :
  tidy h → a < length h → deref h a = Obj (KPlain false) ps false →
  Forall (fun p => ∃ name v, p = data name v ∧ name ≠ "freeze" ∧ name ≠ "__proto__" ∧
                              source_value h v) ps' →
  let h' := <[a := Obj (KPlain false) ps' false]> h in
  tidy h' ∧ (Forall getters_safe h → Forall getters_safe h') ∧
  (∀ l, is_function h' l = is_function h l).
Proof.
  intros (Hc & Hno & Hat & Hpf) Ha Hobj Hps h'. rewrite Forall_forall in Hps.
  assert (∀ l, l ≠ a → deref h' l = deref h l) as Hne.
  { intros l Hl. unfold h'. by rewrite deref_insert_ne. }
  assert (deref h' a = Obj (KPlain false) ps' false) as Heq.
  { unfold h'. by rewrite deref_insert_eq. }
  assert (∀ l, is_function h' l = is_function h l) as Hfun.
  { intros l. unfold is_function. destruct (decide (l = a)) as [-> | Hl].
    - by rewrite Heq, Hobj.
    - by rewrite Hne. }
  assert (length h' = length h) as Hlen by (unfold h'; by rewrite length_insert).
  split; [| split; [| done]].
  - split; [| split; [| split]].
    + intros l v Hv. assert (source_value h v) as Hs.
      { destruct (decide (l = a)) as [-> | Hl].
        - rewrite Heq in Hv. unfold object_values in Hv. simpl in Hv.
          apply list_elem_of_In, in_flat_map in Hv as (p & Hp%list_elem_of_In & Hv%list_elem_of_In).
          destruct (Hps p Hp) as (name & w & -> & _ & _ & Hw). simpl in Hv.
          by apply list_elem_of_singleton in Hv as ->.
        - rewrite Hne in Hv by done. by eapply Hc. }
      destruct v; try done. simpl in *. lia.
    + intros l p Hp. destruct (decide (l = a)) as [-> | Hl].
      * rewrite Heq in Hp. simpl in Hp. destruct (Hps p Hp) as (name & w & -> & Hn & _).
        simpl. congruence.
      * rewrite Hne in Hp by done. by eapply Hno.
    + intros l p c Hp Hs. rewrite Hfun. destruct (decide (l = a)) as [-> | Hl].
      * rewrite Heq in Hp. simpl in Hp. by destruct (Hps p Hp) as (name & w & -> & _).
      * rewrite Hne in Hp by done. by eapply Hat.
    + intros l p Hk Hp. destruct (decide (l = a)) as [-> | Hl].
      * apply list_elem_of_filter in Hp as [_ Hp]. rewrite Heq in Hp. simpl in Hp.
        destruct (Hps p Hp) as (name & w & -> & _ & Hn & _). simpl. congruence.
      * rewrite Hne in Hp, Hk by done. by apply (Hpf l).
  - intros Hs. unfold h'. apply Forall_insert; [done |]. unfold getters_safe. simpl.
    apply Forall_forall. intros p Hp. by destruct (Hps p Hp) as (name & w & -> & _).
Qed.

Lemma copied_property_frame o h h' a p :
  heap_closed h → is_function h a = false → length h ≤ length h' →
  (∀ s, s < length h → s ≠ a → deref h' s = deref h s) →
  copied_property o h (S a) p → copied_property o h' (S a) p.
Proof.
  intros Hc Hfa Hlen Hsame (name & x & y & -> & Hn & Hr & Hy & Hcp).
  exists name, x, y. split; [done |]. split; [done |]. split; [done |]. split.
  - destruct y; try done. simpl in *. lia.
  - eapply copy_in_mono; [| exact Hlen |]; [done |].
    eapply (copy_in_frame h h' a); try done. lia.
Qed.

Lemma copy_values_spec call o record a names : ∀ h ps,
  tidy h → record < a → a < length h →
  deref h a = Obj (KPlain false) ps false → deref h record = o →
  (∀ name, name ∈ names → name ∈ key_names o) → "__proto__" ∉ key_names o →
  (∀ name l, name ∈ key_names o → read_named o name = Ret (VRef l) →
             is_function h l = false) →
  Forall (copied_property o h (S a)) ps →
  copy_values call record a names h ≠ OutOfFuel ∧
  (Forall getters_safe h → ∃ h', copy_values call record a names h = Ret h') ∧
  ∀ h', copy_values call record a names h = Ret h' →
    length h ≤ length h' ∧
    (∀ s, s < length h → s ≠ a → deref h' s = deref h s) ∧
    ∃ ps', deref h' a = Obj (KPlain false) ps' false ∧
           Forall (copied_property o h' (S a)) ps' ∧
           ∀ k, (∃ p, p ∈ ps ∧ p_key p = k) ∨ (∃ name, name ∈ names ∧ k = PStr name) →
                ∃ p, p ∈ ps' ∧ p_key p = k.
Proof.
  induction names as [| name names IH]; intros h ps Ht Hra Ha Hobj Hrec Hnames Hnp Hnf Hps.
  { simpl. split; [done |]. split; [by eauto |]. intros h' [= <-].
    split; [done |]. split; [done |]. exists ps. split; [done |]. split; [done |].
    intros k [? | (name & Hn & _)]; [done | by apply elem_of_nil in Hn]. }
  pose proof Ht as (Hc & Hno & Hat & Hpf).
  assert (name ∈ key_names o) as Hname by (apply Hnames; by left).
  assert (name ≠ "__proto__") as Hnoproto by (by intros ->).
  assert (name ≠ "freeze") as Hnofr.
  { intros ->. eapply (key_names_not_freeze o); [| done].
    intros p Hp. rewrite <- Hrec in Hp. by eapply Hno. }
  assert (get_named h record name = read_named o name) as Hget.
  { rewrite get_named_read; by rewrite Hrec. }
  cbn [copy_values]. rewrite Hget.
  destruct (read_named o name) as [x | e |] eqn:Hread; cbn [bind].
  2: { split; [done |]. split; [| done]. intros Hsafe.
       destruct (read_named_safe o name) as [y Hy]; [rewrite <- Hrec; by apply deref_safe |].
       congruence. }
  2: { by apply read_named_fuel in Hread. }
  assert (source_value h x) as Hx.
  { apply (read_named_source h record name); [done | by rewrite Hrec]. }
  assert (∀ l, x = VRef l → is_function h l = false) as Hxf.
  { intros l ->. by eapply Hnf. }
  destruct (tidy_frozenCopy call h x Ht Hx Hxf) as (Hfuel & Hret & Hspec).
  assert (∀ y h1, frozenCopy call x h = Ret (y, h1) →
            let ps2 := assign ps (PStr name) y in
            let h2 := <[a := Obj (KPlain false) ps2 false]> h1 in
            put_value h1 a (PStr name) y = Ret h2 ∧
            tidy h2 ∧ length h2 = length h1 ∧ length h ≤ length h1 ∧
            (Forall getters_safe h → Forall getters_safe h2) ∧
            (∀ s, s < length h → s ≠ a → deref h2 s = deref h s) ∧
            deref h2 a = Obj (KPlain false) ps2 false ∧
            (∀ l, is_function h2 l = is_function h l) ∧
            Forall (copied_property o h2 (S a)) ps2) as Hstep.
  { intros y h1 Hfr ps2 h2.
    destruct (Hspec y h1 Hfr) as (Ht1 & Hs1 & Hlen & Hsame & Hy & Hfun & Hcp).
    assert (deref h1 a = Obj (KPlain false) ps false) as Hobj1 by by rewrite Hsame.
    assert (length h2 = length h1) as Hlen2 by (unfold h2; by rewrite length_insert).
    assert (is_function h a = false) as Hfa by (unfold is_function; by rewrite Hobj).
    assert (is_function h1 a = false) as Hfa1 by (unfold is_function; by rewrite Hobj1).
    assert (∀ s, s < length h1 → s ≠ a → deref h2 s = deref h1 s) as Hfr2.
    { intros s _ Hne. unfold h2. by rewrite deref_insert_ne. }
    assert (Forall (copied_property o h1 (S a)) ps2) as Hps1.
    { apply Forall_assign_data.
      - eapply Forall_impl; [exact Hps |]. intros p.
        apply (copied_property_frame o h h1 a); try done. intros s Hs _. by apply Hsame.
      - by intros p (n & x0 & y0 & -> & _).
      - exists name, x, y. split; [done |]. split; [done |]. split; [done |].
        split; [done |]. eapply copy_in_mono; [| | exact Hcp]; lia. }
    destruct (tidy_record_insert h1 a ps ps2 Ht1) as (Ht2 & Hs2 & Hfun2); [lia | done | |].
    { eapply Forall_impl; [exact Hps1 |]. intros p (n & x0 & y0 & -> & Hn & _ & Hy0 & _).
      exists n, y0. split; [done |]. split; [| split; [by intros -> | done]].
      intros ->. eapply (key_names_not_freeze o); [| done].
      intros q Hq. rewrite <- Hrec in Hq. by eapply Hno. }
    split.
    { rewrite put_value_plain.
      - unfold set_property. by rewrite Hobj1.
      - rewrite Hobj1. by exists false.
      - intros _. congruence.
      - rewrite Hobj1. simpl. eapply Forall_impl; [exact Hps |].
        intros p (n & x0 & y0 & -> & _). simpl. eauto.
      - by rewrite Hobj1. }
    split; [done |]. split; [done |]. split; [done |]. split; [by auto |].
    split.
    { intros s Hs Hne. rewrite Hfr2 by (done || lia). by apply Hsame. }
    split; [unfold h2; rewrite deref_insert_eq; [done | lia] |].
    split; [intros l; by rewrite Hfun2, Hfun |].
    eapply Forall_impl; [exact Hps1 |]. intros p.
    apply (copied_property_frame o h1 h2 a); try done; [apply Ht1 | lia]. }
  split; [| split].
  - destruct (frozenCopy call x h) as [[y h1] | e |] eqn:Hfr; cbn [bind fst snd]; try done.
    destruct (Hstep y h1 eq_refl) as (-> & Ht2 & Hl2 & Hl1 & Hs2 & Hsame & Ha2 & Hfun & Hps2).
    cbn [bind]. apply (IH _ (assign ps (PStr name) y)); try done.
    + lia.
    + rewrite Hsame; [done | lia | lia].
    + intros n Hn. apply Hnames. by right.
    + intros n l Hn Hr. rewrite Hfun. by eapply Hnf.
  - intros Hsafe. destruct (Hret Hsafe) as (y & h1 & Hfr). rewrite Hfr. cbn [bind fst snd].
    destruct (Hstep y h1 Hfr) as (-> & Ht2 & Hl2 & Hl1 & Hs2 & Hsame & Ha2 & Hfun & Hps2).
    cbn [bind]. apply (IH _ (assign ps (PStr name) y)); try done.
    + lia.
    + rewrite Hsame; [done | lia | lia].
    + intros n Hn. apply Hnames. by right.
    + intros n l Hn Hr. rewrite Hfun. by eapply Hnf.
    + by auto.
  - intros h'. destruct (frozenCopy call x h) as [[y h1] | e |] eqn:Hfr; cbn [bind fst snd];
      try done.
    destruct (Hstep y h1 eq_refl) as (-> & Ht2 & Hl2 & Hl1 & Hs2 & Hsame & Ha2 & Hfun & Hps2).
    cbn [bind]. intros Hrest.
    destruct (IH _ (assign ps (PStr name) y) Ht2) as (_ & _ & Hspec'); try done.
    + lia.
    + rewrite Hsame; [done | lia | lia].
    + intros n Hn. apply Hnames. by right.
    + intros n l Hn Hr. rewrite Hfun. by eapply Hnf.
    + destruct (Hspec' h' Hrest) as (Hlen' & Hsame' & ps' & Harr & Hps' & Hkeys).
      split; [lia |]. split.
      { intros s Hs Hne. rewrite Hsame' by (done || lia). by apply Hsame. }
      exists ps'. split; [done |]. split; [done |].
      intros k Hk. apply Hkeys.
      destruct Hk as [Hk | (n & [-> | Hn]%elem_of_cons & ->)].
      * left. apply assign_keys. by left.
      * left. apply assign_keys. by right.
      * right. by exists n.
Qed.

(** X19: [frozenCopyRecord] on a store without dangling reference,
    without own property named [freeze], without getter that yields a
    container and without enumerable own key [__proto__] on an object whose
    prototype is [Object.prototype], applied to an object that has no
    enumerable own key [__proto__] and none of whose keys reads a
    function.  It comes back (with a result as soon as no getter throws)
    and returns a new plain record, itself not frozen; the objects that
    existed before are untouched.  The record has exactly the names
    [Object.keys] lists for the argument, each an enumerable data
    property: a primitive value is kept, an object is replaced by a new
    object such that every container at or below it, through elements,
    keys and values of entries, members and properties under string and
    symbol keys alike, is new and frozen. *)
Theorem frozenCopyRecord_copies_values call record h :
  heap_closed h → no_custom_freeze_in h → accessors_atomic h → proto_free h →
  record < length h →
  let o := deref h record in
  "__proto__" ∉ key_names o →
  (∀ name l, name ∈ key_names o → read_named o name = Ret (VRef l) →
             is_function h l = false) →
  frozenCopyRecord call record h ≠ OutOfFuel ∧
  (Forall getters_safe h → ∃ h', frozenCopyRecord call record h = Ret (VRef (length h), h')) ∧
  ∀ r h', frozenCopyRecord call record h = Ret (r, h') →
    r = VRef (length h) ∧
    (∀ s, s < length h → h' !! s = h !! s) ∧
    ∃ ps, deref h' (length h) = Obj (KPlain false) ps false ∧
      (∀ name, name ∈ key_names o →
         ∃ x y, read_named o name = Ret x ∧
                own_property (Obj (KPlain false) ps false) (PStr name) = Some (data name y) ∧
                copy_in h' (S (length h)) (length h') x y) ∧
      (∀ p, p ∈ ps → ∃ name, name ∈ key_names o ∧ p_key p = PStr name).
Proof.
  intros Hc Hno Hat Hpf Hrec o Hnp Hnf. unfold frozenCopyRecord, alloc. simpl.
  rewrite deref_app_l by done. fold o.
  set (h0 := h ++ [fresh (KPlain false)]).
  assert (tidy h0) as Ht0.
  { apply tidy_alloc; [done | | done]. unfold object_values. simpl. constructor. }
  assert (length h0 = S (length h)) as Hl0.
  { unfold h0. rewrite length_app. simpl. lia. }
  destruct (copy_values_spec call o record (length h) (key_names o) h0 [] Ht0)
    as (Hfuel & Hret & Hspec).
  - done.
  - lia.
  - unfold h0. by rewrite deref_alloc.
  - unfold h0. by rewrite deref_app_l.
  - done.
  - done.
  - intros name l Hn Hr. pose proof (Hnf name l Hn Hr) as Hf.
    unfold h0. rewrite is_function_app; [done |].
    apply (read_named_source h record name) in Hr; done.
  - constructor.
  - split; [| split].
    + by destruct (copy_values call record (length h) (key_names o) h0).
    + intros Hs. destruct Hret as [h' ->]; [| by eexists].
      unfold h0. apply getters_safe_app; [done |]. apply Forall_singleton.
      unfold getters_safe. simpl. constructor.
    + intros r h'.
      destruct (copy_values call record (length h) (key_names o) h0) as [h1 | e |] eqn:Hrun;
        simpl; try done.
      intros [= <- <-]. split; [done |].
      destruct (Hspec h1 eq_refl) as (Hlen & Hsame & ps & Harr & Hps & Hkeys).
      split.
      { intros s Hs. rewrite (lookup_deref h1 s) by lia. rewrite (lookup_deref h s) by done.
        f_equal. rewrite Hsame by lia. unfold h0. by rewrite deref_app_l. }
      exists ps. split; [done |]. rewrite Forall_forall in Hps. split.
      * intros name Hname.
        destruct (Hkeys (PStr name)) as (p & Hp & Hk); [right; by exists name |].
        destruct (own_property_some (Obj (KPlain false) ps false) (PStr name) p Hp Hk)
          as [q Hq].
        pose proof (own_property_elem _ _ _ Hq) as [Hqin Hqk]. simpl in Hqin.
        destruct (Hps q Hqin) as (n & x & y & -> & Hn & Hr & _ & Hcp).
        simpl in Hqk. injection Hqk as ->.
        exists x, y. split; [done |]. split; [done | done].
      * intros p Hp. destruct (Hps p Hp) as (n & x & y & -> & Hn & _). by exists n.
Qed.

Lemma frozenCopyRecord_witness :
  ∃ h' ps y,
    frozenCopyRecord no_custom_freeze 0 nested_source = Ret (VRef 2, h') ∧
    deref h' 2 = Obj (KPlain false) ps false ∧
    own_property (Obj (KPlain false) ps false) (PStr "nested") = Some (data "nested" y) ∧
    copy_in h' 3 (length h') (VRef 1) y.
Proof.
  destruct (frozenCopyRecord_copies_values no_custom_freeze 0 nested_source
              nested_source_closed nested_source_no_custom_freeze
              nested_source_accessors_atomic nested_source_proto_free)
    as (_ & Hret & Hspec).
  - simpl. lia.
  - unfold key_names. simpl. rewrite !elem_of_cons, elem_of_nil. by intros [? | [? | ?]].
  - intros name l _ _. apply nested_source_no_function.
  - destruct (Hret nested_source_getters_safe) as [h' Hrun].
    destruct (Hspec _ _ Hrun) as (_ & _ & ps & Hobj & Hnames & _).
    destruct (Hnames "nested") as (x & y & Hx & Hown & Hcp).
    { unfold key_names. simpl. rewrite elem_of_cons, elem_of_cons. auto. }
    injection Hx as <-.
    exists h', ps, y. split; [exact Hrun |]. split; [exact Hobj |]. split; [exact Hown |].
    exact Hcp.
Defined.

(** ** The clone engine writes into new objects only *)

Lemma apart_refl h : heap_closed h → no_custom_freeze_in h → accessors_atomic h → apart h h.
Proof.
  intros Hc Hno Hat. split; [done |]. split; [done |]. do 3 (split; [done |]).
  intros c v Hc' Hv. rewrite deref_dangling in Hv by done. by apply elem_of_nil in Hv.
Qed.

Lemma apart_function h0 h l : apart h0 h → is_function h0 l = true → is_function h l = true.
Proof.
  intros (_ & Hsame & _) Hf. pose proof (function_lt _ _ Hf). unfold is_function in *.
  by rewrite Hsame.
Qed.

Lemma fresh_or_function_mono h0 h h' v :
  fresh_or_function h0 h v → length h ≤ length h' →
  (∀ l, l < length h → is_function h' l = is_function h l) → fresh_or_function h0 h' v.
Proof.
  intros [Hs Hn] Hlen Hf. split.
  - destruct v; try done. simpl in *. lia.
  - intros l -> Hnf. apply (Hn l); [done |]. simpl in Hs. by rewrite <- Hf.
Qed.

Lemma table_fresh_mono h0 vis h h' :
  table_fresh h0 vis h → length h ≤ length h' → table_fresh h0 vis h'.
Proof. intros Ht Hlen s c Hs. specialize (Ht s c Hs). lia. Qed.

Lemma apart_alloc h0 h k :
  apart h0 h → kind_values k = [] → apart h0 (h ++ [fresh k]).
Proof.
  intros (Hlen & Hsame & Hc & Hno & Hat & Hnew) Hk.
  split; [rewrite length_app; lia |]. split.
  { intros s Hs. rewrite deref_app_l by lia. by apply Hsame. }
  split.
  { apply heap_closed_app; [done |]. unfold object_values. simpl. rewrite Hk. constructor. }
  split.
  { apply no_custom_freeze_app; [done |]. apply Forall_singleton. simpl.
    by intros p ?%elem_of_nil. }
  split; [by apply accessors_atomic_app |].
  intros c v Hc' Hv. destruct (decide (c < length h)) as [Hlt | Hge].
  - rewrite deref_app_l in Hv by done.
    eapply fresh_or_function_mono; [by eapply Hnew | rewrite length_app; lia |].
    intros l Hl. by apply is_function_app.
  - destruct (decide (c = length h)) as [-> | Hne].
    + rewrite deref_alloc in Hv. unfold object_values in Hv. simpl in Hv. rewrite Hk in Hv.
      by apply elem_of_nil in Hv.
    + rewrite deref_dangling in Hv by (rewrite length_app; simpl; lia).
      by apply elem_of_nil in Hv.
Qed.

(** A write into a new object that brings in no container of [h0]. *)
Lemma apart_insert h0 h c o' :
  apart h0 h → length h0 ≤ c < length h →
  (o_kind o' = KFunction ↔ o_kind (deref h c) = KFunction) →
  (∀ v, v ∈ object_values o' → v ∈ object_values (deref h c) ∨ fresh_or_function h0 h v) →
  (∀ p, p ∈ o_props o' → p_key p ≠ PStr "freeze") →
  (∀ p f, p ∈ o_props o' → p_slot p = Accessor (Some (VRef f)) → is_function h f = true) →
  apart h0 (<[c := o']> h) ∧ length (<[c := o']> h) = length h ∧
  ∀ s, s ≠ c → deref (<[c := o']> h) s = deref h s.
Proof.
  intros (Hlen & Hsame & Hc & Hno & Hat & Hnew) Hr Hk Hv Hf Ha.
  set (h' := <[c := o']> h).
  assert (length h' = length h) as Hlen' by (unfold h'; by rewrite length_insert).
  assert (∀ s, s ≠ c → deref h' s = deref h s) as Hne.
  { intros s Hs. unfold h'. by rewrite deref_insert_ne. }
  assert (deref h' c = o') as Heq by (unfold h'; rewrite deref_insert_eq; [done | lia]).
  assert (∀ l, is_function h' l = is_function h l) as Hfun.
  { intros l. unfold is_function. destruct (decide (l = c)) as [-> | Hl]; [| by rewrite Hne].
    rewrite Heq. destruct Hk as [H1 H2].
    destruct (o_kind o'), (o_kind (deref h c)); try done;
      (by specialize (H1 eq_refl) || by specialize (H2 eq_refl)). }
  assert (∀ v, fresh_or_function h0 h v → fresh_or_function h0 h' v) as Hmono.
  { intros v Hfv. eapply fresh_or_function_mono; [done | lia | auto]. }
  assert (∀ l v, v ∈ object_values (deref h' l) →
                 v ∈ object_values (deref h l) ∨ (l = c ∧ fresh_or_function h0 h v)) as Hvals.
  { intros l v Hin. destruct (decide (l = c)) as [-> | Hl].
    - rewrite Heq in Hin. destruct (Hv v Hin); auto.
    - rewrite Hne in Hin by done. by left. }
  split; [| done]. split; [lia |]. split.
  { intros s Hs. rewrite Hne by lia. by apply Hsame. }
  split.
  { intros l v Hin. assert (source_value h v) as Hs.
    { destruct (Hvals l v Hin) as [Hold | [_ [Hs _]]]; [by eapply Hc | done]. }
    destruct v; try done. simpl in *. lia. }
  split.
  { intros l p Hp. destruct (decide (l = c)) as [-> | Hl].
    - rewrite Heq in Hp. by apply Hf.
    - rewrite Hne in Hp by done. by eapply Hno. }
  split.
  { intros l p f Hp Hs. rewrite Hfun. destruct (decide (l = c)) as [-> | Hl].
    - rewrite Heq in Hp. by eapply Ha.
    - rewrite Hne in Hp by done. by eapply Hat. }
  intros c' v Hc' Hin. apply Hmono.
  destruct (Hvals c' v Hin) as [Hold | [_ Hfv]]; [by eapply Hnew | done].
Qed.

Lemma set_element_apart h0 h c i x h' :
  apart h0 h → length h0 ≤ c < length h → fresh_or_function h0 h x →
  set_element h c i x = Ret h' →
  apart h0 h' ∧ length h' = length h ∧ ∀ s, s ≠ c → deref h' s = deref h s.
Proof.
  intros Hap Hc Hx. unfold set_element.
  destruct (o_frozen (deref h c)); [done |].
  pose proof Hap as (_ & _ & _ & Hno & Hat & _).
  destruct (o_kind (deref h c)) eqn:Ek; intros [= <-]; try done.
  apply apart_insert; try done.
  - by rewrite Ek.
  - intros v. unfold object_values. simpl. rewrite Ek. simpl. rewrite !elem_of_app.
    intros [[Hv | [-> | ->]]%elem_of_store_element | Hv]; auto.
    right. split; [done |]. by intros l [=].
  - simpl. intros p Hp. by eapply Hno.
  - simpl. intros p f Hp Hs. by eapply Hat.
Qed.

Lemma Map_set_apart h0 h c k x :
  apart h0 h → length h0 ≤ c < length h →
  fresh_or_function h0 h k → fresh_or_function h0 h x →
  apart h0 (Map_set h c k x) ∧ length (Map_set h c k x) = length h ∧
  ∀ s, s ≠ c → deref (Map_set h c k x) s = deref h s.
Proof.
  intros Hap Hc Hk Hx. unfold Map_set.
  pose proof Hap as (_ & _ & _ & Hno & Hat & _).
  destruct (o_kind (deref h c)) eqn:Ek; try done.
  apply apart_insert; try done.
  - by rewrite Ek.
  - intros v. unfold object_values. simpl. rewrite Ek. simpl. rewrite !elem_of_app.
    intros [[Hv | [-> | ->]]%elem_of_key_then_value_store | Hv]; auto.
  - simpl. intros p Hp. by eapply Hno.
  - simpl. intros p f Hp Hs. by eapply Hat.
Qed.

Lemma Set_add_apart h0 h c x :
  apart h0 h → length h0 ≤ c < length h → fresh_or_function h0 h x →
  apart h0 (Set_add h c x) ∧ length (Set_add h c x) = length h ∧
  ∀ s, s ≠ c → deref (Set_add h c x) s = deref h s.
Proof.
  intros Hap Hc Hx. unfold Set_add.
  pose proof Hap as (_ & _ & _ & Hno & Hat & _).
  destruct (o_kind (deref h c)) eqn:Ek; try done.
  case_bool_decide; [done |].
  apply apart_insert; try done.
  - by rewrite Ek.
  - intros v. unfold object_values. simpl. rewrite Ek. simpl. rewrite !elem_of_app.
    rewrite list_elem_of_singleton. intros [[Hv | ->] | Hv]; auto.
  - simpl. intros p Hp. by eapply Hno.
  - simpl. intros p f Hp Hs. by eapply Hat.
Qed.

Lemma props_insert_apart h0 h c ps q :
  apart h0 h → length h0 ≤ c < length h →
  Forall (fun p => p ∈ o_props (deref h c) ∨ (p_key p = p_key q ∧ p_slot p = p_slot q)) ps →
  p_key q ≠ PStr "freeze" →
  Forall (fresh_or_function h0 h) (slot_values (p_slot q)) →
  (∀ f, p_slot q = Accessor (Some (VRef f)) → is_function h f = true) →
  let h' := <[c := with_props (deref h c) ps]> h in
  apart h0 h' ∧ length h' = length h ∧ ∀ s, s ≠ c → deref h' s = deref h s.
Proof.
  intros Hap Hc Hps Hk Hx Hacc. pose proof Hap as (_ & _ & _ & Hno & Hat & _).
  rewrite Forall_forall in Hps. rewrite Forall_forall in Hx.
  apply apart_insert; try done.
  - intros v. unfold object_values. simpl. rewrite !elem_of_app. intros [Hv | Hv]; [auto |].
    apply elem_of_flat_slot_values in Hv as (p & Hp & Hv).
    destruct (Hps p Hp) as [Hold | [_ Hs]].
    + left. right. apply elem_of_flat_slot_values. by exists p.
    + rewrite Hs in Hv. right. by apply Hx.
  - simpl. intros p Hp. destruct (Hps p Hp) as [Hold | [-> _]]; [by eapply Hno | done].
  - simpl. intros p f Hp Hs. destruct (Hps p Hp) as [Hold | [_ Hs']]; [by eapply Hat |].
    apply Hacc. congruence.
Qed.

Lemma set_property_apart h0 h c k x h' :
  apart h0 h → length h0 ≤ c < length h → fresh_or_function h0 h x → k ≠ PStr "freeze" →
  set_property h c k x = Ret h' →
  apart h0 h' ∧ length h' = length h ∧ ∀ s, s ≠ c → deref h' s = deref h s.
Proof.
  intros Hap Hc Hx Hk. unfold set_property. destruct (o_frozen (deref h c)); [done |].
  intros [= <-].
  apply (props_insert_apart h0 h c _ (Prop_ k true (Data x))); try done.
  - apply Forall_assign_gen; [apply Forall_forall; auto |]. intros e _. by right.
  - simpl. by apply Forall_singleton.
Qed.

Lemma defineProperty_apart h0 h c q h' :
  apart h0 h → length h0 ≤ c < length h →
  p_key q ≠ PStr "freeze" →
  Forall (fresh_or_function h0 h) (slot_values (p_slot q)) →
  (∀ f, p_slot q = Accessor (Some (VRef f)) → is_function h f = true) →
  defineProperty h c q = Ret h' →
  apart h0 h' ∧ length h' = length h ∧ ∀ s, s ≠ c → deref h' s = deref h s.
Proof.
  intros Hap Hc Hk Hx Hacc. unfold defineProperty. destruct (o_frozen (deref h c)); [done |].
  intros [= <-].
  apply (props_insert_apart h0 h c _ q); try done.
  apply Forall_define; [apply Forall_forall; auto | by right].
Qed.

Lemma set_prototype_apart h0 h c x h' :
  apart h0 h → length h0 ≤ c < length h → set_prototype h c x = Ret h' →
  apart h0 h' ∧ length h' = length h ∧ ∀ s, s ≠ c → deref h' s = deref h s.
Proof.
  intros Hap Hc Hset. pose proof Hap as (_ & _ & _ & Hno & Hat & _).
  assert (h' = h ∨ ∃ k, h' = <[c := with_kind (deref h c) k]> h ∧ kind_values k = [] ∧
                        k ≠ KFunction ∧ kind_values (o_kind (deref h c)) = [] ∧
                        o_kind (deref h c) ≠ KFunction) as [-> | (k & -> & Hk & Hkf & Hk0 & Hkf0)].
  { unfold set_prototype, link in Hset.
    destruct (o_kind (deref h c)) eqn:Ek; simplify_eq; auto;
      repeat case_match; simplify_eq; auto; right; eexists; (split; [reflexivity |]); done. }
  { done. }
  apply apart_insert; try done.
  - intros v. unfold object_values. simpl. rewrite Hk, Hk0. auto.
  - simpl. intros p Hp. by eapply Hno.
  - simpl. intros p f Hp Hs. by eapply Hat.
Qed.

Lemma put_value_apart h0 h c k x h' :
  apart h0 h → length h0 ≤ c < length h → fresh_or_function h0 h x → k ≠ PStr "freeze" →
  put_value h c k x = Ret h' →
  apart h0 h' ∧ length h' = length h ∧ ∀ s, s ≠ c → deref h' s = deref h s.
Proof.
  intros Hap Hc Hx Hk. unfold put_value.
  destruct (resolve (S (length h)) h c k) as [holder p | |].
  - destruct (p_slot p); [| done]. destruct (o_frozen (deref h holder)); [done |].
    by apply set_property_apart.
  - by apply set_prototype_apart.
  - by apply set_property_apart.
Qed.

Lemma source_props h0 l :
  heap_closed h0 → no_custom_freeze_in h0 → accessors_atomic h0 →
  Forall (source_property h0) (o_props (deref h0 l)).
Proof.
  intros Hc Hno Hat. apply Forall_forall. intros p Hp. split; [by eapply Hno |]. split.
  - apply Forall_forall. intros v Hv. apply (Hc l). unfold object_values.
    apply elem_of_app. right. apply elem_of_flat_slot_values. by exists p.
  - intros f Hs. by eapply Hat.
Qed.

Lemma source_fresh_or_function h0 h p :
  apart h0 h → source_property h0 p → (∃ g, p_slot p = Accessor g) →
  Forall (fresh_or_function h0 h) (slot_values (p_slot p)) ∧
  ∀ f, p_slot p = Accessor (Some (VRef f)) → is_function h f = true.
Proof.
  intros Hap (_ & Hv & Hf) [g Hg]. rewrite Hg in *. split.
  - destruct g as [v |]; simpl; [| constructor]. apply Forall_singleton.
    apply Forall_singleton in Hv. destruct v as [| | | | | | | f]; try (split; [done |]; by intros l [=]).
    pose proof (apart_function h0 h f Hap (Hf f eq_refl)) as Hfun.
    split; [by apply function_lt |]. intros l [= <-]. congruence.
  - intros f [= ->]. apply (apart_function h0); [done |]. by apply Hf.
Qed.

Section KeepsApart.

Variables (h0 : heap) (rec : cloner).
Hypothesis Hrec : keeps_apart h0 rec.

Lemma fills_done clone vis h :
  apart h0 h → table_fresh h0 vis h → fills_apart h0 clone vis h (Ret (vis, h)).
Proof. by intros Hap Ht vis' h' [= <- <-]. Qed.

(** One recursive call inside a loop for [clone], followed by [k]. *)
Lemma fills_call clone vis h x (k : value * gmap loc loc * heap → res (gmap loc loc * heap)) :
  apart h0 h → table_fresh h0 vis h → source_value h0 x →
  (∀ x' vis1 h1, apart h0 h1 → table_fresh h0 vis1 h1 → length h ≤ length h1 →
                 fresh_or_function h0 h1 x' →
                 fills_apart h0 clone vis1 h1 (k (x', vis1, h1))) →
  fills_apart h0 clone vis h (bind (rec x vis h) k).
Proof.
  intros Hap Ht Hx Hk vis' h' Hrun.
  apply bind_Ret in Hrun as ([[x' vis1] h1] & Hr & Hrun).
  destruct (Hrec _ _ _ _ _ _ Hap Ht Hx Hr) as (Hap1 & Ht1 & Hlen & Hx' & Hframe).
  destruct (Hk x' vis1 h1 Hap1 Ht1 Hlen Hx' vis' h' Hrun) as (Hap' & Ht' & Hlen' & Hframe').
  split; [done |]. split; [done |]. split; [lia |].
  intros c Hlt Hne. rewrite Hframe' by (done || lia). by apply Hframe.
Qed.

(** A write into [clone] inside a loop, followed by the rest [r]. *)
Lemma fills_write clone vis h h1 r :
  length h1 = length h → (∀ s, s ≠ clone → deref h1 s = deref h s) →
  fills_apart h0 clone vis h1 r → fills_apart h0 clone vis h r.
Proof.
  intros Hlen Hframe Hr vis' h' Hrun. destruct (Hr vis' h' Hrun) as (Hap & Ht & Hl & Hf).
  split; [done |]. split; [done |]. split; [lia |].
  intros c Hc Hne. rewrite Hf by (done || lia). by apply Hframe.
Qed.

Lemma clone_elements_apart clone elems : ∀ i vis h,
  apart h0 h → table_fresh h0 vis h → length h0 ≤ clone < length h →
  Forall (source_value h0) elems →
  fills_apart h0 clone vis h (clone_elements rec clone elems i vis h).
Proof.
  induction elems as [| x elems IH]; intros i vis h Hap Ht Hc Hsrc; simpl.
  - by apply fills_done.
  - apply Forall_cons in Hsrc as [Hx Hsrc]. apply fills_call; try done.
    intros x' vis1 h1 Hap1 Ht1 Hlen Hx'. simpl.
    destruct (set_element h1 clone i x') as [h2 | |] eqn:Hset; simpl; try by intros ? ? ?.
    destruct (set_element_apart h0 h1 clone i x' h2 Hap1 ltac:(lia) Hx' Hset)
      as (Hap2 & Hlen2 & Hframe2).
    eapply fills_write; [exact Hlen2 | exact Hframe2 |].
    apply IH; try done; [eapply table_fresh_mono; [done | lia] | lia].
Qed.

Lemma clone_entries_apart clone entries : ∀ vis h,
  apart h0 h → table_fresh h0 vis h → length h0 ≤ clone < length h →
  Forall (source_value h0) (key_then_value entries) →
  fills_apart h0 clone vis h (clone_entries rec clone entries vis h).
Proof.
  induction entries as [| [k x] entries IH]; intros vis h Hap Ht Hc Hsrc; simpl.
  - by apply fills_done.
  - simpl in Hsrc. apply Forall_cons in Hsrc as [Hk Hsrc]. apply Forall_cons in Hsrc as [Hx Hsrc].
    apply fills_call; try done. intros k' vis1 h1 Hap1 Ht1 Hlen1 Hk'. simpl.
    intros vis' h' Hrun. apply bind_Ret in Hrun as ([[x' vis2] h2] & Hr & Hrun). simpl in Hrun.
    destruct (Hrec _ _ _ _ _ _ Hap1 Ht1 Hx Hr) as (Hap2 & Ht2 & Hlen2 & Hx' & Hframe2).
    assert (fresh_or_function h0 h2 k') as Hk2.
    { eapply fresh_or_function_mono; [done | done |]. intros l Hl. unfold is_function.
      by rewrite Hframe2. }
    destruct (Map_set_apart h0 h2 clone k' x' Hap2 ltac:(lia) Hk2 Hx') as (Hap3 & Hlen3 & Hframe3).
    destruct (IH vis2 (Map_set h2 clone k' x') Hap3) with (visited' := vis') (h' := h')
      as (Hap' & Ht' & Hlen' & Hframe'); try done.
    { eapply table_fresh_mono; [done | lia]. }
    { lia. }
    split; [done |]. split; [done |]. split; [lia |].
    intros c Hlt Hne. rewrite Hframe' by (done || lia). rewrite Hframe3 by done.
    by apply Hframe2.
Qed.

Lemma clone_members_apart clone members : ∀ vis h,
  apart h0 h → table_fresh h0 vis h → length h0 ≤ clone < length h →
  Forall (source_value h0) members →
  fills_apart h0 clone vis h (clone_members rec clone members vis h).
Proof.
  induction members as [| x members IH]; intros vis h Hap Ht Hc Hsrc; simpl.
  - by apply fills_done.
  - apply Forall_cons in Hsrc as [Hx Hsrc]. apply fills_call; try done.
    intros x' vis1 h1 Hap1 Ht1 Hlen Hx'. simpl.
    destruct (Set_add_apart h0 h1 clone x' Hap1 ltac:(lia) Hx') as (Hap2 & Hlen2 & Hframe2).
    eapply fills_write; [exact Hlen2 | exact Hframe2 |].
    apply IH; try done; [eapply table_fresh_mono; [done | lia] | lia].
Qed.

Lemma clone_assign_apart clone ps : ∀ vis h,
  apart h0 h → table_fresh h0 vis h → length h0 ≤ clone < length h →
  Forall (source_property h0) ps →
  fills_apart h0 clone vis h (clone_assign rec clone ps vis h).
Proof.
  induction ps as [| p ps IH]; intros vis h Hap Ht Hc Hsrc; simpl.
  - by apply fills_done.
  - apply Forall_cons in Hsrc as [(Hk & Hv & _) Hsrc].
    destruct (read_slot (p_slot p)) as [x | |] eqn:Hread; simpl; try by intros ? ? ?.
    apply read_slot_value in Hread. rewrite Forall_forall in Hv.
    apply fills_call; try done; [by apply Hv |].
    intros x' vis1 h1 Hap1 Ht1 Hlen Hx'. simpl.
    destruct (put_value h1 clone (p_key p) x') as [h2 | |] eqn:Hput; simpl; try by intros ? ? ?.
    destruct (put_value_apart h0 h1 clone (p_key p) x' h2 Hap1 ltac:(lia) Hx' Hk Hput)
      as (Hap2 & Hlen2 & Hframe2).
    eapply fills_write; [exact Hlen2 | exact Hframe2 |].
    apply IH; try done; [eapply table_fresh_mono; [done | lia] | lia].
Qed.

Lemma clone_descriptors_apart clone ps : ∀ vis h,
  apart h0 h → table_fresh h0 vis h → length h0 ≤ clone < length h →
  Forall (source_property h0) ps →
  fills_apart h0 clone vis h (clone_descriptors rec clone ps vis h).
Proof.
  induction ps as [| p ps IH]; intros vis h Hap Ht Hc Hsrc; simpl.
  - by apply fills_done.
  - apply Forall_cons in Hsrc as [Hp Hsrc]. destruct (p_slot p) as [x | g] eqn:Hslot.
    + destruct Hp as (Hk & Hv & _). rewrite Hslot in Hv. simpl in Hv.
      rewrite Forall_singleton in Hv.
      apply fills_call; try done. intros x' vis1 h1 Hap1 Ht1 Hlen Hx'. simpl.
      destruct (defineProperty h1 clone _) as [h2 | |] eqn:Hdef; simpl; try by intros ? ? ?.
      destruct (defineProperty_apart h0 h1 clone (Prop_ (p_key p) (p_enumerable p) (Data x')) h2)
        as (Hap2 & Hlen2 & Hframe2); try done; [lia | by apply Forall_singleton |].
      eapply fills_write; [exact Hlen2 | exact Hframe2 |].
      apply IH; try done; [eapply table_fresh_mono; [done | lia] | lia].
    + destruct (source_fresh_or_function h0 h p Hap Hp) as [Hv Hf]; [by eauto |].
      destruct Hp as (Hk & _).
      destruct (defineProperty h clone p) as [h2 | |] eqn:Hdef; simpl; try by intros ? ? ?.
      destruct (defineProperty_apart h0 h clone p h2 Hap Hc Hk Hv Hf Hdef)
        as (Hap2 & Hlen2 & Hframe2).
      eapply fills_write; [exact Hlen2 | exact Hframe2 |].
      apply IH; try done; [eapply table_fresh_mono; [done | lia] | lia].
Qed.

End KeepsApart.

Lemma keeps_here h0 v vis h :
  apart h0 h → table_fresh h0 vis h → fresh_or_function h0 h v →
  apart h0 h ∧ table_fresh h0 vis h ∧ length h ≤ length h ∧
  fresh_or_function h0 h v ∧ ∀ c, c < length h → deref h c = deref h c.
Proof. done. Qed.

(** A node: the clone is allocated and recorded, then filled. *)
Lemma keeps_node h0 vis h obj k vis' h' :
  apart h0 h → table_fresh h0 vis h → kind_values k = [] →
  (apart h0 (h ++ [fresh k]) → table_fresh h0 (<[obj := length h]> vis) (h ++ [fresh k]) →
   length h0 ≤ length h < length (h ++ [fresh k]) →
   apart h0 h' ∧ table_fresh h0 vis' h' ∧ length (h ++ [fresh k]) ≤ length h' ∧
   ∀ c, c < length (h ++ [fresh k]) → c ≠ length h → deref h' c = deref (h ++ [fresh k]) c) →
  apart h0 h' ∧ table_fresh h0 vis' h' ∧ length h ≤ length h' ∧
  fresh_or_function h0 h' (VRef (length h)) ∧ ∀ c, c < length h → deref h' c = deref h c.
Proof.
  intros Hap Ht Hk Hfill. pose proof Hap as (Hlen & _).
  assert (length (h ++ [fresh k]) = S (length h)) as Hl by (rewrite length_app; simpl; lia).
  destruct Hfill as (Hap' & Ht' & Hlen' & Hframe).
  - by apply apart_alloc.
  - intros s c. destruct (decide (s = obj)) as [-> | Hne].
    + rewrite lookup_insert_eq. intros [= <-]. lia.
    + rewrite lookup_insert_ne by done. intros Hs. specialize (Ht s c Hs). lia.
  - lia.
  - split; [done |]. split; [done |]. split; [lia |]. split.
    + split; [simpl; lia |]. intros l [= <-] _. done.
    + intros c Hc. rewrite Hframe by lia. by apply deref_app_l.
Qed.

Lemma deepClone_apart h0 :
  heap_closed h0 → no_custom_freeze_in h0 → accessors_atomic h0 →
  ∀ d, keeps_apart h0 (deepClone d).
Proof.
  intros Hc0 Hno0 Hat0. induction d as [| d IH]; intros v vis h v' vis' h' Hap Ht Hsrc;
    simpl; [done |].
  destruct v as [| | b | n | s | n | s | obj];
    try (intros [= <- <- <-]; by apply keeps_here).
  simpl in Hsrc. pose proof Hap as (Hlen & Hsame & _).
  unfold typeof. destruct (is_function h obj) eqn:Hnf.
  { rewrite bool_decide_eq_true_2 by done. intros [= <- <- <-]. apply keeps_here; try done.
    split; [simpl; lia |]. intros l [= <-]. congruence. }
  rewrite bool_decide_eq_false_2 by done.
  destruct (vis !! obj) as [c |] eqn:Hv.
  { intros [= <- <- <-]. apply keeps_here; try done. specialize (Ht obj c Hv).
    split; [simpl; lia |]. intros l [= <-] _. lia. }
  rewrite (Hsame obj Hsrc).
  pose proof (source_props h0 obj Hc0 Hno0 Hat0) as Hprops.
  assert (Forall (source_value h0) (kind_values (o_kind (deref h0 obj)))) as Hvals.
  { apply Forall_forall. intros x Hx. apply (Hc0 obj). unfold object_values.
    apply elem_of_app. by left. }
  assert (∀ P `{∀ p, Decision (P p)},
            Forall (source_property h0) (filter P (o_props (deref h0 obj)))) as Hsub.
  { intros P ?. apply Forall_forall. intros p [_ Hp]%list_elem_of_filter.
    rewrite Forall_forall in Hprops. by apply Hprops. }
  destruct (o_kind (deref h0 obj)) eqn:Ek; unfold alloc; cbn [fst snd]; simpl in Hvals.
  - intros ([vis1 h1] & Hrun & [= <- <- <-])%bind_Ret.
    apply (keeps_node h0 vis h obj (KArray [])); try done. intros Hap1 Ht1 Hr.
    by eapply (clone_elements_apart h0 (deepClone d) IH).
  - intros ([vis1 h1] & Hrun & [= <- <- <-])%bind_Ret.
    apply (keeps_node h0 vis h obj (KMap [])); try done. intros Hap1 Ht1 Hr.
    by eapply (clone_entries_apart h0 (deepClone d) IH).
  - intros ([vis1 h1] & Hrun & [= <- <- <-])%bind_Ret.
    apply (keeps_node h0 vis h obj (KSet [])); try done. intros Hap1 Ht1 Hr.
    by eapply (clone_members_apart h0 (deepClone d) IH).
  - intros [= <- <- <-]. apply (keeps_node h0 vis h obj (KDate time)); try done.
    intros Hap1 _ Hr. split; [done |]. split; [eapply table_fresh_mono; [exact Ht | lia] |].
    done.
  - intros [= <- <- <-]. apply (keeps_node h0 vis h obj (KRegExp source flags)); try done.
    intros Hap1 _ Hr. split; [done |]. split; [eapply table_fresh_mono; [exact Ht | lia] |].
    done.
  - unfold is_function in Hnf. rewrite (Hsame obj Hsrc), Ek in Hnf. done.
  - intros ([vis1 h1] & Hrun1 & ([vis2 h2] & Hrun2 & [= <- <- <-])%bind_Ret)%bind_Ret.
    simpl in Hrun2.
    apply (keeps_node h0 vis h obj (KPlain null_proto)); try done. intros Hap1 Ht1 Hr.
    destruct (clone_assign_apart h0 (deepClone d) IH (length h) _ _ _ Hap1 Ht1 Hr
                (Hsub _ _) _ _ Hrun1) as (Hap2 & Ht2 & Hlen2 & Hframe2).
    destruct (clone_assign_apart h0 (deepClone d) IH (length h) _ _ _ Hap2 Ht2 ltac:(lia)
                (Hsub _ _) _ _ Hrun2) as (Hap3 & Ht3 & Hlen3 & Hframe3).
    split; [done |]. split; [done |]. split; [lia |].
    intros c Hc Hne. rewrite Hframe3 by (done || lia). by apply Hframe2.
  - intros ([vis1 h1] & Hrun1 & ([vis2 h2] & Hrun2 & [= <- <- <-])%bind_Ret)%bind_Ret.
    simpl in Hrun2.
    apply (keeps_node h0 vis h obj (KCustom proto)); try done. intros Hap1 Ht1 Hr.
    destruct (clone_descriptors_apart h0 (deepClone d) IH (length h) _ _ _ Hap1 Ht1 Hr
                (Hsub _ _) _ _ Hrun1) as (Hap2 & Ht2 & Hlen2 & Hframe2).
    destruct (clone_descriptors_apart h0 (deepClone d) IH (length h) _ _ _ Hap2 Ht2 ltac:(lia)
                (Hsub _ _) _ _ Hrun2) as (Hap3 & Ht3 & Hlen3 & Hframe3).
    split; [done |]. split; [done |]. split; [lia |].
    intros c Hc Hne. rewrite Hframe3 by (done || lia). by apply Hframe2.
Qed.

(** What the loop of [freeze] reaches from a new object is new. *)
Lemma thaw_path_apart h0 h c x :
  apart h0 h → length h0 ≤ c → thaw_path h c x → length h0 ≤ x.
Proof.
  intros Hap Hc Hp. induction Hp as [| a b x _ Hs _ IH]; [done |].
  apply IH. destruct Hap as (_ & _ & _ & _ & _ & Hnew).
  destruct (Hnew a (VRef b) Hc (scheduled_value _ _ _ Hs)) as [_ Hb].
  apply (Hb b eq_refl). by eapply scheduled_not_function.
Qed.

(** A frozen copy on a store without dangling reference, without own
    property named [freeze] and without getter that yields a container,
    whatever the keys: the objects that existed before are as they were,
    and the store is again such a store. *)
Lemma frozenCopy_apart call h x y h' :
  heap_closed h → no_custom_freeze_in h → accessors_atomic h →
  source_value h x → (∀ l, x = VRef l → is_function h l = false) →
  frozenCopy call x h = Ret (y, h') →
  heap_closed h' ∧ no_custom_freeze_in h' ∧ accessors_atomic h' ∧ length h ≤ length h' ∧
  (∀ s, s < length h → deref h' s = deref h s) ∧ source_value h' y.
Proof.
  intros Hc Hno Hat Hx Hxf. unfold frozenCopy.
  intros ([[v' vis] h1] & Hdc & Hfr)%bind_Ret. simpl in Hfr.
  assert (table_fresh h ∅ h) as Ht by (intros s c; by rewrite lookup_empty).
  destruct (deepClone_apart h Hc Hno Hat _ _ _ _ _ _ _ (apart_refl h Hc Hno Hat) Ht Hx Hdc)
    as (Hap & _ & Hlen & Hv' & Hframe).
  pose proof Hap as (_ & Hsame & Hc1 & Hno1 & Hat1 & _).
  assert ((∃ c, v' = VRef c ∧ length h ≤ c ∧ o_frozen (deref h1 c) = false) ∨
          freeze call v' h1 = Ret (v', h1)) as [(c & -> & Hc' & Hunf) | Hsame'].
  { destruct v' as [| | | | | | | c]; try (by right).
    destruct (o_frozen (deref h1 c)) eqn:Hfz; [right; simpl; by rewrite Hfz |].
    left. exists c. split; [done |]. split; [| done].
    destruct x as [| | | | | | | l];
      try (destruct (enough_depth h); simpl in Hdc; [done | by injection Hdc]).
    destruct (deepClone_node_result _ _ _ _ _ _ _ Hdc (Hxf l eq_refl)) as (c' & [= <-] & [Hl | ->]);
      [by rewrite lookup_empty in Hl | done]. }
  2:{ rewrite Hsame' in Hfr. injection Hfr as <- <-. destruct Hv' as [Hv' _]. done. }
  destruct (freeze_traversal_spec call c h1 y h' Hunf (no_freeze_isFreezable h1 _ Hno1) Hfr)
    as (-> & Hshape & Hiff).
  assert (length h' = length h1) as Hlen' by apply Hshape.
  split; [by eapply freezes_only_closed |]. split; [by eapply freezes_only_no_freeze |].
  split; [by eapply freezes_only_atomic |]. split; [lia |]. split.
  - intros s Hs. rewrite <- (Hframe s Hs).
    destruct Hshape as [_ Hshape]. destruct (Hshape s) as (Hk & Hp & Hm).
    apply deref_eq; try done.
    destruct (o_frozen (deref h1 s)) eqn:E1; [auto |].
    destruct (o_frozen (deref h' s)) eqn:E'; [| done].
    apply Hiff in E' as [? | Hpath]; [congruence |].
    pose proof (thaw_path_apart h h1 c s Hap Hc' Hpath). lia.
  - destruct Hv' as [Hv' _]. simpl in *. lia.
Qed.

(** ** [snapshotHistory] *)

Lemma drop_cons_inv {A} (l : list A) i x k :
  drop i l = x :: k → l !! i = Some x ∧ drop (S i) l = k ∧ i < length l.
Proof.
  intros Hd. assert (l !! i = Some x) as Hx.
  { rewrite <- (Nat.add_0_r i), <- lookup_drop, Hd. done. }
  split; [done |]. split; [| by eapply lookup_lt_Some].
  rewrite (drop_S l x i Hx) in Hd. by injection Hd.
Qed.

Lemma snapshot_each_copy_each call states a elems objects : ∀ i h cur fuel,
  heap_closed h → no_custom_freeze_in h → accessors_atomic h →
  states ≠ a → a < length h → states < length h →
  o_kind (deref h states) = KArray elems → drop i elems = objects →
  deref h a = Obj (KArray cur) [] false → length elems ≤ length cur →
  Forall (fun x => ∀ l, x = VRef l → is_function h l = false) objects →
  length objects < fuel →
  snapshot_each call fuel states a i h = copy_each call a objects i h.
Proof.
  induction objects as [| x objects IH];
    intros i h cur fuel Hc Hno Hat Hne Ha Hst Hk Hdrop Hobj Hlen Hnf Hfuel;
    (destruct fuel as [| fuel]; [simpl in Hfuel; lia |]);
    cbn [snapshot_each copy_each]; unfold array_elements; rewrite Hk.
  - rewrite lookup_ge_None_2; [done |].
    apply (f_equal length) in Hdrop. rewrite length_drop in Hdrop. simpl in Hdrop. lia.
  - apply drop_cons_inv in Hdrop as (Hx & Hdrop & Hi). rewrite Hx.
    apply Forall_cons in Hnf as [Hxf Hnf].
    assert (source_value h x) as Hsx.
    { apply (Hc states). unfold object_values. rewrite Hk. simpl.
      apply elem_of_app. left. by eapply list_elem_of_lookup_2. }
    destruct (frozenCopy call x h) as [[y h1] | e |] eqn:Hfr; cbn [bind fst snd]; try done.
    destruct (frozenCopy_apart call h x y h1 Hc Hno Hat Hsx Hxf Hfr)
      as (Hc1 & Hno1 & Hat1 & Hl1 & Hsame & Hy).
    assert (deref h1 a = Obj (KArray cur) [] false) as Hobj1 by by rewrite Hsame.
    assert (Forall (source_value h1) (<[i := y]> cur)) as Hel.
    { apply Forall_insert; [| done]. apply Forall_forall. intros v Hv.
      apply (Hc1 a). rewrite Hobj1. unfold object_values. simpl. by rewrite app_nil_r. }
    destruct (array_insert_spec h1 a cur (<[i := y]> cur) Hc1 Hno1 Hat1 ltac:(lia) Hobj1 Hel)
      as (Hc2 & Hno2 & Hat2 & _ & Hfun2 & Hne2 & Heq2).
    assert (set_element h1 a i y = Ret (<[a := Obj (KArray (<[i := y]> cur)) [] false]> h1))
      as ->.
    { unfold set_element. rewrite Hobj1. simpl. unfold store_element.
      rewrite decide_True by lia. done. }
    cbn [bind]. apply (IH (S i) _ (<[i := y]> cur)); try done.
    + rewrite length_insert. lia.
    + rewrite length_insert. lia.
    + rewrite Hne2 by done. by rewrite Hsame.
    + by rewrite length_insert.
    + apply Forall_forall. intros v Hv l ->. rewrite Hfun2.
      rewrite Forall_forall in Hnf. specialize (Hnf _ Hv l eq_refl).
      assert (l < length h) as Hlt.
      { apply (Hc states (VRef l)). unfold object_values. rewrite Hk. simpl.
        apply elem_of_app. left. rewrite <- Hdrop in Hv. by eapply subseteq_drop. }
      unfold is_function in *. by rewrite Hsame.
    + simpl in Hfuel. lia.
Qed.

(** X20: on a store without dangling reference, without own property
    named [freeze] and without getter that yields a container,
    [snapshotHistory(states)] on an array none of whose elements is a
    function is [frozenCopyAll(...states)]: the same result in the same
    store.  That the array is read anew in every round makes no
    difference, since no round changes an object that existed before; in
    particular the bound on the rounds is never what stops the loop, and
    two states that share an object get a copy of it each. *)
Theorem snapshotHistory_is_frozenCopyAll call states elems h :
  heap_closed h → no_custom_freeze_in h → accessors_atomic h →
  states < length h → o_kind (deref h states) = KArray elems →
  Forall (fun x => ∀ l, x = VRef l → is_function h l = false) elems →
  snapshotHistory call states h = frozenCopyAll call elems h.
Proof.
  intros Hc Hno Hat Hst Hk Hnf. unfold snapshotHistory, frozenCopyAll, alloc, new_Array.
  assert (array_elements (deref h states) = elems) as Hel.
  { unfold array_elements. by rewrite Hk. }
  rewrite !Hel. cbn [fst snd].
  set (n := length elems). set (cur := replicate n VUndefined).
  set (h0 := h ++ [fresh (KArray cur)]).
  assert (heap_closed h0) as Hc0.
  { apply heap_closed_app; [done |]. unfold object_values. simpl. rewrite app_nil_r.
    apply Forall_forall. by intros v [-> _]%elem_of_replicate. }
  assert (no_custom_freeze_in h0) as Hno0.
  { apply no_custom_freeze_app; [done |]. apply Forall_singleton. simpl.
    by intros p ?%elem_of_nil. }
  assert (accessors_atomic h0) as Hat0 by by apply accessors_atomic_app.
  assert (Forall (source_value h) elems) as Hsrc.
  { apply Forall_forall. intros v Hv. apply (Hc states). unfold object_values. rewrite Hk.
    apply elem_of_app. by left. }
  rewrite (snapshot_each_copy_each call states (length h) elems elems 0 h0 cur (S n)); try done.
  - lia.
  - unfold h0. rewrite length_app. simpl. lia.
  - unfold h0. rewrite length_app. simpl. lia.
  - unfold h0. by rewrite deref_app_l.
  - unfold h0. by rewrite deref_alloc.
  - unfold cur. by rewrite length_replicate.
  - apply Forall_forall. intros v Hv l ->.
    pose proof (proj1 (Forall_forall _ _) Hsrc _ Hv) as Hl. simpl in Hl.
    unfold h0. rewrite is_function_app by done.
    by apply (proj1 (Forall_forall _ _) Hnf _ Hv).
  - unfold n. lia.
Qed.

Lemma accessors_atomic_Forall h :
  Forall (fun o => Forall (fun p => ∀ c, p_slot p = Accessor (Some (VRef c)) →
                                         is_function h c = true) (o_props o)) h →
  accessors_atomic h.
Proof.
  intros Hall l p c Hp Hs. destruct (h !! l) as [o |] eqn:Hl.
  - rewrite (deref_lookup _ _ _ Hl) in Hp.
    rewrite Forall_lookup in Hall. specialize (Hall l o Hl).
    rewrite Forall_forall in Hall. by apply (Hall p Hp).
  - unfold deref in Hp. rewrite Hl in Hp. by apply elem_of_nil in Hp.
Qed.

Lemma history_source_closed : heap_closed history_source.
Proof.
  apply heap_closed_Forall. unfold history_source, object_values.
  repeat (constructor; simpl; try lia).
Qed.

Lemma history_source_no_custom_freeze : no_custom_freeze_in history_source.
Proof. apply no_custom_freeze_Forall. repeat (constructor; try done). Qed.

Lemma history_source_accessors_atomic : accessors_atomic history_source.
Proof. apply accessors_atomic_Forall. repeat (constructor; try done). Qed.

Lemma snapshotHistory_witness :
  snapshotHistory no_custom_freeze 2 history_source =
    frozenCopyAll no_custom_freeze [VRef 0; VRef 1] history_source ∧
  ∃ h', snapshotHistory no_custom_freeze 2 history_source = Ret (VRef 3, h') ∧
        deref h' 3 = Obj (KArray [VRef 4; VRef 5]) [] false.
Proof.
  split.
  - apply (snapshotHistory_is_frozenCopyAll no_custom_freeze 2 [VRef 0; VRef 1] history_source
             history_source_closed history_source_no_custom_freeze
             history_source_accessors_atomic).
    + simpl. lia.
    + reflexivity.
    + repeat constructor; intros l [= <-]; reflexivity.
  - eexists. split; reflexivity.
Defined.

(** ** Property lookup along the prototype chain *)

Lemma lookup_property_mono h k n m p r :
  lookup_property n h p k = Some r → n ≤ m → lookup_property m h p k = Some r.
Proof.
  revert m p. induction n as [| n IH]; intros m p; simpl; [done |].
  intros Hr Hle. destruct m as [| m]; [lia |]. simpl.
  destruct (own_property (deref h p) k); [done |].
  destruct (o_kind (deref h p)); try done. apply IH; [done | lia].
Qed.

(** A set of objects without own [k], closed under prototypes. *)
Lemma lookup_none_closed h k (V : gset loc) :
  (∀ x, x ∈ V → own_property (deref h x) k = None ∧
               ∀ q, o_kind (deref h x) = KCustom q → q ∈ V) →
  ∀ m p, p ∈ V → lookup_property m h p k = None.
Proof.
  intros HS. induction m as [| m IH]; intros p Hp; simpl; [done |].
  destruct (HS p Hp) as [-> Hq]. destruct (o_kind (deref h p)) eqn:Ek; try done.
  apply IH. by apply Hq.
Qed.

(** A lookup that fails after as many steps as the store has objects has
    been through every object of the chain, so it fails however many steps
    it is given. *)
Lemma lookup_none_any h k : protos_closed h → ∀ n (V : gset loc) p,
  (∀ x, x ∈ V → x < length h ∧ own_property (deref h x) k = None ∧
               ∀ q, o_kind (deref h x) = KCustom q → q ∈ V ∨ q = p) →
  p < length h → length h ≤ n + size V →
  lookup_property n h p k = None → ∀ m, lookup_property m h p k = None.
Proof.
  intros Hpc.
  assert (∀ (V : gset loc) p,
            (∀ x, x ∈ V → x < length h ∧ own_property (deref h x) k = None ∧
                         ∀ q, o_kind (deref h x) = KCustom q → q ∈ V ∨ q = p) →
            p ∈ V → ∀ m, lookup_property m h p k = None) as Hin.
  { intros V p HS Hp m. apply (lookup_none_closed h k V); [| done].
    intros x Hx. destruct (HS x Hx) as (_ & Hown & Hq). split; [done |].
    intros q Hk. destruct (Hq q Hk) as [? | ->]; done. }
  induction n as [| n IH]; intros V p HS Hp Hsize Hnone.
  - apply (Hin V p HS).
    assert (V = set_seq 0 (length h)) as ->.
    { apply set_subseteq_size_eq.
      - intros x Hx. apply elem_of_set_seq. destruct (HS x Hx) as [? _]. lia.
      - rewrite size_set_seq. lia. }
    apply elem_of_set_seq. lia.
  - destruct (decide (p ∈ V)) as [HpS | HpS]; [by apply (Hin V p HS) |].
    simpl in Hnone. destruct (own_property (deref h p) k) eqn:Hown; [done |].
    destruct (o_kind (deref h p)) eqn:Ek;
      try (intros [| m]; simpl; [done |]; by rewrite Hown, Ek).
    assert (∀ m, lookup_property m h proto k = None) as Hrest.
    { apply (IH ({[p]} ∪ V)); [| by eapply Hpc | | done].
      - intros x [->%elem_of_singleton | Hx]%elem_of_union.
        + split; [done |]. split; [done |]. intros q Hq. right. congruence.
        + destruct (HS x Hx) as (Hlt & Hox & Hq). split; [done |]. split; [done |].
          intros q Hk. left. destruct (Hq q Hk) as [? | ->]; set_solver.
      - rewrite size_union by set_solver. rewrite size_singleton. lia. }
    intros [| m]; simpl; [done |]. by rewrite Hown, Ek.
Qed.

(** Objects that are as they were give the lookup they gave. *)
Lemma lookup_property_frame h h1 k :
  protos_closed h → (∀ x, x < length h → deref h1 x = deref h x) →
  ∀ n p, p < length h → lookup_property n h1 p k = lookup_property n h p k.
Proof.
  intros Hpc Hsame. induction n as [| n IH]; intros p Hp; simpl; [done |].
  rewrite (Hsame p Hp). destruct (own_property (deref h p) k); [done |].
  destruct (o_kind (deref h p)) eqn:Ek; try done. apply IH. by eapply Hpc.
Qed.

Lemma lookup_property_grown h h1 k p :
  protos_closed h → (∀ x, x < length h → deref h1 x = deref h x) →
  p < length h → length h ≤ length h1 →
  lookup_property (length h1) h1 p k = lookup_property (length h) h p k.
Proof.
  intros Hpc Hsame Hp Hlen. rewrite (lookup_property_frame h h1 k Hpc Hsame) by done.
  destruct (lookup_property (length h) h p k) as [r |] eqn:Hl.
  - by eapply lookup_property_mono.
  - apply (lookup_none_any h k Hpc (length h) ∅ p); try done; first [set_solver | lia].
Qed.

(** [isFreezable] on an object, through the lookup. *)
Lemma isFreezable_lookup h l :
  isFreezable h (VRef l) =
  if is_function h l then Ret false
  else match lookup_property (S (length h)) h l (PStr "freeze") with
       | Some p => let! f := read_slot (p_slot p) in Ret (bool_decide (typeof h f = TFunction))
       | None => Ret false
       end.
Proof.
  unfold isFreezable, has_property, get_property, typeof.
  destruct (is_function h l); [done |]. rewrite bool_decide_eq_true_2 by done.
  destruct (lookup_property (S (length h)) h l (PStr "freeze")) as [p |].
  - by rewrite bool_decide_eq_true_2 by eauto.
  - rewrite bool_decide_eq_false_2; [done |]. by intros [? ?].
Qed.

Lemma own_property_unique o k p :
  NoDup (map p_key (o_props o)) → p ∈ o_props o → p_key p = k → own_property o k = Some p.
Proof.
  intros Hnd Hp Hk. destruct (own_property_some o k p Hp Hk) as [q Hq]. rewrite Hq. f_equal.
  apply own_property_elem in Hq as [Hq Hqk].
  apply list_elem_of_lookup in Hp as [i Hi]. apply list_elem_of_lookup in Hq as [j Hj].
  assert (i = j) as ->; [| congruence].
  eapply NoDup_lookup; [exact Hnd | |]; rewrite list_lookup_fmap.
  - by rewrite Hi.
  - rewrite Hj. simpl. congruence.
Qed.

Lemma Forall2_elem_l {A B} (P : A → B → Prop) l k y :
  Forall2 P l k → y ∈ l → ∃ y', y' ∈ k ∧ P y y'.
Proof.
  induction 1 as [| x z l k Hxz _ IH]; [by intros ?%elem_of_nil |].
  intros [-> | Hin]%elem_of_cons.
  - exists z. split; [left | done].
  - destruct (IH Hin) as (y0 & H1 & H2). exists y0. split; [by right | done].
Qed.

(** The twin of a function is a function, the twin of anything else is
    not. *)
Lemma twin_typeof h0 vis h x x' :
  cloning h0 vis h → twin h0 vis h x x' →
  bool_decide (typeof h x' = TFunction) = bool_decide (typeof h0 x = TFunction).
Proof.
  intros Hcl. destruct x as [| | | | | | | y]; simpl; try (by intros ->).
  pose proof (cloning_function h0 vis h) as Hfun.
  destruct (is_function h0 y) eqn:Hf; [intros ->; simpl; by rewrite Hfun, Hf |].
  assert (∀ c, length h0 ≤ c → typeof h (VRef c) = TObject) as Hnew.
  { intros c Hc. simpl. rewrite (Hfun c Hcl). unfold is_function.
    by rewrite deref_dangling by done. }
  rewrite (bool_decide_eq_false_2 (TObject = TFunction)) by done.
  destruct (o_kind (deref h0 y));
    first [ intros (c & -> & Hc & _); rewrite Hnew by lia; by rewrite bool_decide_eq_false_2
          | intros (c & Hv & ->); pose proof (c_visited _ _ _ Hcl _ _ Hv);
            rewrite Hnew by lia; by rewrite bool_decide_eq_false_2 ].
Qed.

Lemma cloning_typeof h0 vis h x : cloning h0 vis h → typeof h x = typeof h0 x.
Proof. intros Hcl. destruct x; simpl; try done. by rewrite (cloning_function h0 vis h). Qed.

(** ** [frozenCopy]: the copy of an object that declares no [freeze] *)

Lemma twin_assigned_verdict h0 vis h p p' :
  cloning h0 vis h → twin_assigned h0 vis h p p' →
  (let! f := read_slot (p_slot p') in Ret (bool_decide (typeof h f = TFunction))) =
  (let! f := read_slot (p_slot p) in Ret (bool_decide (typeof h0 f = TFunction))).
Proof.
  intros Hcl (_ & _ & x & x' & -> & -> & Ht). simpl. f_equal. by eapply twin_typeof.
Qed.

Lemma twin_defined_verdict h0 vis h p p' :
  cloning h0 vis h → twin_defined h0 vis h p p' →
  (let! f := read_slot (p_slot p') in Ret (bool_decide (typeof h f = TFunction))) =
  (let! f := read_slot (p_slot p) in Ret (bool_decide (typeof h0 f = TFunction))).
Proof.
  intros Hcl (_ & _ & Hs). destruct (p_slot p) as [x | g].
  - destruct Hs as (x' & -> & Ht). simpl. f_equal. by eapply twin_typeof.
  - rewrite Hs. destruct g as [v |]; simpl; [| done]. f_equal.
    by rewrite (cloning_typeof h0 vis h).
Qed.

(** The clone of an object that declares no [freeze] method declares
    none. *)
Lemma clone_not_freezable h l vis h1 :
  heap_closed h → protos_closed h → well_keyed h → proto_free h →
  l < length h → is_function h l = false →
  isFreezable h (VRef l) = Ret false →
  deepClone (enough_depth h) (VRef l) ∅ h = Ret (VRef (length h), vis, h1) →
  isFreezable h1 (VRef (length h)) = Ret false.
Proof.
  intros Hclosed Hpc Hkeys Hproto Hl Hnf Hsrc Hdc.
  pose proof (deepClone_copied h Hclosed Hkeys Hproto (enough_depth h) (VRef l) ∅ h _ _ _
                (copying_init h) Hl Hdc) as Hcd.
  pose proof (k_cloning _ _ _ (d_copying _ _ _ _ _ _ _ Hcd)) as Hcl.
  pose proof (d_twin _ _ _ _ _ _ _ Hcd) as Ht. simpl in Ht. rewrite Hnf in Ht.
  pose proof (d_frame _ _ _ _ _ _ _ Hcd) as Hframe.
  destruct (d_grow _ _ _ _ _ _ _ Hcd) as [_ Hlen].
  pose proof (d_mirror _ _ _ _ _ _ _ Hcd) as Hmirror.
  destruct (Hkeys l) as (Hnd & _).
  set (c := length h) in *. set (k := PStr "freeze") in *.
  rewrite isFreezable_lookup in Hsrc. rewrite Hnf in Hsrc. fold k in Hsrc.
  rewrite isFreezable_lookup. fold k.
  rewrite (cloning_function h vis h1 c Hcl).
  assert (is_function h c = false) as ->.
  { unfold is_function. by rewrite deref_dangling by (unfold c; lia). }
  assert (o_props (deref h1 c) = [] → (∀ p, o_kind (deref h1 c) ≠ KCustom p) →
          lookup_property (S (length h1)) h1 c k = None) as Hbare.
  { intros Hp Hk. cbn [lookup_property]. unfold own_property. rewrite Hp. simpl.
    destruct (o_kind (deref h1 c)) eqn:E; try done. by destruct (Hk proto). }
  cbn [lookup_property] in Hsrc.
  destruct (o_kind (deref h l)) eqn:Ek.
  - destruct Ht as (c' & Hv & [= <-]). destruct (Hmirror l c Hv (lookup_empty l)) as [_ Hm].
    unfold mirror in Hm. rewrite Ek in Hm. destruct Hm as (elems' & Hk' & Hp' & _).
    rewrite Hbare; [done | done |]. intros p. by rewrite Hk'.
  - destruct Ht as (c' & Hv & [= <-]). destruct (Hmirror l c Hv (lookup_empty l)) as [_ Hm].
    unfold mirror in Hm. rewrite Ek in Hm. destruct Hm as (elems' & Hk' & Hp' & _).
    rewrite Hbare; [done | done |]. intros p. by rewrite Hk'.
  - destruct Ht as (c' & Hv & [= <-]). destruct (Hmirror l c Hv (lookup_empty l)) as [_ Hm].
    unfold mirror in Hm. rewrite Ek in Hm. destruct Hm as (elems' & Hk' & Hp' & _).
    rewrite Hbare; [done | done |]. intros p. by rewrite Hk'.
  - destruct Ht as (c' & [= <-] & _ & Hk' & Hp').
    rewrite Hbare; [done | done |]. intros p. by rewrite Hk'.
  - destruct Ht as (c' & [= <-] & _ & Hk' & Hp').
    rewrite Hbare; [done | done |]. intros p. by rewrite Hk'.
  - unfold is_function in Hnf. by rewrite Ek in Hnf.
  - destruct Ht as (c' & Hv & [= <-]). destruct (Hmirror l c Hv (lookup_empty l)) as [_ Hm].
    unfold mirror in Hm. rewrite Ek in Hm. destruct Hm as (Hk' & HF).
    cbn [lookup_property]. rewrite Hk'.
    destruct (own_property (deref h1 c) k) as [p' |] eqn:Hown'; [| done].
    apply own_property_elem in Hown' as [Hp' Hkp'].
    destruct (Forall2_elem_r _ _ _ _ HF Hp') as (p & Hp & Htw).
    assert (p ∈ o_props (deref h l)) as Hpin.
    { apply elem_of_app in Hp as [Hp | Hp]; by apply list_elem_of_filter in Hp as [_ Hp]. }
    assert (p_key p = k) as Hkp by (destruct Htw as (<- & _); done).
    rewrite (own_property_unique _ k p Hnd Hpin Hkp) in Hsrc.
    by rewrite (twin_assigned_verdict h vis h1 p p' Hcl Htw).
  - destruct Ht as (c' & Hv & [= <-]). destruct (Hmirror l c Hv (lookup_empty l)) as [_ Hm].
    unfold mirror in Hm. rewrite Ek in Hm. destruct Hm as (Hk' & HF).
    cbn [lookup_property]. rewrite Hk'.
    destruct (own_property (deref h1 c) k) as [p' |] eqn:Hown'.
    + apply own_property_elem in Hown' as [Hp' Hkp'].
      destruct (Forall2_elem_r _ _ _ _ HF Hp') as (p & Hp & Htw).
      assert (p ∈ o_props (deref h l)) as Hpin.
      { apply elem_of_app in Hp as [Hp | Hp]; by apply list_elem_of_filter in Hp as [_ Hp]. }
      assert (p_key p = k) as Hkp by (destruct Htw as (<- & _); done).
      rewrite (own_property_unique _ k p Hnd Hpin Hkp) in Hsrc.
      by rewrite (twin_defined_verdict h vis h1 p p' Hcl Htw).
    + destruct (own_property (deref h l) k) as [q |] eqn:Hown.
      { apply own_property_elem in Hown as [Hq Hkq].
        assert (q ∈ Object_getOwnPropertyNames (deref h l) ++
                    Object_getOwnPropertySymbols (deref h l)) as Hqin.
        { apply elem_of_app. left. apply list_elem_of_filter. split; [| done].
          unfold is_string_key. by rewrite Hkq. }
        destruct (Forall2_elem_l _ _ _ _ HF Hqin) as (q' & Hq' & (Hkq' & _)).
        destruct (own_property_some (deref h1 c) k q' Hq') as [? Hsome]; [congruence |].
        congruence. }
      rewrite (lookup_property_grown h h1 k proto Hpc Hframe) by (done || by eapply Hpc).
      destruct (lookup_property (length h) h proto k) as [r |]; [| done].
      rewrite <- Hsrc. destruct (read_slot (p_slot r)) as [v | |]; simpl; try done.
      by rewrite (cloning_typeof h vis h1).
Qed.

Lemma twin_kept h0 vis h h' v v' :
  length h' = length h → (∀ c, length h0 ≤ c → deref h' c = deref h c) →
  twin h0 vis h v v' → twin h0 vis h' v v'.
Proof.
  intros Hlen Hsame. destruct v as [| | | | | | | x]; simpl; try done.
  destruct (is_function h0 x); [done |].
  destruct (o_kind (deref h0 x)); try done;
    intros (c & -> & Hc & Hk & Hp); exists c; rewrite (Hsame c) by lia;
    (split; [done |]; split; [lia |]; by split).
Qed.

Lemma mirror_kept h0 vis h h' s c :
  length h' = length h → (∀ c, length h0 ≤ c → deref h' c = deref h c) →
  length h0 ≤ c → mirror h0 vis h s c → mirror h0 vis h' s c.
Proof.
  intros Hlen Hsame Hc. unfold mirror. rewrite (Hsame c Hc).
  pose proof (twin_kept h0 vis h h') as Ht.
  destruct (o_kind (deref h0 s)); try done.
  - intros (elems' & H1 & H2 & H3). exists elems'. split; [done |]. split; [done |].
    eapply Forall2_impl; [exact H3 |]. intros x x'. by apply Ht.
  - intros (entries' & H1 & H2 & H3). exists entries'. split; [done |]. split; [done |].
    eapply Forall2_impl; [exact H3 |]. intros e e' [Ha Hb]. split; by eapply Ht.
  - intros (members' & H1 & H2 & H3). exists members'. split; [done |]. split; [done |].
    eapply Forall2_impl; [exact H3 |]. intros x x'. by apply Ht.
  - intros [H1 H2]. split; [done |].
    eapply Forall2_impl; [exact H2 |]. intros p p' (Ha & Hb & x & x' & Hx & Hx' & Htw).
    split; [done |]. split; [done |]. exists x, x'. eauto.
  - intros [H1 H2]. split; [done |].
    eapply Forall2_impl; [exact H2 |]. intros p p' (Ha & Hb & Hs).
    split; [done |]. split; [done |]. destruct (p_slot p); [| done].
    destruct Hs as (x' & Hx' & Htw). eauto.
Qed.

Lemma writes_to_length h s h' : writes_to h s h' → length h' = length h.
Proof.
  unfold writes_to, put_value, set_prototype, link, set_property, defineProperty,
    delete_property, set_element, Map_set, Set_add.
  intros Hw. destruct_or?; destruct_and?; destruct Hw as (? & Hw); try destruct Hw as (? & Hw);
    repeat case_match; simplify_eq; by rewrite ?length_insert.
Qed.

(** Writes into the objects that existed before the copy leave the copy
    alone. *)
Lemma mutates_source_kept h0 h' h'' :
  rtc (mutates_source h0) h' h'' →
  length h'' = length h' ∧ ∀ x, length h0 ≤ x → deref h'' x = deref h' x.
Proof.
  induction 1 as [| a b c (s & Hs & Hw) _ [IHl IHd]]; [done |].
  pose proof (writes_to_length _ _ _ Hw) as Hlen. split; [lia |].
  intros x Hx. rewrite IHd by done. apply (writes_to_other a s b); [done | lia].
Qed.

(** C5, as amended.  Let the root [l] of [G] be an object that is not a
    function and declares no [freeze] method, in a store where no record
    that inherits from [Object.prototype] lists [__proto__] among its keys
    and no getter of an object with a custom prototype yields a container
    (the store itself is as the platform keeps one: no dangling reference,
    existing prototypes, unique keys in the engine's order).  Then
    [frozenCopy] comes back, with a result [C] as soon as no getter throws,
    and on return:
    - no object that existed before has changed, so [G] has the
      single-level frozen status it had, frozen or not;
    - every container at or below [C], whatever holds it, is new and
      single-level frozen;
    - [isFrozen(C)] is true exactly when every function it reaches (the
      functions are those of [G], shared) is deeply frozen;
    - there is a one-to-one table from the containers of [G] to new
      objects such that [C] is the twin of [G] and every entry mirrors its
      source as it was at the call, position by position and key by key;
      and after any number of later writes into objects that existed
      before the call, the new objects are what they were, so [C] is still
      the twin of the original [G] and every entry still mirrors its
      original source. *)
Theorem frozenCopy_makes_independent_frozen_copy call h l :
  heap_closed h → protos_closed h → well_keyed h → proto_free h → shared_getters_atomic h →
  l < length h → is_function h l = false → isFreezable h (VRef l) = Ret false →
  frozenCopy call (VRef l) h ≠ OutOfFuel ∧
  (Forall getters_safe h → ∃ r h', frozenCopy call (VRef l) h = Ret (r, h')) ∧
  ∀ r h', frozenCopy call (VRef l) h = Ret (r, h') →
    (∀ s, s < length h → h' !! s = h !! s) ∧
    isShallowFrozen h' (VRef l) = isShallowFrozen h (VRef l) ∧
    (∀ x, contained h' r x → length h ≤ x < length h' ∧ o_frozen (deref h' x) = true) ∧
    (isFrozen h' r = true ↔
     ∀ f, is_function h f = true → reaches h' r f → isFrozen h (VRef f) = true) ∧
    ∃ vis : gmap loc loc,
      (∀ s1 s2 c, vis !! s1 = Some c → vis !! s2 = Some c → s1 = s2) ∧
      ∀ h'', rtc (mutates_source h) h' h'' →
        (∀ x, length h ≤ x → deref h'' x = deref h' x) ∧
        twin h vis h'' (VRef l) r ∧
        ∀ s c, vis !! s = Some c → length h ≤ c < length h'' ∧ mirror h vis h'' s c.
Proof.
  intros Hclosed Hpc Hkeys Hproto Hat Hl Hnf Hsrc.
  assert (∀ vis h1, deepClone (enough_depth h) (VRef l) ∅ h = Ret (VRef (length h), vis, h1) →
                    isFreezable h1 (VRef (length h)) = Ret false) as Hfz.
  { intros vis h1. by apply clone_not_freezable. }
  destruct (frozenCopy_spec call h l Hclosed Hproto Hat Hl Hnf Hfz) as (Hfuel & Hret & Hspec).
  split; [done |]. split; [done |]. intros r h' Hfr.
  destruct (Hspec r h' Hfr) as (Hold & Hsh & _ & _ & _ & Hcont & _ & Hiff).
  split; [done |]. split; [done |]. split; [done |]. split; [done |].
  destruct (frozenCopy_table call h l Hclosed Hkeys Hproto Hl Hnf r h' Hfr Hfz)
    as (vis & Ht & Hinj & Hm).
  exists vis. split; [done |]. intros h'' Hw.
  destruct (mutates_source_kept h h' h'' Hw) as [Hlen Hsame].
  split; [done |]. split; [by apply (twin_kept h vis h') |].
  intros s c Hs. destruct (Hm s c Hs) as [Hc Hmc]. split; [lia |].
  apply (mirror_kept h vis h'); try done. lia.
Qed.

Lemma nested_source_well_keyed : well_keyed nested_source.
Proof.
  apply well_keyed_Forall. unfold keyed.
  repeat (constructor; simpl; rewrite ?elem_of_cons, ?elem_of_nil; try done;
          try (by apply ordered_list); try naive_solver).
Qed.

Lemma nested_source_protos_closed : protos_closed nested_source.
Proof. intros l p. by destruct l as [| [| l]]. Qed.

Lemma frozenCopy_witness :
  ∃ h', frozenCopy no_custom_freeze (VRef 0) nested_source = Ret (VRef 2, h') ∧
        isShallowFrozen h' (VRef 0) = false ∧
        isFrozen h' (VRef 2) = true ∧
        ∀ x, contained h' (VRef 2) x → 2 ≤ x ∧ o_frozen (deref h' x) = true.
Proof.
  destruct (frozenCopy_makes_independent_frozen_copy no_custom_freeze nested_source 0
              nested_source_closed nested_source_protos_closed nested_source_well_keyed
              nested_source_proto_free
              (accessors_atomic_shared _ nested_source_accessors_atomic)
              ltac:(simpl; lia) eq_refl eq_refl) as (_ & Hret & Hspec).
  destruct (Hret nested_source_getters_safe) as (r & h' & Hrun).
  assert (r = VRef 2) as -> by (vm_compute in Hrun; congruence).
  exists h'. split; [exact Hrun |].
  destruct (Hspec _ _ Hrun) as (_ & Hsh & Hcont & Hiff & _).
  split; [exact Hsh |]. split.
  - apply Hiff. intros f Hf. by destruct f as [| [| f]].
  - intros x Hx. destruct (Hcont x Hx) as [[Hge _] Hfz]. by split.
Defined.

(** C5, as stated, fails outside these conditions.
    - [G] frozen before the call is frozen after it, where the claim has
      it not single-level frozen.
    - [G] a function: it is returned itself and frozen in place, so the
      call mutates [G].
    - [G] declaring a [freeze] method: the clone has it too, [freeze]
      hands the clone to it, and the result is what the method returns,
      here a new record that is not frozen, so that [isFrozen(C)] is
      false; the clone is not frozen either.
    - A getter of an object with a custom prototype that yields a
      container of [G]: the copy has the same getter, and [freeze]
      freezes the container of [G] it yields: the call mutates [G].
    - A record with the own key [__proto__]: the copy has no own property
      at all, the clone of the value is its prototype, and that clone is
      not frozen.
    - [G] holding a function that is not frozen: [isFrozen(C)] is
      false. *)
Lemma frozenCopy_outside_its_conditions :
  (isShallowFrozen frozen_source (VRef 0) = true ∧
   ∃ h', frozenCopy no_custom_freeze (VRef 0) frozen_source = Ret (VRef 1, h') ∧
         isShallowFrozen h' (VRef 0) = true) ∧
  (o_frozen (deref function_root 0) = false ∧
   ∃ h', frozenCopy no_custom_freeze (VRef 0) function_root = Ret (VRef 0, h') ∧
         o_frozen (deref h' 0) = true) ∧
  (∃ h', frozenCopy careless_freeze (VRef 0) careless_freezable = Ret (VRef 3, h') ∧
         isFrozen h' (VRef 3) = false ∧ o_frozen (deref h' 2) = false) ∧
  (o_frozen (deref getter_source 2) = false ∧
   ∃ h', frozenCopy no_custom_freeze (VRef 0) getter_source = Ret (VRef 3, h') ∧
         o_frozen (deref h' 2) = true) ∧
  (frozenCopy no_custom_freeze (VRef 0) proto_key_source =
     Ret (VRef 2, proto_key_source ++
                  [Obj (KCustom 3) [] true; record [data "x" (VNumber 1)] false])) ∧
  (∃ h', frozenCopy no_custom_freeze (VRef 0) with_handler = Ret (VRef 2, h') ∧
         isFrozen h' (VRef 2) = false).
Proof.
  split; [split; [reflexivity | eexists; split; reflexivity] |].
  split; [split; [reflexivity | eexists; split; reflexivity] |].
  split; [eexists; split; [reflexivity | split; reflexivity] |].
  split; [split; [reflexivity | eexists; split; reflexivity] |].
  split; [reflexivity |].
  eexists; split; reflexivity.
Qed.
